(** * MiniScript (pocketlang): values, heap objects, maps, collector and the
    single-pass compiler, embedded from [src/var.c] and [src/compiler.c]. *)

From Stdlib Require Import ZArith List String Ascii Bool Lia.
From stdpp Require Import base option list.
Import ListNotations.
Local Open Scope Z_scope.

(** ** Outcomes

    A C function either returns, or runs into undefined behaviour (a NULL
    dereference, an access outside an array), or - in the model only - runs
    out of the fuel that bounds its loops. *)

Inductive UBKind :=
| NullDeref | OutOfBounds | BadCast | NoReturn.

Inductive res (A : Type) :=
| Ok (a : A)
| UB (k : UBKind)
| OutOfFuel.
Arguments Ok {A} a.
Arguments UB {A} k.
Arguments OutOfFuel {A}.

Definition res_bind {A B} (m : res A) (f : A -> res B) : res B :=
  match m with
  | Ok a => f a
  | UB k => UB k
  | OutOfFuel => OutOfFuel
  end.

Notation "'do' x <- m ; k" := (res_bind m (fun x => k))
  (at level 10, x pattern, m at level 100, k at level 200).

Definition of_option {A} (k : UBKind) (o : option A) : res A :=
  match o with Some a => Ok a | None => UB k end.

Definition u32 (z : Z) : Z := z mod 4294967296.

(** How a round of a loop ends. *)
Inductive loop_ctl (A : Type) :=
| Break (a : A)
| Continue (a : A).
Arguments Break {A} a.
Arguments Continue {A} a.

(** ** Values

    Modelled from the spec: the encoding of [Var] lives in [var.h], which is
    not part of the sources at hand (only [typedef uint64_t Var] is, in
    [miniscript.h]).  The spec fixes the variants - null, bool, number,
    object reference, undefined - and allows an explicit tagged record, with
    the same semantics as the NaN-tagged word; that record is the model.  A
    number is carried as the 64-bit pattern of its IEEE-754 double, an object
    reference as the address of the object. *)

(** Addresses of objects. *)
Abbreviation addr := nat (only parsing).

Inductive Var :=
| VAR_NULL
| VAR_UNDEFINED
| VAR_BOOL (b : bool)
| VAR_NUM (bits : Z)
| VAR_OBJ (p : addr).

Definition VAR_TRUE := VAR_BOOL true.
Definition VAR_FALSE := VAR_BOOL false.

Definition IS_NULL (v : Var) : bool := match v with VAR_NULL => true | _ => false end.
Definition IS_UNDEF (v : Var) : bool := match v with VAR_UNDEFINED => true | _ => false end.
Definition IS_BOOL (v : Var) : bool := match v with VAR_BOOL _ => true | _ => false end.
Definition IS_TRUE (v : Var) : bool := match v with VAR_BOOL true => true | _ => false end.
Definition IS_NUM (v : Var) : bool := match v with VAR_NUM _ => true | _ => false end.

(** Equality of two words. *)
Definition Var_eqb (a b : Var) : bool :=
  match a, b with
  | VAR_NULL, VAR_NULL => true
  | VAR_UNDEFINED, VAR_UNDEFINED => true
  | VAR_BOOL x, VAR_BOOL y => Bool.eqb x y
  | VAR_NUM x, VAR_NUM y => Z.eqb x y
  | VAR_OBJ p, VAR_OBJ q => Nat.eqb p q
  | _, _ => false
  end.

(** The C comparison [==] of two doubles, on their bit patterns: a NaN
    (exponent bits all set, fraction not zero) is equal to nothing, the two
    zeros (all bits below the sign clear) are equal, otherwise the patterns
    decide. *)
Definition dbl_is_nan (x : Z) : bool :=
  Z.eqb (Z.land (Z.shiftr x 52) 2047) 2047
  && negb (Z.eqb (Z.land x 4503599627370495) 0).

Definition dbl_is_zero (x : Z) : bool := Z.eqb (Z.land x 9223372036854775807) 0.

Definition dbl_eq (x y : Z) : bool :=
  negb (dbl_is_nan x) && negb (dbl_is_nan y)
  && (Z.eqb x y || (dbl_is_zero x && dbl_is_zero y)).

(** ** Growable buffers

    Modelled from the spec: the buffer types are generated from macros that
    are not in the sources at hand.  A buffer is its [count] live elements
    and its capacity; [write-one] grows by factor 2 from a minimum capacity
    MIN_CAPACITY, for which the spec suggests 8. *)

Definition MIN_CAPACITY : Z := 8.

Record Buffer (A : Type) := mkBuffer { data : list A; capacity : Z }.
Arguments mkBuffer {A} data capacity.
Arguments data {A} b.
Arguments capacity {A} b.

Definition count {A} (b : Buffer A) : Z := Z.of_nat (length (data b)).

Definition bufferInit {A} : Buffer A := mkBuffer [] 0.

Definition grow_capacity (cap : Z) : Z :=
  if cap * 2 <? MIN_CAPACITY then MIN_CAPACITY else cap * 2.

Definition bufferWrite {A} (b : Buffer A) (x : A) : Buffer A :=
  mkBuffer (data b ++ [x])
           (if capacity b <? count b + 1 then grow_capacity (capacity b) else capacity b).

(** ** Heap objects *)

Inductive ObjectType :=
| OBJ_STRING | OBJ_LIST | OBJ_MAP | OBJ_RANGE | OBJ_SCRIPT | OBJ_FUNC | OBJ_FIBER | OBJ_USER.

Definition ObjectType_eqb (a b : ObjectType) : bool :=
  match a, b with
  | OBJ_STRING, OBJ_STRING | OBJ_LIST, OBJ_LIST | OBJ_MAP, OBJ_MAP
  | OBJ_RANGE, OBJ_RANGE | OBJ_SCRIPT, OBJ_SCRIPT | OBJ_FUNC, OBJ_FUNC
  | OBJ_FIBER, OBJ_FIBER | OBJ_USER, OBJ_USER => true
  | _, _ => false
  end.

(** [str_data] holds the [str_length] bytes; the NUL behind them is implied. *)
Record StringObj := mkString { str_hash : Z; str_length : Z; str_data : list Z }.

Record ListObj := mkList { elements : Buffer Var }.

Record MapEntry := mkEntry { key : Var; value : Var }.

Record Map := mkMap { map_capacity : Z; map_count : Z; entries : list MapEntry }.

Record Range := mkRange { from : Z; to : Z }.

Record Script := mkScript {
  script_name : option addr;
  globals : Buffer Var;
  global_names : Buffer addr;
  literals : Buffer Var;
  functions : Buffer addr;
  function_names : Buffer addr;
  names : Buffer addr;
  body : option addr
}.

Record Fn := mkFn { opcodes : Buffer Z; oplines : Buffer Z; fn_stack_size : Z }.

(** A [const char*]: a C string of the caller, or the [data] of a String. *)
Inductive CharPtr :=
| CStr (text : list Z)
| DataOf (s : addr).

Record Function := mkFunction {
  func_name : CharPtr;
  owner : option addr;
  arity : option Z;
  is_native : bool;
  fn : option Fn
}.

Record CallFrame := mkFrame { frame_fn : addr }.

Record Fiber := mkFiber {
  fiber_func : option addr;
  stack : list Var;
  sp : nat;
  fiber_stack_size : Z;
  frames : list CallFrame;
  frame_count : Z;
  frame_capacity : Z;
  fiber_error : option addr
}.

Inductive ObjectBody :=
| BString (s : StringObj)
| BList (l : ListObj)
| BMap (m : Map)
| BRange (r : Range)
| BScript (s : Script)
| BFunc (f : Function)
| BFiber (f : Fiber)
| BUser.

Definition type_of (b : ObjectBody) : ObjectType :=
  match b with
  | BString _ => OBJ_STRING | BList _ => OBJ_LIST | BMap _ => OBJ_MAP
  | BRange _ => OBJ_RANGE | BScript _ => OBJ_SCRIPT | BFunc _ => OBJ_FUNC
  | BFiber _ => OBJ_FIBER | BUser => OBJ_USER
  end.

Record Object := mkObject { is_marked : bool; obj_body : ObjectBody }.

(** The heap: the objects in the order of their allocation, an object's
    address being its position.  The [next] links of the all-objects list run
    through it backwards. *)
Abbreviation Heap := (list Object) (only parsing).

Definition deref (h : Heap) (p : addr) : res ObjectBody :=
  of_option NullDeref (obj_body <$> h !! p).

(** ** [isValuesSame], [isValuesEqual] *)

Definition isValuesSame (v1 v2 : Var) : bool := Var_eqb v1 v2.

Fixpoint bytes_eqb (a b : list Z) : bool :=
  match a, b with
  | [], [] => true
  | x :: a', y :: b' => Z.eqb x y && bytes_eqb a' b'
  | _, _ => false
  end.

(** [memcmp(a, b, n) == 0] *)
Definition memcmp_eq (a b : list Z) (n : Z) : bool :=
  bytes_eqb (take (Z.to_nat n) a) (take (Z.to_nat n) b).

Definition isValuesEqual (h : Heap) (v1 v2 : Var) : res bool :=
  if isValuesSame v1 v2 then Ok true
  else
    match v1, v2 with
    | VAR_OBJ p1, VAR_OBJ p2 =>
        do o1 <- deref h p1;
        do o2 <- deref h p2;
        if negb (ObjectType_eqb (type_of o1) (type_of o2)) then Ok false
        else
          match o1, o2 with
          | BRange r1, BRange r2 =>
              Ok (dbl_eq (from r1) (from r2) && dbl_eq (to r1) (to r2))
          | BString s1, BString s2 =>
              Ok (Z.eqb (str_hash s1) (str_hash s2)
                  && Z.eqb (str_length s1) (str_length s2)
                  && memcmp_eq (str_data s1) (str_data s2) (str_length s1))
          | _, _ => Ok false
          end
    | _, _ => Ok false
    end.

(** ** What the platform supplies

    The opcode table of [opcodes.h], the hash functions of [utils.c],
    [strtod] of the C library and the sizes of the C types are not in the
    sources at hand; the code is modelled over any choice of them. *)

Inductive CType :=
| T_String | T_char | T_List | T_Var | T_Map | T_MapEntry | T_Range | T_Script
| T_NameElem | T_FunctionPtr | T_StringPtr | T_Function | T_uint8 | T_int
| T_Fiber | T_CallFrame.

(** The opcodes the compiler emits.  Their numbers and the stack effect of
    each come from [opcodes.h], which is not at hand. *)
Inductive Opcode :=
| OP_CONSTANT | OP_PUSH_NULL | OP_POP | OP_JUMP | OP_JUMP_IF_NOT | OP_RETURN
| OP_ADD | OP_SUBTRACT | OP_MULTIPLY | OP_DIVIDE | OP_MOD | OP_RANGE
| OP_BIT_AND | OP_BIT_OR | OP_BIT_XOR | OP_BIT_LSHIFT | OP_BIT_RSHIFT
| OP_GT | OP_LT | OP_EQEQ | OP_NOTEQ | OP_GTEQ | OP_LTEQ | OP_IS | OP_IN
| OP_AND | OP_OR | OP_NEGATIVE | OP_NOT | OP_BIT_NOT.

Class Platform := mkPlatform {
  (** the number of an opcode, [(int)opcode] *)
  opcode_code : Opcode -> Z;
  (** [opcode_info[opcode].stack] *)
  opcode_stack : Opcode -> Z;
  (** hash of the 64-bit word of a value that is not an object *)
  utilHashBits : Var -> Z;
  (** hash of a double, given by its bit pattern *)
  utilHashNumber : Z -> Z;
  (** hash of a C string *)
  utilHashString : list Z -> Z;
  (** [strtod] on the text at a pointer: the double's bit pattern, and
      whether [errno] was set to ERANGE *)
  strtod : list ascii -> Z * bool;
  sizeof : CType -> Z
}.

(** [for (i = 0; i < n; i++) body] over a state that may fail. *)
Fixpoint for_loop {S : Type} (n : nat) (body : nat -> S -> res S) (i : nat) (s : S) : res S :=
  match n with
  | O => Ok s
  | Datatypes.S n' => do s' <- body i s; for_loop n' body (Datatypes.S i) s'
  end.

Section WithPlatform.
Context {P : Platform}.

(** ** Maps *)

Definition MAP_LOAD_PERCENT : Z := 75.
Definition GROW_FACTOR : Z := 2.

Definition newMap : Map := mkMap 0 0 [].

Definition _hashObject (h : Heap) (p : addr) : res Z :=
  do o <- deref h p;
  match o with
  | BString s => Ok (str_hash s)
  | BRange r => Ok (Z.lxor (utilHashNumber (from r)) (utilHashNumber (to r)))
  | _ => UB NoReturn
  end.

Definition _hashVar (h : Heap) (v : Var) : res Z :=
  match v with
  | VAR_OBJ p => _hashObject h p
  | _ => Ok (utilHashBits v)
  end.

(** The [do ... while (index != start_index)] loop of [_mapFindEntry]; the
    result is the return value and the entry [*result] points to, as an
    index into [entries] (None: the pointer is NULL or was never set). *)
Fixpoint _mapFindEntry_loop (fuel : nat) (h : Heap) (self : Map) (k : Var)
    (start_index index : Z) (tombstone : option nat) : res (bool * option nat) :=
  match fuel with
  | O => OutOfFuel
  | S fuel' =>
      let i := Z.to_nat index in
      do entry <- of_option OutOfBounds (entries self !! i);
      let continue (tombstone : option nat) :=
        let index' := u32 (index + 1) mod map_capacity self in
        if index' =? start_index then Ok (false, tombstone)
        else _mapFindEntry_loop fuel' h self k start_index index' tombstone in
      if IS_UNDEF (key entry) then
        if IS_TRUE (value entry) then
          continue (match tombstone with None => Some i | Some _ => tombstone end)
        else
          Ok (false, Some (match tombstone with Some t => t | None => i end))
      else
        do eq <- isValuesEqual h (key entry) k;
        if eq then Ok (true, Some i) else continue tombstone
  end.

Definition _mapFindEntry (h : Heap) (self : Map) (k : Var) : res (bool * option nat) :=
  if map_capacity self =? 0 then Ok (false, None)
  else
    do hash <- _hashVar h k;
    let start_index := u32 hash mod map_capacity self in
    _mapFindEntry_loop (Z.to_nat (map_capacity self)) h self k start_index start_index None.

Definition set_entries (self : Map) (es : list MapEntry) : Map :=
  mkMap (map_capacity self) (map_count self) es.

Definition set_count (self : Map) (c : Z) : Map :=
  mkMap (map_capacity self) c (entries self).

Definition _mapInsertEntry (h : Heap) (self : Map) (k v : Var) : res (Map * bool) :=
  do (found, result) <- _mapFindEntry h self k;
  do i <- of_option NullDeref result;
  do entry <- of_option OutOfBounds (entries self !! i);
  if found : bool then
    Ok (set_entries self (<[i := mkEntry (key entry) v]> (entries self)), false)
  else
    Ok (set_entries self (<[i := mkEntry k v]> (entries self)), true).

(** [mem] is what the block handed out by the allocator holds, slot by slot:
    [ALLOCATE_ARRAY] does not clear it. *)
Definition ALLOCATE_ARRAY {A} (mem : nat -> A) (n : Z) : list A :=
  map mem (seq 0 (Z.to_nat n)).

Definition _mapResize (mem : nat -> MapEntry) (h : Heap) (self : Map) (capacity : Z)
    : res Map :=
  let old_entries := entries self in
  let old_capacity := map_capacity self in
  let fresh := ALLOCATE_ARRAY mem capacity in
  (* for (i < capacity) { self->entries->key = ...; self->entries->value = ...; } *)
  let cleared :=
    fold_left (fun es (_ : nat) => <[0%nat := mkEntry VAR_UNDEFINED VAR_FALSE]> es)
              (seq 0 (Z.to_nat capacity)) fresh in
  let self := mkMap capacity (map_count self) cleared in
  for_loop (Z.to_nat old_capacity)
    (fun i self =>
       do old <- of_option OutOfBounds (old_entries !! i);
       if IS_UNDEF (key old) then Ok self
       else do (self', _) <- _mapInsertEntry h self (key old) (value old); Ok self')
    0%nat self.

Definition mapGet (h : Heap) (self : Map) (k : Var) : res Var :=
  do (found, result) <- _mapFindEntry h self k;
  if found : bool then
    do i <- of_option NullDeref result;
    do entry <- of_option OutOfBounds (entries self !! i);
    Ok (value entry)
  else Ok VAR_UNDEFINED.

Definition mapSet (mem : nat -> MapEntry) (h : Heap) (self : Map) (k v : Var) : res Map :=
  do self <-
    (if u32 (map_count self + 1) >? u32 (map_capacity self * MAP_LOAD_PERCENT) / 100 then
       let capacity := u32 (map_capacity self * GROW_FACTOR) in
       let capacity := if capacity <? MIN_CAPACITY then MIN_CAPACITY else capacity in
       _mapResize mem h self capacity
     else Ok self);
  do (self, added) <- _mapInsertEntry h self k v;
  if added : bool then Ok (set_count self (u32 (map_count self + 1))) else Ok self.

Definition mapClear (self : Map) : Map := mkMap 0 0 [].

Definition mapRemoveKey (mem : nat -> MapEntry) (h : Heap) (self : Map) (k : Var)
    : res (Map * Var) :=
  do (found, result) <- _mapFindEntry h self k;
  if negb found then Ok (self, VAR_NULL)
  else
    do i <- of_option NullDeref result;
    do entry <- of_option OutOfBounds (entries self !! i);
    let v := value entry in
    let self := set_entries self (<[i := mkEntry VAR_UNDEFINED VAR_TRUE]> (entries self)) in
    let self := set_count self (u32 (map_count self - 1)) in
    if map_count self =? 0 then Ok (mapClear self, v)
    else if (map_capacity self >? MIN_CAPACITY)
            && (map_capacity self / GROW_FACTOR
                >? u32 (map_count self / MAP_LOAD_PERCENT * 100)) then
      let capacity := map_capacity self / GROW_FACTOR in
      let capacity := if capacity <? MIN_CAPACITY then MIN_CAPACITY else capacity in
      do self <- _mapResize mem h self capacity;
      Ok (self, v)
    else Ok (self, v).

End WithPlatform.

(** ** The collector: graying and blackening *)

Record MSVM := mkVM {
  heap : Heap;
  gray_list : list addr;
  gray_list_capacity : Z;
  bytes_allocated : Z
}.

Definition set_marked (h : Heap) (p : addr) : Heap :=
  match h !! p with
  | Some o => <[p := mkObject true (obj_body o)]> h
  | None => h
  end.

(** [self] is an [Object*]; None is NULL. *)
Definition grayObject (self : option addr) (vm : MSVM) : res MSVM :=
  match self with
  | None => Ok vm
  | Some p =>
      do o <- of_option NullDeref (heap vm !! p);
      if is_marked o then Ok vm
      else
        let h := set_marked (heap vm) p in
        let n := Z.of_nat (length (gray_list vm)) in
        let cap := if n >=? gray_list_capacity vm then gray_list_capacity vm * 2
                   else gray_list_capacity vm in
        if n <? cap then
          Ok (mkVM h (gray_list vm ++ [p]) cap (bytes_allocated vm))
        else UB OutOfBounds
  end.

Definition grayValue (self : Var) (vm : MSVM) : res MSVM :=
  match self with
  | VAR_OBJ p => grayObject (Some p) vm
  | _ => Ok vm
  end.

Fixpoint grayEach {A} (f : A -> MSVM -> res MSVM) (l : list A) (vm : MSVM) : res MSVM :=
  match l with
  | [] => Ok vm
  | x :: l' => do vm' <- f x vm; grayEach f l' vm'
  end.

Definition grayVarBuffer (self : Buffer Var) (vm : MSVM) : res MSVM :=
  grayEach grayValue (data self) vm.

Definition grayStringBuffer (self : Buffer addr) (vm : MSVM) : res MSVM :=
  grayEach (fun p => grayObject (Some p)) (data self) vm.

Definition grayFunctionBuffer (self : Buffer addr) (vm : MSVM) : res MSVM :=
  grayEach (fun p => grayObject (Some p)) (data self) vm.

Definition grayNameTable (self : Buffer addr) (vm : MSVM) : res MSVM :=
  grayEach (fun p => grayObject (Some p)) (data self) vm.

Definition add_bytes (n : Z) (vm : MSVM) : MSVM :=
  mkVM (heap vm) (gray_list vm) (gray_list_capacity vm) (bytes_allocated vm + n).

(** [(Object* )v] for a Var [v], as [blackenObject] writes it for the key and
    the value of a map entry: the 64-bit word is taken for a pointer.  The
    word of the number +0 is 0, the NULL pointer.  Every other word carries
    the bits of a tag or of a double (an object value has its address under
    the sign and the quiet-NaN bits), so the pointer is the address of no
    Object, and [grayObject], which reads [is_marked] through it, has no
    defined behaviour. *)
Definition cast_Object (v : Var) : res (option addr) :=
  match v with
  | VAR_NUM 0 => Ok None
  | _ => UB BadCast
  end.

Section WithPlatform.
Context {P : Platform}.

Definition blackenObject (obj : addr) (vm : MSVM) : res MSVM :=
  do o <- deref (heap vm) obj;
  match o with
  | BString s =>
      Ok (add_bytes (str_length s + 1) (add_bytes (sizeof T_String) vm))
  | BList list =>
      do vm <- grayVarBuffer (elements list) vm;
      Ok (add_bytes (sizeof T_Var * capacity (elements list)) (add_bytes (sizeof T_List) vm))
  | BMap map =>
      do vm <- for_loop (Z.to_nat (map_count map))
        (fun i vm =>
           do e <- of_option OutOfBounds (entries map !! i);
           if IS_UNDEF (key e) then Ok vm
           else
             do k <- cast_Object (key e);
             do vm <- grayObject k vm;
             do v <- cast_Object (value e);
             grayObject v vm)
        0%nat vm;
      Ok (add_bytes (sizeof T_MapEntry * map_capacity map) (add_bytes (sizeof T_Map) vm))
  | BRange _ => Ok (add_bytes (sizeof T_Range) vm)
  | BScript script =>
      let vm := add_bytes (sizeof T_Script) vm in
      do vm <- grayVarBuffer (globals script) vm;
      let vm := add_bytes (sizeof T_Var * capacity (globals script)) vm in
      do vm <- grayNameTable (global_names script) vm;
      let vm := add_bytes (sizeof T_NameElem * capacity (global_names script)) vm in
      do vm <- grayVarBuffer (literals script) vm;
      let vm := add_bytes (sizeof T_Var * capacity (literals script)) vm in
      do vm <- grayFunctionBuffer (functions script) vm;
      let vm := add_bytes (sizeof T_FunctionPtr * capacity (functions script)) vm in
      do vm <- grayNameTable (function_names script) vm;
      let vm := add_bytes (sizeof T_NameElem * capacity (function_names script)) vm in
      do vm <- grayStringBuffer (names script) vm;
      let vm := add_bytes (sizeof T_StringPtr * capacity (names script)) vm in
      grayObject (body script) vm
  | BFunc func =>
      let vm := add_bytes (sizeof T_Function) vm in
      do vm <- grayObject (owner func) vm;
      if is_native func then Ok vm
      else
        do f <- of_option NullDeref (fn func);
        Ok (add_bytes (sizeof T_int * capacity (oplines f))
              (add_bytes (sizeof T_uint8 * capacity (opcodes f)) vm))
  | BFiber fiber =>
      let vm := add_bytes (sizeof T_Fiber) vm in
      do vm <- grayObject (fiber_func fiber) vm;
      do vm <- grayEach grayValue (take (sp fiber) (stack fiber)) vm;
      let vm := add_bytes (sizeof T_Var * fiber_stack_size fiber) vm in
      do vm <- for_loop (Z.to_nat (frame_count fiber))
        (fun i vm =>
           do fr <- of_option OutOfBounds (frames fiber !! i);
           do vm <- grayObject (Some (frame_fn fr)) vm;
           do f <- deref (heap vm) (frame_fn fr);
           match f with
           | BFunc f => grayObject (owner f) vm
           | _ => UB BadCast
           end)
        0%nat vm;
      let vm := add_bytes (sizeof T_CallFrame * frame_capacity fiber) vm in
      grayObject (fiber_error fiber) vm
  | BUser => Ok vm
  end.

(** [blackenObjects]: pop gray objects until the list is empty.  Every pop
    may push again, so the loop is bounded by fuel. *)
Fixpoint blackenObjects (fuel : nat) (vm : MSVM) : res MSVM :=
  match fuel with
  | O => OutOfFuel
  | S fuel' =>
      match List.rev (gray_list vm) with
      | [] => Ok vm
      | gray :: rest =>
          do vm' <- blackenObject gray
                      (mkVM (heap vm) (List.rev rest) (gray_list_capacity vm)
                            (bytes_allocated vm));
          blackenObjects fuel' vm'
      end
  end.

End WithPlatform.

(** * The compiler ([src/compiler.c]) *)

Definition MAX_VARIABLES : Z := 256.
Definition MAX_CONSTANTS : Z := Z.shiftl 1 16.
Definition MAX_JUMP : Z := Z.shiftl 1 16.
Definition MAX_BREAK_PATCH : Z := 256.

Inductive TokenType :=
| TK_ERROR | TK_EOF | TK_LINE
| TK_DOT | TK_DOTDOT | TK_COMMA | TK_COLLON | TK_SEMICOLLON | TK_HASH
| TK_LPARAN | TK_RPARAN | TK_LBRACKET | TK_RBRACKET | TK_LBRACE | TK_RBRACE
| TK_PERCENT
| TK_TILD | TK_AMP | TK_PIPE | TK_CARET
| TK_PLUS | TK_MINUS | TK_STAR | TK_FSLASH | TK_BSLASH | TK_EQ | TK_GT | TK_LT
| TK_EQEQ | TK_NOTEQ | TK_GTEQ | TK_LTEQ
| TK_PLUSEQ | TK_MINUSEQ | TK_STAREQ | TK_DIVEQ | TK_SRIGHT | TK_SLEFT
| TK_IMPORT | TK_ENUM | TK_DEF | TK_NATIVE | TK_END
| TK_NULL | TK_SELF | TK_IS | TK_IN | TK_AND | TK_OR | TK_NOT | TK_TRUE | TK_FALSE
| TK_BOOL_T | TK_NUM_T | TK_STRING_T | TK_ARRAY_T | TK_MAP_T | TK_RANGE_T
| TK_FUNC_T | TK_OBJ_T
| TK_DO | TK_WHILE | TK_FOR | TK_IF | TK_ELIF | TK_ELSE | TK_BREAK | TK_CONTINUE
| TK_RETURN
| TK_NAME
| TK_NUMBER | TK_STRING.

Scheme Equality for TokenType.

Record Token := mkToken {
  tk_type : TokenType;
  tk_start : option nat;   (* a position in the source; None is NULL *)
  tk_length : Z;
  tk_line : Z;
  tk_value : Var
}.

Definition _keywords : list (string * TokenType) :=
  [ ("import"%string, TK_IMPORT); ("enum"%string, TK_ENUM); ("def"%string, TK_DEF);
    ("native"%string, TK_NATIVE); ("end"%string, TK_END); ("null"%string, TK_NULL);
    ("self"%string, TK_SELF); ("is"%string, TK_IS); ("in"%string, TK_IN); ("and"%string, TK_AND);
    ("or"%string, TK_OR); ("not"%string, TK_NOT); ("true"%string, TK_TRUE); ("false"%string, TK_FALSE);
    ("do"%string, TK_DO); ("while"%string, TK_WHILE); ("for"%string, TK_FOR); ("if"%string, TK_IF);
    ("elif"%string, TK_ELIF); ("else"%string, TK_ELSE); ("break"%string, TK_BREAK);
    ("continue"%string, TK_CONTINUE); ("return"%string, TK_RETURN);
    ("Bool"%string, TK_BOOL_T); ("Num"%string, TK_NUM_T); ("String"%string, TK_STRING_T);
    ("Array"%string, TK_ARRAY_T); ("Map"%string, TK_MAP_T); ("Range"%string, TK_RANGE_T);
    ("Object"%string, TK_OBJ_T); ("Function"%string, TK_FUNC_T) ].

(** [reported] lists the calls of [reportError] (line and format string), in
    order: the function itself only raises the flag, handing the message to
    the host is still to be written there. *)
Record Parser := mkParser {
  vm : MSVM;
  source : list ascii;
  path : string;
  token_start : nat;
  current_char : nat;
  current_line : Z;
  previous : Token;
  current : Token;
  next : Token;
  has_errors : bool;
  reported : list (Z * string)
}.

Inductive Precedence :=
| PREC_NONE | PREC_LOWEST | PREC_ASSIGNMENT | PREC_LOGICAL_OR | PREC_LOGICAL_AND
| PREC_LOGICAL_NOT | PREC_EQUALITY | PREC_IN | PREC_IS | PREC_COMPARISION
| PREC_BITWISE_OR | PREC_BITWISE_XOR | PREC_BITWISE_AND | PREC_BITWISE_SHIFT
| PREC_RANGE | PREC_TERM | PREC_FACTOR | PREC_UNARY | PREC_CALL | PREC_SUBSCRIPT
| PREC_ATTRIB | PREC_PRIMARY.

(** The enumerator's integer value. *)
Definition prec_val (p : Precedence) : Z :=
  match p with
  | PREC_NONE => 0 | PREC_LOWEST => 1 | PREC_ASSIGNMENT => 2 | PREC_LOGICAL_OR => 3
  | PREC_LOGICAL_AND => 4 | PREC_LOGICAL_NOT => 5 | PREC_EQUALITY => 6 | PREC_IN => 7
  | PREC_IS => 8 | PREC_COMPARISION => 9 | PREC_BITWISE_OR => 10
  | PREC_BITWISE_XOR => 11 | PREC_BITWISE_AND => 12 | PREC_BITWISE_SHIFT => 13
  | PREC_RANGE => 14 | PREC_TERM => 15 | PREC_FACTOR => 16 | PREC_UNARY => 17
  | PREC_CALL => 18 | PREC_SUBSCRIPT => 19 | PREC_ATTRIB => 20 | PREC_PRIMARY => 21
  end.

(** The grammar functions a rule can point to. *)
Inductive GrammarFn :=
| exprAssignment | exprLiteral | exprName | exprBinaryOp | exprUnaryOp
| exprGrouping | exprArray | exprMap | exprCall | exprAttrib | exprSubscript.

Record GrammarRule := mkRule {
  prefix : option GrammarFn;
  infix : option GrammarFn;
  precedence : Precedence
}.

Definition NO_RULE := mkRule None None PREC_NONE.
Definition NO_INFIX := PREC_NONE.

Definition getRule (t : TokenType) : GrammarRule :=
  match t with
  | TK_ERROR | TK_EOF | TK_LINE => NO_RULE
  | TK_DOT => mkRule (Some exprAttrib) None PREC_ATTRIB
  | TK_DOTDOT => mkRule None (Some exprBinaryOp) PREC_RANGE
  | TK_COMMA | TK_COLLON | TK_SEMICOLLON | TK_HASH => NO_RULE
  | TK_LPARAN => mkRule (Some exprGrouping) (Some exprCall) PREC_CALL
  | TK_RPARAN => NO_RULE
  | TK_LBRACKET => mkRule (Some exprArray) (Some exprSubscript) PREC_SUBSCRIPT
  | TK_RBRACKET => NO_RULE
  | TK_LBRACE => mkRule (Some exprMap) None NO_INFIX
  | TK_RBRACE => NO_RULE
  | TK_PERCENT => mkRule None (Some exprBinaryOp) PREC_FACTOR
  | TK_TILD => mkRule (Some exprUnaryOp) None NO_INFIX
  | TK_AMP => mkRule None (Some exprBinaryOp) PREC_BITWISE_AND
  | TK_PIPE => mkRule None (Some exprBinaryOp) PREC_BITWISE_OR
  | TK_CARET => mkRule None (Some exprBinaryOp) PREC_BITWISE_XOR
  | TK_PLUS => mkRule None (Some exprBinaryOp) PREC_TERM
  | TK_MINUS => mkRule (Some exprUnaryOp) (Some exprBinaryOp) PREC_TERM
  | TK_STAR => mkRule None (Some exprBinaryOp) PREC_FACTOR
  | TK_FSLASH => mkRule None (Some exprBinaryOp) PREC_FACTOR
  | TK_BSLASH => NO_RULE
  | TK_EQ => mkRule None (Some exprAssignment) PREC_ASSIGNMENT
  | TK_GT => mkRule None (Some exprBinaryOp) PREC_COMPARISION
  | TK_LT => mkRule None (Some exprBinaryOp) PREC_COMPARISION
  | TK_EQEQ => mkRule None (Some exprBinaryOp) PREC_EQUALITY
  | TK_NOTEQ => mkRule None (Some exprBinaryOp) PREC_EQUALITY
  | TK_GTEQ => mkRule None (Some exprBinaryOp) PREC_COMPARISION
  | TK_LTEQ => mkRule None (Some exprBinaryOp) PREC_COMPARISION
  | TK_PLUSEQ | TK_MINUSEQ | TK_STAREQ | TK_DIVEQ =>
      mkRule None (Some exprAssignment) PREC_ASSIGNMENT
  | TK_SRIGHT | TK_SLEFT => mkRule None (Some exprBinaryOp) PREC_BITWISE_SHIFT
  | TK_IMPORT | TK_ENUM | TK_DEF | TK_NATIVE | TK_END | TK_NULL | TK_SELF => NO_RULE
  | TK_IS => mkRule None (Some exprBinaryOp) PREC_IS
  | TK_IN => mkRule None (Some exprBinaryOp) PREC_IN
  | TK_AND => mkRule None (Some exprBinaryOp) PREC_LOGICAL_AND
  | TK_OR => mkRule None (Some exprBinaryOp) PREC_LOGICAL_OR
  | TK_NOT => mkRule (Some exprUnaryOp) None PREC_LOGICAL_NOT
  | TK_TRUE | TK_FALSE | TK_BOOL_T | TK_NUM_T | TK_STRING_T | TK_ARRAY_T
  | TK_MAP_T | TK_RANGE_T | TK_FUNC_T | TK_OBJ_T =>
      mkRule (Some exprLiteral) None NO_INFIX
  | TK_DO | TK_WHILE | TK_FOR | TK_IF | TK_ELIF | TK_ELSE | TK_BREAK
  | TK_CONTINUE | TK_RETURN => NO_RULE
  | TK_NAME => mkRule (Some exprName) None NO_INFIX
  | TK_NUMBER | TK_STRING => mkRule (Some exprLiteral) None NO_INFIX
  end.

(** ** Characters and C strings *)

Definition NUL : ascii := "000"%char.
Definition DQUOTE : ascii := "034"%char.
Definition NEWLINE : ascii := "010"%char.

Definition byte_of (c : ascii) : Z := Z.of_nat (nat_of_ascii c).

(** Modelled from the spec: [utilIsName] and [utilIsDigit] are in [utils.c],
    which is not at hand; identifiers are [[A-Za-z_][A-Za-z_0-9]*]. *)
Definition utilIsDigit (c : ascii) : bool :=
  (48 <=? byte_of c) && (byte_of c <=? 57).

Definition utilIsName (c : ascii) : bool :=
  ((65 <=? byte_of c) && (byte_of c <=? 90))
  || ((97 <=? byte_of c) && (byte_of c <=? 122))
  || Ascii.eqb c "_"%char.

(** [strncmp(a, b, n) == 0]; a list that ends stands for a string that ends
    there, with its NUL. *)
Fixpoint strncmp_eq (n : nat) (a b : list ascii) : bool :=
  match n with
  | O => true
  | S n' =>
      let ca := hd NUL a in
      let cb := hd NUL b in
      if negb (Ascii.eqb ca cb) then false
      else if Ascii.eqb ca NUL then true
      else strncmp_eq n' (tl a) (tl b)
  end.

(** The bytes of a C string: those before the first NUL. *)
Fixpoint c_str (bytes : list Z) : list Z :=
  match bytes with
  | [] => []
  | b :: rest => if b =? 0 then [] else b :: c_str rest
  end.

(** ** Allocation of objects *)

(** [ALLOCATE] and [varInitObject]: the new object goes to the head of the
    VM's list of objects, unmarked.  Its address is returned. *)
Definition allocObject (body : ObjectBody) (v : MSVM) : addr * MSVM :=
  (length (heap v),
   mkVM (heap v ++ [mkObject false body]) (gray_list v) (gray_list_capacity v)
        (bytes_allocated v)).

(** Overwrite the fields of the object at [p], keeping its header. *)
Definition storeObject (p : addr) (body : ObjectBody) (v : MSVM) : MSVM :=
  match heap v !! p with
  | Some o =>
      mkVM (<[p := mkObject (is_marked o) body]> (heap v)) (gray_list v)
           (gray_list_capacity v) (bytes_allocated v)
  | None => v
  end.

Section WithPlatform.
Context {P : Platform}.

Definition newString (v : MSVM) (text : list Z) (length : Z) : addr * MSVM :=
  let bytes := take (Z.to_nat length) text in
  allocObject (BString (mkString (utilHashString (c_str bytes)) (u32 length) bytes)) v.

(** ** Error handlers *)

Definition set_vm (p : Parser) (v : MSVM) : Parser :=
  mkParser v (source p) (path p) (token_start p) (current_char p) (current_line p)
           (previous p) (current p) (next p) (has_errors p) (reported p).

Definition set_position (p : Parser) (pos : nat) (line : Z) : Parser :=
  mkParser (vm p) (source p) (path p) (token_start p) pos line
           (previous p) (current p) (next p) (has_errors p) (reported p).

Definition set_token_start (p : Parser) (pos : nat) : Parser :=
  mkParser (vm p) (source p) (path p) pos (current_char p) (current_line p)
           (previous p) (current p) (next p) (has_errors p) (reported p).

Definition set_tokens (p : Parser) (prev cur nxt : Token) : Parser :=
  mkParser (vm p) (source p) (path p) (token_start p) (current_char p) (current_line p)
           prev cur nxt (has_errors p) (reported p).

Definition set_next (p : Parser) (nxt : Token) : Parser :=
  set_tokens p (previous p) (current p) nxt.

Definition reportError (p : Parser) (file : string) (line : Z) (fmt : string) : Parser :=
  mkParser (vm p) (source p) (path p) (token_start p) (current_char p) (current_line p)
           (previous p) (current p) (next p) true (reported p ++ [(line, fmt)]).

Definition lexError (p : Parser) (fmt : string) : Parser :=
  reportError p (path p) (current_line p) fmt.

Definition parseError (p : Parser) (fmt : string) : Parser :=
  let token := previous p in
  if TokenType_beq (tk_type token) TK_ERROR then p
  else reportError p (path p) (tk_line token) fmt.

(** ** Lexing *)

(** [*ptr] for a pointer into the source text, which ends with a NUL. *)
Definition char_at (p : Parser) (pos : nat) : res ascii :=
  match source p !! pos with
  | Some c => Ok c
  | None => if Nat.eqb pos (length (source p)) then Ok NUL else UB OutOfBounds
  end.

Definition peekChar (p : Parser) : res ascii := char_at p (current_char p).

Definition peekNextChar (p : Parser) : res ascii :=
  do c <- peekChar p;
  if Ascii.eqb c NUL then Ok NUL else char_at p (S (current_char p)).

Definition eatChar (p : Parser) : res (ascii * Parser) :=
  do c <- peekChar p;
  Ok (c, set_position p (S (current_char p))
           (if Ascii.eqb c NEWLINE then current_line p + 1 else current_line p)).

Definition setNextToken (p : Parser) (type : TokenType) : Parser :=
  set_next p
    (mkToken type (Some (token_start p))
             (Z.of_nat (current_char p) - Z.of_nat (token_start p))
             (current_line p - (if TokenType_beq type TK_LINE then 1 else 0))
             (tk_value (next p))).

Definition setNextValueToken (p : Parser) (type : TokenType) (v : Var) : Parser :=
  let p := setNextToken p type in
  set_next p (mkToken (tk_type (next p)) (tk_start (next p)) (tk_length (next p))
                      (tk_line (next p)) v).

Definition matchChar (p : Parser) (c : ascii) : res (bool * Parser) :=
  do c' <- peekChar p;
  if negb (Ascii.eqb c' c) then Ok (false, p)
  else do (_, p) <- eatChar p; Ok (true, p).

Definition setNextTwoCharToken (p : Parser) (c : ascii) (one two : TokenType)
    : res Parser :=
  do (m, p) <- matchChar p c;
  if m : bool then Ok (setNextToken p two) else Ok (setNextToken p one).

(** What is left of the source from [current_char] on, and one more: enough
    fuel for any loop that eats a character per round. *)
Definition chars_left (p : Parser) : nat :=
  S (S (length (source p) - current_char p)).

(** One round of the [while (true)] loop of [eatString]. *)
Definition eatString_round (p : Parser) (buff : Buffer Z)
    : res (loop_ctl (Parser * Buffer Z)) :=
  do (c, p) <- eatChar p;
  if Ascii.eqb c DQUOTE then Ok (Break (p, buff))
  else if Ascii.eqb c NUL then
    let p := lexError p "Non terminated string."%string in
    Ok (Break (set_position p (Nat.pred (current_char p)) (current_line p), buff))
  else if Ascii.eqb c "\"%char then
    do (e, p) <- eatChar p;
    if Ascii.eqb e DQUOTE then Ok (Continue (p, bufferWrite buff (byte_of DQUOTE)))
    else if Ascii.eqb e "\"%char then Ok (Continue (p, bufferWrite buff (byte_of "\"%char)))
    else if Ascii.eqb e "n"%char then Ok (Continue (p, bufferWrite buff 10))
    else if Ascii.eqb e "r"%char then Ok (Continue (p, bufferWrite buff 13))
    else if Ascii.eqb e "t"%char then Ok (Continue (p, bufferWrite buff 9))
    else Ok (Continue (lexError p "Error: invalid escape character"%string, buff))
  else Ok (Continue (p, bufferWrite buff (byte_of c))).

Fixpoint eatString_loop (fuel : nat) (p : Parser) (buff : Buffer Z)
    : res (Parser * Buffer Z) :=
  match fuel with
  | O => OutOfFuel
  | S fuel' =>
      do r <- eatString_round p buff;
      match r with
      | Break s => Ok s
      | Continue (p, buff) => eatString_loop fuel' p buff
      end
  end.

Definition eatString (p : Parser) : res Parser :=
  do (p, buff) <- eatString_loop (chars_left p) p bufferInit;
  let (s, v) := newString (vm p) (data buff) (count buff) in
  Ok (setNextValueToken (set_vm p v) TK_STRING (VAR_OBJ s)).

End WithPlatform.

Section WithPlatform.
Context {P : Platform}.

(** [while (cond(peekChar(parser))) eatChar(parser);] *)
Fixpoint eatWhile (fuel : nat) (cond : ascii -> bool) (p : Parser) : res Parser :=
  match fuel with
  | O => OutOfFuel
  | S fuel' =>
      do c <- peekChar p;
      if cond c then do (_, p) <- eatChar p; eatWhile fuel' cond p
      else Ok p
  end.

Fixpoint lookup_keyword (kws : list (string * TokenType)) (name : list ascii)
    (length : nat) : option TokenType :=
  match kws with
  | [] => None
  | (identifier, tk) :: kws' =>
      if Nat.eqb (String.length identifier) length
         && strncmp_eq length name (list_ascii_of_string identifier)
      then Some tk
      else lookup_keyword kws' name length
  end.

Definition eatName (p : Parser) : res Parser :=
  do p <- eatWhile (chars_left p) (fun c => utilIsName c || utilIsDigit c) p;
  let name_start := token_start p in
  let length := (current_char p - name_start)%nat in
  let type :=
    match lookup_keyword _keywords (drop name_start (source p)) length with
    | Some tk => tk
    | None => TK_NAME
    end in
  Ok (setNextToken p type).

Definition eatNumber (p : Parser) : res Parser :=
  do p <- eatWhile (chars_left p) utilIsDigit p;
  do (dot, p) <- matchChar p "."%char;
  do p <- (if dot : bool then eatWhile (chars_left p) utilIsDigit p else Ok p);
  let (bits, erange) := strtod (drop (token_start p) (source p)) in
  if erange : bool then
    let p := lexError p "Literal is too large (%.*s)"%string in
    Ok (setNextValueToken p TK_NUMBER (VAR_NUM 0))
  else Ok (setNextValueToken p TK_NUMBER (VAR_NUM bits)).

Fixpoint skipLineComment_loop (fuel : nat) (c : ascii) (p : Parser) : res Parser :=
  match fuel with
  | O => OutOfFuel
  | S fuel' =>
      if negb (Ascii.eqb c NEWLINE) && negb (Ascii.eqb c NUL) then
        do (c, p) <- eatChar p; skipLineComment_loop fuel' c p
      else Ok p
  end.

Definition skipLineComment (p : Parser) : res Parser :=
  do (c, p) <- eatChar p;
  skipLineComment_loop (chars_left p) c p.

Definition is_blank (c : ascii) : bool :=
  Ascii.eqb c " "%char || Ascii.eqb c "009"%char || Ascii.eqb c "013"%char.

(** The [switch] of [lexToken] on the character just eaten.  [Break p]: the
    token is set and the function returns; [Continue p]: the [break] out of
    the switch, after which the loop goes round again. *)
Definition lexToken_switch (c : ascii) (p : Parser) : res (loop_ctl Parser) :=
  let ret (p : Parser) : res (loop_ctl Parser) := Ok (Break p) in
  let two (ch : ascii) (one two : TokenType) : res (loop_ctl Parser) :=
    do p <- setNextTwoCharToken p ch one two; Ok (Break p) in
  if Ascii.eqb c ","%char then ret (setNextToken p TK_COMMA)
  else if Ascii.eqb c ":"%char then ret (setNextToken p TK_COLLON)
  else if Ascii.eqb c ";"%char then ret (setNextToken p TK_SEMICOLLON)
  else if Ascii.eqb c "#"%char then ret (setNextToken p TK_HASH)
  else if Ascii.eqb c "("%char then ret (setNextToken p TK_LPARAN)
  else if Ascii.eqb c ")"%char then ret (setNextToken p TK_RPARAN)
  else if Ascii.eqb c "["%char then ret (setNextToken p TK_LBRACKET)
  else if Ascii.eqb c "]"%char then ret (setNextToken p TK_RBRACKET)
  else if Ascii.eqb c "{"%char then ret (setNextToken p TK_LBRACE)
  else if Ascii.eqb c "}"%char then ret (setNextToken p TK_RBRACE)
  else if Ascii.eqb c "%"%char then ret (setNextToken p TK_PERCENT)
  else if Ascii.eqb c "~"%char then ret (setNextToken p TK_TILD)
  else if Ascii.eqb c "&"%char then ret (setNextToken p TK_AMP)
  else if Ascii.eqb c "|"%char then ret (setNextToken p TK_PIPE)
  else if Ascii.eqb c "^"%char then ret (setNextToken p TK_CARET)
  else if Ascii.eqb c NEWLINE then ret (setNextToken p TK_LINE)
  else if is_blank c then
    do p <- eatWhile (chars_left p) is_blank p; Ok (Continue p)
  else if Ascii.eqb c "."%char then two "."%char TK_DOT TK_DOTDOT
  else if Ascii.eqb c "="%char then two "="%char TK_EQ TK_EQEQ
  else if Ascii.eqb c "!"%char then two "="%char TK_NOT TK_NOTEQ
  else if Ascii.eqb c ">"%char then
    do (m, p) <- matchChar p ">"%char;
    if m : bool then ret (setNextToken p TK_SRIGHT)
    else do p <- setNextTwoCharToken p "="%char TK_GT TK_GTEQ; Ok (Break p)
  else if Ascii.eqb c "<"%char then
    do (m, p) <- matchChar p "<"%char;
    if m : bool then ret (setNextToken p TK_SLEFT)
    else do p <- setNextTwoCharToken p "="%char TK_LT TK_LTEQ; Ok (Break p)
  else if Ascii.eqb c "+"%char then two "="%char TK_PLUS TK_PLUSEQ
  else if Ascii.eqb c "-"%char then two "="%char TK_MINUS TK_MINUSEQ
  else if Ascii.eqb c "*"%char then two "="%char TK_STAR TK_STAREQ
  else if Ascii.eqb c "/"%char then two "="%char TK_FSLASH TK_DIVEQ
  else if Ascii.eqb c DQUOTE then do p <- eatString p; Ok (Break p)
  else if utilIsDigit c then do p <- eatNumber p; Ok (Break p)
  else if utilIsName c then do p <- eatName p; Ok (Break p)
  else
    let p := if (32 <=? byte_of c) && (byte_of c <=? 126)
             then lexError p "Invalid character %c"%string
             else lexError p "Invalid byte 0x%x"%string in
    ret (setNextToken p TK_ERROR).

(** The [while (peekChar(parser) != NUL)] loop of [lexToken] and what
    follows it. *)
Fixpoint lexToken_loop (fuel : nat) (p : Parser) : res Parser :=
  match fuel with
  | O => OutOfFuel
  | S fuel' =>
      do c <- peekChar p;
      if Ascii.eqb c NUL then
        let p := setNextToken p TK_EOF in
        Ok (set_next p (mkToken (tk_type (next p)) (Some (current_char p))
                                (tk_length (next p)) (tk_line (next p))
                                (tk_value (next p))))
      else
        let p := set_token_start p (current_char p) in
        do (c, p) <- eatChar p;
        do r <- lexToken_switch c p;
        match r with
        | Break p => Ok p
        | Continue p => lexToken_loop fuel' p
        end
  end.

Definition lexToken (p : Parser) : res Parser :=
  let p := set_tokens p (current p) (next p) (next p) in
  if TokenType_beq (tk_type (current p)) TK_EOF then Ok p
  else lexToken_loop (chars_left p) p.

End WithPlatform.

(** ** Parsing: the token window *)

Record Variable_ := mkVariable {
  var_name : nat;      (* a position in the source *)
  var_length : Z;
  var_depth : Z;
  var_line : Z
}.

(** A [Loop] lives in the frame of [compileWhileStatement]; [compiler->loop]
    points to the innermost one.  [patches] holds the [patch_count] entries
    written so far. *)
#[local] Unset Elimination Schemes.
Inductive Loop :=
| mkLoop (start : Z) (patches : list Z) (outer_loop : option Loop).
#[local] Set Elimination Schemes.

Definition loop_start (l : Loop) : Z := match l with mkLoop s _ _ => s end.
Definition patches (l : Loop) : list Z := match l with mkLoop _ ps _ => ps end.
Definition outer_loop (l : Loop) : option Loop := match l with mkLoop _ _ o => o end.
Definition patch_count (l : Loop) : Z := Z.of_nat (length (patches l)).

(** [variables] holds the [var_count] entries in use.  The VM is reached
    through the parser: [compiler->vm] and [compiler->parser.vm] are the same
    pointer. *)
Record Compiler := mkCompiler {
  parser : Parser;
  scope_depth : Z;
  variables : list Variable_;
  stack_size : Z;
  script : option addr;
  loop : option Loop;
  function : option addr
}.

Definition var_count (c : Compiler) : Z := Z.of_nat (length (variables c)).

Definition set_parser (c : Compiler) (p : Parser) : Compiler :=
  mkCompiler p (scope_depth c) (variables c) (stack_size c) (script c) (loop c)
             (function c).

Definition set_scope_depth (c : Compiler) (d : Z) : Compiler :=
  mkCompiler (parser c) d (variables c) (stack_size c) (script c) (loop c) (function c).

Definition set_variables (c : Compiler) (vs : list Variable_) : Compiler :=
  mkCompiler (parser c) (scope_depth c) vs (stack_size c) (script c) (loop c)
             (function c).

Definition set_stack_size (c : Compiler) (n : Z) : Compiler :=
  mkCompiler (parser c) (scope_depth c) (variables c) n (script c) (loop c) (function c).

Definition set_script (c : Compiler) (s : option addr) : Compiler :=
  mkCompiler (parser c) (scope_depth c) (variables c) (stack_size c) s (loop c)
             (function c).

Definition set_loop (c : Compiler) (l : option Loop) : Compiler :=
  mkCompiler (parser c) (scope_depth c) (variables c) (stack_size c) (script c) l
             (function c).

Definition set_function (c : Compiler) (f : option addr) : Compiler :=
  mkCompiler (parser c) (scope_depth c) (variables c) (stack_size c) (script c)
             (loop c) f.

Definition compiler_vm (c : Compiler) : MSVM := vm (parser c).

Definition set_compiler_vm (c : Compiler) (v : MSVM) : Compiler :=
  set_parser c (set_vm (parser c) v).

Section WithPlatform.
Context {P : Platform}.

(** [self] is the memory the parser is set up in; [previous] and [current]
    keep what it held. *)
Definition parserInit (self : Parser) (v : MSVM) (src : list ascii) (pth : string)
    : Parser :=
  mkParser v src pth 0%nat 0%nat 1 (previous self) (current self)
           (mkToken TK_ERROR None 0 1 VAR_UNDEFINED) false [].

Definition peek (self : Parser) : TokenType := tk_type (current self).

Definition peekNext (self : Parser) : TokenType := tk_type (next self).

Fixpoint matchLine_loop (fuel : nat) (p : Parser) : res Parser :=
  match fuel with
  | O => OutOfFuel
  | S fuel' =>
      if TokenType_beq (peek p) TK_LINE then
        do p <- lexToken p; matchLine_loop fuel' p
      else Ok p
  end.

Definition matchLine (p : Parser) : res (bool * Parser) :=
  if negb (TokenType_beq (peek p) TK_LINE) then Ok (false, p)
  else do p <- matchLine_loop (S (chars_left p)) p; Ok (true, p).

Definition skipNewLines (p : Parser) : res Parser :=
  do (_, p) <- matchLine p; Ok p.

Definition match_ (self : Parser) (expected : TokenType) : res (bool * Parser) :=
  do (_, self) <- matchLine self;
  if negb (TokenType_beq (peek self) expected) then Ok (false, self)
  else do self <- lexToken self; Ok (true, self).

Definition consumeEndStatement (p : Parser) : res Parser :=
  do (consumed, p) <-
    (if TokenType_beq (peek p) TK_SEMICOLLON then
       do (_, p) <- match_ p TK_SEMICOLLON; Ok (true, p)
     else Ok (false, p));
  do (lines, p) <- matchLine p;
  let consumed := (consumed || lines)%bool in
  if negb consumed && negb (TokenType_beq (peek p) TK_EOF) then
    Ok (parseError p "Expected statement end with newline or ';'."%string)
  else Ok p.

Definition consumeStartBlock (p : Parser) : res Parser :=
  do (consumed, p) <-
    (if TokenType_beq (peek p) TK_DO then
       do (_, p) <- match_ p TK_DO; Ok (true, p)
     else Ok (false, p));
  do (lines, p) <- matchLine p;
  let consumed := (consumed || lines)%bool in
  if negb consumed then
    Ok (parseError p "Expected enter block with newline or 'do'."%string)
  else Ok p.

(** [parseError(self, "%s", err_msg)] is recorded with the message itself. *)
Definition consume (self : Parser) (expected : TokenType) (err_msg : string)
    : res Parser :=
  do (_, self) <- matchLine self;
  do self <- lexToken self;
  if negb (TokenType_beq (tk_type (previous self)) expected) then
    let self := parseError self err_msg in
    if TokenType_beq (peek self) expected then lexToken self else Ok self
  else Ok self.

End WithPlatform.

(** ** Name tables and the constructors of scripts and functions *)

Section WithPlatform.
Context {P : Platform}.

Definition same_text (h : Heap) (name : list Z) (length : Z) (s : addr) : res bool :=
  do o <- deref h s;
  match o with
  | BString str =>
      Ok (Z.eqb (str_hash str) (utilHashString (c_str (take (Z.to_nat length) name)))
          && Z.eqb (str_length str) length
          && memcmp_eq (str_data str) name length)
  | _ => UB BadCast
  end.

Fixpoint nameTableFind (h : Heap) (name : list Z) (length : Z) (l : list addr) (i : Z)
    : res (option (Z * addr)) :=
  match l with
  | [] => Ok None
  | s :: l' =>
      do eq <- same_text h name length s;
      if eq : bool then Ok (Some (i, s)) else nameTableFind h name length l' (i + 1)
  end.

(** Modelled from the spec: [nameTableAdd] of [types/name_table.c], which is
    not at hand.  "[add(name, length)] returns an existing index if an
    identical string is present (hash + length + memcmp), otherwise allocates
    a new String, appends, and returns the new index."  The result is the
    index, the String at that index (what the pointer argument of the
    five-argument form receives), the table and the VM. *)
Definition nameTableAdd (self : Buffer addr) (v : MSVM) (name : list Z) (length : Z)
    : res (Z * addr * Buffer addr * MSVM) :=
  do found <- nameTableFind (heap v) name length (data self) 0;
  match found with
  | Some (i, s) => Ok (i, s, self, v)
  | None =>
      let (s, v) := newString v name length in
      Ok (count self, s, bufferWrite self s, v)
  end.

(** Modelled from the spec: [nameTableGet], "[get(index)] returns the
    String". *)
Definition nameTableGet (self : Buffer addr) (index : Z) : res addr :=
  if index <? 0 then UB OutOfBounds
  else of_option OutOfBounds (data self !! Z.to_nat index).

Definition get_script (v : MSVM) (s : addr) : res Script :=
  do o <- deref (heap v) s;
  match o with
  | BScript scr => Ok scr
  | _ => UB BadCast
  end.

Definition with_functions (s : Script) (fs : Buffer addr) : Script :=
  mkScript (script_name s) (globals s) (global_names s) (literals s) fs
           (function_names s) (names s) (body s).

Definition with_function_names (s : Script) (ns : Buffer addr) : Script :=
  mkScript (script_name s) (globals s) (global_names s) (literals s) (functions s)
           ns (names s) (body s).

Definition with_literals (s : Script) (ls : Buffer Var) : Script :=
  mkScript (script_name s) (globals s) (global_names s) ls (functions s)
           (function_names s) (names s) (body s).

Definition with_body (s : Script) (b : option addr) : Script :=
  mkScript (script_name s) (globals s) (global_names s) (literals s) (functions s)
           (function_names s) (names s) b.

(** The fields of a Function right after [ALLOCATE], before any is set. *)
Definition raw_Function : Function := mkFunction (CStr []) None None false None.

Definition newFunction (v : MSVM) (name : list Z) (length : Z) (owner : option addr)
    (is_native : bool) : res (addr * MSVM) :=
  let (func, v) := allocObject (BFunc raw_Function) v in
  let payload := if is_native then None else Some (mkFn bufferInit bufferInit 0) in
  match owner with
  | None =>
      Ok (func, storeObject func (BFunc (mkFunction (CStr name) None None is_native payload)) v)
  | Some o =>
      (* functionBufferWrite(&owner->functions, vm, func); *)
      do scr <- get_script v o;
      let v := storeObject o (BScript (with_functions scr (bufferWrite (functions scr) func))) v in
      (* nameTableAdd(&owner->function_names, vm, name, length, &name_ptr); *)
      do scr <- get_script v o;
      do (_, name_ptr, names', v) <- nameTableAdd (function_names scr) v name length;
      do scr <- get_script v o;
      let v := storeObject o (BScript (with_function_names scr names')) v in
      Ok (func,
          storeObject func
            (BFunc (mkFunction (DataOf name_ptr) (Some o) (Some (-2)) is_native payload)) v)
  end.

Definition newScript (v : MSVM) : res (addr * MSVM) :=
  let (script, v) :=
    allocObject (BScript (mkScript None bufferInit bufferInit bufferInit bufferInit
                                   bufferInit bufferInit None)) v in
  let fn_name := map byte_of (list_ascii_of_string "@(ScriptLevel)") in
  do (f, v) <- newFunction v fn_name (Z.of_nat (length fn_name)) (Some script) false;
  do scr <- get_script v script;
  Ok (script, storeObject script (BScript (with_body scr (Some f))) v).

End WithPlatform.

(** ** Compiling: scopes, constants and the bytecode emitter *)

Inductive ScopeType := SCOPE_ANY | SCOPE_CURRENT.

Inductive NameDefnType :=
| NAME_NOT_DEFINED | NAME_LOCAL_VAR | NAME_GLOBAL_VAR | NAME_FUNCTION.

(** A store into the block of a byte buffer: below [count] it changes a live
    byte; between [count] and [capacity] it lands in the unused rest of the
    block, which the next write overwrites before anything reads it; beyond
    that it is outside the block. *)
Definition bufferStore (b : Buffer Z) (i : Z) (x : Z) : res (Buffer Z) :=
  if (0 <=? i) && (i <? count b) then
    Ok (mkBuffer (<[Z.to_nat i := x]> (data b)) (capacity b))
  else if (0 <=? i) && (i <? capacity b) then Ok b
  else UB OutOfBounds.

Section WithPlatform.
Context {P : Platform}.

(** [self] is the memory of the compiler, as its caller declared it: the
    function sets up the parser and three fields and leaves [script], [loop]
    and [function] as they are (its last two lines assign to fresh local
    variables named [loop] and [fn]). *)
Definition compilerInit (self : Compiler) (v : MSVM) (src : list ascii) (pth : string)
    : Compiler :=
  mkCompiler (parserInit (parser self) v src pth) (-1) [] 0
             (script self) (loop self) (function self).

Fixpoint compilerSearchVariables_from (c : Compiler) (vars : list Variable_) (i : Z)
    (name : nat) (length : Z) (scope : ScopeType) : Z :=
  match vars with
  | [] => -1
  | variable :: vars' =>
      let skip := match scope with
                  | SCOPE_CURRENT => negb (scope_depth c =? var_depth variable)
                  | SCOPE_ANY => false
                  end in
      if negb skip
         && (var_length variable =? length)
         && strncmp_eq (Z.to_nat length)
                       (drop (var_name variable) (source (parser c)))
                       (drop name (source (parser c)))
      then i
      else compilerSearchVariables_from c vars' (i + 1) name length scope
  end.

Definition compilerSearchVariables (c : Compiler) (name : nat) (length : Z)
    (scope : ScopeType) : Z :=
  compilerSearchVariables_from c (variables c) 0 name length scope.

Definition compilerSearchName (c : Compiler) (name : nat) (length : Z) : NameDefnType :=
  NAME_NOT_DEFINED.

Definition compilerAddVariable (c : Compiler) (name : nat) (length line : Z)
    : res (Z * Compiler) :=
  if var_count c <? MAX_VARIABLES then
    Ok (var_count c,
        set_variables c (variables c ++ [mkVariable name length (scope_depth c) line]))
  else UB OutOfBounds.

Definition get_current_script (c : Compiler) : res (addr * Script) :=
  do s <- of_option NullDeref (script c);
  do scr <- get_script (compiler_vm c) s;
  Ok (s, scr).

(** The search loop of [compilerAddConstant].  The source spells the call
    [isVauesSame], a name that nothing declares; [isValuesSame] of var.c is
    taken for it. *)
Fixpoint find_same (l : list Var) (v : Var) (i : Z) : option Z :=
  match l with
  | [] => None
  | x :: l' => if isValuesSame x v then Some i else find_same l' v (i + 1)
  end.

Definition compilerAddConstant (c : Compiler) (v : Var) : res (Z * Compiler) :=
  do (s, scr) <- get_current_script c;
  let literals := literals scr in
  match find_same (data literals) v 0 with
  | Some i => Ok (i, c)
  | None =>
      if count literals <? MAX_CONSTANTS then
        let literals := bufferWrite literals v in
        Ok (count literals - 1,
            set_compiler_vm c (storeObject s (BScript (with_literals scr literals))
                                           (compiler_vm c)))
      else
        Ok (count literals - 1,
            set_parser c (parseError (parser c)
              "A script should contain at most %d unique constants."%string))
  end.

Definition compilerEnterBlock (c : Compiler) : Compiler :=
  set_scope_depth c (scope_depth c + 1).

(** The loop of [compilerExitBlock] reads [variables[var_count - 1]]; with no
    variable in use that is the slot before the array. *)
Fixpoint compilerExitBlock_loop (fuel : nat) (c : Compiler) : res Compiler :=
  match fuel with
  | O => OutOfFuel
  | S fuel' =>
      match last (variables c) with
      | None => UB OutOfBounds
      | Some variable =>
          if var_depth variable >=? scope_depth c then
            compilerExitBlock_loop fuel'
              (set_stack_size
                 (set_variables c (removelast (variables c))) (stack_size c - 1))
          else Ok c
      end
  end.

Definition compilerExitBlock (c : Compiler) : res Compiler :=
  do c <- compilerExitBlock_loop (S (length (variables c))) c;
  Ok (set_scope_depth c (scope_depth c - 1)).

(** The current function and its [Fn]: [compiler->function->fn]. *)
Definition get_fn (c : Compiler) : res (addr * Function * Fn) :=
  do f <- of_option NullDeref (function c);
  do o <- deref (heap (compiler_vm c)) f;
  match o with
  | BFunc func => do body <- of_option NullDeref (fn func); Ok (f, func, body)
  | _ => UB BadCast
  end.

Definition put_fn (c : Compiler) (f : addr) (func : Function) (body : Fn) : Compiler :=
  set_compiler_vm c
    (storeObject f
       (BFunc (mkFunction (func_name func) (owner func) (arity func) (is_native func)
                          (Some body)))
       (compiler_vm c)).

Definition emitByte (c : Compiler) (byte : Z) : res (Z * Compiler) :=
  do (f, func, body) <- get_fn c;
  let body := mkFn (bufferWrite (opcodes body) (byte mod 256))
                   (bufferWrite (oplines body) (tk_line (previous (parser c))))
                   (fn_stack_size body) in
  Ok (count (opcodes body) - 1, put_fn c f func body).

Definition emitShort (c : Compiler) (arg : Z) : res (Z * Compiler) :=
  do (_, c) <- emitByte c (Z.land (Z.shiftr arg 8) 255);
  do (i, c) <- emitByte c (Z.land arg 255);
  Ok (i - 1, c).

Definition emitOpcode (c : Compiler) (opcode : Opcode) : res Compiler :=
  do (_, c) <- emitByte c (opcode_code opcode);
  let c := set_stack_size c (stack_size c + opcode_stack opcode) in
  do (f, func, body) <- get_fn c;
  if stack_size c >? fn_stack_size body then
    Ok (put_fn c f func (mkFn (opcodes body) (oplines body) (stack_size c)))
  else Ok c.

Definition emitConstant (c : Compiler) (v : Var) : res Compiler :=
  do (index, c) <- compilerAddConstant c v;
  do c <- emitOpcode c OP_CONSTANT;
  do (_, c) <- emitShort c index;
  Ok c.

Definition patchJump (c : Compiler) (addr_index : Z) : res Compiler :=
  do (f, func, body) <- get_fn c;
  let jump_to := count (opcodes body) in
  do ops <- bufferStore (opcodes body) addr_index (Z.land (Z.shiftr jump_to 8) 255);
  do ops <- bufferStore ops (addr_index + 1) (Z.land jump_to 255);
  Ok (put_fn c f func (mkFn ops (oplines body) (fn_stack_size body))).

End WithPlatform.

(** ** Expressions: the Pratt parser *)

Section WithPlatform.
Context {P : Platform}.

Definition binary_opcode (op : TokenType) : option Opcode :=
  match op with
  | TK_DOTDOT => Some OP_RANGE
  | TK_PERCENT => Some OP_MOD
  | TK_AMP => Some OP_BIT_AND
  | TK_PIPE => Some OP_BIT_OR
  | TK_CARET => Some OP_BIT_XOR
  | TK_PLUS => Some OP_ADD
  | TK_MINUS => Some OP_SUBTRACT
  | TK_STAR => Some OP_MULTIPLY
  | TK_FSLASH => Some OP_DIVIDE
  | TK_GT => Some OP_GT
  | TK_LT => Some OP_LT
  | TK_EQEQ => Some OP_EQEQ
  | TK_NOTEQ => Some OP_NOTEQ
  | TK_GTEQ => Some OP_GTEQ
  | TK_LTEQ => Some OP_LTEQ
  | TK_SRIGHT => Some OP_BIT_RSHIFT
  | TK_SLEFT => Some OP_BIT_LSHIFT
  | TK_IS => Some OP_IS
  | TK_IN => Some OP_IN
  | TK_AND => Some OP_AND
  | TK_OR => Some OP_OR
  | _ => None
  end.

Definition unary_opcode (op : TokenType) : option Opcode :=
  match op with
  | TK_TILD => Some OP_BIT_NOT
  | TK_MINUS => Some OP_NEGATIVE
  | TK_NOT => Some OP_NOT
  | _ => None
  end.

Definition on_parser (c : Compiler) (f : Parser -> res Parser) : res Compiler :=
  do p <- f (parser c); Ok (set_parser c p).

(** [parsePrecedence], the grammar functions it calls through the rule
    table, and its [while] loop over the infix operators.  The grammar
    functions whose body is only [ASSERT(false, "TODO:")] return at once.
    [default: UNREACHABLE()] in the two switches emits nothing. *)
Fixpoint parsePrecedence (fuel : nat) (c : Compiler) (prec : Z) {struct fuel}
    : res Compiler :=
  match fuel with
  | O => OutOfFuel
  | S fuel' =>
      do c <- on_parser c lexToken;
      match prefix (getRule (tk_type (previous (parser c)))) with
      | None => Ok (set_parser c (parseError (parser c) "Expected an expression."%string))
      | Some prefix =>
          let can_assign := prec <=? prec_val PREC_ASSIGNMENT in
          do c <- callGrammarFn fuel' prefix c can_assign;
          parsePrecedence_while fuel' c prec can_assign
      end
  end

with callGrammarFn (fuel : nat) (f : GrammarFn) (c : Compiler) (can_assign : bool)
    {struct fuel} : res Compiler :=
  match fuel with
  | O => OutOfFuel
  | S fuel' =>
      match f with
      | exprLiteral =>
          let v := tk_value (previous (parser c)) in
          do (index, c) <- compilerAddConstant c v;
          do c <- emitOpcode c OP_CONSTANT;
          do (_, c) <- emitShort c index;
          Ok c
      | exprBinaryOp =>
          let op := tk_type (previous (parser c)) in
          do c <- on_parser c skipNewLines;
          do c <- parsePrecedence fuel' c (prec_val (precedence (getRule op)) + 1);
          match binary_opcode op with
          | Some o => emitOpcode c o
          | None => Ok c
          end
      | exprUnaryOp =>
          let op := tk_type (previous (parser c)) in
          do c <- on_parser c skipNewLines;
          do c <- parsePrecedence fuel' c (prec_val PREC_UNARY + 1);
          match unary_opcode op with
          | Some o => emitOpcode c o
          | None => Ok c
          end
      | exprGrouping =>
          do c <- parsePrecedence fuel' c (prec_val PREC_LOWEST);
          on_parser c (fun p => consume p TK_RPARAN "Expected ')' after expression "%string)
      | exprAssignment | exprName | exprArray | exprMap | exprCall | exprAttrib
      | exprSubscript => Ok c
      end
  end

with parsePrecedence_while (fuel : nat) (c : Compiler) (prec : Z)
    (can_assign : bool) {struct fuel} : res Compiler :=
  match fuel with
  | O => OutOfFuel
  | S fuel' =>
      if prec_val (precedence (getRule (tk_type (current (parser c))))) >=? prec then
        do c <- on_parser c lexToken;
        do infix <- of_option NullDeref (infix (getRule (tk_type (previous (parser c)))));
        do c <- callGrammarFn fuel' infix c can_assign;
        parsePrecedence_while fuel' c prec can_assign
      else Ok c
  end.

Definition compileExpression (fuel : nat) (c : Compiler) : res Compiler :=
  parsePrecedence fuel c (prec_val PREC_LOWEST).

End WithPlatform.

(** ** Statements *)

Section WithPlatform.
Context {P : Platform}.

Definition block_ends (next : TokenType) (if_body : bool) : bool :=
  TokenType_beq next TK_END || TokenType_beq next TK_EOF
  || (if_body && (TokenType_beq next TK_ELSE || TokenType_beq next TK_ELIF)).

(** The last lines of [compileWhileStatement], after the body: the jump back,
    the patch of the exit jump and of every [break], and the loop popped. *)
Definition closeWhile (c : Compiler) (loop_start whilepatch : Z)
    (outer : option Loop) : res Compiler :=
  do c <- emitOpcode c OP_JUMP;
  do (_, c) <- emitShort c loop_start;
  do c <- patchJump c whilepatch;
  do l <- of_option NullDeref (loop c);
  do c <- for_loop (Z.to_nat (patch_count l))
            (fun i c =>
               do l <- of_option NullDeref (loop c);
               do patch <- of_option OutOfBounds (patches l !! i);
               patchJump c patch)
            0%nat c;
  Ok (set_loop c outer).

Fixpoint compileStatement (fuel : nat) (c : Compiler) {struct fuel} : res Compiler :=
  match fuel with
  | O => OutOfFuel
  | S fuel' =>
      do (m, p) <- match_ (parser c) TK_BREAK;
      let c := set_parser c p in
      if m : bool then
        match loop c with
        | None =>
            Ok (set_parser c (parseError (parser c)
                                "Cannot use 'break' outside a loop."%string))
        | Some _ =>
            do c <- emitOpcode c OP_JUMP;
            do (patch, c) <- emitByte c 65535;
            do l <- of_option NullDeref (loop c);
            if patch_count l <? MAX_BREAK_PATCH then
              Ok (set_loop c (Some (mkLoop (loop_start l) (patches l ++ [patch])
                                           (outer_loop l))))
            else UB OutOfBounds
        end
      else
      do (m, p) <- match_ (parser c) TK_CONTINUE;
      let c := set_parser c p in
      if m : bool then
        match loop c with
        | None =>
            Ok (set_parser c (parseError (parser c)
                                "Cannot use 'continue' outside a loop."%string))
        | Some l =>
            do c <- emitOpcode c OP_JUMP;
            do (_, c) <- emitShort c (loop_start l);
            Ok c
        end
      else
      do (m, p) <- match_ (parser c) TK_RETURN;
      let c := set_parser c p in
      if m : bool then
        if scope_depth c =? -1 then
          Ok (set_parser c (parseError (parser c)
                              "Invalid 'return' outside a function."%string))
        else if TokenType_beq (peek (parser c)) TK_SEMICOLLON
                || TokenType_beq (peek (parser c)) TK_LINE then
          do c <- emitOpcode c OP_PUSH_NULL;
          emitOpcode c OP_RETURN
        else
          do c <- compileExpression fuel' c;
          emitOpcode c OP_RETURN
      else
      do (m, p) <- match_ (parser c) TK_IF;
      let c := set_parser c p in
      if m : bool then compileIfStatement fuel' c
      else
      do (m, p) <- match_ (parser c) TK_WHILE;
      let c := set_parser c p in
      if m : bool then compileWhileStatement fuel' c
      else
      do (m, p) <- match_ (parser c) TK_FOR;
      let c := set_parser c p in
      if m : bool then Ok c   (* compileForStatement: ASSERT(false, "TODO:") *)
      else
        do c <- compileExpression fuel' c;
        emitOpcode c OP_POP
  end

with compileBlockBody_loop (fuel : nat) (c : Compiler) (if_body : bool) {struct fuel}
    : res Compiler :=
  match fuel with
  | O => OutOfFuel
  | S fuel' =>
      if block_ends (peek (parser c)) if_body then Ok c
      else
        do c <- compileStatement fuel' c;
        compileBlockBody_loop fuel' c if_body
  end

with compileBlockBody (fuel : nat) (c : Compiler) (if_body : bool) {struct fuel}
    : res Compiler :=
  match fuel with
  | O => OutOfFuel
  | S fuel' =>
      let c := compilerEnterBlock c in
      do c <- compileBlockBody_loop fuel' c if_body;
      compilerExitBlock c
  end

with compileIfStatement (fuel : nat) (c : Compiler) {struct fuel} : res Compiler :=
  match fuel with
  | O => OutOfFuel
  | S fuel' =>
      do c <- compileExpression fuel' c;
      do c <- emitOpcode c OP_JUMP_IF_NOT;
      do (ifpatch, c) <- emitByte c 65535;
      do c <- on_parser c consumeStartBlock;
      do c <- compileBlockBody fuel' c true;
      do (m, p) <- match_ (parser c) TK_ELIF;
      let c := set_parser c p in
      if m : bool then
        do c <- patchJump c ifpatch;
        compileBlockBody fuel' c true
      else
        do (m, p) <- match_ (parser c) TK_ELSE;
        let c := set_parser c p in
        if m : bool then
          do c <- patchJump c ifpatch;
          compileBlockBody fuel' c false
        else patchJump c ifpatch
  end

with compileWhileStatement (fuel : nat) (c : Compiler) {struct fuel} : res Compiler :=
  match fuel with
  | O => OutOfFuel
  | S fuel' =>
      do (_, _, body) <- get_fn c;
      let loop_start := count (opcodes body) in
      let outer := loop c in
      let c := set_loop c (Some (mkLoop loop_start [] outer)) in
      do c <- compileExpression fuel' c;
      do c <- emitOpcode c OP_JUMP_IF_NOT;
      do (whilepatch, c) <- emitByte c 65535;
      do c <- compileBlockBody fuel' c false;
      closeWhile c loop_start whilepatch outer
  end.

End WithPlatform.

(** ** Functions and the top level *)

Section WithPlatform.
Context {P : Platform}.

(** The text of [length] bytes at a position of the source. *)
Definition source_bytes (p : Parser) (start : nat) (length : Z) : list Z :=
  map byte_of (take (Z.to_nat length) (drop start (source p))).

(** The middle of [compileFunction]: the function is created and entered in
    the script.  The source calls [nameTableAdd] without the pointer argument
    and [newFunction] with four arguments, the String of the name table for
    [name] and no [length]; the model passes the text and the length of that
    String. *)
Definition compileFunction_declare (c : Compiler) (name_start : nat) (name_length : Z)
    (is_native : bool) : res Compiler :=
  do (s, scr) <- get_current_script c;
  do (index, _, names', v) <-
    nameTableAdd (function_names scr) (compiler_vm c)
                 (source_bytes (parser c) name_start name_length) name_length;
  let v := storeObject s (BScript (with_function_names scr names')) v in
  let c := set_compiler_vm c v in
  do (s, scr) <- get_current_script c;
  do name <- nameTableGet (function_names scr) index;
  do o <- deref (heap (compiler_vm c)) name;
  do str <- match o with BString str => Ok str | _ => UB BadCast end;
  do (func, v) <- newFunction (compiler_vm c) (str_data str) (str_length str)
                              (script c) is_native;
  let c := set_compiler_vm c v in
  do (s, scr) <- get_current_script c;
  let v := storeObject s (BScript (with_functions scr (bufferWrite (functions scr) func)))
                       (compiler_vm c) in
  let c := set_compiler_vm c v in
  Ok (set_function c (Some func)).

Fixpoint compileFunction_params (fuel : nat) (c : Compiler) : res Compiler :=
  match fuel with
  | O => OutOfFuel
  | S fuel' =>
      do (m, p) <- match_ (parser c) TK_NAME;
      let c := set_parser c p in
      if m : bool then
        do start <- of_option NullDeref (tk_start (previous (parser c)));
        let predef := compilerSearchVariables c start (tk_length (previous (parser c)))
                                              SCOPE_CURRENT in
        let c := if negb (predef =? -1)
                 then set_parser c (parseError (parser c)
                                      "Multiple definition of a parameter"%string)
                 else c in
        do (_, p) <- match_ (parser c) TK_COMMA;
        compileFunction_params fuel' (set_parser c p)
      else Ok c
  end.

Definition compileFunction (fuel : nat) (c : Compiler) (is_native : bool)
    : res Compiler :=
  do c <- on_parser c (fun p => consume p TK_NAME "Expected a function name."%string);
  do name_start <- of_option NullDeref (tk_start (previous (parser c)));
  let name_length := tk_length (previous (parser c)) in
  let result := compilerSearchName c name_start name_length in
  do c <- compileFunction_declare c name_start name_length is_native;
  do c <- on_parser c
            (fun p => consume p TK_LPARAN "Expected '(' after function name."%string);
  let c := set_scope_depth c (scope_depth c + 1) in
  do c <- compileFunction_params fuel c;
  do c <- on_parser c
            (fun p => consume p TK_RPARAN "Expected ')' after parameters end."%string);
  do c <- on_parser c consumeEndStatement;
  if is_native then
    let c := set_scope_depth c (scope_depth c - 1) in
    Ok (set_function c None)
  else
    do c <- compileBlockBody fuel c false;
    let c := set_scope_depth c (scope_depth c - 1) in
    do (_, scr) <- get_current_script c;
    Ok (set_function c (body scr)).

Definition skip_bom (src : list ascii) : list ascii :=
  if strncmp_eq 3 src ["239"%char; "187"%char; "191"%char] then drop 3 src else src.

Fixpoint compileSource_loop (fuel : nat) (c : Compiler) : res Compiler :=
  match fuel with
  | O => OutOfFuel
  | S fuel' =>
      do (m, p) <- match_ (parser c) TK_EOF;
      let c := set_parser c p in
      if m : bool then Ok c
      else
        do (m, p) <- match_ (parser c) TK_NATIVE;
        let c := set_parser c p in
        if m : bool then
          do c <- compileFunction fuel' c true; compileSource_loop fuel' c
        else
        do (m, p) <- match_ (parser c) TK_DEF;
        let c := set_parser c p in
        if m : bool then
          do c <- compileFunction fuel' c false; compileSource_loop fuel' c
        else
        do (m, p) <- match_ (parser c) TK_IMPORT;
        let c := set_parser c p in
        if m : bool then compileSource_loop fuel' c
        else
          do c <- compileStatement fuel' c; compileSource_loop fuel' c
  end.

(** [compiler] is what the memory of the local variable [compiler] holds when
    the function is entered, [src] the text the loader returned.  The result
    is the script and, to let the flags be seen, the compiler as it is when
    the function returns. *)
Definition compileSource (fuel : nat) (compiler : Compiler) (v : MSVM)
    (src : list ascii) (pth : string) : res (addr * Compiler) :=
  let src := skip_bom src in
  let compiler := compilerInit compiler v src pth in
  do (script, v) <- newScript v;
  let compiler := set_compiler_vm compiler v in
  let compiler := set_script compiler (Some script) in
  do scr <- get_script v script;
  let compiler := set_function compiler (body scr) in
  do compiler <- on_parser compiler lexToken;
  do compiler <- on_parser compiler lexToken;
  do compiler <- on_parser compiler skipNewLines;
  do compiler <- compileSource_loop fuel compiler;
  Ok (script, compiler).

End WithPlatform.

(** * Sample data for the checks below *)





(** ** A sample platform

    One concrete choice of what the sources at hand leave open, to run the
    code on: opcodes numbered in the order of the spec's opcode list, 32-bit
    FNV-1a for strings, the low word of the bit pattern for numbers, a
    [strtod] that reads [digits[.digits]] and rounds toward zero. *)

Definition sample_opcode_code (o : Opcode) : Z :=
  match o with
  | OP_CONSTANT => 0 | OP_PUSH_NULL => 1 | OP_POP => 2 | OP_JUMP => 3
  | OP_JUMP_IF_NOT => 4 | OP_RETURN => 5 | OP_ADD => 6 | OP_SUBTRACT => 7
  | OP_MULTIPLY => 8 | OP_DIVIDE => 9 | OP_MOD => 10 | OP_RANGE => 11
  | OP_BIT_AND => 12 | OP_BIT_OR => 13 | OP_BIT_XOR => 14 | OP_BIT_LSHIFT => 15
  | OP_BIT_RSHIFT => 16 | OP_GT => 17 | OP_LT => 18 | OP_EQEQ => 19
  | OP_NOTEQ => 20 | OP_GTEQ => 21 | OP_LTEQ => 22 | OP_IS => 23 | OP_IN => 24
  | OP_AND => 25 | OP_OR => 26 | OP_NEGATIVE => 27 | OP_NOT => 28
  | OP_BIT_NOT => 29
  end.

Definition sample_opcode_stack (o : Opcode) : Z :=
  match o with
  | OP_CONSTANT | OP_PUSH_NULL => 1
  | OP_JUMP | OP_NEGATIVE | OP_NOT | OP_BIT_NOT => 0
  | _ => -1
  end.

Definition fnv1a (bytes : list Z) : Z :=
  fold_left (fun hash b => u32 (Z.lxor hash b * 16777619)) bytes 2166136261.

Definition sample_hash_bits (v : Var) : Z :=
  match v with
  | VAR_NULL => 0
  | VAR_UNDEFINED => 1
  | VAR_BOOL false => 2
  | VAR_BOOL true => 3
  | VAR_NUM bits => u32 (Z.lxor bits (Z.shiftr bits 32))
  | VAR_OBJ p => Z.of_nat p
  end.

Fixpoint read_digits (s : list ascii) (acc : Z) : Z * list ascii :=
  match s with
  | c :: s' => if utilIsDigit c then read_digits s' (acc * 10 + (byte_of c - 48))
               else (acc, s)
  | [] => (acc, s)
  end.

(** The double just below or at [p / q], for [p >= 0] and [q > 0]. *)
Definition double_bits (p q : Z) : Z :=
  if p =? 0 then 0
  else
    let e0 := Z.log2 p - Z.log2 q in
    let e := if (if 0 <=? e0 then 2 ^ e0 * q <=? p else q <=? 2 ^ (- e0) * p)
             then e0 else e0 - 1 in
    let m := if 0 <=? 52 - e then (p * 2 ^ (52 - e)) / q else p / (q * 2 ^ (e - 52)) in
    Z.lor (Z.shiftl (1023 + e) 52) (m - 4503599627370496).

Definition sample_strtod (s : list ascii) : Z * bool :=
  let (int_part, rest) := read_digits s 0 in
  match rest with
  | "."%char :: rest' =>
      let (num, rest'') := read_digits rest' int_part in
      (double_bits num (10 ^ Z.of_nat (length rest' - length rest'')), false)
  | _ => (double_bits int_part 1, false)
  end.

Definition sample_platform : Platform := {|
  opcode_code := sample_opcode_code;
  opcode_stack := sample_opcode_stack;
  utilHashBits := sample_hash_bits;
  utilHashNumber := fun bits => u32 (Z.lxor bits (Z.shiftr bits 32));
  utilHashString := fnv1a;
  strtod := sample_strtod;
  sizeof := fun _ => 8
|}.

(** Invariant 6 of the data model: an entry whose key is the undefined
    sentinel has a boolean value. *)
Definition entry_ok (e : MapEntry) : bool :=
  implb (IS_UNDEF (key e)) (IS_BOOL (value e)).

Definition entries_ok (m : Map) : Prop :=
  forall i e, entries m !! i = Some e -> entry_ok e = true.

(** A block of memory the allocator may hand out: every slot holds the
    undefined word in its first half and the null word in its second. *)
Definition stale_block : nat -> MapEntry := fun _ => mkEntry VAR_UNDEFINED VAR_NULL.

(** A block whose slots all read as empty entries. *)
Definition clean_block : nat -> MapEntry := fun _ => mkEntry VAR_UNDEFINED VAR_FALSE.

Definition c1_table : Map :=
  mkMap 8 0 (mkEntry VAR_UNDEFINED VAR_FALSE :: replicate 7 (mkEntry VAR_UNDEFINED VAR_NULL)).


(** A map of capacity 8 with one entry, in slot [i]: its key is the String at
    address 1, its value the String at address 2. *)
Definition c3_map (i : nat) : Map :=
  mkMap 8 1 (<[i := mkEntry (VAR_OBJ 1%nat) (VAR_OBJ 2%nat)]>
               (replicate 8 (mkEntry VAR_UNDEFINED VAR_FALSE))).

Definition c3_vm (i : nat) : MSVM :=
  mkVM [ mkObject true (BMap (c3_map i));
         mkObject false (BString (mkString 107 1 [107]));
         mkObject false (BString (mkString 118 1 [118])) ]
       [] 8 0.


(** The end of a round of [_mapFindEntry]'s loop that goes on probing: the
    index steps, and the loop stops when it is back at the start. *)
Definition probe_next {P : Platform} (fuel : nat) (h : Heap) (self : Map) (k : Var)
    (start_index index : Z) (tombstone : option nat) : res (bool * option nat) :=
  let index' := u32 (index + 1) mod map_capacity self in
  if index' =? start_index then Ok (false, tombstone)
  else _mapFindEntry_loop fuel h self k start_index index' tombstone.

(** Entries whose key is undefined or a number, and the numbers they hold. *)
Definition plain_entry (e : MapEntry) : bool :=
  match key e with
  | VAR_UNDEFINED | VAR_NUM _ => true
  | _ => false
  end.

Definition plain (l : list MapEntry) : Prop := forallb plain_entry l = true.

Definition number_key (e : MapEntry) : option Z :=
  match key e with
  | VAR_NUM x => Some x
  | _ => None
  end.

Definition number_keys (l : list MapEntry) : list Z := omap number_key l.

(** [mapSet] of the numbers [ks], one after the other. *)
Fixpoint mapSetAll {P : Platform} (mem : nat -> MapEntry) (h : Heap) (ks : list Z)
    (m : Map) : res Map :=
  match ks with
  | [] => Ok m
  | k :: ks' =>
      do m' <- mapSet mem h m (VAR_NUM k) (VAR_NUM (k + 100));
      mapSetAll mem h ks' m'
  end.

Definition twelve_keys : list Z := [0; 1; 2; 3; 4; 5; 6; 7; 8; 9; 10; 11].

(** The map that twelve [mapSet]s build on the sample platform, from an empty
    map and with clean memory: capacity 16, count 12. *)
Definition c10_map : Map :=
  Eval vm_compute in
    match mapSetAll (P := sample_platform) clean_block [] twelve_keys newMap with
    | Ok m => m
    | _ => newMap
    end.

(** What [_mapFindEntry] can answer for a number key [x] on a table of plain
    entries: found, at an entry with that key; not found, with a slot whose
    key is undefined to insert at; or not found and no slot. *)
Definition found_or_free (T : list MapEntry) (x : Z) (r : res (bool * option nat))
    : Prop :=
  match r with
  | Ok (true, Some j) => exists e, T !! j = Some e /\ key e = VAR_NUM x
  | Ok (false, Some j) => exists e, T !! j = Some e /\ key e = VAR_UNDEFINED
  | Ok (false, None) => True
  | _ => False
  end.

Definition free_slot (T : list MapEntry) (tomb : option nat) : Prop :=
  match tomb with
  | None => True
  | Some t => exists e, T !! t = Some e /\ key e = VAR_UNDEFINED
  end.

(** The body of the second loop of [_mapResize]. *)
Definition reinsert {P : Platform} (h : Heap) (old_entries : list MapEntry) (i : nat)
    (self : Map) : res Map :=
  do old <- of_option OutOfBounds (old_entries !! i);
  if IS_UNDEF (key old) then Ok self
  else do (self', _) <- _mapInsertEntry h self (key old) (value old); Ok self'.

(** ** String literals, piece by piece

    What stands between the quotes of a well-formed literal: a character
    other than the quote, the backslash and NUL, or a backslash and one of
    the five characters the lexer accepts after it. *)

Inductive StrItem :=
| Plain (c : ascii)
| Escape (e : ascii).

Definition BACKSLASH : ascii := "\"%char.

(** The byte an escape stands for. *)
Definition escape_byte (e : ascii) : option Z :=
  if Ascii.eqb e DQUOTE then Some 34
  else if Ascii.eqb e BACKSLASH then Some 92
  else if Ascii.eqb e "n"%char then Some 10
  else if Ascii.eqb e "r"%char then Some 13
  else if Ascii.eqb e "t"%char then Some 9
  else None.

Definition item_ok (it : StrItem) : bool :=
  match it with
  | Plain c =>
      negb (Ascii.eqb c DQUOTE) && negb (Ascii.eqb c NUL) && negb (Ascii.eqb c BACKSLASH)
  | Escape e => match escape_byte e with Some _ => true | None => false end
  end.

(** A piece of any literal: a well-formed plain character, or a backslash
    and whatever character follows it in the source. *)
Definition piece_ok (it : StrItem) : bool :=
  match it with
  | Plain _ => item_ok it
  | Escape e => negb (Ascii.eqb e NUL)
  end.

(** The source text of a piece, and the byte it denotes. *)
Definition item_text (it : StrItem) : list ascii :=
  match it with
  | Plain c => [c]
  | Escape e => [BACKSLASH; e]
  end.

Definition item_byte (it : StrItem) : Z :=
  match it with
  | Plain c => byte_of c
  | Escape e => match escape_byte e with Some b => b | None => 0 end
  end.

Definition items_text (items : list StrItem) : list ascii := concat (map item_text items).

Definition items_bytes (items : list StrItem) : list Z := map item_byte items.

(** The line feeds among the characters of the pieces. *)
Definition item_lines (it : StrItem) : Z :=
  match it with
  | Plain c => if Ascii.eqb c NEWLINE then 1 else 0
  | Escape _ => 0
  end.

Definition items_lines (items : list StrItem) : Z :=
  fold_right (fun it n => item_lines it + n) 0 items.

(** A parser fresh from [parserInit], over memory that held nothing. *)
Definition no_token : Token := mkToken TK_ERROR None 0 0 VAR_UNDEFINED.

Definition empty_vm : MSVM := mkVM [] [] MIN_CAPACITY 0.

Definition blank_parser : Parser :=
  mkParser empty_vm [] EmptyString 0%nat 0%nat 0 no_token no_token no_token false [].

(** The five characters of the literal that the claim names: a quote, [a],
    a backslash, [n], a quote. *)
Definition literal_a_newline : list ascii :=
  [DQUOTE; "a"%char; BACKSLASH; "n"%char; DQUOTE].

(** An opening quote, [abc], and the end of the input. *)
Definition literal_unterminated : list ascii :=
  [DQUOTE; "a"%char; "b"%char; "c"%char].

(** An opening quote, [a], a backslash, and the end of the input. *)
Definition literal_trailing_backslash : list ascii :=
  [DQUOTE; "a"%char; BACKSLASH].

(** Once raised, the flag stays, and what was reported stays reported. *)
Definition keeps_errors (p p' : Parser) : Prop :=
  (has_errors p = true -> has_errors p' = true) /\
  (forall r, r ∈ reported p -> r ∈ reported p').


(** What a run of the lexer leaves alone: the two tokens already shifted in,
    the source, and every object that was on the heap. *)
Definition lexer_frame (p p' : Parser) : Prop :=
  previous p' = previous p /\ current p' = current p /\ source p' = source p
  /\ exists l, heap (vm p') = heap (vm p) ++ l.

(** ** Sample programs *)

(** [break], a line feed. *)
Definition program_break : list ascii :=
  list_ascii_of_string "break" ++ [NEWLINE].

(** The compiler as [compileSource] finds it in its frame when that memory
    held nothing: every pointer NULL. *)
Definition blank_compiler : Compiler :=
  mkCompiler blank_parser 0 [] 0 None None None.

(** The same memory, but for the field [loop]: a pointer that is not NULL,
    to what reads as the Loop [l]. *)
Definition stale_loop_compiler (l : Loop) : Compiler :=
  mkCompiler blank_parser 0 [] 0 None (Some l) None.

(** The bytecode of the function at an address. *)
Definition bytecode_at (h : Heap) (f : addr) : option (list Z) :=
  match h !! f with
  | Some (mkObject _ (BFunc func)) =>
      match fn func with
      | Some body => Some (data (opcodes body))
      | None => None
      end
  | _ => None
  end.

(** The bytecode of the body of the script at an address. *)
Definition body_bytecode (h : Heap) (s : addr) : option (list Z) :=
  match h !! s with
  | Some (mkObject _ (BScript scr)) =>
      match body scr with
      | Some f => bytecode_at h f
      | None => None
      end
  | _ => None
  end.

(** ** Constant pools *)

(** [compilerAddConstant] of one value, [n] times over. *)
Fixpoint compilerAddConstant_times (n : nat) (c : Compiler) (v : Var)
    : res Compiler :=
  match n with
  | O => Ok c
  | S n' => do (_, c') <- compilerAddConstant c v; compilerAddConstant_times n' c' v
  end.

(** How many literals of a pool are the same as [v]. *)
Definition count_same (l : list Var) (v : Var) : nat :=
  length (List.filter (fun x => isValuesSame x v) l).

(** A pool that is full: the numbers with the bit patterns 0 ... 65535. *)
Fixpoint numbers_from (n : nat) (from : Z) : list Var :=
  match n with
  | O => []
  | S n' => VAR_NUM from :: numbers_from n' (from + 1)
  end.

Definition full_pool : Buffer Var :=
  mkBuffer (numbers_from (Z.to_nat 65536) 0) 65536.

(** A compiler whose script, at address 0, has the full pool, and whose
    previous token is a number. *)
Definition full_pool_compiler : Compiler :=
  mkCompiler
    (mkParser
       (mkVM [mkObject false
                (BScript (mkScript None bufferInit bufferInit full_pool bufferInit
                                   bufferInit bufferInit None))]
             [] MIN_CAPACITY 0)
       [] EmptyString 0%nat 0%nat 1
       (mkToken TK_NUMBER (Some 0%nat) 1 1 (VAR_NUM 65536)) no_token no_token false [])
    (-1) [] 0 (Some 0%nat) None None.

(** The literals of the script at an address. *)
Definition literals_at (h : Heap) (s : addr) : option (list Var) :=
  match h !! s with
  | Some (mkObject _ (BScript scr)) => Some (data (literals scr))
  | _ => None
  end.

(** The bytes of the String at an address. *)
Definition string_at (h : Heap) (s : addr) : option (list Z) :=
  match h !! s with
  | Some (mkObject _ (BString str)) => Some (str_data str)
  | _ => None
  end.

(** Two lines, each the string literal of one [a] between quotes. *)
Definition program_two_strings : list ascii :=
  [DQUOTE; "a"%char; DQUOTE; NEWLINE; DQUOTE; "a"%char; DQUOTE; NEWLINE].

(** Four lines, each the number literal [3.14]. *)
Definition program_four_numbers : list ascii :=
  list_ascii_of_string "3.14" ++ [NEWLINE] ++ list_ascii_of_string "3.14" ++ [NEWLINE]
  ++ list_ascii_of_string "3.14" ++ [NEWLINE] ++ list_ascii_of_string "3.14" ++ [NEWLINE].

(** A pool in which no two literals are the same and that is within the
    limit. *)
Definition pooled (scr : Script) : Prop :=
  NoDup (data (literals scr)) /\ count (literals scr) <= MAX_CONSTANTS.

(** From one state of the heap to a later one: every script is still a
    script, its pool has only been appended to, and a pool that was [pooled]
    still is. *)
Definition pool_grows (v v' : MSVM) : Prop :=
  forall (s : addr) (scr : Script),
    get_script v s = Ok scr ->
    exists scr', get_script v' s = Ok scr'
      /\ (exists l, data (literals scr') = data (literals scr) ++ l)
      /\ (pooled scr -> pooled scr').

(** The same between two states of the compiler, which also works on the
    same script. *)
Definition pool_step (c c' : Compiler) : Prop :=
  script c' = script c /\ pool_grows (compiler_vm c) (compiler_vm c').


(** ** Scripts and their functions *)

(** [native f()], a line feed. *)
Definition program_native : list ascii :=
  list_ascii_of_string "native f()" ++ [NEWLINE].

(** The functions and the function names of the script at an address. *)
Definition functions_at (h : Heap) (s : addr) : option (list addr) :=
  match h !! s with
  | Some (mkObject _ (BScript scr)) => Some (data (functions scr))
  | _ => None
  end.

Definition function_names_at (h : Heap) (s : addr) : option (list addr) :=
  match h !! s with
  | Some (mkObject _ (BScript scr)) => Some (data (function_names scr))
  | _ => None
  end.

(** The compiler as [compileSource] has it for [program_native] on the
    sample platform when the first statement starts: initialised, with a new
    script. *)
Definition native_compiler : Compiler :=
  match newScript (P := sample_platform) empty_vm with
  | Ok (script, v) =>
      set_script
        (set_compiler_vm (compilerInit blank_compiler v program_native EmptyString) v)
        (Some script)
  | _ => blank_compiler
  end.

(** ** Jumps *)

(** [while 1 do], [break] and [end], on three lines. *)
Definition program_while : list ascii :=
  list_ascii_of_string "while 1 do" ++ [NEWLINE]
  ++ list_ascii_of_string "  break" ++ [NEWLINE]
  ++ list_ascii_of_string "end".

(** The bytecode of the current function. *)
Definition code_of (c : Compiler) : res (list Z) :=
  do (_, _, body) <- get_fn c;
  Ok (data (opcodes body)).

(** The operand of a jump, read as the VM reads a short: the byte at [a] is
    the high one, the byte after it the low one. *)
Definition operand_at (ops : list Z) (a : Z) : option Z :=
  match ops !! Z.to_nat a, ops !! Z.to_nat (a + 1) with
  | Some hi, Some lo => Some (hi * 256 + lo)
  | _, _ => None
  end.

(** The short [t] is stored at [a], the high byte first. *)
Definition short_at (ops : list Z) (a t : Z) : Prop :=
  ops !! Z.to_nat a = Some (t / 256) /\ ops !! Z.to_nat (a + 1) = Some (t mod 256).

(** What [patchJump] writes at [a]: the count of the bytecode, the high byte
    first. *)
Definition patched (ops : list Z) (a : Z) : list Z :=
  let t := Z.of_nat (length ops) in
  <[Z.to_nat (a + 1) := Z.land t 255]>
    (<[Z.to_nat a := Z.land (Z.shiftr t 8) 255]> ops).

(** Both bytes of the operand at [a] are among the first [n] bytes. *)
Definition in_code (n : nat) (a : Z) : bool :=
  (0 <=? a) && (a + 1 <? Z.of_nat n).

(** No operand of the list starts on the second byte of another one. *)
Definition apart (l : list Z) : bool :=
  forallb (fun a => forallb (fun b => negb (a + 1 =? b)) l) l.

(** An opcode as the sample platform numbers it. *)
Definition op (o : Opcode) : Z := @opcode_code sample_platform o.

(** The compiler as [compileSource] has it on the sample platform when the
    first statement starts, with one variable of the top level in
    [variables], which no function of the compiler puts there. *)
Definition statement_start (src : list ascii) : res Compiler :=
  let compiler := compilerInit blank_compiler empty_vm src EmptyString in
  do (script, v) <- newScript (P := sample_platform) empty_vm;
  let compiler := set_compiler_vm compiler v in
  let compiler := set_script compiler (Some script) in
  do scr <- get_script v script;
  let compiler := set_function compiler (body scr) in
  do compiler <- on_parser compiler (lexToken (P := sample_platform));
  do compiler <- on_parser compiler (lexToken (P := sample_platform));
  do compiler <- on_parser compiler (skipNewLines (P := sample_platform));
  Ok (set_variables compiler [mkVariable 0 0 (-1) 0]).

(** The same loop on one line. *)
Definition program_while_line : list ascii :=
  list_ascii_of_string "while 1 do break end".

(** [compileWhileStatement] on the sample platform up to the end of the
    body, from that state and with [while] as the current token: what
    [closeWhile] then closes. *)
Definition while_before_close (src : list ascii) : res Compiler :=
  do c0 <- statement_start src;
  do (_, p) <- match_ (P := sample_platform) (parser c0) TK_WHILE;
  let c := set_parser c0 p in
  do (_, _, body) <- get_fn c;
  let loop_start := count (opcodes body) in
  let c := set_loop c (Some (mkLoop loop_start [] (loop c))) in
  do c <- compileExpression (P := sample_platform) 9 c;
  do c <- emitOpcode (P := sample_platform) c OP_JUMP_IF_NOT;
  do (_, c) <- emitByte c 65535;
  compileBlockBody (P := sample_platform) 9 c false.

(** [if 1 do elif 0 do end] *)
Definition program_if_elif : list ascii :=
  list_ascii_of_string "if 1 do elif 0 do end".

(** * Further properties: the data they are stated on *)

(** ** Maps *)

(** No live entry of the table has a key equal to [k]. *)
Definition absent (h : Heap) (T : list MapEntry) (k : Var) : Prop :=
  forall e, e ∈ T -> IS_UNDEF (key e) = false -> isValuesEqual h (key e) k = Ok false.

(** The representation of a map with room: [entries] has [capacity] slots,
    and the capacity is a positive [uint32_t]. *)
Definition map_shape (m : Map) : Prop :=
  0 < map_capacity m < 4294967296
  /\ length (entries m) = Z.to_nat (map_capacity m).

(** Two runs of the probing loop agree on whether the key is there and, if
    it is, on the slot. *)
Definition same_find (r r' : res (bool * option nat)) : Prop :=
  match r with
  | Ok (true, j) => r' = Ok (true, j)
  | Ok (false, _) => exists t, r' = Ok (false, t)
  | UB u => r' = UB u
  | OutOfFuel => r' = OutOfFuel
  end.

(** A map of capacity 8 with the numbers 1 and 9, which the sample platform
    hashes to the same slot, and 2. *)
Definition small_map : Map :=
  match mapSetAll (P := sample_platform) clean_block [] [1; 9; 2] newMap with
  | Ok m => m
  | _ => newMap
  end.

(** ** Truth values *)

(** [toBool].  [AS_NUM(v) != 0] compares doubles.  For a Fiber the switch
    runs into [UNREACHABLE()]; its macro is not in the sources at hand, and
    the model takes it as not returning.  The undefined sentinel passes the
    three tests and is then read as an object reference. *)
Definition toBool (h : Heap) (v : Var) : res bool :=
  match v with
  | VAR_BOOL b => Ok b
  | VAR_NULL => Ok false
  | VAR_NUM x => Ok (negb (dbl_eq x 0))
  | VAR_UNDEFINED => UB BadCast
  | VAR_OBJ p =>
      do o <- deref h p;
      match o with
      | BString s => Ok (negb (str_length s =? 0))
      | BList l => Ok (negb (count (elements l) =? 0))
      | BMap m => Ok (negb (map_count m =? 0))
      | BRange _ | BScript _ | BFunc _ | BUser => Ok true
      | BFiber _ => UB NoReturn
      end
  end.

(** The object a value refers to is a Range. *)
Definition is_range (h : Heap) (v : Var) : bool :=
  match v with
  | VAR_OBJ p => match deref h p with Ok (BRange _) => true | _ => false end
  | _ => false
  end.

(** A heap with two Strings of the same text and two Ranges 1..2 (the
    patterns of the doubles 1.0 and 2.0). *)
Definition equal_heap : Heap :=
  [ mkObject false (BString (mkString 7 2 [104; 105]));
    mkObject false (BString (mkString 7 2 [104; 105]));
    mkObject false (BRange (mkRange 4607182418800017408 4611686018427387904));
    mkObject false (BRange (mkRange 4607182418800017408 4611686018427387904)) ].

(** ** The collector *)

(** The object at [p] is marked. *)
Definition marked (vm : MSVM) (p : addr) : Prop :=
  exists o, heap vm !! p = Some o /\ is_marked o = true.

(** From [vm] to [vm'] only marks were set: the heap holds the same objects
    at the same addresses, and no mark was taken back. *)
Definition marks_only (vm vm' : MSVM) : Prop :=
  length (heap vm') = length (heap vm)
  /\ forall p o, heap vm !! p = Some o ->
       exists o', heap vm' !! p = Some o' /\ obj_body o' = obj_body o
                  /\ (is_marked o = true -> is_marked o' = true).

(** The objects that are not marked, counted. *)
Definition unmarked (vm : MSVM) : nat :=
  length (List.filter (fun o => negb (is_marked o)) (heap vm)).

(** The work the collector has left: the gray objects, and the objects it
    has not reached. *)
Definition gc_work (vm : MSVM) : nat := (length (gray_list vm) + unmarked vm)%nat.

(** A step of the collector: marks only, whatever is new on the gray list is
    marked, and the work left has not grown. *)
Definition gc_step (vm vm' : MSVM) : Prop :=
  marks_only vm vm'
  /\ (forall p, p ∈ gray_list vm' -> p ∈ gray_list vm \/ marked vm' p)
  /\ (gc_work vm' <= gc_work vm)%nat.

(** Every object on the gray list is marked. *)
Definition gray_marked (vm : MSVM) : Prop :=
  forall p, p ∈ gray_list vm -> marked vm p.

(** The object a value refers to, [AS_OBJ] of an object value. *)
Definition obj_ref (v : Var) : option addr :=
  match v with VAR_OBJ p => Some p | _ => None end.

(** The references a list of values holds. *)
Definition refs (l : list Var) : list addr := omap obj_ref l.

(** A VM whose heap holds a List of two Strings and a number, the Strings,
    and a Script whose body is the Function after it; the List and the
    Script are marked and gray. *)
Definition gc_vm : MSVM :=
  mkVM [ mkObject true
           (BList (mkList (mkBuffer [VAR_OBJ 1%nat; VAR_NUM 0; VAR_OBJ 2%nat] 4)));
         mkObject false (BString (mkString 0 1 [97]));
         mkObject false (BString (mkString 0 1 [98]));
         mkObject true
           (BScript (mkScript None bufferInit bufferInit
                              (mkBuffer [VAR_OBJ 1%nat] 8) (mkBuffer [4%nat] 8)
                              bufferInit bufferInit (Some 4%nat)));
         mkObject false
           (BFunc (mkFunction (CStr []) (Some 3%nat) None false
                              (Some (mkFn bufferInit bufferInit 0)))) ]
       [0%nat; 3%nat] 8 0.

(** The references that [blackenObject] follows from a List, a Script and a
    Function.  (A String and a Range hold none; what it follows from a Map
    is another matter: it stops at the first [count] slots.) *)
Definition children (b : ObjectBody) : list addr :=
  match b with
  | BList l => refs (data (elements l))
  | BScript s =>
      refs (data (globals s)) ++ data (global_names s) ++ refs (data (literals s))
      ++ data (functions s) ++ data (function_names s) ++ data (names s)
      ++ option_list (body s)
  | BFunc f => option_list (owner f)
  | _ => []
  end.

(** ** Statements and expressions *)

(** [continue], a line feed. *)
Definition program_continue : list ascii :=
  list_ascii_of_string "continue" ++ [NEWLINE].

(** [return], a line feed. *)
Definition program_return : list ascii :=
  list_ascii_of_string "return" ++ [NEWLINE].

(** [1 not 2], a line feed. *)
Definition program_not_infix : list ascii :=
  list_ascii_of_string "1 not 2" ++ [NEWLINE].

(** [native f()], [1], each with a line feed. *)
Definition program_native_then_literal : list ascii :=
  list_ascii_of_string "native f()" ++ [NEWLINE] ++ list_ascii_of_string "1" ++ [NEWLINE].

(** The compiler after the [native] declaration of that program, on the
    sample platform. *)
Definition after_native : res Compiler :=
  do c0 <- statement_start program_native_then_literal;
  do (_, p) <- match_ (P := sample_platform) (parser c0) TK_NATIVE;
  compileFunction (P := sample_platform) 5 (set_parser c0 p) true.

(** The compiler as [compileSource] has it on the sample platform when the
    first statement starts. *)
Definition source_start (src : list ascii) : res Compiler :=
  let compiler := compilerInit blank_compiler empty_vm src EmptyString in
  do (script, v) <- newScript (P := sample_platform) empty_vm;
  let compiler := set_compiler_vm compiler v in
  let compiler := set_script compiler (Some script) in
  do scr <- get_script v script;
  let compiler := set_function compiler (body scr) in
  do compiler <- on_parser compiler (lexToken (P := sample_platform));
  do compiler <- on_parser compiler (lexToken (P := sample_platform));
  on_parser compiler (skipNewLines (P := sample_platform)).

(** [7], a line feed. *)
Definition program_literal : list ascii := list_ascii_of_string "7" ++ [NEWLINE].

(** The compiler on the sample platform when [parsePrecedence] has shifted
    that literal into [previous]. *)
Definition at_literal : res Compiler :=
  do c <- source_start program_literal;
  on_parser c (lexToken (P := sample_platform)).

(** ** The lexer's position *)

(** The position is in the source or on the NUL that ends it. *)
Definition inside (p : Parser) : Prop :=
  (current_char p <= length (source p))%nat.

(** The same source, and a position that has not gone back nor past the NUL. *)
Definition advance (p p' : Parser) : Prop :=
  source p' = source p
  /\ (current_char p <= current_char p' <= length (source p))%nat.

(** The token type of an identifier by its spelling: the keyword that has
    exactly these characters, a name if there is none. *)
Definition keyword_or_name (name : list ascii) : TokenType :=
  match find (fun kw => String.eqb (fst kw) (string_of_list_ascii name)) _keywords with
  | Some (_, tk) => tk
  | None => TK_NAME
  end.

Definition name_char (c : ascii) : bool := utilIsName c || utilIsDigit c.

(** [iffy = 1]: an identifier that starts like a keyword. *)
Definition source_iffy : list ascii := list_ascii_of_string "iffy = 1".

(** [1..3]: a number, the range operator, a number. *)
Definition source_range : list ascii := list_ascii_of_string "1..3".

(** ** Lists

    [listInsert] and [listRemoveAt] of [var.c].  The [vm] argument serves
    the allocator and the temporary reference that keeps [value] alive
    while the buffer grows; neither touches the elements, and it is left
    out. *)

(** [data[i]] of a buffer of values, read: a live element below [count];
    past the live elements there is nothing that was written. *)
Definition varLoad (b : Buffer Var) (i : Z) : res Var :=
  if (0 <=? i) && (i <? count b) then of_option OutOfBounds (data b !! Z.to_nat i)
  else UB OutOfBounds.

(** [data[i] = x]: as for the byte buffer, a store between [count] and
    [capacity] lands in the unused rest of the block. *)
Definition varStore (b : Buffer Var) (i : Z) (x : Var) : res (Buffer Var) :=
  if (0 <=? i) && (i <? count b) then
    Ok (mkBuffer (<[Z.to_nat i := x]> (data b)) (capacity b))
  else if (0 <=? i) && (i <? capacity b) then Ok b
  else UB OutOfBounds.

(** [for (uint32_t i = count - 1; i > index; i--) data[i] = data[i - 1];]
    from the round in which the counter is [i]. *)
Fixpoint listInsert_shift (fuel : nat) (b : Buffer Var) (i index : Z)
    : res (Buffer Var) :=
  match fuel with
  | O => OutOfFuel
  | S fuel' =>
      if i >? index then
        do x <- varLoad b (i - 1);
        do b <- varStore b i x;
        listInsert_shift fuel' b (u32 (i - 1)) index
      else Ok b
  end.

Definition listInsert (self : ListObj) (index : Z) (value : Var) : res ListObj :=
  let els := bufferWrite (elements self) VAR_NULL in
  do els <- listInsert_shift (Z.to_nat (count els)) els (u32 (count els - 1)) index;
  do els <- varStore els index value;
  Ok (mkList els).

(** [for (uint32_t i = index; i < count - 1; i++) data[i] = data[i + 1];]
    from the round in which the counter is [i]. *)
Fixpoint listRemoveAt_shift (fuel : nat) (b : Buffer Var) (i : Z) : res (Buffer Var) :=
  match fuel with
  | O => OutOfFuel
  | S fuel' =>
      if i <? u32 (count b - 1) then
        do x <- varLoad b (i + 1);
        do b <- varStore b i x;
        listRemoveAt_shift fuel' b (u32 (i + 1))
      else Ok b
  end.

(** The block is made smaller when half of it still holds [count]
    elements; [count--] then drops the last element. *)
Definition listRemoveAt (self : ListObj) (index : Z) : res (ListObj * Var) :=
  let els := elements self in
  do removed <- varLoad els index;
  do els <- listRemoveAt_shift (Z.to_nat (count els)) els index;
  let els :=
    if capacity els / GROW_FACTOR >=? count els
    then mkBuffer (data els) (capacity els / GROW_FACTOR)
    else els in
  Ok (mkList (mkBuffer (removelast (data els)) (capacity els)), removed).

(** A list of three numbers in a block of four. *)
Definition three_list : ListObj :=
  mkList (mkBuffer [VAR_NUM 1; VAR_NUM 2; VAR_NUM 3] 4).

(** * The sample platform at work *)

Example sample_strtod_one :
  fst (sample_strtod (list_ascii_of_string "1")) = 4607182418800017408.
Proof. reflexivity. Qed.

Example sample_strtod_half :
  fst (sample_strtod (list_ascii_of_string "0.5 ")) = 4602678819172646912.
Proof. reflexivity. Qed.

Example sample_strtod_pi :
  fst (sample_strtod (list_ascii_of_string "3.14")) = 4614253070214989086.
Proof. vm_compute. reflexivity. Qed.

(** * Values: [same] and [equal] *)

Lemma Var_eqb_refl v : Var_eqb v v = true.
Proof.
  destruct v; simpl; auto using Z.eqb_refl, Nat.eqb_refl.
  by destruct b.
Qed.

Lemma Var_eqb_eq a b : Var_eqb a b = true <-> a = b.
Proof.
  split; [|intros ->; apply Var_eqb_refl].
  destruct a, b; simpl; try discriminate; auto.
  - intros H. apply Bool.eqb_prop in H. by subst.
  - intros H. apply Z.eqb_eq in H. by subst.
  - intros H. apply Nat.eqb_eq in H. by subst.
Qed.

Lemma Var_eqb_obj p q : Var_eqb (VAR_OBJ p) (VAR_OBJ q) = Nat.eqb p q.
Proof. reflexivity. Qed.



(** * Maps: the entry invariant *)

Section C1.
Context {P : Platform}.

Lemma mod8_cases (z : Z) :
  let s := z mod 8 in
  s = 0 \/ s = 1 \/ s = 2 \/ s = 3 \/ s = 4 \/ s = 5 \/ s = 6 \/ s = 7.
Proof. intros s. pose proof (Z.mod_pos_bound z 8 eq_refl). lia. Qed.

Lemma c1_resize (h : Heap) : _mapResize stale_block h newMap 8 = Ok c1_table.
Proof. reflexivity. Qed.

Lemma c1_insert (h : Heap) :
  exists m', _mapInsertEntry h c1_table (VAR_NUM 1) (VAR_NUM 2) = Ok (m', true)
             /\ ~ entries_ok (set_count m' (u32 (map_count m' + 1))).
Proof.
  unfold _mapInsertEntry, _mapFindEntry, _hashVar.
  change (map_capacity c1_table =? 0) with false. cbv iota.
  change (map_capacity c1_table) with 8.
  cbn [res_bind]. cbv zeta.
  destruct (mod8_cases (u32 (utilHashBits (VAR_NUM 1)))) as [H|[H|[H|[H|[H|[H|[H|H]]]]]]];
    rewrite H; eexists; (split; [reflexivity|]); intros Hok.
  - specialize (Hok 1%nat _ eq_refl). discriminate.
  - specialize (Hok 2%nat _ eq_refl). discriminate.
  - specialize (Hok 1%nat _ eq_refl). discriminate.
  - specialize (Hok 1%nat _ eq_refl). discriminate.
  - specialize (Hok 1%nat _ eq_refl). discriminate.
  - specialize (Hok 1%nat _ eq_refl). discriminate.
  - specialize (Hok 1%nat _ eq_refl). discriminate.
  - specialize (Hok 1%nat _ eq_refl). discriminate.
Qed.

End C1.

(** C1 (code bug).  The first [mapSet] on a new map, when the block the
    allocator hands out holds stale words: the call returns, and the map has
    entries whose key is undefined and whose value is not a boolean.
    [_mapResize] clears slot 0 only. *)
Theorem mapSet_leaves_uncleared_slots :
  forall (P : Platform) (h : Heap),
  exists m', mapSet stale_block h newMap (VAR_NUM 1) (VAR_NUM 2) = Ok m'
             /\ ~ entries_ok m'.
Proof.
  intros P h.
  destruct (c1_insert h) as (m' & Hins & Hbad).
  exists (set_count m' (u32 (map_count m' + 1))). split; [|exact Hbad].
  change (mapSet stale_block h newMap (VAR_NUM 1) (VAR_NUM 2))
    with (do self <- _mapResize stale_block h newMap 8;
          do (self, added) <- _mapInsertEntry h self (VAR_NUM 1) (VAR_NUM 2);
          if added : bool then Ok (set_count self (u32 (map_count self + 1))) else Ok self).
  rewrite c1_resize. cbn [res_bind]. rewrite Hins. reflexivity.
Qed.

(** * The collector: blackening a map *)

(** C3 (code bug).  A map with a single live entry that sits in any slot but
    the first: blackening the map grays neither the key nor the value of
    that entry.  The loop of [blackenObject] runs over the first [count]
    slots of the entry array, not over its [capacity] slots. *)
Theorem blackenObject_misses_live_entry :
  forall (P : Platform) (i : nat), (1 <= i < 8)%nat ->
  entries (c3_map i) !! i = Some (mkEntry (VAR_OBJ 1%nat) (VAR_OBJ 2%nat)) /\
  exists vm', blackenObject 0%nat (c3_vm i) = Ok vm'
              /\ gray_list vm' = []
              /\ heap vm' = heap (c3_vm i).
Proof.
  intros P i Hi.
  assert (i = 1 \/ i = 2 \/ i = 3 \/ i = 4 \/ i = 5 \/ i = 6 \/ i = 7)%nat
    as [->|[->|[->|[->|[->|[->| ->]]]]]] by lia;
    (split; [reflexivity|]); eexists; (split; [reflexivity|]); split; reflexivity.
Qed.

Lemma blackenObject_misses_live_entry_witness :
  exists vm', blackenObject (P := sample_platform) 0%nat (c3_vm 3) = Ok vm'
              /\ gray_list vm' = [].
Proof.
  destruct (blackenObject_misses_live_entry sample_platform 3%nat ltac:(lia))
    as (_ & vm' & H1 & H2 & _).
  exists vm'. split; assumption.
Defined.

(** * Maps: removing a key *)

Section Probing.
Context {P : Platform}.

Lemma _mapFindEntry_loop_S fuel h self k start index tomb :
  _mapFindEntry_loop (S fuel) h self k start index tomb =
  do entry <- of_option OutOfBounds (entries self !! Z.to_nat index);
  if IS_UNDEF (key entry) then
    if IS_TRUE (value entry) then
      probe_next fuel h self k start index
        (match tomb with None => Some (Z.to_nat index) | Some _ => tomb end)
    else Ok (false, Some (match tomb with Some t => t | None => Z.to_nat index end))
  else
    do eq <- isValuesEqual h (key entry) k;
    if eq then Ok (true, Some (Z.to_nat index))
    else probe_next fuel h self k start index tomb.
Proof. reflexivity. Qed.

Lemma plain_lookup (T : list MapEntry) i e :
  plain T -> T !! i = Some e -> plain_entry e = true.
Proof.
  intros Hplain Hi. unfold plain in Hplain. rewrite forallb_forall in Hplain.
  apply Hplain. apply list_elem_of_In. eapply list_elem_of_lookup_2. exact Hi.
Qed.

Lemma isValuesEqual_numbers h y x :
  isValuesEqual h (VAR_NUM y) (VAR_NUM x) = Ok (y =? x).
Proof. unfold isValuesEqual, isValuesSame. simpl. by destruct (y =? x). Qed.

Section Table.
Variables (h : Heap) (T : list MapEntry) (cap cnt x : Z).
Hypothesis Hcap : 0 < cap < 4294967296.
Hypothesis Hlen : length T = Z.to_nat cap.
Hypothesis Hplain : plain T.

Lemma _mapFindEntry_loop_plain (fuel : nat) :
  forall (j start : Z) (tomb : option nat),
    0 <= start < cap -> 0 <= j -> Z.of_nat fuel = cap - j -> (0 < fuel)%nat ->
    free_slot T tomb ->
    found_or_free T x
      (_mapFindEntry_loop fuel h (mkMap cap cnt T) (VAR_NUM x) start
                          ((start + j) mod cap) tomb).
Proof.
  induction fuel as [|fuel IH]; intros j start tomb Hs Hj Hf Hpos Htomb; [lia|].
  assert (Hnext : forall tomb', free_slot T tomb' ->
            found_or_free T x
              (probe_next fuel h (mkMap cap cnt T) (VAR_NUM x) start
                          ((start + j) mod cap) tomb')).
  { intros tomb' Ht'. unfold probe_next. cbv zeta. cbn [map_capacity].
    pose proof (Z.mod_pos_bound (start + j) cap ltac:(lia)) as Hb.
    assert (Hu : u32 ((start + j) mod cap + 1) = (start + j) mod cap + 1).
    { unfold u32. apply Z.mod_small. lia. }
    rewrite Hu.
    assert (Hi : ((start + j) mod cap + 1) mod cap = (start + (j + 1)) mod cap).
    { rewrite Z.add_mod_idemp_l by lia. f_equal. lia. }
    rewrite Hi.
    destruct ((start + (j + 1)) mod cap =? start) eqn:Heq.
    - destruct tomb'; simpl; auto.
    - apply Z.eqb_neq in Heq.
      assert (fuel <> 0%nat).
      { intros ->. apply Heq.
        replace (start + (j + 1)) with (start + 1 * cap) by lia.
        rewrite Z.mod_add by lia. apply Z.mod_small. lia. }
      apply IH; auto; lia. }
  rewrite _mapFindEntry_loop_S.
  pose proof (Z.mod_pos_bound (start + j) cap ltac:(lia)) as Hb.
  destruct (lookup_lt_is_Some_2 T (Z.to_nat ((start + j) mod cap))) as [e He].
  { rewrite Hlen. lia. }
  cbn [entries]. rewrite He. cbn [of_option res_bind].
  pose proof (plain_lookup _ _ _ Hplain He) as Hp. unfold plain_entry in Hp.
  destruct (key e) as [| |b|y|p] eqn:Hk; try discriminate Hp; cbn [IS_UNDEF].
  - destruct (IS_TRUE (value e)).
    + apply Hnext. destruct tomb; simpl; eauto.
    + destruct tomb as [t|]; simpl; eauto.
  - rewrite isValuesEqual_numbers.
    cbn [res_bind]. destruct (y =? x) eqn:Hyx.
    + apply Z.eqb_eq in Hyx. subst y. simpl. eauto.
    + apply Hnext, Htomb.
Qed.

Lemma _mapFindEntry_plain :
  found_or_free T x (_mapFindEntry h (mkMap cap cnt T) (VAR_NUM x)).
Proof.
  unfold _mapFindEntry. cbn [map_capacity].
  destruct (cap =? 0) eqn:H0; [apply Z.eqb_eq in H0; lia|].
  cbn [_hashVar res_bind]. cbv zeta.
  set (start := u32 (utilHashBits (VAR_NUM x)) mod cap).
  pose proof (Z.mod_pos_bound (u32 (utilHashBits (VAR_NUM x))) cap ltac:(lia)) as Hb.
  fold start in Hb.
  replace start with ((start + 0) mod cap) at 2.
  2:{ rewrite Z.add_0_r. apply Z.mod_small. lia. }
  apply _mapFindEntry_loop_plain; simpl; auto; lia.
Qed.

(** Inserting a number that is not in the table: the entry lands in a slot
    whose key was undefined, or there is no slot to take and the code writes
    through a NULL pointer. *)
Lemma _mapInsertEntry_plain (v : Var) :
  x ∉ number_keys T ->
  _mapInsertEntry h (mkMap cap cnt T) (VAR_NUM x) v = UB NullDeref \/
  exists j e, T !! j = Some e /\ key e = VAR_UNDEFINED /\
    _mapInsertEntry h (mkMap cap cnt T) (VAR_NUM x) v
    = Ok (mkMap cap cnt (<[j := mkEntry (VAR_NUM x) v]> T), true).
Proof.
  intros Hx. pose proof _mapFindEntry_plain as Hf. unfold _mapInsertEntry.
  destruct (_mapFindEntry h (mkMap cap cnt T) (VAR_NUM x)) as [[[] [j|]]| |];
    simpl in Hf; try contradiction.
  - destruct Hf as (e & He & Hk). exfalso. apply Hx.
    unfold number_keys. apply list_elem_of_omap. exists e. split.
    + eapply list_elem_of_lookup_2; eauto.
    + unfold number_key. by rewrite Hk.
  - destruct Hf as (e & He & Hk). right. exists j, e. repeat split; auto.
    cbn [res_bind of_option entries]. rewrite He. reflexivity.
  - left. reflexivity.
Qed.

End Table.
End Probing.

Lemma number_keys_length_le (l : list MapEntry) :
  (length (number_keys l) <= length l)%nat.
Proof.
  induction l as [|e l IH]; simpl; [lia|].
  unfold number_keys in *. simpl. destruct (number_key e); simpl; lia.
Qed.

(** Overwriting one entry trades its number for the number of the new one. *)
Lemma number_keys_insert (l : list MapEntry) (j : nat) (e e' : MapEntry) :
  l !! j = Some e ->
  option_list (number_key e) ++ number_keys (<[j := e']> l)
  ≡ₚ option_list (number_key e') ++ number_keys l.
Proof.
  revert j. induction l as [|a l IH]; intros j Hj; [discriminate|].
  destruct j as [|j]; simpl in *.
  - injection Hj as ->. unfold number_keys. simpl.
    destruct (number_key e), (number_key e'); simpl; auto.
    apply perm_swap.
  - specialize (IH j Hj). unfold number_keys in *. simpl.
    destruct (number_key a) as [y|]; simpl; auto.
    rewrite <- !Permutation_middle. by constructor.
Qed.

Lemma plain_insert (l : list MapEntry) (j : nat) (e : MapEntry) :
  plain l -> plain_entry e = true -> plain (<[j := e]> l).
Proof.
  unfold plain. revert j. induction l as [|a l IH]; intros j Hl He; [done|].
  simpl in Hl. apply andb_prop in Hl as [Ha Hl].
  destruct j; simpl; rewrite ?Ha, ?He; simpl; auto.
Qed.

Section Overflow.
Context {P : Platform}.
Variable h : Heap.

Lemma for_loop_S {S : Type} (n : nat) (body : nat -> S -> res S) (i : nat) (s : S) :
  for_loop (Datatypes.S n) body i s = do s' <- body i s; for_loop n body (Datatypes.S i) s'.
Proof. reflexivity. Qed.

(** Re-inserting more distinct numbers than the new table has slots ends in
    the write through the NULL pointer. *)
Lemma reinsert_overflows (rest : list MapEntry) :
  forall (pre T : list MapEntry) (cap cnt : Z),
    0 < cap < 4294967296 -> length T = Z.to_nat cap ->
    plain T -> plain rest ->
    NoDup (number_keys rest) ->
    (forall y, y ∈ number_keys rest -> y ∉ number_keys T) ->
    (length T < length (number_keys T) + length (number_keys rest))%nat ->
    for_loop (length rest) (reinsert h (pre ++ rest)) (length pre) (mkMap cap cnt T)
    = UB NullDeref.
Proof.
  induction rest as [|e rest IH]; intros pre T cap cnt Hcap Hlen HT Hrest Hnd Hdis Hmany.
  - simpl in Hmany. pose proof (number_keys_length_le T). lia.
  - cbn [length]. rewrite for_loop_S. unfold reinsert at 1.
    rewrite lookup_app_r by lia. rewrite Nat.sub_diag. cbn [lookup list_lookup of_option res_bind].
    assert (Hpre : pre ++ e :: rest = (pre ++ [e]) ++ rest) by (by rewrite <- app_assoc).
    assert (Hlpre : S (length pre) = length (pre ++ [e])) by (rewrite length_app; simpl; lia).
    unfold plain in Hrest. simpl in Hrest. apply andb_prop in Hrest as [He Hrest].
    unfold plain_entry in He.
    destruct (key e) as [| |b|x|p] eqn:Hk; try discriminate He; cbn [IS_UNDEF].
    + cbn [res_bind]. rewrite Hpre, Hlpre. apply IH; auto.
      all: unfold number_keys in *; simpl in *; unfold number_key in *; rewrite Hk in *; auto.
    + assert (Hkeys : number_keys (e :: rest) = x :: number_keys rest).
      { unfold number_keys. simpl. unfold number_key at 1. by rewrite Hk. }
      rewrite Hkeys in *. apply NoDup_cons in Hnd as [Hx Hnd].
      destruct (_mapInsertEntry_plain h T cap cnt x Hcap Hlen HT (value e)) as [Hub|(j & e0 & Hj & Hk0 & Hins)].
      * apply Hdis. left.
      * by rewrite Hub.
      * rewrite Hins. cbn [res_bind]. rewrite Hpre, Hlpre.
        pose proof (number_keys_insert T j e0 (mkEntry (VAR_NUM x) (value e)) Hj) as Hperm.
        unfold number_key at 1 2 in Hperm. rewrite Hk0 in Hperm. simpl in Hperm.
        apply IH; auto.
        -- by rewrite length_insert.
        -- by apply plain_insert.
        -- intros y Hy. rewrite Hperm. intros [->|Hin]%elem_of_cons; [done|].
           eapply Hdis; [right; exact Hy|exact Hin].
        -- rewrite length_insert. rewrite Hperm. simpl in *. lia.
Qed.

End Overflow.

Lemma _mapResize_clean {P : Platform} (h : Heap) (self : Map) :
  _mapResize clean_block h self 8 =
  for_loop (Z.to_nat (map_capacity self)) (reinsert h (entries self)) 0%nat
           (mkMap 8 (map_count self) (replicate 8 (mkEntry VAR_UNDEFINED VAR_FALSE))).
Proof. reflexivity. Qed.

(** C10 (code bug).  A map of capacity 16 whose live keys are ten or more
    distinct numbers, and a key that is present: [mapRemoveKey] does not
    return.  It halves the capacity whenever [count / 75 * 100] is below it,
    which for fewer than 75 entries is always, and re-inserting the nine or
    more entries that remain into 8 slots ends in a write through NULL. *)
Theorem mapRemoveKey_shrinks_below_count :
  forall (P : Platform) (h : Heap) (m : Map) (x : Z) (i : nat),
    map_capacity m = 16 -> length (entries m) = 16%nat ->
    plain (entries m) -> NoDup (number_keys (entries m)) ->
    (10 <= length (number_keys (entries m)))%nat ->
    map_count m = Z.of_nat (length (number_keys (entries m))) ->
    _mapFindEntry h m (VAR_NUM x) = Ok (true, Some i) ->
    mapRemoveKey clean_block h m (VAR_NUM x) = UB NullDeref.
Proof.
  intros P h [cap cnt T] x i Hcap Hlen Hplain Hnd Hlive Hcnt Hfind.
  cbn [map_capacity map_count entries] in *. subst cap.
  pose proof (_mapFindEntry_plain h T 16 cnt x ltac:(lia) Hlen Hplain) as Hf.
  rewrite Hfind in Hf. destruct Hf as (e & He & Hk).
  pose proof (number_keys_length_le T) as Hle.
  unfold mapRemoveKey. rewrite Hfind.
  cbn [res_bind negb of_option entries]. rewrite He. cbn [res_bind]. cbv zeta.
  set (old := <[i := mkEntry VAR_UNDEFINED VAR_TRUE]> T).
  unfold set_count, set_entries. cbn [map_capacity map_count entries].
  assert (Hu : u32 (cnt - 1) = cnt - 1) by (unfold u32; apply Z.mod_small; lia).
  rewrite Hu.
  destruct (cnt - 1 =? 0) eqn:H0; [apply Z.eqb_eq in H0; lia|].
  assert (Hdiv : (cnt - 1) / MAP_LOAD_PERCENT = 0)
    by (apply Z.div_small; unfold MAP_LOAD_PERCENT; lia).
  rewrite Hdiv.
  change ((16 >? MIN_CAPACITY) && (16 / GROW_FACTOR >? u32 (0 * 100))) with true.
  cbv iota.
  change (if 16 / GROW_FACTOR <? MIN_CAPACITY then MIN_CAPACITY else 16 / GROW_FACTOR)
    with 8.
  rewrite _mapResize_clean. cbn [map_capacity map_count entries].
  pose proof (number_keys_insert T i e (mkEntry VAR_UNDEFINED VAR_TRUE) He) as Hperm.
  fold old in Hperm. unfold number_key in Hperm. rewrite Hk in Hperm.
  cbn [key option_list app] in Hperm.
  assert (Hold : length old = 16%nat) by (unfold old; by rewrite length_insert).
  replace (Z.to_nat 16) with (length old) by (rewrite Hold; reflexivity).
  replace (for_loop (length old) (reinsert h old) 0%nat)
    with (for_loop (length old) (reinsert h ([] ++ old)) (length (@nil MapEntry)))
    by reflexivity.
  rewrite <- Hperm in Hnd. apply NoDup_cons in Hnd as [_ Hnd].
  assert (Hlen' : length (number_keys T) = S (length (number_keys old))).
  { by rewrite <- Hperm. }
  rewrite (reinsert_overflows h old [] _ 8 (cnt - 1)); auto; try reflexivity.
  - lia.
  - unfold old. apply plain_insert; auto.
  - intros y _ Hy. simpl in Hy. by apply elem_of_nil in Hy.
  - simpl. lia.
Qed.

Lemma c10_map_built :
  mapSetAll (P := sample_platform) clean_block [] twelve_keys newMap = Ok c10_map.
Proof. vm_compute. reflexivity. Qed.

Lemma mapRemoveKey_shrinks_below_count_witness :
  mapRemoveKey (P := sample_platform) clean_block [] c10_map (VAR_NUM 0) = UB NullDeref.
Proof.
  apply (mapRemoveKey_shrinks_below_count sample_platform [] c10_map 0 0%nat).
  - reflexivity.
  - reflexivity.
  - reflexivity.
  - apply (bool_decide_unpack _). vm_compute. exact I.
  - vm_compute. lia.
  - reflexivity.
  - vm_compute. reflexivity.
Defined.

(** What does hold of [mapRemoveKey]: a key that [_mapFindEntry] does not
    find gives null and leaves the map as it is. *)
Lemma mapRemoveKey_absent {P : Platform} (mem : nat -> MapEntry) (h : Heap) (m : Map)
    (k : Var) (r : option nat) :
  _mapFindEntry h m k = Ok (false, r) -> mapRemoveKey mem h m k = Ok (m, VAR_NULL).
Proof. intros Hf. unfold mapRemoveKey. rewrite Hf. reflexivity. Qed.

(** * Lexing string literals *)

Section StringLexing.
Context {P : Platform}.

Lemma char_at_drop (p : Parser) (n : nat) (c : ascii) (rest : list ascii) :
  drop n (source p) = c :: rest -> char_at p n = Ok c.
Proof.
  intros H. unfold char_at.
  assert (source p !! n = Some c) as ->; [|done].
  rewrite <- (Nat.add_0_r n), <- lookup_drop, H. reflexivity.
Qed.

Lemma char_at_end (p : Parser) (n : nat) :
  drop n (source p) = [] -> (n <= length (source p))%nat -> char_at p n = Ok NUL.
Proof.
  intros H Hn. unfold char_at.
  assert (n = length (source p)) as ->.
  { apply (f_equal length) in H. rewrite length_drop in H. simpl in H. lia. }
  rewrite lookup_ge_None_2 by lia. by rewrite Nat.eqb_refl.
Qed.

Lemma drop_tail (l : list ascii) (n : nat) (c : ascii) (rest : list ascii) :
  drop n l = c :: rest -> drop (S n) l = rest.
Proof.
  intros H. replace (S n) with (n + 1)%nat by lia.
  rewrite <- drop_drop, H. reflexivity.
Qed.

(** [eatChar] at a position where the source goes on with [c]. *)
Lemma eatChar_at (p : Parser) (n : nat) (line : Z) (c : ascii) (rest : list ascii) :
  drop n (source p) = c :: rest ->
  eatChar (set_position p n line)
  = Ok (c, set_position p (S n) (if Ascii.eqb c NEWLINE then line + 1 else line)).
Proof.
  intros H. unfold eatChar, peekChar.
  change (current_char (set_position p n line)) with n.
  rewrite (char_at_drop (set_position p n line) n c rest H). reflexivity.
Qed.

(** One round of the loop over one well-formed piece. *)
Lemma eatString_round_item (p : Parser) (n : nat) (line : Z) (buff : Buffer Z)
    (it : StrItem) (rest : list ascii) :
  item_ok it = true ->
  drop n (source p) = item_text it ++ rest ->
  eatString_round (set_position p n line) buff
  = Ok (Continue (set_position p (n + length (item_text it)) (line + item_lines it),
                  bufferWrite buff (item_byte it))).
Proof.
  intros Hok Hsrc. unfold eatString_round. destruct it as [c|e]; simpl in Hsrc.
  - rewrite (eatChar_at p n line c rest Hsrc). cbn [res_bind].
    simpl in Hok. apply andb_prop in Hok as [Hok Hb]. apply andb_prop in Hok as [Hq Hn].
    apply negb_true_iff in Hq, Hn, Hb. unfold BACKSLASH in Hb.
    rewrite Hq, Hn, Hb. cbn [item_text length item_lines item_byte].
    replace (n + 1)%nat with (S n) by lia.
    destruct (Ascii.eqb c NEWLINE); rewrite ?Z.add_0_r; reflexivity.
  - rewrite (eatChar_at p n line BACKSLASH (e :: rest) Hsrc). cbn [res_bind].
    change (Ascii.eqb BACKSLASH DQUOTE) with false.
    change (Ascii.eqb BACKSLASH NUL) with false.
    change (Ascii.eqb BACKSLASH "\"%char) with true.
    change (Ascii.eqb BACKSLASH NEWLINE) with false. cbv iota.
    rewrite (eatChar_at p (S n) line e rest (drop_tail _ _ _ _ Hsrc)). cbn [res_bind].
    simpl in Hok. unfold item_byte, escape_byte in *. unfold BACKSLASH in *.
    cbn [item_text length item_lines].
    replace (n + 2)%nat with (S (S n)) by lia. rewrite Z.add_0_r.
    destruct (Ascii.eqb e DQUOTE) eqn:E1.
    { apply Ascii.eqb_eq in E1. subst e. reflexivity. }
    destruct (Ascii.eqb e "\"%char) eqn:E2.
    { apply Ascii.eqb_eq in E2. subst e. reflexivity. }
    destruct (Ascii.eqb e "n"%char) eqn:E3.
    { apply Ascii.eqb_eq in E3. subst e. reflexivity. }
    destruct (Ascii.eqb e "r"%char) eqn:E4.
    { apply Ascii.eqb_eq in E4. subst e. reflexivity. }
    destruct (Ascii.eqb e "t"%char) eqn:E5.
    { apply Ascii.eqb_eq in E5. subst e. reflexivity. }
    discriminate Hok.
Qed.

(** The loop over a run of well-formed pieces. *)
Lemma eatString_loop_items (p : Parser) (items : list StrItem) :
  forall (n : nat) (line : Z) (buff : Buffer Z) (rest : list ascii) (fuel : nat),
    forallb item_ok items = true ->
    drop n (source p) = items_text items ++ rest ->
    eatString_loop (length items + fuel) (set_position p n line) buff
    = eatString_loop fuel
        (set_position p (n + length (items_text items)) (line + items_lines items))
        (fold_left bufferWrite (items_bytes items) buff).
Proof.
  induction items as [|it items IH]; intros n line buff rest fuel Hok Hsrc.
  - simpl. unfold items_text, items_lines. simpl. by rewrite Nat.add_0_r, Z.add_0_r.
  - simpl in Hok. apply andb_prop in Hok as [Hit Hok].
    unfold items_text in Hsrc. simpl in Hsrc. rewrite <- app_assoc in Hsrc.
    cbn [length Nat.add eatString_loop].
    rewrite (eatString_round_item p n line buff it _ Hit Hsrc). cbn [res_bind].
    rewrite (IH _ _ _ rest fuel Hok).
    + unfold items_text, items_lines, items_bytes. simpl.
      rewrite length_app, Nat.add_assoc, Z.add_assoc. reflexivity.
    + rewrite <- drop_drop, Hsrc, drop_app_length. reflexivity.
Qed.

End StringLexing.

Section StringTokens.
Context {P : Platform}.

Lemma set_position_id (p : Parser) :
  set_position p (current_char p) (current_line p) = p.
Proof. by destruct p. Qed.

Lemma items_text_length (items : list StrItem) :
  (length items <= length (items_text items))%nat.
Proof.
  induction items as [|it items IH]; [done|].
  unfold items_text in *. simpl. rewrite length_app.
  destruct it; simpl; lia.
Qed.

Lemma items_bytes_written (items : list StrItem) :
  forall buff : Buffer Z,
    data (fold_left bufferWrite (items_bytes items) buff) = data buff ++ items_bytes items.
Proof.
  induction items as [|it items IH]; intros buff; simpl.
  - by rewrite app_nil_r.
  - unfold items_bytes in *. rewrite IH. simpl. by rewrite <- app_assoc.
Qed.

(** A literal with its closing quote: the loop stops behind the quote with
    the bytes of the pieces in the buffer, and nothing is reported. *)
Lemma eatString_loop_closed (p : Parser) (items : list StrItem) (rest : list ascii) :
  forallb item_ok items = true ->
  drop (current_char p) (source p) = items_text items ++ DQUOTE :: rest ->
  eatString_loop (chars_left p) p bufferInit
  = Ok (set_position p (S (current_char p + length (items_text items)))
                     (current_line p + items_lines items),
        fold_left bufferWrite (items_bytes items) bufferInit).
Proof.
  intros Hok Hsrc.
  assert (Hfuel : exists k, chars_left p = (length items + S k)%nat).
  { unfold chars_left. apply (f_equal length) in Hsrc.
    rewrite length_drop, length_app in Hsrc. simpl in Hsrc.
    pose proof (items_text_length items).
    exists (S (length (source p) - current_char p) - length items)%nat. lia. }
  destruct Hfuel as [k ->].
  rewrite <- (set_position_id p) at 1.
  rewrite (eatString_loop_items p items _ _ _ _ (S k) Hok Hsrc).
  cbn [eatString_loop]. unfold eatString_round.
  assert (Hq : drop (current_char p + length (items_text items)) (source p) = DQUOTE :: rest).
  { rewrite <- drop_drop, Hsrc, drop_app_length. reflexivity. }
  rewrite (eatChar_at p _ _ DQUOTE rest Hq). reflexivity.
Qed.

(** A literal that the end of the input cuts short. *)
Lemma eatString_loop_open (p : Parser) (items : list StrItem) :
  forallb item_ok items = true ->
  (current_char p <= length (source p))%nat ->
  drop (current_char p) (source p) = items_text items ->
  eatString_loop (chars_left p) p bufferInit
  = Ok (set_position
          (lexError (set_position p (S (length (source p)))
                                  (current_line p + items_lines items))
                    "Non terminated string.")
          (length (source p)) (current_line p + items_lines items),
        fold_left bufferWrite (items_bytes items) bufferInit).
Proof.
  intros Hok Hpos Hsrc.
  assert (Hlen : (current_char p + length (items_text items) = length (source p))%nat).
  { apply (f_equal length) in Hsrc. rewrite length_drop in Hsrc. lia. }
  assert (Hfuel : exists k, chars_left p = (length items + S k)%nat).
  { unfold chars_left. pose proof (items_text_length items).
    exists (S (length (source p) - current_char p) - length items)%nat. lia. }
  destruct Hfuel as [k ->].
  rewrite <- (set_position_id p) at 1.
  rewrite <- (app_nil_r (items_text items)) in Hsrc.
  rewrite (eatString_loop_items p items _ _ _ _ (S k) Hok Hsrc).
  rewrite Hlen. cbn [eatString_loop]. unfold eatString_round, eatChar, peekChar.
  change (current_char (set_position p ?n ?l)) with n.
  rewrite char_at_end.
  - reflexivity.
  - apply drop_all.
  - reflexivity.
Qed.

(** A backslash before a character that is none of the five. *)
Lemma eatString_round_bad_escape (p : Parser) (n : nat) (line : Z) (buff : Buffer Z)
    (e : ascii) (rest : list ascii) :
  escape_byte e = None ->
  drop n (source p) = BACKSLASH :: e :: rest ->
  eatString_round (set_position p n line) buff
  = Ok (Continue
          (lexError (set_position p (S (S n))
                                  (if Ascii.eqb e NEWLINE then line + 1 else line))
                    "Error: invalid escape character",
           buff)).
Proof.
  intros He Hsrc. unfold eatString_round.
  rewrite (eatChar_at p n line BACKSLASH (e :: rest) Hsrc). cbn [res_bind].
  change (Ascii.eqb BACKSLASH DQUOTE) with false.
  change (Ascii.eqb BACKSLASH NUL) with false.
  change (Ascii.eqb BACKSLASH "\"%char) with true.
  change (Ascii.eqb BACKSLASH NEWLINE) with false. cbv iota.
  rewrite (eatChar_at p (S n) line e rest (drop_tail _ _ _ _ Hsrc)). cbn [res_bind].
  unfold escape_byte, BACKSLASH in He.
  destruct (Ascii.eqb e DQUOTE); [discriminate|].
  destruct (Ascii.eqb e "\"%char); [discriminate|].
  destruct (Ascii.eqb e "n"%char); [discriminate|].
  destruct (Ascii.eqb e "r"%char); [discriminate|].
  destruct (Ascii.eqb e "t"%char); [discriminate|].
  reflexivity.
Qed.

Lemma eatString_round_keeps (p : Parser) (buff : Buffer Z) r :
  eatString_round p buff = Ok r ->
  match r with Break (p', _) | Continue (p', _) => keeps_errors p p' end.
Proof.
  unfold eatString_round, eatChar, peekChar, keeps_errors.
  destruct (char_at p (current_char p)) as [c| |]; cbn [res_bind]; try discriminate.
  destruct (Ascii.eqb c DQUOTE); [intros [= <-]; simpl; auto|].
  destruct (Ascii.eqb c NUL).
  { intros [= <-]; simpl. split; auto. intros r Hr. apply elem_of_app. by left. }
  destruct (Ascii.eqb c "\"%char); [|intros [= <-]; simpl; auto].
  match goal with |- context [char_at ?q ?n] => destruct (char_at q n) as [e| |] end;
    cbn [res_bind]; try discriminate.
  repeat match goal with
         | |- context [if Ascii.eqb e ?x then _ else _] => destruct (Ascii.eqb e x)
         end; intros [= <-]; simpl; auto.
  all: split; auto; intros r Hr; apply elem_of_app; by left.
Qed.

Lemma eatString_loop_keeps (fuel : nat) :
  forall (p : Parser) (buff : Buffer Z) p' buff',
    eatString_loop fuel p buff = Ok (p', buff') -> keeps_errors p p'.
Proof.
  induction fuel as [|fuel IH]; intros p buff p' buff' H; [discriminate|].
  cbn [eatString_loop] in H.
  destruct (eatString_round p buff) as [r| |] eqn:Hr; cbn [res_bind] in H; try discriminate.
  apply eatString_round_keeps in Hr.
  destruct r as [[q b]|[q b]].
  - injection H as <- <-. exact Hr.
  - apply IH in H. destruct Hr as [H1 H2], H as [H3 H4]. split; auto.
Qed.

End StringTokens.

Section StringTheorem.
Context {P : Platform}.

Lemma newString_of_items (v : MSVM) (items : list StrItem) :
  let buff := fold_left bufferWrite (items_bytes items) bufferInit in
  newString v (data buff) (count buff)
  = (length (heap v),
     mkVM (heap v ++ [mkObject false
                        (BString (mkString (utilHashString (c_str (items_bytes items)))
                                           (u32 (Z.of_nat (length items)))
                                           (items_bytes items)))])
          (gray_list v) (gray_list_capacity v) (bytes_allocated v)).
Proof.
  intros buff. unfold newString, allocObject, count.
  assert (Hd : data buff = items_bytes items).
  { unfold buff. by rewrite items_bytes_written. }
  rewrite Hd, Nat2Z.id, firstn_all. unfold items_bytes. rewrite length_map. reflexivity.
Qed.

Lemma eatString_closed (p : Parser) (items : list StrItem) (rest : list ascii) :
  forallb item_ok items = true ->
  drop (current_char p) (source p) = items_text items ++ DQUOTE :: rest ->
  exists p', eatString p = Ok p'
    /\ tk_type (next p') = TK_STRING
    /\ tk_value (next p') = VAR_OBJ (length (heap (vm p)))
    /\ heap (vm p')
       = heap (vm p) ++ [mkObject false
           (BString (mkString (utilHashString (c_str (items_bytes items)))
                              (u32 (Z.of_nat (length items))) (items_bytes items)))]
    /\ has_errors p' = has_errors p
    /\ reported p' = reported p.
Proof.
  intros Hok Hsrc. unfold eatString.
  rewrite (eatString_loop_closed p items rest Hok Hsrc). cbn [res_bind].
  change (vm (set_position p ?n ?l)) with (vm p).
  rewrite newString_of_items. eexists. split; [reflexivity|].
  split; [reflexivity|]. split; [reflexivity|]. split; [reflexivity|].
  split; reflexivity.
Qed.

Lemma eatString_open (p : Parser) (items : list StrItem) :
  forallb item_ok items = true ->
  (current_char p <= length (source p))%nat ->
  drop (current_char p) (source p) = items_text items ->
  exists p', eatString p = Ok p'
    /\ has_errors p' = true
    /\ reported p'
       = reported p ++ [(current_line p + items_lines items,
                         "Non terminated string."%string)].
Proof.
  intros Hok Hpos Hsrc. unfold eatString.
  rewrite (eatString_loop_open p items Hok Hpos Hsrc). cbn [res_bind].
  match goal with |- context [newString ?v ?d ?c] => destruct (newString v d c) as [s v'] end.
  eexists. split; [reflexivity|]. split; reflexivity.
Qed.

Lemma eatString_bad_escape (p : Parser) (items : list StrItem) (e : ascii)
    (rest : list ascii) (p' : Parser) :
  forallb item_ok items = true ->
  drop (current_char p) (source p) = items_text items ++ BACKSLASH :: e :: rest ->
  escape_byte e = None ->
  eatString p = Ok p' ->
  has_errors p' = true
  /\ exists line, (line, "Error: invalid escape character"%string) ∈ reported p'.
Proof.
  intros Hok Hsrc He. unfold eatString.
  destruct (eatString_loop (chars_left p) p bufferInit) as [[q buff]| |] eqn:Hloop;
    cbn [res_bind]; try discriminate.
  assert (Hfuel : exists k, chars_left p = (length items + S k)%nat).
  { unfold chars_left. apply (f_equal length) in Hsrc.
    rewrite length_drop, length_app in Hsrc. simpl in Hsrc.
    pose proof (items_text_length items).
    exists (S (length (source p) - current_char p) - length items)%nat. lia. }
  destruct Hfuel as [k Hk]. rewrite Hk in Hloop.
  rewrite <- (set_position_id p) in Hloop at 1.
  rewrite (eatString_loop_items p items _ _ _ _ (S k) Hok Hsrc) in Hloop.
  cbn [eatString_loop] in Hloop.
  assert (Hb : drop (current_char p + length (items_text items)) (source p)
               = BACKSLASH :: e :: rest).
  { rewrite <- drop_drop, Hsrc, drop_app_length. reflexivity. }
  rewrite (eatString_round_bad_escape p _ _ _ e rest He Hb) in Hloop.
  cbn [res_bind] in Hloop. apply eatString_loop_keeps in Hloop as [H1 H2].
  destruct (newString (vm q) (data buff) (count buff)) as [s v'].
  intros [= <-]. split.
  - apply H1. reflexivity.
  - eexists. cbn. apply H2. cbn. apply elem_of_app. right. apply list_elem_of_singleton.
    reflexivity.
Qed.

End StringTheorem.

Section LoosePieces.
Context {P : Platform}.

Lemma eatString_round_past (p : Parser) (buff : Buffer Z) :
  (length (source p) < current_char p)%nat ->
  eatString_round p buff = UB OutOfBounds.
Proof.
  intros H. unfold eatString_round, eatChar, peekChar, char_at.
  rewrite lookup_ge_None_2 by lia.
  destruct (Nat.eqb_spec (current_char p) (length (source p))); [lia|reflexivity].
Qed.

(** One round of the loop over one piece, well-formed or an escape that is
    none of the five: the position moves behind the piece, and what was
    reported stays reported. *)
Lemma eatString_round_piece (p : Parser) (n : nat) (line : Z) (buff : Buffer Z)
    (it : StrItem) (rest : list ascii) :
  piece_ok it = true ->
  drop n (source p) = item_text it ++ rest ->
  exists p' line' buff',
    eatString_round (set_position p n line) buff
    = Ok (Continue (set_position p' (n + length (item_text it)) line', buff'))
    /\ source p' = source p /\ current_line p' = current_line p
    /\ (exists l, reported p' = reported p ++ l).
Proof.
  intros Hok Hsrc. destruct (item_ok it) eqn:Hi.
  - rewrite (eatString_round_item p n line buff it rest Hi Hsrc).
    eexists p, _, _. split; [reflexivity|]. split; [reflexivity|].
    split; [reflexivity|]. exists []. by rewrite app_nil_r.
  - destruct it as [c|e]; [unfold piece_ok in Hok; congruence|].
    assert (He : escape_byte e = None).
    { cbn in Hi. by destruct (escape_byte e). }
    cbn [item_text] in Hsrc. cbn [app] in Hsrc.
    rewrite (eatString_round_bad_escape p n line buff e rest He Hsrc).
    exists (reportError p (path p) (if Ascii.eqb e NEWLINE then line + 1 else line)
                        "Error: invalid escape character"),
           (if Ascii.eqb e NEWLINE then line + 1 else line), buff.
    split; [|split; [reflexivity|split; [reflexivity|]]].
    + cbn [item_text length]. replace (n + 2)%nat with (S (S n)) by lia. reflexivity.
    + eexists. reflexivity.
Qed.

Lemma eatString_loop_pieces (items : list StrItem) :
  forall (p : Parser) (n : nat) (line : Z) (buff : Buffer Z) (rest : list ascii)
         (fuel : nat),
    forallb piece_ok items = true ->
    drop n (source p) = items_text items ++ rest ->
    exists p' line' buff',
      eatString_loop (length items + fuel) (set_position p n line) buff
      = eatString_loop fuel (set_position p' (n + length (items_text items)) line') buff'
      /\ source p' = source p /\ current_line p' = current_line p
      /\ (exists l, reported p' = reported p ++ l).
Proof.
  induction items as [|it items IH]; intros p n line buff rest fuel Hok Hsrc.
  - exists p, line, buff. cbn [length Nat.add]. unfold items_text. cbn.
    rewrite Nat.add_0_r. split; [reflexivity|]. split; [reflexivity|].
    split; [reflexivity|]. exists []. by rewrite app_nil_r.
  - cbn [forallb] in Hok. apply andb_prop in Hok as [Hit Hok].
    unfold items_text in Hsrc. cbn [map concat] in Hsrc. rewrite <- app_assoc in Hsrc.
    destruct (eatString_round_piece p n line buff it _ Hit Hsrc)
      as (p1 & line1 & buff1 & Hr & Hs1 & Hl1 & [l1 Hrep1]).
    cbn [length Nat.add eatString_loop]. rewrite Hr. cbn [res_bind].
    destruct (IH p1 (n + length (item_text it))%nat line1 buff1 rest fuel Hok)
      as (p2 & line2 & buff2 & Hloop & Hs2 & Hl2 & [l2 Hrep2]).
    { rewrite Hs1, <- drop_drop, Hsrc, drop_app_length. reflexivity. }
    exists p2, line2, buff2. split; [|split; [congruence|split; [congruence|]]].
    + rewrite Hloop. unfold items_text. cbn [map concat]. rewrite length_app.
      by rewrite Nat.add_assoc.
    + exists (l1 ++ l2). by rewrite Hrep2, Hrep1, app_assoc.
Qed.

Lemma pieces_fuel (p : Parser) (items : list StrItem) (tail : list ascii) :
  drop (current_char p) (source p) = items_text items ++ tail ->
  exists k, chars_left p = (length items + (length tail + S (S k)))%nat.
Proof.
  intros Hsrc. unfold chars_left. pose proof (items_text_length items).
  pose proof (f_equal length Hsrc) as Hl. rewrite length_drop, length_app in Hl.
  exists (length (source p) - current_char p - length items - length tail)%nat. lia.
Qed.

(** A literal that the end of the input cuts short, whatever its escapes:
    the loop ends on the NUL with the error reported last. *)
Lemma eatString_open_pieces (p : Parser) (items : list StrItem) :
  forallb piece_ok items = true ->
  (current_char p <= length (source p))%nat ->
  drop (current_char p) (source p) = items_text items ->
  exists p', eatString p = Ok p'
    /\ has_errors p' = true
    /\ exists l line,
         reported p' = reported p ++ l ++ [(line, "Non terminated string."%string)].
Proof.
  intros Hok Hpos Hsrc.
  assert (Hlen : (current_char p + length (items_text items) = length (source p))%nat).
  { apply (f_equal length) in Hsrc. rewrite length_drop in Hsrc. lia. }
  rewrite <- (app_nil_r (items_text items)) in Hsrc.
  destruct (pieces_fuel p items [] Hsrc) as [k Hk]. cbn [length Nat.add] in Hk.
  unfold eatString. rewrite Hk.
  destruct (eatString_loop_pieces items p (current_char p) (current_line p) bufferInit []
              (S (S k)) Hok Hsrc) as (p1 & line1 & buff1 & Hloop & Hs1 & _ & [l1 Hrep1]).
  rewrite set_position_id in Hloop. rewrite Hloop, Hlen.
  cbn [eatString_loop]. unfold eatString_round at 1, eatChar, peekChar.
  change (current_char (set_position p1 ?n ?l)) with n.
  rewrite char_at_end; [|by rewrite <- Hs1; apply drop_all|by rewrite <- Hs1].
  cbn [res_bind]. change (Ascii.eqb NUL DQUOTE) with false.
  change (Ascii.eqb NUL NUL) with true. cbv iota. cbn [res_bind].
  match goal with |- context [newString ?v ?d ?c] => destruct (newString v d c) as [s v'] end.
  eexists. split; [reflexivity|]. split; [reflexivity|].
  exists l1, line1. cbn. rewrite Hrep1. by rewrite <- app_assoc.
Qed.

(** A literal whose last character before the end of the input is a
    backslash, whatever its escapes: the escape reads the NUL, and the next
    round reads the byte after it. *)
Lemma eatString_backslash_at_end (p : Parser) (items : list StrItem) :
  forallb piece_ok items = true ->
  drop (current_char p) (source p) = items_text items ++ [BACKSLASH] ->
  eatString p = UB OutOfBounds.
Proof.
  intros Hok Hsrc.
  assert (Hlen : (current_char p + length (items_text items) + 1 = length (source p))%nat).
  { pose proof (f_equal length Hsrc) as Hl. rewrite length_drop, length_app in Hl.
    cbn [length] in Hl. lia. }
  destruct (pieces_fuel p items [BACKSLASH] Hsrc) as [k Hk]. cbn [length Nat.add] in Hk.
  unfold eatString. rewrite Hk.
  replace (length items + S (S (S k)))%nat with (length items + S (S (S k)))%nat by lia.
  destruct (eatString_loop_pieces items p (current_char p) (current_line p) bufferInit
              [BACKSLASH] (S (S (S k))) Hok Hsrc)
    as (p1 & line1 & buff1 & Hloop & Hs1 & _ & _).
  rewrite set_position_id in Hloop. rewrite Hloop.
  set (n := (current_char p + length (items_text items))%nat) in *.
  assert (Hb : drop n (source p1) = [BACKSLASH]).
  { rewrite Hs1. unfold n. rewrite <- drop_drop, Hsrc, drop_app_length. reflexivity. }
  cbn [eatString_loop]. unfold eatString_round at 1.
  rewrite (eatChar_at p1 n _ BACKSLASH [] Hb). cbn [res_bind].
  change (Ascii.eqb BACKSLASH DQUOTE) with false.
  change (Ascii.eqb BACKSLASH NUL) with false.
  change (Ascii.eqb BACKSLASH "\"%char) with true.
  change (Ascii.eqb BACKSLASH NEWLINE) with false. cbv iota.
  unfold eatChar at 1, peekChar.
  change (current_char (set_position p1 ?m ?l)) with m.
  rewrite char_at_end;
    [|by apply drop_tail in Hb
     |change (S n <= length (source p1))%nat; rewrite Hs1; unfold n; lia].
  cbn [res_bind]. change (Ascii.eqb NUL ?x) with false. cbv iota.
  cbn [res_bind]. rewrite eatString_round_past; [reflexivity|].
  change (length (source p1) < S (S n))%nat. rewrite Hs1. unfold n. lia.
Qed.

End LoosePieces.

(** C7 (code bug).  The five escapes stand for their characters: a literal
    made of well-formed pieces and closed by a quote lexes to a STRING token
    whose value is a new String holding the bytes of the pieces, without any
    error; so does the literal of the claim, to the bytes 97 and 10.  A
    backslash before any other character raises [has_errors] and reports
    the invalid escape, in the round that meets it and in what [eatString]
    returns.  A literal cut short by the end of the input, whatever its
    escapes, raises [has_errors] and reports "Non terminated string." last
    (for well-formed pieces, as the one new report).  One case is missed:
    when the input ends right after a backslash, the escape takes the NUL
    that ends the source for its character, and the next round reads the
    byte behind it; a quote, [a] and a backslash make [lexToken] do so. *)
Theorem eatString_escapes_and_errors :
  forall P : Platform,
  (escape_byte DQUOTE = Some 34 /\ escape_byte BACKSLASH = Some 92
   /\ escape_byte "n"%char = Some 10 /\ escape_byte "r"%char = Some 13
   /\ escape_byte "t"%char = Some 9) /\
  (forall (p : Parser) (items : list StrItem) (rest : list ascii),
     forallb item_ok items = true ->
     drop (current_char p) (source p) = items_text items ++ DQUOTE :: rest ->
     exists p', eatString p = Ok p'
       /\ tk_type (next p') = TK_STRING
       /\ tk_value (next p') = VAR_OBJ (length (heap (vm p)))
       /\ heap (vm p')
          = heap (vm p) ++ [mkObject false
              (BString (mkString (utilHashString (c_str (items_bytes items)))
                                 (u32 (Z.of_nat (length items))) (items_bytes items)))]
       /\ has_errors p' = has_errors p
       /\ reported p' = reported p) /\
  (exists p', lexToken (parserInit blank_parser empty_vm literal_a_newline EmptyString) = Ok p'
     /\ tk_type (next p') = TK_STRING
     /\ tk_value (next p') = VAR_OBJ 0%nat
     /\ heap (vm p')
        = [mkObject false (BString (mkString (utilHashString [97; 10]) 2 [97; 10]))]
     /\ has_errors p' = false) /\
  (forall (p : Parser) (items : list StrItem),
     forallb item_ok items = true ->
     (current_char p <= length (source p))%nat ->
     drop (current_char p) (source p) = items_text items ->
     exists p', eatString p = Ok p'
       /\ has_errors p' = true
       /\ reported p'
          = reported p ++ [(current_line p + items_lines items,
                            "Non terminated string."%string)]) /\
  (exists p', lexToken (parserInit blank_parser empty_vm literal_unterminated EmptyString)
              = Ok p'
     /\ has_errors p' = true
     /\ reported p' = [(1, "Non terminated string."%string)]) /\
  (forall (p : Parser) (n : nat) (line : Z) (buff : Buffer Z) (e : ascii)
          (rest : list ascii),
     escape_byte e = None ->
     drop n (source p) = BACKSLASH :: e :: rest ->
     exists p', eatString_round (set_position p n line) buff = Ok (Continue (p', buff))
       /\ has_errors p' = true
       /\ reported p'
          = reported p ++ [(if Ascii.eqb e NEWLINE then line + 1 else line,
                            "Error: invalid escape character"%string)]) /\
  (forall (p : Parser) (items : list StrItem) (e : ascii) (rest : list ascii)
          (p' : Parser),
     forallb item_ok items = true ->
     drop (current_char p) (source p) = items_text items ++ BACKSLASH :: e :: rest ->
     escape_byte e = None ->
     eatString p = Ok p' ->
     has_errors p' = true
     /\ exists line, (line, "Error: invalid escape character"%string) ∈ reported p') /\
  (forall (p : Parser) (items : list StrItem),
     forallb piece_ok items = true ->
     (current_char p <= length (source p))%nat ->
     drop (current_char p) (source p) = items_text items ->
     exists p', eatString p = Ok p'
       /\ has_errors p' = true
       /\ exists l line,
            reported p' = reported p ++ l ++ [(line, "Non terminated string."%string)]) /\
  (forall (p : Parser) (items : list StrItem),
     forallb piece_ok items = true ->
     drop (current_char p) (source p) = items_text items ++ [BACKSLASH] ->
     eatString p = UB OutOfBounds) /\
  lexToken (parserInit blank_parser empty_vm literal_trailing_backslash EmptyString)
  = UB OutOfBounds.
Proof.
  intros P.
  split; [|split; [|split; [|split; [|split; [|split; [|split; [|split; [|split]]]]]]]].
  - repeat split.
  - apply eatString_closed.
  - remember (lexToken _) as r eqn:Hr. vm_compute in Hr. subst r.
    eexists. split; [reflexivity|]. repeat split.
  - apply eatString_open.
  - remember (lexToken _) as r eqn:Hr. vm_compute in Hr. subst r.
    eexists. split; [reflexivity|]. repeat split.
  - intros p n line buff e rest He Hsrc.
    rewrite (eatString_round_bad_escape p n line buff e rest He Hsrc).
    eexists. split; [reflexivity|]. split; reflexivity.
  - apply eatString_bad_escape.
  - apply eatString_open_pieces.
  - apply eatString_backslash_at_end.
  - vm_compute. reflexivity.
Qed.

Lemma eatString_escapes_and_errors_witness :
  exists p',
    eatString (P := sample_platform)
      (set_position (parserInit blank_parser empty_vm literal_a_newline EmptyString)
                    1%nat 1) = Ok p'
    /\ heap (vm p') = [mkObject false (BString (mkString 623167186 2 [97; 10]))].
Proof.
  destruct (eatString_escapes_and_errors sample_platform) as (_ & H & _).
  destruct (H (set_position (parserInit blank_parser empty_vm literal_a_newline EmptyString)
                            1%nat 1)
              [Plain "a"%char; Escape "n"%char] [] eq_refl eq_refl)
    as (p' & H1 & _ & _ & H2 & _).
  exists p'. split; [exact H1|exact H2].
Defined.


(** * The lexer leaves the heap and the shifted tokens alone *)

Section LexerFrame.
Context {P : Platform}.

Lemma lexer_frame_refl (p : Parser) : lexer_frame p p.
Proof. repeat split. exists []. by rewrite app_nil_r. Qed.

Lemma lexer_frame_trans (p q r : Parser) :
  lexer_frame p q -> lexer_frame q r -> lexer_frame p r.
Proof.
  intros (H1 & H2 & H3 & l & H4) (H5 & H6 & H7 & l' & H8).
  repeat split; try congruence.
  exists (l ++ l'). by rewrite H8, H4, app_assoc.
Qed.

Lemma frame_set_position p n line : lexer_frame p (set_position p n line).
Proof. repeat split. exists []. by rewrite app_nil_r. Qed.

Lemma frame_set_token_start p n : lexer_frame p (set_token_start p n).
Proof. repeat split. exists []. by rewrite app_nil_r. Qed.

Lemma frame_setNextToken p t : lexer_frame p (setNextToken p t).
Proof. repeat split. exists []. by rewrite app_nil_r. Qed.

Lemma frame_setNextValueToken p t v : lexer_frame p (setNextValueToken p t v).
Proof. repeat split. exists []. by rewrite app_nil_r. Qed.

Lemma frame_lexError p fmt : lexer_frame p (lexError p fmt).
Proof. repeat split. exists []. by rewrite app_nil_r. Qed.

Lemma frame_eatChar p c p' : eatChar p = Ok (c, p') -> lexer_frame p p'.
Proof.
  unfold eatChar. destruct (peekChar p); cbn [res_bind]; try discriminate.
  intros [= _ <-]. apply frame_set_position.
Qed.

Lemma frame_matchChar p c b p' : matchChar p c = Ok (b, p') -> lexer_frame p p'.
Proof.
  unfold matchChar. destruct (peekChar p); cbn [res_bind]; try discriminate.
  destruct (negb _).
  - intros [= _ <-]. apply lexer_frame_refl.
  - destruct (eatChar p) as [[c' q]| |] eqn:E; cbn [res_bind]; try discriminate.
    intros [= _ <-]. eapply frame_eatChar; eauto.
Qed.

Lemma frame_setNextTwoCharToken p c one two p' :
  setNextTwoCharToken p c one two = Ok p' -> lexer_frame p p'.
Proof.
  unfold setNextTwoCharToken.
  destruct (matchChar p c) as [[b q]| |] eqn:E; cbn [res_bind]; try discriminate.
  apply frame_matchChar in E.
  destruct b; intros [= <-]; (eapply lexer_frame_trans; [exact E|apply frame_setNextToken]).
Qed.

Lemma frame_eatWhile fuel cond : forall p p',
  eatWhile fuel cond p = Ok p' -> lexer_frame p p'.
Proof.
  induction fuel as [|fuel IH]; intros p p'; [discriminate|].
  cbn [eatWhile]. destruct (peekChar p) as [c| |]; cbn [res_bind]; try discriminate.
  destruct (cond c).
  - destruct (eatChar p) as [[c' q]| |] eqn:E; cbn [res_bind]; try discriminate.
    intros H. apply frame_eatChar in E. apply IH in H. eapply lexer_frame_trans; eauto.
  - intros [= <-]. apply lexer_frame_refl.
Qed.

Lemma frame_eatName p p' : eatName p = Ok p' -> lexer_frame p p'.
Proof.
  unfold eatName.
  destruct (eatWhile _ _ p) as [q| |] eqn:E; cbn [res_bind]; try discriminate.
  apply frame_eatWhile in E. intros [= <-].
  eapply lexer_frame_trans; [exact E|apply frame_setNextToken].
Qed.

Lemma frame_eatNumber p p' : eatNumber p = Ok p' -> lexer_frame p p'.
Proof.
  unfold eatNumber.
  destruct (eatWhile _ _ p) as [q| |] eqn:E; cbn [res_bind]; try discriminate.
  apply frame_eatWhile in E.
  destruct (matchChar q _) as [[dot q']| |] eqn:E2; cbn [res_bind]; try discriminate.
  apply frame_matchChar in E2.
  assert (forall q'', (if dot then eatWhile (chars_left q') utilIsDigit q' else Ok q') = Ok q''
                      -> lexer_frame q' q'') as Hd.
  { intros q''. destruct dot; [apply frame_eatWhile|intros [= <-]; apply lexer_frame_refl]. }
  destruct (if dot then _ else _) as [q''| |]; cbn [res_bind]; try discriminate.
  specialize (Hd q'' eq_refl).
  destruct (strtod _) as [bits []]; intros [= <-];
    repeat (eapply lexer_frame_trans; [eassumption|]);
    first [ apply frame_setNextValueToken
          | eapply lexer_frame_trans;
            [apply frame_lexError|apply frame_setNextValueToken] ].
Qed.

Lemma frame_eatString_round p buff r :
  eatString_round p buff = Ok r ->
  match r with Break (p', _) | Continue (p', _) => lexer_frame p p' end.
Proof.
  unfold eatString_round.
  destruct (eatChar p) as [[c q]| |] eqn:E; cbn [res_bind]; try discriminate.
  apply frame_eatChar in E.
  destruct (Ascii.eqb c DQUOTE); [intros [= <-]; exact E|].
  destruct (Ascii.eqb c NUL).
  { intros [= <-]. eapply lexer_frame_trans; [exact E|].
    eapply lexer_frame_trans; [apply frame_lexError|apply frame_set_position]. }
  destruct (Ascii.eqb c "\"%char); [|intros [= <-]; exact E].
  destruct (eatChar q) as [[e q']| |] eqn:E2; cbn [res_bind]; try discriminate.
  apply frame_eatChar in E2.
  repeat match goal with
         | |- context [if Ascii.eqb e ?x then _ else _] => destruct (Ascii.eqb e x)
         end; intros [= <-];
    repeat (eapply lexer_frame_trans; [eassumption|]);
    first [apply lexer_frame_refl|apply frame_lexError].
Qed.

Lemma frame_eatString_loop fuel : forall p buff p' buff',
  eatString_loop fuel p buff = Ok (p', buff') -> lexer_frame p p'.
Proof.
  induction fuel as [|fuel IH]; intros p buff p' buff'; [discriminate|].
  cbn [eatString_loop].
  destruct (eatString_round p buff) as [r| |] eqn:E; cbn [res_bind]; try discriminate.
  apply frame_eatString_round in E. destruct r as [[q b]|[q b]].
  - intros [= <- <-]. exact E.
  - intros H. apply IH in H. eapply lexer_frame_trans; eauto.
Qed.

Lemma frame_eatString p p' : eatString p = Ok p' -> lexer_frame p p'.
Proof.
  unfold eatString.
  destruct (eatString_loop _ p _) as [[q buff]| |] eqn:E; cbn [res_bind]; try discriminate.
  apply frame_eatString_loop in E.
  unfold newString, allocObject. intros [= <-].
  eapply lexer_frame_trans; [exact E|].
  repeat split. eexists. reflexivity.
Qed.

Ltac frame_step :=
  match goal with
  | |- (if ?b then _ else _) = Ok _ -> _ => destruct b
  | |- (do _ <- ?m; _) = Ok _ -> _ =>
      let E := fresh "E" in
      destruct m as [?| |] eqn:E; cbn [res_bind]; [|discriminate..]
  | |- match ?pat with (_, _) => _ end = Ok _ -> _ => destruct pat
  | |- Ok _ = Ok _ -> _ => intros [= <-]
  | |- context [if ?b then lexError _ _ else lexError _ _] => destruct b
  end.

Ltac frame_hyps :=
  repeat match goal with
         | E : eatWhile _ _ _ = Ok _ |- _ => apply frame_eatWhile in E
         | E : setNextTwoCharToken _ _ _ _ = Ok _ |- _ =>
             apply frame_setNextTwoCharToken in E
         | E : matchChar _ _ = Ok _ |- _ => apply frame_matchChar in E
         | E : eatString _ = Ok _ |- _ => apply frame_eatString in E
         | E : eatNumber _ = Ok _ |- _ => apply frame_eatNumber in E
         | E : eatName _ = Ok _ |- _ => apply frame_eatName in E
         | E : eatChar _ = Ok _ |- _ => apply frame_eatChar in E
         end.

Ltac frame_close :=
  repeat (eapply lexer_frame_trans; [eassumption|]);
  first [ apply lexer_frame_refl
        | apply frame_setNextToken
        | eapply lexer_frame_trans; [apply frame_lexError|apply frame_setNextToken] ].

Lemma frame_lexToken_switch c p r :
  lexToken_switch c p = Ok r ->
  match r with Break p' | Continue p' => lexer_frame p p' end.
Proof.
  unfold lexToken_switch. cbv zeta beta.
  repeat frame_step; frame_hyps; frame_close.
Qed.

Lemma frame_lexToken_loop fuel : forall p p',
  lexToken_loop fuel p = Ok p' -> lexer_frame p p'.
Proof.
  induction fuel as [|fuel IH]; intros p p'; [discriminate|].
  cbn [lexToken_loop].
  destruct (peekChar p) as [c| |]; cbn [res_bind]; try discriminate.
  destruct (Ascii.eqb c NUL).
  { intros [= <-]. repeat split. exists []. by rewrite app_nil_r. }
  destruct (eatChar _) as [[c' q]| |] eqn:E; cbn [res_bind]; try discriminate.
  apply frame_eatChar in E.
  destruct (lexToken_switch c' q) as [r| |] eqn:E2; cbn [res_bind]; try discriminate.
  apply frame_lexToken_switch in E2.
  assert (lexer_frame p q) as Hpq.
  { eapply lexer_frame_trans; [apply frame_set_token_start|exact E]. }
  destruct r as [q'|q'].
  - intros [= <-]. eapply lexer_frame_trans; eauto.
  - intros H. apply IH in H.
    eapply lexer_frame_trans; [exact Hpq|]. eapply lexer_frame_trans; eauto.
Qed.

(** [lexToken] shifts the window by one token and touches no object. *)
Lemma lexToken_window (p p' : Parser) :
  lexToken p = Ok p' ->
  previous p' = current p /\ current p' = next p /\ source p' = source p
  /\ exists l, heap (vm p') = heap (vm p) ++ l.
Proof.
  unfold lexToken.
  destruct (TokenType_beq _ _).
  - intros [= <-]. repeat split. exists []. by rewrite app_nil_r.
  - intros H. apply frame_lexToken_loop in H. exact H.
Qed.

End LexerFrame.

(** * Statements: break outside a loop *)

Section BreakOutsideLoop.
Context {P : Platform}.

Lemma match_current (p p1 : Parser) (t : TokenType) :
  tk_type (current p) = t -> t <> TK_LINE -> lexToken p = Ok p1 ->
  match_ p t = Ok (true, p1).
Proof.
  intros Ht Hl Hlex. unfold match_, matchLine, peek. rewrite Ht.
  destruct t; try congruence; cbn; rewrite ?Ht; cbn; by rewrite Hlex.
Qed.

Lemma compileStatement_break_no_loop (fuel : nat) (c : Compiler) (p1 : Parser) :
  tk_type (current (parser c)) = TK_BREAK -> loop c = None ->
  lexToken (parser c) = Ok p1 ->
  compileStatement (S fuel) c
  = Ok (set_parser c
          (reportError p1 (path p1) (tk_line (current (parser c)))
                       "Cannot use 'break' outside a loop.")).
Proof.
  intros Ht Hloop Hlex. cbn [compileStatement].
  rewrite (match_current _ p1 TK_BREAK Ht ltac:(discriminate) Hlex).
  cbn [res_bind]. cbn [loop set_parser parser]. rewrite Hloop.
  destruct (lexToken_window _ _ Hlex) as (Hprev & _).
  unfold parseError. rewrite Hprev, Ht. reflexivity.
Qed.

End BreakOutsideLoop.

(** * Constant pooling *)

Lemma get_script_storeObject (v : MSVM) (s : addr) (scr scr' : Script) :
  get_script v s = Ok scr ->
  get_script (storeObject s (BScript scr') v) s = Ok scr'.
Proof.
  unfold get_script, deref, storeObject.
  destruct (heap v !! s) as [o|] eqn:Ho; [|discriminate]. intros _. cbn [heap].
  rewrite list_lookup_insert_eq by (eapply lookup_lt_Some; eauto). reflexivity.
Qed.

Lemma find_same_spec (l : list Var) (v : Var) : forall i0,
  match find_same l v i0 with
  | Some i => i0 <= i /\ exists x, l !! Z.to_nat (i - i0) = Some x /\ isValuesSame x v = true
              /\ forall j x', (j < Z.to_nat (i - i0))%nat -> l !! j = Some x' ->
                              isValuesSame x' v = false
  | None => forall x, x ∈ l -> isValuesSame x v = false
  end.
Proof.
  induction l as [|a l IH]; intros i0; simpl.
  - intros x Hx. by apply elem_of_nil in Hx.
  - destruct (isValuesSame a v) eqn:Ha.
    + split; [lia|]. rewrite Z.sub_diag. exists a. repeat split; auto. intros j x' Hj. lia.
    + specialize (IH (i0 + 1)). destruct (find_same l v (i0 + 1)) as [i|].
      * destruct IH as (Hle & x & Hx & Hs & Hfirst). split; [lia|]. exists x.
        replace (Z.to_nat (i - i0)) with (S (Z.to_nat (i - (i0 + 1)))) by lia.
        repeat split; auto. intros [|j] x' Hj Hx'; simpl in Hx'.
        -- by injection Hx' as <-.
        -- eapply Hfirst; [|exact Hx']. lia.
      * intros x [->|Hx]%elem_of_cons; auto.
Qed.

Lemma find_same_app_new (l : list Var) (v : Var) : forall i0,
  find_same l v i0 = None ->
  find_same (l ++ [v]) v i0 = Some (i0 + Z.of_nat (length l)).
Proof.
  induction l as [|a l IH]; intros i0; simpl.
  - intros _. unfold isValuesSame.
    assert (Var_eqb v v = true) as ->; [|f_equal; lia].
    destruct v; simpl; auto using Z.eqb_refl, Nat.eqb_refl. by destruct b.
  - destruct (isValuesSame a v); [discriminate|]. intros H.
    rewrite (IH _ H). f_equal. lia.
Qed.

Lemma count_same_none (l : list Var) (v : Var) :
  find_same l v 0 = None -> count_same (l ++ [v]) v = 1%nat.
Proof.
  intros H. pose proof (find_same_spec l v 0) as Hs. rewrite H in Hs.
  unfold count_same. rewrite List.filter_app, length_app.
  assert (List.filter (fun x => isValuesSame x v) l = []) as ->.
  { clear H. induction l as [|a l IH]; [done|]. simpl.
    rewrite (Hs a) by (by left). apply IH. intros x Hx. apply Hs. by right. }
  simpl. unfold isValuesSame.
  assert (Var_eqb v v = true) as ->; [|reflexivity].
  destruct v; simpl; auto using Z.eqb_refl, Nat.eqb_refl. by destruct b.
Qed.

(** The three ways [compilerAddConstant] goes. *)
Lemma compilerAddConstant_cases (c : Compiler) (s : addr) (scr : Script) (v : Var) :
  get_current_script c = Ok (s, scr) ->
  match find_same (data (literals scr)) v 0 with
  | Some i => compilerAddConstant c v = Ok (i, c)
  | None =>
      if count (literals scr) <? MAX_CONSTANTS then
        exists c', compilerAddConstant c v = Ok (count (literals scr), c')
          /\ get_current_script c'
             = Ok (s, with_literals scr (bufferWrite (literals scr) v))
          /\ parser c' = set_vm (parser c) (compiler_vm c')
      else
        compilerAddConstant c v
        = Ok (count (literals scr) - 1,
              set_parser c (parseError (parser c)
                "A script should contain at most %d unique constants."))
  end.
Proof.
  intros Hs. unfold compilerAddConstant. rewrite Hs. cbn [res_bind].
  destruct (find_same _ v 0); [reflexivity|].
  destruct (count (literals scr) <? MAX_CONSTANTS); [|reflexivity].
  eexists. split; [|split].
  - f_equal. f_equal. unfold bufferWrite, count. cbn [data]. rewrite length_app. simpl. lia.
  - unfold get_current_script in *. cbn [script set_compiler_vm set_parser] in *.
    destruct (script c) as [s'|]; cbn [of_option res_bind] in *; [|discriminate].
    destruct (get_script (compiler_vm c) s') as [scr0| |] eqn:Hg; cbn [res_bind] in Hs;
      try discriminate.
    injection Hs as <- <-.
    unfold compiler_vm at 1. cbn [parser set_vm vm set_compiler_vm set_parser].
    by rewrite (get_script_storeObject _ _ _ _ Hg).
  - reflexivity.
Qed.

Lemma literals_at_current (c : Compiler) (s : addr) (scr : Script) :
  get_current_script c = Ok (s, scr) ->
  literals_at (heap (compiler_vm c)) s = Some (data (literals scr)).
Proof.
  unfold get_current_script, get_script, deref, literals_at.
  destruct (script c) as [s'|]; cbn [of_option res_bind]; [|discriminate].
  destruct (heap (compiler_vm c) !! s') as [[m o]|] eqn:Ho; cbn; [|discriminate].
  destruct o; cbn; try discriminate. intros [= <- <-]. by rewrite Ho.
Qed.

Lemma compilerAddConstant_times_found (n : nat) (c : Compiler) (s : addr) (scr : Script)
    (v : Var) (i : Z) :
  get_current_script c = Ok (s, scr) ->
  find_same (data (literals scr)) v 0 = Some i ->
  compilerAddConstant_times n c v = Ok c.
Proof.
  intros Hs Hf. induction n as [|n IH]; [reflexivity|].
  cbn [compilerAddConstant_times].
  pose proof (compilerAddConstant_cases c s scr v Hs) as Hc. rewrite Hf in Hc.
  rewrite Hc. cbn [res_bind]. exact IH.
Qed.

Lemma full_pool_current :
  get_current_script full_pool_compiler
  = Ok (0%nat, mkScript None bufferInit bufferInit full_pool bufferInit bufferInit
                        bufferInit None).
Proof. reflexivity. Qed.

Lemma full_pool_has_no_65536 : find_same (data full_pool) (VAR_NUM 65536) 0 = None.
Proof. vm_compute. reflexivity. Qed.

Lemma full_pool_count : count full_pool = MAX_CONSTANTS.
Proof. vm_compute. reflexivity. Qed.


(** * Scripts: registering a function *)

Section Registering.
Context {P : Platform}.

Lemma get_script_lt (v : MSVM) (s : addr) (scr : Script) :
  get_script v s = Ok scr -> (s < length (heap v))%nat.
Proof.
  unfold get_script, deref. destruct (heap v !! s) eqn:Ho; [|discriminate].
  intros _. eapply lookup_lt_Some; eauto.
Qed.

Lemma get_script_allocObject (v : MSVM) (s : addr) (scr : Script) (b : ObjectBody) :
  get_script v s = Ok scr -> get_script (snd (allocObject b v)) s = Ok scr.
Proof.
  intros H. pose proof (get_script_lt _ _ _ H) as Hlt. revert H.
  unfold get_script, deref, allocObject. cbn [snd heap].
  by rewrite lookup_app_l.
Qed.

Lemma get_script_storeObject_ne (v : MSVM) (s p : addr) (scr : Script) (b : ObjectBody) :
  get_script v s = Ok scr -> s <> p -> get_script (storeObject p b v) s = Ok scr.
Proof.
  intros H Hne. revert H. unfold get_script, deref, storeObject.
  destruct (heap v !! p); [|done]. cbn [heap].
  by rewrite list_lookup_insert_ne.
Qed.

Lemma get_script_nameTableAdd (tbl : Buffer addr) (v : MSVM) (name : list Z) (len : Z)
    r (s : addr) (scr : Script) :
  nameTableAdd tbl v name len = Ok r ->
  get_script v s = Ok scr -> get_script (snd r) s = Ok scr.
Proof.
  unfold nameTableAdd.
  destruct (nameTableFind _ _ _ _ _) as [[[i sp]|]| |]; cbn [res_bind]; try discriminate.
  - intros [= <-]. done.
  - unfold newString. destruct (allocObject _ v) as [sp v'] eqn:Ha.
    intros [= <-] H. cbn [snd].
    apply (get_script_allocObject v s scr) with (b := BString
      (mkString (utilHashString (c_str (take (Z.to_nat len) name))) (u32 len)
                (take (Z.to_nat len) name))) in H.
    by rewrite Ha in H.
Qed.

(** [newFunction] with an owner appends the new function to the owner's
    function buffer. *)
Lemma newFunction_appends (v : MSVM) (name : list Z) (len : Z) (o : addr)
    (is_native : bool) (scr : Script) (func : addr) (v' : MSVM) :
  get_script v o = Ok scr ->
  newFunction v name len (Some o) is_native = Ok (func, v') ->
  func = length (heap v) /\
  exists scr', get_script v' o = Ok scr'
               /\ data (functions scr') = data (functions scr) ++ [func].
Proof.
  intros Hs. pose proof (get_script_lt _ _ _ Hs) as Hlt.
  unfold newFunction.
  destruct (allocObject (BFunc raw_Function) v) as [f v1] eqn:Ha.
  assert (Hf : f = length (heap v)) by (unfold allocObject in Ha; congruence).
  assert (Hs1 : get_script v1 o = Ok scr).
  { pose proof (get_script_allocObject v o scr (BFunc raw_Function) Hs) as H.
    by rewrite Ha in H. }
  rewrite Hs1. cbn [res_bind].
  set (scr1 := with_functions scr (bufferWrite (functions scr) f)).
  assert (Hs2 : get_script (storeObject o (BScript scr1) v1) o = Ok scr1)
    by (eapply get_script_storeObject; eauto).
  rewrite Hs2. cbn [res_bind].
  destruct (nameTableAdd _ _ name len) as [[[[i np] names'] v2]| |] eqn:Hn;
    cbn [res_bind]; try discriminate.
  pose proof (get_script_nameTableAdd _ _ _ _ _ o scr1 Hn Hs2) as Hs3. cbn [snd] in Hs3.
  rewrite Hs3. cbn [res_bind].
  intros [= <- <-]. split; [exact Hf|].
  exists (with_function_names scr1 names'). split.
  - apply get_script_storeObject_ne; [|lia].
    eapply get_script_storeObject; eauto.
  - reflexivity.
Qed.

Lemma get_current_script_inv (c : Compiler) (s : addr) (scr : Script) :
  get_current_script c = Ok (s, scr) ->
  script c = Some s /\ get_script (compiler_vm c) s = Ok scr.
Proof.
  unfold get_current_script.
  destruct (script c) as [s'|]; cbn [of_option res_bind]; [|discriminate].
  destruct (get_script _ s') as [scr'| |] eqn:Hg; cbn [res_bind]; try discriminate.
  intros [= <- <-]. by split.
Qed.

Lemma get_current_script_set_vm (c : Compiler) (v : MSVM) (s : addr) (scr : Script) :
  script c = Some s -> get_script v s = Ok scr ->
  get_current_script (set_compiler_vm c v) = Ok (s, scr).
Proof.
  intros Hs Hg. unfold get_current_script, compiler_vm.
  cbn [script set_compiler_vm set_parser parser set_vm vm]. rewrite Hs.
  cbn [of_option res_bind]. by rewrite Hg.
Qed.

(** The function that [compileFunction] declares ends up twice in the
    function buffer of the script: [newFunction] writes it there, then
    [compileFunction] writes it again. *)
Lemma compileFunction_declare_twice (c c' : Compiler) (name_start : nat)
    (name_length : Z) (is_native : bool) :
  compileFunction_declare c name_start name_length is_native = Ok c' ->
  exists (s : addr) (scr scr' : Script) (func : addr),
    get_current_script c = Ok (s, scr)
    /\ get_current_script c' = Ok (s, scr')
    /\ function c' = Some func
    /\ data (functions scr') = data (functions scr) ++ [func; func].
Proof.
  unfold compileFunction_declare.
  destruct (get_current_script c) as [[s scr]| |] eqn:Hc; cbn [res_bind]; try discriminate.
  destruct (get_current_script_inv _ _ _ Hc) as [Hsc Hg].
  destruct (nameTableAdd _ _ _ _) as [[[[index np] names'] v1]| |] eqn:Hn;
    cbn [res_bind]; try discriminate.
  pose proof (get_script_nameTableAdd _ _ _ _ _ s scr Hn Hg) as Hg1. cbn [snd] in Hg1.
  set (scr1 := with_function_names scr names').
  assert (Hg2 : get_script (storeObject s (BScript scr1) v1) s = Ok scr1)
    by (eapply get_script_storeObject; eauto).
  rewrite (get_current_script_set_vm c _ s scr1 Hsc Hg2). cbn [res_bind].
  destruct (nameTableGet _ index) as [name| |]; cbn [res_bind]; try discriminate.
  destruct (deref _ name) as [o| |]; cbn [res_bind]; try discriminate.
  destruct o as [str| | | | | | |]; cbn [res_bind]; try discriminate.
  unfold compiler_vm at 1. cbn [script set_compiler_vm set_parser parser set_vm vm].
  rewrite Hsc.
  destruct (newFunction _ _ _ (Some s) is_native) as [[func v2]| |] eqn:Hnew;
    cbn [res_bind]; try discriminate.
  destruct (newFunction_appends _ _ _ _ _ _ _ _ Hg2 Hnew) as (_ & scr2 & Hg3 & Hfun).
  rewrite (get_current_script_set_vm (set_compiler_vm c _) v2 s scr2 Hsc Hg3).
  cbn [res_bind].
  intros [= <-].
  exists s, scr, (with_functions scr2 (bufferWrite (functions scr2) func)), func.
  split; [reflexivity|]. split; [|split; [reflexivity|]].
  - unfold get_current_script, compiler_vm.
    cbn [script set_function set_compiler_vm set_parser parser set_vm vm].
    rewrite Hsc. cbn [of_option res_bind].
    by rewrite (get_script_storeObject _ _ _ _ Hg3).
  - cbn [with_functions functions bufferWrite data]. rewrite Hfun.
    by rewrite <- app_assoc.
Qed.

End Registering.

(** C2 (code bug).  Whatever the function name and the table of names:
    after the declaring lines of [compileFunction] the new function is the
    current one and sits at two indices of the script's function buffer, the
    last two.  On the sample platform, [native f()] compiles to a script
    with the functions 1, 4, 4 (the body, then [f] twice) and two names. *)
Theorem compileFunction_registers_function_twice :
  forall P : Platform,
  (forall (c c' : Compiler) (name_start : nat) (name_length : Z) (is_native : bool),
     compileFunction_declare c name_start name_length is_native = Ok c' ->
     exists (s : addr) (scr scr' : Script) (func : addr),
       get_current_script c = Ok (s, scr)
       /\ get_current_script c' = Ok (s, scr')
       /\ function c' = Some func
       /\ data (functions scr') = data (functions scr) ++ [func; func]) /\
  (exists s c',
     compileSource (P := sample_platform) 10 blank_compiler empty_vm program_native
                   EmptyString = Ok (s, c')
     /\ functions_at (heap (compiler_vm c')) s = Some [1; 4; 4]%nat
     /\ function_names_at (heap (compiler_vm c')) s = Some [2; 3]%nat).
Proof.
  intros P. split.
  - intros c c' ns nl nat H. by apply compileFunction_declare_twice in H.
  - remember (compileSource _ _ _ _ _) as r eqn:Hr. vm_compute in Hr. subst r.
    eexists _, _. split; [reflexivity|]. split; reflexivity.
Qed.

Lemma compileFunction_registers_function_twice_witness :
  exists c',
    compileFunction_declare (P := sample_platform) native_compiler 7 1 true = Ok c'
    /\ exists (s : addr) (scr scr' : Script) (func : addr),
         get_current_script native_compiler = Ok (s, scr)
         /\ get_current_script c' = Ok (s, scr')
         /\ function c' = Some func
         /\ data (functions scr') = data (functions scr) ++ [func; func].
Proof.
  remember (compileFunction_declare (P := sample_platform) native_compiler 7 1 true)
    as r eqn:Hr.
  pose proof Hr as Hr'. vm_compute in Hr'.
  match type of Hr' with _ = Ok ?c => exists c end.
  split; [exact Hr'|].
  apply (proj1 (compileFunction_registers_function_twice sample_platform)
               native_compiler _ 7%nat 1 true).
  rewrite <- Hr. exact Hr'.
Defined.

(** * Jumps: closing a loop *)

Section Jumps.
Context {P : Platform}.

Lemma get_fn_inv (c : Compiler) (f : addr) (func : Function) (body : Fn) :
  get_fn c = Ok (f, func, body) ->
  function c = Some f
  /\ (exists m, heap (compiler_vm c) !! f = Some (mkObject m (BFunc func)))
  /\ fn func = Some body.
Proof.
  unfold get_fn, deref.
  destruct (function c) as [f'|]; cbn [of_option res_bind]; [|discriminate].
  destruct (heap (compiler_vm c) !! f') as [[m b]|] eqn:Hh;
    cbn [fmap option_fmap option_map of_option res_bind obj_body]; [|discriminate].
  destruct b; try discriminate.
  destruct (fn f0) as [body'|] eqn:Hf; cbn [of_option res_bind]; [|discriminate].
  intros [= <- <- <-]. eauto.
Qed.

Lemma get_fn_intro (c : Compiler) (f : addr) (func : Function) (body : Fn) (m : bool) :
  function c = Some f ->
  heap (compiler_vm c) !! f = Some (mkObject m (BFunc func)) ->
  fn func = Some body ->
  get_fn c = Ok (f, func, body).
Proof.
  intros Hf Hh Hb. unfold get_fn, deref. rewrite Hf. cbn [of_option res_bind].
  rewrite Hh. cbn [fmap option_fmap option_map of_option res_bind obj_body].
  by rewrite Hb.
Qed.

(** Writing the [Fn] back leaves everything else of the compiler alone. *)
Lemma get_fn_put_fn (c : Compiler) (f : addr) (func : Function) (body body' : Fn) :
  get_fn c = Ok (f, func, body) ->
  exists func', get_fn (put_fn c f func body') = Ok (f, func', body')
                /\ loop (put_fn c f func body') = loop c
                /\ stack_size (put_fn c f func body') = stack_size c.
Proof.
  intros H. destruct (get_fn_inv _ _ _ _ H) as (Hf & [m Hh] & Hb).
  exists (mkFunction (func_name func) (owner func) (arity func) (is_native func)
                     (Some body')).
  split; [|split; reflexivity].
  eapply get_fn_intro with (m := m); [exact Hf| |reflexivity].
  unfold put_fn, compiler_vm, storeObject. unfold compiler_vm in Hh.
  cbn [set_compiler_vm set_parser parser set_vm vm]. rewrite Hh. cbn [heap is_marked].
  apply list_lookup_insert_eq. eapply lookup_lt_Some; eauto.
Qed.

Lemma emitByte_spec (c : Compiler) (f : addr) (func : Function) (body : Fn) (b : Z) :
  get_fn c = Ok (f, func, body) ->
  exists c' func' body',
    emitByte c b = Ok (count (opcodes body), c')
    /\ get_fn c' = Ok (f, func', body')
    /\ data (opcodes body') = data (opcodes body) ++ [b mod 256]
    /\ loop c' = loop c /\ stack_size c' = stack_size c.
Proof.
  intros H. unfold emitByte. rewrite H. cbn [res_bind].
  match goal with |- context [put_fn c f func ?b'] =>
    destruct (get_fn_put_fn c f func body b' H) as (func' & Hg & Hl & Hs) end.
  eexists _, _, _. split; [|split; [exact Hg|split; [reflexivity|split; assumption]]].
  f_equal. f_equal. unfold count. cbn [opcodes bufferWrite data].
  rewrite length_app. cbn [length]. lia.
Qed.

Lemma get_fn_set_stack_size (c : Compiler) (n : Z) :
  get_fn (set_stack_size c n) = get_fn c.
Proof. reflexivity. Qed.

Lemma get_fn_set_loop (c : Compiler) (l : option Loop) :
  get_fn (set_loop c l) = get_fn c.
Proof. reflexivity. Qed.

Lemma emitOpcode_spec (c : Compiler) (f : addr) (func : Function) (body : Fn) (o : Opcode) :
  get_fn c = Ok (f, func, body) ->
  exists c' func' body',
    emitOpcode c o = Ok c'
    /\ get_fn c' = Ok (f, func', body')
    /\ data (opcodes body') = data (opcodes body) ++ [opcode_code o mod 256]
    /\ loop c' = loop c.
Proof.
  intros H. unfold emitOpcode.
  destruct (emitByte_spec c f func body (opcode_code o) H)
    as (c1 & func1 & body1 & He & Hg & Hd & Hl & _).
  rewrite He. cbn [res_bind]. rewrite get_fn_set_stack_size, Hg. cbn [res_bind].
  destruct (_ >? _).
  - match goal with |- context [put_fn ?c0 f func1 ?b'] =>
      destruct (get_fn_put_fn c0 f func1 body1 b') as (func' & Hg' & Hl' & _);
        [by rewrite get_fn_set_stack_size|] end.
    eexists _, _, _. split; [reflexivity|]. split; [exact Hg'|].
    split; [exact Hd|]. rewrite Hl'. exact Hl.
  - eexists _, _, _. split; [reflexivity|]. rewrite get_fn_set_stack_size.
    split; [exact Hg|]. split; [exact Hd|exact Hl].
Qed.

Lemma emitShort_spec (c : Compiler) (f : addr) (func : Function) (body : Fn) (arg : Z) :
  get_fn c = Ok (f, func, body) ->
  exists c' func' body',
    emitShort c arg = Ok (count (opcodes body), c')
    /\ get_fn c' = Ok (f, func', body')
    /\ data (opcodes body') =
       data (opcodes body)
       ++ [Z.land (Z.shiftr arg 8) 255 mod 256; Z.land arg 255 mod 256]
    /\ loop c' = loop c.
Proof.
  intros H. unfold emitShort.
  destruct (emitByte_spec c f func body (Z.land (Z.shiftr arg 8) 255) H)
    as (c1 & func1 & body1 & He1 & Hg1 & Hd1 & Hl1 & _).
  rewrite He1. cbn [res_bind].
  destruct (emitByte_spec c1 f func1 body1 (Z.land arg 255) Hg1)
    as (c2 & func2 & body2 & He2 & Hg2 & Hd2 & Hl2 & _).
  rewrite He2. cbn [res_bind].
  eexists _, _, _. split; [|split; [exact Hg2|split]].
  - f_equal. f_equal. unfold count. rewrite Hd1, length_app. cbn [length]. lia.
  - rewrite Hd2, Hd1, <- app_assoc. reflexivity.
  - congruence.
Qed.

Lemma bufferStore_live (b : Buffer Z) (i x : Z) :
  0 <= i < count b ->
  bufferStore b i x = Ok (mkBuffer (<[Z.to_nat i := x]> (data b)) (capacity b)).
Proof.
  intros Hi. unfold bufferStore.
  replace (0 <=? i) with true by (symmetry; apply Z.leb_le; lia).
  replace (i <? count b) with true by (symmetry; apply Z.ltb_lt; lia).
  reflexivity.
Qed.

Lemma patched_length (ops : list Z) (a : Z) : length (patched ops a) = length ops.
Proof. unfold patched. by rewrite !length_insert. Qed.

Lemma patchJump_spec (c : Compiler) (f : addr) (func : Function) (body : Fn) (a : Z) :
  get_fn c = Ok (f, func, body) ->
  in_code (length (data (opcodes body))) a = true ->
  exists c' func' body',
    patchJump c a = Ok c'
    /\ get_fn c' = Ok (f, func', body')
    /\ data (opcodes body') = patched (data (opcodes body)) a
    /\ loop c' = loop c.
Proof.
  intros H Ha. unfold in_code in Ha. apply andb_true_iff in Ha as [Ha0 Ha1].
  apply Z.leb_le in Ha0. apply Z.ltb_lt in Ha1.
  unfold patchJump. rewrite H. cbn [res_bind].
  rewrite bufferStore_live by (unfold count; lia). cbn [res_bind].
  rewrite bufferStore_live by (unfold count; cbn [data]; rewrite length_insert; lia).
  cbn [res_bind data capacity].
  match goal with |- context [put_fn c f func ?b'] =>
    destruct (get_fn_put_fn c f func body b' H) as (func' & Hg & Hl & _) end.
  eexists _, _, _. split; [reflexivity|]. split; [exact Hg|]. split; [reflexivity|exact Hl].
Qed.

Lemma short_at_operand (ops : list Z) (a t : Z) :
  short_at ops a t -> operand_at ops a = Some t.
Proof.
  intros [H1 H2]. unfold operand_at. rewrite H1, H2. f_equal.
  pose proof (Z.div_mod t 256). lia.
Qed.

Lemma patched_eq (ops : list Z) (a : Z) :
  Z.of_nat (length ops) < 65536 ->
  patched ops a =
  <[Z.to_nat (a + 1) := Z.of_nat (length ops) mod 256]>
    (<[Z.to_nat a := Z.of_nat (length ops) / 256]> ops).
Proof.
  intros Hn. unfold patched. cbv zeta.
  change 255 with (Z.ones 8). rewrite !Z.land_ones by lia.
  rewrite Z.shiftr_div_pow2 by lia. change (2 ^ 8) with 256.
  rewrite (Z.mod_small (_ / 256)); [reflexivity|].
  split; [apply Z.div_pos; lia | apply Z.div_lt_upper_bound; lia].
Qed.

Lemma patched_short_at (ops : list Z) (a : Z) :
  Z.of_nat (length ops) < 65536 ->
  in_code (length ops) a = true ->
  short_at (patched ops a) a (Z.of_nat (length ops)).
Proof.
  intros Hn Ha. apply andb_true_iff in Ha as [Ha0 Ha1].
  apply Z.leb_le in Ha0. apply Z.ltb_lt in Ha1.
  rewrite patched_eq by exact Hn. split.
  - rewrite list_lookup_insert_ne by lia.
    apply list_lookup_insert_eq. lia.
  - apply list_lookup_insert_eq. rewrite length_insert. lia.
Qed.

Lemma patched_other (ops : list Z) (a : Z) (i : nat) :
  Z.to_nat a <> i -> Z.to_nat (a + 1) <> i -> patched ops a !! i = ops !! i.
Proof.
  intros H1 H2. unfold patched. cbv zeta.
  by rewrite !list_lookup_insert_ne.
Qed.

Lemma patched_keeps (ops : list Z) (a b : Z) :
  Z.of_nat (length ops) < 65536 ->
  in_code (length ops) a = true -> in_code (length ops) b = true ->
  a + 1 <> b -> b + 1 <> a ->
  short_at ops a (Z.of_nat (length ops)) ->
  short_at (patched ops b) a (Z.of_nat (length ops)).
Proof.
  intros Hn Ha Hb Hab Hba Hs.
  destruct (Z.eq_dec a b) as [->|Hne]; [by apply patched_short_at|].
  apply andb_true_iff in Ha as [Ha0 _]. apply Z.leb_le in Ha0.
  apply andb_true_iff in Hb as [Hb0 _]. apply Z.leb_le in Hb0.
  destruct Hs as [H1 H2]. split; rewrite patched_other by lia; assumption.
Qed.

Lemma fold_patched_length (ps : list Z) (ops : list Z) :
  length (fold_left patched ps ops) = length ops.
Proof.
  revert ops. induction ps as [|b ps IH]; intros ops; [reflexivity|].
  cbn [fold_left]. by rewrite IH, patched_length.
Qed.

Lemma fold_patched_other (ps : list Z) (ops : list Z) (i : nat) :
  Forall (fun a => Z.to_nat a <> i /\ Z.to_nat (a + 1) <> i) ps ->
  fold_left patched ps ops !! i = ops !! i.
Proof.
  revert ops. induction ps as [|b ps IH]; intros ops H; [reflexivity|].
  apply Forall_cons in H as [[H1 H2] H]. cbn [fold_left].
  rewrite IH by exact H. by apply patched_other.
Qed.

Lemma fold_patched_keeps (ps : list Z) (ops : list Z) (a : Z) :
  Z.of_nat (length ops) < 65536 ->
  in_code (length ops) a = true ->
  Forall (fun b => in_code (length ops) b = true /\ a + 1 <> b /\ b + 1 <> a) ps ->
  short_at ops a (Z.of_nat (length ops)) ->
  short_at (fold_left patched ps ops) a (Z.of_nat (length ops)).
Proof.
  revert ops. induction ps as [|b ps IH]; intros ops Hn Ha H Hs; [exact Hs|].
  apply Forall_cons in H as [(Hb & Hab & Hba) H]. cbn [fold_left].
  rewrite <- (patched_length ops b).
  apply IH; rewrite ?patched_length; auto.
  by apply patched_keeps.
Qed.

Lemma fold_patched_sets (ps : list Z) (ops : list Z) (a : Z) :
  Z.of_nat (length ops) < 65536 ->
  In a ps ->
  Forall (fun b => in_code (length ops) b = true) ps ->
  Forall (fun b => a + 1 <> b /\ b + 1 <> a) ps ->
  short_at (fold_left patched ps ops) a (Z.of_nat (length ops)).
Proof.
  revert ops. induction ps as [|b ps IH]; intros ops Hn Hin Hc Hap; [destruct Hin|].
  apply Forall_cons in Hc as [Hb Hc]. apply Forall_cons in Hap as [Hab Hap].
  cbn [fold_left]. rewrite <- (patched_length ops b).
  destruct (Z.eq_dec b a) as [->|Hne].
  - apply fold_patched_keeps; rewrite ?patched_length; auto.
    + apply Forall_forall. intros x Hx. rewrite Forall_forall in Hc, Hap.
      split; [by apply Hc | by apply Hap].
    + by apply patched_short_at.
  - destruct Hin as [->|Hin]; [done|].
    apply IH; rewrite ?patched_length; auto.
Qed.

(** The loop of [closeWhile] over the [break]s of the innermost loop. *)
Lemma patch_breaks (ps done : list Z) (c : Compiler) (f : addr) (func : Function)
    (body : Fn) (l : Loop) :
  get_fn c = Ok (f, func, body) ->
  loop c = Some l ->
  patches l = done ++ ps ->
  Forall (fun b => in_code (length (data (opcodes body))) b = true) ps ->
  exists c' func' body',
    for_loop (length ps)
      (fun i c =>
         do l <- of_option NullDeref (loop c);
         do patch <- of_option OutOfBounds (patches l !! i);
         patchJump c patch)
      (length done) c = Ok c'
    /\ get_fn c' = Ok (f, func', body')
    /\ data (opcodes body') = fold_left patched ps (data (opcodes body))
    /\ loop c' = Some l.
Proof.
  revert done c func body.
  induction ps as [|a ps IH]; intros done c func body Hg Hl Hp Hc.
  - eexists _, _, _. cbn [length for_loop fold_left]. eauto.
  - apply Forall_cons in Hc as [Ha Hc].
    cbn [length for_loop fold_left]. rewrite Hl. cbn [of_option res_bind].
    rewrite Hp, list_lookup_middle by reflexivity. cbn [of_option res_bind].
    destruct (patchJump_spec c f func body a Hg Ha) as (c1 & func1 & body1 & Hj & Hg1 & Hd1 & Hl1).
    rewrite Hj. cbn [res_bind].
    destruct (IH (done ++ [a]) c1 func1 body1 Hg1) as (c' & func' & body' & Hf & Hg' & Hd' & Hl').
    + congruence.
    + by rewrite <- app_assoc.
    + by rewrite Hd1, patched_length.
    + exists c', func', body'. rewrite length_app, Nat.add_1_r in Hf.
      split; [exact Hf|]. split; [exact Hg'|]. split; [|exact Hl'].
      by rewrite Hd', Hd1.
Qed.

Lemma code_of_inv (c : Compiler) (ops : list Z) :
  code_of c = Ok ops ->
  exists f func body, get_fn c = Ok (f, func, body) /\ data (opcodes body) = ops.
Proof.
  unfold code_of. destruct (get_fn c) as [[[f func] body]| |]; cbn [res_bind]; try discriminate.
  intros [= <-]. eauto.
Qed.

Lemma apart_spec (l : list Z) (a b : Z) :
  apart l = true -> In a l -> In b l -> a + 1 <> b.
Proof.
  unfold apart. rewrite forallb_forall. intros H Ha Hb.
  specialize (H a Ha). rewrite forallb_forall in H. specialize (H b Hb).
  apply negb_true_iff, Z.eqb_neq in H. exact H.
Qed.

Lemma in_code_mono (n m : nat) (a : Z) :
  (n <= m)%nat -> in_code n a = true -> in_code m a = true.
Proof.
  unfold in_code. intros Hnm H. apply andb_true_iff in H as [H0 H1].
  apply Z.leb_le in H0. apply Z.ltb_lt in H1.
  apply andb_true_iff. split; [apply Z.leb_le | apply Z.ltb_lt]; lia.
Qed.

Lemma in_code_bounds (n : nat) (a : Z) :
  in_code n a = true -> (Z.to_nat a < n)%nat /\ (Z.to_nat (a + 1) < n)%nat.
Proof.
  unfold in_code. intros H. apply andb_true_iff in H as [H0 H1].
  apply Z.leb_le in H0. apply Z.ltb_lt in H1. lia.
Qed.

Lemma short_bytes_div (t : Z) :
  0 <= t < 65536 ->
  Z.land (Z.shiftr t 8) 255 mod 256 = t / 256
  /\ Z.land t 255 mod 256 = t mod 256.
Proof.
  intros Ht. change 255 with (Z.ones 8). rewrite !Z.land_ones by lia.
  rewrite Z.shiftr_div_pow2 by lia. change (2 ^ 8) with 256.
  rewrite !Z.mod_mod by lia. split; [|reflexivity].
  apply Z.mod_small. split; [apply Z.div_pos; lia | apply Z.div_lt_upper_bound; lia].
Qed.

Lemma code_of_set_loop (c : Compiler) (l : option Loop) :
  code_of (set_loop c l) = code_of c.
Proof. reflexivity. Qed.

Lemma closeWhile_code (c : Compiler) (loop_start whilepatch : Z) (outer : option Loop)
    (l : Loop) (ops : list Z) :
  code_of c = Ok ops ->
  loop c = Some l ->
  Forall (fun a => in_code (length ops) a = true) (whilepatch :: patches l) ->
  exists c',
    closeWhile c loop_start whilepatch outer = Ok c'
    /\ code_of c' =
       Ok (fold_left patched (whilepatch :: patches l)
             (ops ++ [opcode_code OP_JUMP mod 256;
                      Z.land (Z.shiftr loop_start 8) 255 mod 256;
                      Z.land loop_start 255 mod 256]))
    /\ loop c' = outer.
Proof.
  intros Hc Hl Hin. apply code_of_inv in Hc as (f & func & body & Hg & <-).
  apply Forall_cons in Hin as [Hw Hin].
  unfold closeWhile.
  destruct (emitOpcode_spec c f func body OP_JUMP Hg) as (c1 & func1 & body1 & He1 & Hg1 & Hd1 & Hl1).
  rewrite He1. cbn [res_bind].
  destruct (emitShort_spec c1 f func1 body1 loop_start Hg1)
    as (c2 & func2 & body2 & He2 & Hg2 & Hd2 & Hl2).
  rewrite He2. cbn [res_bind].
  assert (Hd : data (opcodes body2) =
               data (opcodes body)
               ++ [opcode_code OP_JUMP mod 256;
                   Z.land (Z.shiftr loop_start 8) 255 mod 256;
                   Z.land loop_start 255 mod 256])
    by (rewrite Hd2, Hd1, <- app_assoc; reflexivity).
  assert (Hlen : (length (data (opcodes body)) <= length (data (opcodes body2)))%nat)
    by (rewrite Hd, length_app; lia).
  destruct (patchJump_spec c2 f func2 body2 whilepatch Hg2)
    as (c3 & func3 & body3 & He3 & Hg3 & Hd3 & Hl3);
    [by eapply in_code_mono; eauto|].
  rewrite He3. cbn [res_bind].
  assert (Hloop : loop c3 = Some l) by congruence.
  rewrite Hloop. cbn [of_option res_bind].
  unfold patch_count. rewrite Nat2Z.id.
  destruct (patch_breaks (patches l) [] c3 f func3 body3 l Hg3 Hloop eq_refl)
    as (c4 & func4 & body4 & He4 & Hg4 & Hd4 & Hl4).
  { rewrite Hd3, patched_length. eapply Forall_impl; [exact Hin|].
    intros a Ha. by eapply in_code_mono; eauto. }
  cbn [length] in He4. rewrite He4. cbn [res_bind].
  eexists. split; [reflexivity|]. split; [|reflexivity].
  rewrite code_of_set_loop. unfold code_of. rewrite Hg4. cbn [res_bind].
  by rewrite Hd4, Hd3, Hd.
Qed.

End Jumps.

(** X25.  When [compileWhileStatement] closes a loop, it emits a JUMP whose
    operand is the start of the loop, and then [patchJump] stores one and
    the same address, high byte first, as the operand of the exit jump and
    of every [break]: the count of the bytecode after that JUMP, the
    address just past the loop.  This holds when each place to patch and
    the byte after it lie in the bytecode before the JUMP, none starts on
    the second byte of another, and the addresses fit a short. *)
Theorem closeWhile_patches_to_count (P : Platform) (c : Compiler)
    (loop_start whilepatch : Z) (outer : option Loop) (l : Loop) (ops : list Z) :
  code_of c = Ok ops ->
  loop c = Some l ->
  0 <= loop_start < 65536 ->
  Z.of_nat (length ops) + 3 < 65536 ->
  forallb (in_code (length ops)) (whilepatch :: patches l) = true ->
  apart (whilepatch :: patches l) = true ->
  exists c' ops',
    closeWhile c loop_start whilepatch outer = Ok c'
    /\ code_of c' = Ok ops'
    /\ loop c' = outer
    /\ length ops' = (length ops + 3)%nat
    /\ ops' !! length ops = Some (opcode_code OP_JUMP mod 256)
    /\ short_at ops' (Z.of_nat (length ops) + 1) loop_start
    /\ (forall a, In a (whilepatch :: patches l) ->
          short_at ops' a (Z.of_nat (length ops'))
          /\ operand_at ops' a = Some (Z.of_nat (length ops'))).
Proof.
  intros Hc Hl Hs Hn Hin Hap.
  assert (Hin' : Forall (fun a => in_code (length ops) a = true) (whilepatch :: patches l)).
  { apply List.Forall_forall. intros a Ha. rewrite forallb_forall in Hin. by apply Hin. }
  destruct (closeWhile_code c loop_start whilepatch outer l ops Hc Hl Hin')
    as (c' & Hw & Hc' & Hl').
  destruct (short_bytes_div loop_start Hs) as [Hhi Hlo].
  rewrite Hhi, Hlo in Hc'.
  set (ops2 := ops ++ [opcode_code OP_JUMP mod 256; loop_start / 256; loop_start mod 256])
    in Hc'.
  assert (Hlen2 : length ops2 = (length ops + 3)%nat)
    by (unfold ops2; rewrite length_app; reflexivity).
  assert (Hother : forall i : nat, (length ops <= i)%nat ->
            fold_left patched (whilepatch :: patches l) ops2 !! i = ops2 !! i).
  { intros i Hi. apply fold_patched_other.
    eapply Forall_impl; [exact Hin'|]. intros a Ha. cbv beta in Ha.
    apply in_code_bounds in Ha. lia. }
  exists c', (fold_left patched (whilepatch :: patches l) ops2).
  split; [exact Hw|]. split; [exact Hc'|]. split; [exact Hl'|].
  assert (Hlen : length (fold_left patched (whilepatch :: patches l) ops2)
                 = (length ops + 3)%nat)
    by (rewrite fold_patched_length; exact Hlen2).
  split; [exact Hlen|]. split; [|split].
  - rewrite Hother by lia. unfold ops2.
    rewrite lookup_app_r by lia. rewrite Nat.sub_diag. reflexivity.
  - split.
    + rewrite Hother by lia. unfold ops2. rewrite lookup_app_r by lia.
      replace (Z.to_nat (Z.of_nat (length ops) + 1) - length ops)%nat with 1%nat by lia.
      reflexivity.
    + rewrite Hother by lia. unfold ops2. rewrite lookup_app_r by lia.
      replace (Z.to_nat (Z.of_nat (length ops) + 1 + 1) - length ops)%nat with 2%nat by lia.
      reflexivity.
  - intros a Ha.
    assert (Hsa : short_at (fold_left patched (whilepatch :: patches l) ops2) a
                           (Z.of_nat (length ops2))).
    { apply fold_patched_sets; [lia|exact Ha| |].
      - eapply Forall_impl; [exact Hin'|]. intros b Hb. cbv beta in Hb.
        eapply in_code_mono; [|exact Hb]. lia.
      - apply List.Forall_forall. intros b Hb.
        split; eapply apart_spec; eauto. }
    rewrite Hlen, <- Hlen2. split; [exact Hsa|by apply short_at_operand].
Qed.

Lemma closeWhile_patches_to_count_witness :
  exists c c',
    while_before_close program_while = Ok c
    /\ closeWhile (P := sample_platform) c 0 4 None = Ok c'
    /\ forall a, In a [4; 7] -> exists ops', code_of c' = Ok ops' /\ operand_at ops' a = Some 12.
Proof.
  destruct (while_before_close program_while) as [c| |] eqn:E.
  - assert (Hc : code_of c
                 = Ok [op OP_CONSTANT; 0; 0; op OP_JUMP_IF_NOT; 255; op OP_POP;
                       op OP_JUMP; 255; op OP_POP]
                 /\ loop c = Some (mkLoop 0 [7] None)).
    { vm_compute in E. injection E as <-. split; vm_compute; reflexivity. }
    destruct Hc as [Hc Hl].
    destruct (closeWhile_patches_to_count sample_platform c 0 4 None _ _ Hc Hl)
      as (c' & ops' & Hw & Hc' & _ & Hlen & _ & _ & Hp);
      [lia|cbn; lia|reflexivity|reflexivity|].
    exists c, c'. split; [reflexivity|]. split; [exact Hw|].
    intros a Ha. exists ops'. split; [exact Hc'|].
    destruct (Hp a Ha) as [_ Ho]. rewrite Ho, Hlen. reflexivity.
  - exfalso. vm_compute in E. discriminate E.
  - exfalso. vm_compute in E. discriminate E.
Defined.


(** * Statements: break and the loop pointer *)

Section BreakInStaleLoop.
Context {P : Platform}.

Lemma put_fn_frame (c : Compiler) (f : addr) (func : Function) (body : Fn) :
  parser (put_fn c f func body) = set_vm (parser c) (compiler_vm (put_fn c f func body))
  /\ script (put_fn c f func body) = script c
  /\ forall a, a <> f ->
       heap (compiler_vm (put_fn c f func body)) !! a = heap (compiler_vm c) !! a.
Proof.
  split; [reflexivity|]. split; [reflexivity|]. intros a Ha.
  unfold put_fn, compiler_vm, storeObject. cbn [set_compiler_vm set_parser parser set_vm vm].
  destruct (heap (vm (parser c)) !! f); [|reflexivity]. cbn [heap].
  by apply list_lookup_insert_ne.
Qed.

(** The emitter touches the function being compiled and nothing else: the
    tokens, the flags and every other object stay. *)
Lemma emitByte_parser (c c' : Compiler) (b i : Z) (f : addr) :
  function c = Some f ->
  emitByte c b = Ok (i, c') ->
  parser c' = set_vm (parser c) (compiler_vm c') /\ script c' = script c
  /\ function c' = Some f
  /\ forall a, a <> f -> heap (compiler_vm c') !! a = heap (compiler_vm c) !! a.
Proof.
  intros Hf. unfold emitByte.
  destruct (get_fn c) as [[[f1 func] body]| |] eqn:G; cbn [res_bind]; try discriminate.
  destruct (get_fn_inv _ _ _ _ G) as (Hf1 & _). rewrite Hf in Hf1. injection Hf1 as <-.
  intros [= _ <-].
  match goal with |- context [put_fn c f func ?b'] =>
    destruct (put_fn_frame c f func b') as (H1 & H2 & H3) end.
  split; [exact H1|]. split; [exact H2|]. split; [exact Hf|exact H3].
Qed.

Lemma emitOpcode_parser (c c' : Compiler) (o : Opcode) (f : addr) :
  function c = Some f ->
  emitOpcode c o = Ok c' ->
  parser c' = set_vm (parser c) (compiler_vm c') /\ script c' = script c
  /\ function c' = Some f
  /\ forall a, a <> f -> heap (compiler_vm c') !! a = heap (compiler_vm c) !! a.
Proof.
  intros Hf. unfold emitOpcode. intros H.
  destruct (emitByte c _) as [[i c1]| |] eqn:E1; cbn [res_bind] in H; try discriminate.
  destruct (emitByte_parser _ _ _ _ f Hf E1) as (Hp & Hs & Hf1 & Hh).
  destruct (get_fn _) as [[[f2 func] body]| |] eqn:G; cbn [res_bind] in H; try discriminate.
  destruct (get_fn_inv _ _ _ _ G) as (Hf2 & _). cbn [function set_stack_size] in Hf2.
  rewrite Hf1 in Hf2. injection Hf2 as <-.
  destruct (_ >? _); injection H as <-.
  - match goal with |- context [put_fn ?c0 f func ?b'] =>
      destruct (put_fn_frame c0 f func b') as (H1 & H2 & H3) end.
    split; [|split; [|split]].
    + rewrite H1. cbn [parser set_stack_size]. rewrite Hp. reflexivity.
    + rewrite H2. exact Hs.
    + exact Hf1.
    + intros a Ha. rewrite (H3 a Ha). exact (Hh a Ha).
  - split; [exact Hp|]. split; [exact Hs|]. split; [exact Hf1|exact Hh].
Qed.

(** [break] while [compiler->loop] is not NULL: a JUMP and one byte for its
    operand are emitted, the place of the byte goes to the patches of the
    loop, and nothing is reported. *)
Lemma compileStatement_break_in_loop (fuel : nat) (c : Compiler) (p1 : Parser)
    (l : Loop) (f : addr) (func : Function) (body : Fn) :
  tk_type (current (parser c)) = TK_BREAK -> loop c = Some l ->
  patch_count l < MAX_BREAK_PATCH ->
  lexToken (parser c) = Ok p1 ->
  get_fn (set_parser c p1) = Ok (f, func, body) ->
  exists c' func' body',
    compileStatement (S fuel) c = Ok c'
    /\ get_fn c' = Ok (f, func', body')
    /\ data (opcodes body') = data (opcodes body) ++ [opcode_code OP_JUMP mod 256; 255]
    /\ parser c' = set_vm p1 (compiler_vm c')
    /\ script c' = script c
    /\ loop c' = Some (mkLoop (loop_start l) (patches l ++ [count (opcodes body) + 1])
                              (outer_loop l))
    /\ (forall a, a <> f -> heap (compiler_vm c') !! a = heap (vm p1) !! a).
Proof.
  intros Ht Hloop Hroom Hlex Hfn. cbn [compileStatement].
  rewrite (match_current _ p1 TK_BREAK Ht ltac:(discriminate) Hlex).
  cbn [res_bind]. cbn [loop set_parser]. rewrite Hloop.
  destruct (emitOpcode_spec _ f func body OP_JUMP Hfn) as (c1 & func1 & body1 & E1 & G1 & D1 & L1).
  rewrite E1. cbn [res_bind].
  destruct (emitByte_spec c1 f func1 body1 65535 G1)
    as (c2 & func2 & body2 & E2 & G2 & D2 & L2 & _).
  rewrite E2. cbn [res_bind].
  rewrite L2, L1. cbn [loop set_parser]. rewrite Hloop. cbn [of_option res_bind].
  destruct (Z.ltb_spec (patch_count l) MAX_BREAK_PATCH); [|lia].
  destruct (get_fn_inv _ _ _ _ Hfn) as (Hf & _).
  destruct (emitOpcode_parser _ _ _ f Hf E1) as (P1 & S1 & F1 & H1).
  destruct (emitByte_parser _ _ _ _ f F1 E2) as (P2 & S2 & _ & H2).
  eexists _, func2, body2. split; [reflexivity|]. rewrite get_fn_set_loop.
  split; [exact G2|]. split; [|split; [|split; [|split]]].
  - rewrite D2, D1, <- app_assoc. reflexivity.
  - cbn [parser set_loop]. rewrite P2, P1. reflexivity.
  - cbn [script set_loop]. by rewrite S2, S1.
  - cbn [loop set_loop].
    replace (count (opcodes body1)) with (count (opcodes body) + 1); [reflexivity|].
    unfold count. rewrite D1, length_app. cbn [length]. lia.
  - intros a Ha. cbn [set_loop]. unfold compiler_vm at 1. cbn [parser set_loop].
    fold (compiler_vm c2). rewrite (H2 a Ha), (H1 a Ha). reflexivity.
Qed.

End BreakInStaleLoop.

(** Compute the next [match] of a run on a closed parser. *)
Ltac step_match :=
  match goal with
  | |- context [match_ ?p ?t] =>
      let r := fresh "r" in let Hr := fresh "Hr" in
      remember (match_ p t) as r eqn:Hr; vm_compute in Hr; subst r;
      cbn [res_bind]; cbv zeta; cbv iota
  end.

(** [break] and a line feed, compiled where the memory of the compiler
    holds a [loop] that is not NULL. *)
Lemma break_with_stale_loop (P : Platform) (fuel : nat) (c0 : Compiler) (l : Loop) :
  loop c0 = Some l -> patch_count l < MAX_BREAK_PATCH ->
  exists s c',
    compileSource (S (S fuel)) c0 empty_vm program_break EmptyString = Ok (s, c')
    /\ body_bytecode (heap (compiler_vm c')) s = Some [opcode_code OP_JUMP mod 256; 255]
    /\ has_errors (parser c') = false
    /\ reported (parser c') = [].
Proof.
  intros Hloop Hroom. destruct c0 as [p0 d vs ss sc lp f0]. cbn in Hloop. subst lp.
  unfold compileSource. cbv zeta.
  repeat match goal with
         | |- exists s c', res_bind ?m _ = _ /\ _ =>
             match m with
             | compileSource_loop _ _ => fail 1
             | _ => let r := fresh "r" in let Hr := fresh "Hr" in
                    remember m as r eqn:Hr; vm_compute in Hr; subst r; cbn [res_bind]
             end
         end.
  cbn [compileSource_loop].
  step_match. step_match. step_match. step_match.
  match goal with
  | |- context [compileStatement (S fuel) ?c] => set (C := c)
  end.
  assert (Hlex : exists p1, lexToken (parser C) = Ok p1
                            /\ has_errors p1 = false /\ reported p1 = []
                            /\ tk_type (current p1) = TK_LINE
                            /\ tk_type (next p1) = TK_EOF
                            /\ heap (vm p1) !! 0%nat = heap (compiler_vm C) !! 0%nat
                            /\ get_fn (set_parser C p1)
                               = Ok (1%nat,
                                     mkFunction (DataOf 2) (Some 0%nat) (Some (-2)) false
                                       (Some (mkFn bufferInit bufferInit 0)),
                                     mkFn bufferInit bufferInit 0)).
  { remember (lexToken (parser C)) as r eqn:Hr. vm_compute in Hr. subst r.
    eexists. split; [reflexivity|]. repeat split. }
  destruct Hlex as (p1 & Hlex & He & Hrep & Hcur & Hnext & Hh0 & Hfn).
  destruct (compileStatement_break_in_loop fuel C p1 l _ _ _ eq_refl eq_refl Hroom Hlex Hfn)
    as (c1 & func1 & body1 & Hst & G1 & D1 & P1 & S1 & _ & H1).
  rewrite Hst. cbn [res_bind compileSource_loop].
  assert (Hm : match_ (parser c1) TK_EOF
               = Ok (true, set_tokens (parser c1) (next p1) (next p1) (next p1))).
  { rewrite P1. destruct p1 as [v1 src pth ts cc cl pv [ct cs cln cli cv] [nt ns nln nli nv] he rp].
    cbn in Hcur, Hnext. subst ct nt. reflexivity. }
  rewrite Hm. cbn [res_bind]. cbv zeta iota.
  eexists _, _. split; [reflexivity|].
  split; [|split].
  - unfold body_bytecode, bytecode_at, compiler_vm. cbn [parser set_parser set_tokens vm].
    fold (compiler_vm c1). rewrite (H1 0%nat ltac:(discriminate)), Hh0.
    destruct (get_fn_inv _ _ _ _ G1) as (_ & [m Hm1] & Hb1).
    change (heap (compiler_vm C) !! 0%nat) with
      (Some (mkObject false (BScript (mkScript None bufferInit bufferInit bufferInit
               (mkBuffer [1%nat] 8) (mkBuffer [2%nat] 8) bufferInit (Some 1%nat))))).
    cbv iota. cbn [body]. rewrite Hm1, Hb1, D1. reflexivity.
  - cbn [parser set_parser set_tokens has_errors]. rewrite P1. exact He.
  - cbn [parser set_parser set_tokens reported]. rewrite P1. exact Hrep.
Qed.

(** C8 (code bug).  With [break] as the current token and [compiler->loop]
    NULL, [compileStatement] consumes the token, raises [has_errors],
    reports "Cannot use 'break' outside a loop." and emits nothing; and the
    program [break], a line feed, compiled where that field is NULL, gives
    an empty body and the error.  But [compilerInit] does not set the
    field: it keeps what the memory of the compiler held.  Where that is
    not NULL, the same program, with no loop in it, compiles to a JUMP and
    one byte of operand, the flag stays down and nothing is reported. *)
Theorem break_outside_loop_depends_on_stale_loop :
  forall P : Platform,
  (forall (fuel : nat) (c : Compiler) (p1 : Parser),
     tk_type (current (parser c)) = TK_BREAK -> loop c = None ->
     lexToken (parser c) = Ok p1 ->
     exists c', compileStatement (S fuel) c = Ok c'
       /\ has_errors (parser c') = true
       /\ reported (parser c')
          = reported p1 ++ [(tk_line (current (parser c)),
                             "Cannot use 'break' outside a loop."%string)]
       /\ function c' = function c /\ loop c' = None
       /\ (forall a o, heap (compiler_vm c) !! a = Some o ->
                       heap (compiler_vm c') !! a = Some o)) /\
  (forall (self : Compiler) (v : MSVM) (src : list ascii) (pth : string),
     loop (compilerInit self v src pth) = loop self) /\
  (forall (fuel : nat) (c0 : Compiler),
     loop c0 = None ->
     exists s c', compileSource (S (S fuel)) c0 empty_vm program_break EmptyString
                  = Ok (s, c')
       /\ body_bytecode (heap (compiler_vm c')) s = Some []
       /\ has_errors (parser c') = true
       /\ reported (parser c') = [(1, "Cannot use 'break' outside a loop."%string)]) /\
  (forall (fuel : nat) (c0 : Compiler) (l : Loop),
     loop c0 = Some l -> patch_count l < MAX_BREAK_PATCH ->
     exists s c', compileSource (S (S fuel)) c0 empty_vm program_break EmptyString
                  = Ok (s, c')
       /\ body_bytecode (heap (compiler_vm c')) s
          = Some [opcode_code OP_JUMP mod 256; 255]
       /\ has_errors (parser c') = false
       /\ reported (parser c') = []).
Proof.
  intros P. split; [|split; [|split]].
  - intros fuel c p1 Ht Hloop Hlex.
    rewrite (compileStatement_break_no_loop fuel c p1 Ht Hloop Hlex).
    eexists. split; [reflexivity|].
    split; [reflexivity|]. split; [reflexivity|]. split; [reflexivity|].
    split; [exact Hloop|].
    intros a o Ha. destruct (lexToken_window _ _ Hlex) as (_ & _ & _ & l & Hl).
    unfold compiler_vm. cbn. rewrite Hl. by apply lookup_app_l_Some.
  - reflexivity.
  - intros fuel [p0 d vs ss sc lp f] Hloop. cbn in Hloop. subst lp.
    remember (compileSource _ _ _ _ _) as r eqn:Hr. vm_compute in Hr. subst r.
    eexists _, _. split; [reflexivity|]. repeat split.
  - apply break_with_stale_loop.
Qed.

Lemma break_outside_loop_depends_on_stale_loop_witness :
  exists s c',
    compileSource (P := sample_platform) 2 (stale_loop_compiler (mkLoop 0 [] None))
                  empty_vm program_break EmptyString = Ok (s, c')
    /\ body_bytecode (heap (compiler_vm c')) s = Some [op OP_JUMP mod 256; 255]
    /\ has_errors (parser c') = false.
Proof.
  destruct (break_outside_loop_depends_on_stale_loop sample_platform) as (_ & _ & _ & H).
  destruct (H 0%nat (stale_loop_compiler (mkLoop 0 [] None)) (mkLoop 0 [] None) eq_refl
              eq_refl) as (s & c' & H1 & H2 & H3 & _).
  exists s, c'. repeat split; assumption.
Defined.

(** * Conditionals *)

(** C5 (code bug).  On the sample platform, [if 1 do elif 0 do end]: as
    [compileSource] starts it, the compiler reads [variables] below its
    first entry when the first body ends.  With a variable of the top level
    in [variables] the statement compiles, and the bytecode holds one
    JUMP_IF_NOT, the one of the [if]: the condition of the [elif] is
    compiled as an expression statement of the arm, a constant and a POP
    with no JUMP_IF_NOT after it, the [do] that follows it is reported as a
    missing expression, and the statement returns with [end] as the current
    token. *)
Theorem compileIfStatement_elif_without_condition :
  compileSource (P := sample_platform) 10 blank_compiler empty_vm program_if_elif
                EmptyString = UB OutOfBounds
  /\ exists c0 c',
       statement_start program_if_elif = Ok c0
       /\ compileStatement (P := sample_platform) 10 c0 = Ok c'
       /\ code_of c' =
          Ok [op OP_CONSTANT; 0; 0; op OP_JUMP_IF_NOT; 0;
              op OP_CONSTANT; 0; 1; op OP_POP; op OP_POP]
       /\ reported (parser c') = [(1, "Expected an expression."%string)]
       /\ tk_type (current (parser c')) = TK_END.
Proof.
  split.
  - vm_compute. reflexivity.
  - remember (statement_start program_if_elif) as r0 eqn:Hr0.
    vm_compute in Hr0. subst r0. eexists _, _. split; [reflexivity|].
    remember (compileStatement _ _) as r eqn:Hr. vm_compute in Hr. subst r.
    split; [reflexivity|]. split; [vm_compute; reflexivity|]. split; reflexivity.
Qed.

(** * Values: equality, hashing and truth *)

Lemma Var_eqb_sym (a b : Var) : Var_eqb a b = Var_eqb b a.
Proof.
  destruct a, b; simpl; auto using Z.eqb_sym, Nat.eqb_sym.
  by destruct b, b0.
Qed.

Lemma bytes_eqb_eq (a b : list Z) : bytes_eqb a b = true <-> a = b.
Proof.
  revert b. induction a as [|x a IH]; intros [|y b]; simpl; split; try done.
  - intros [Hx Hab]%andb_prop. apply Z.eqb_eq in Hx. apply IH in Hab. by subst.
  - intros [= -> ->]. rewrite Z.eqb_refl. simpl. by apply IH.
Qed.

Lemma bytes_eqb_sym (a b : list Z) : bytes_eqb a b = bytes_eqb b a.
Proof.
  destruct (bytes_eqb a b) eqn:H1, (bytes_eqb b a) eqn:H2; auto.
  - apply bytes_eqb_eq in H1. subst. rewrite (proj2 (bytes_eqb_eq b b) eq_refl) in H2.
    discriminate.
  - apply bytes_eqb_eq in H2. subst. rewrite (proj2 (bytes_eqb_eq a a) eq_refl) in H1.
    discriminate.
Qed.

Lemma dbl_eq_sym (x y : Z) : dbl_eq x y = dbl_eq y x.
Proof.
  unfold dbl_eq. rewrite (Z.eqb_sym x y).
  destruct (dbl_is_nan x), (dbl_is_nan y), (y =? x), (dbl_is_zero x), (dbl_is_zero y);
    reflexivity.
Qed.

Lemma dbl_eq_trans (x y z : Z) :
  dbl_eq x y = true -> dbl_eq y z = true -> dbl_eq x z = true.
Proof.
  unfold dbl_eq. intros H1 H2.
  destruct (dbl_is_nan x), (dbl_is_nan y), (dbl_is_nan z); try discriminate.
  cbn [negb andb] in *.
  destruct (x =? y) eqn:Hxy; [apply Z.eqb_eq in Hxy; by subst|].
  destruct (y =? z) eqn:Hyz; [apply Z.eqb_eq in Hyz; subst; by rewrite Hxy|].
  cbn [orb] in *. apply andb_prop in H1 as [-> _]. apply andb_prop in H2 as [_ ->].
  by rewrite orb_true_r.
Qed.

Lemma ObjectType_eqb_sym (a b : ObjectType) : ObjectType_eqb a b = ObjectType_eqb b a.
Proof. by destruct a, b. Qed.

Lemma isValuesEqual_sym (h : Heap) (a b : Var) :
  isValuesEqual h a b = isValuesEqual h b a.
Proof.
  unfold isValuesEqual, isValuesSame. rewrite (Var_eqb_sym b a).
  destruct (Var_eqb a b); [reflexivity|].
  destruct a as [| | | |p1], b as [| | | |p2]; try reflexivity.
  unfold deref.
  destruct (h !! p1) as [[m1 o1]|], (h !! p2) as [[m2 o2]|];
    cbn [fmap option_fmap option_map of_option res_bind obj_body]; try reflexivity.
  rewrite (ObjectType_eqb_sym (type_of o2)).
    destruct o1, o2; cbn [type_of ObjectType_eqb negb]; try reflexivity.
  - rewrite (Z.eqb_sym (str_hash s0)), (Z.eqb_sym (str_length s0)). unfold memcmp_eq.
    rewrite (bytes_eqb_sym (take _ (str_data s0))).
    destruct (str_hash s =? str_hash s0); [|reflexivity].
    destruct (str_length s =? str_length s0) eqn:Hl; [|reflexivity].
    apply Z.eqb_eq in Hl. by rewrite Hl.
  - by rewrite (dbl_eq_sym (from r0)), (dbl_eq_sym (to r0)).
Qed.

Lemma Ok_inj {A} (x y : A) : Ok x = Ok y -> x = y.
Proof. congruence. Qed.

(** Two values are equal when they are the same word, or refer to two
    Strings with the same hash, length and bytes, or to two Ranges with equal
    bounds. *)
Lemma isValuesEqual_true (h : Heap) (a b : Var) :
  isValuesEqual h a b = Ok true <->
  a = b \/
  exists p1 p2, a = VAR_OBJ p1 /\ b = VAR_OBJ p2 /\
    ((exists s1 s2, deref h p1 = Ok (BString s1) /\ deref h p2 = Ok (BString s2)
        /\ str_hash s1 = str_hash s2 /\ str_length s1 = str_length s2
        /\ take (Z.to_nat (str_length s1)) (str_data s1)
           = take (Z.to_nat (str_length s1)) (str_data s2))
     \/ (exists r1 r2, deref h p1 = Ok (BRange r1) /\ deref h p2 = Ok (BRange r2)
           /\ dbl_eq (from r1) (from r2) = true /\ dbl_eq (to r1) (to r2) = true)).
Proof.
  split.
  - unfold isValuesEqual, isValuesSame.
    destruct (Var_eqb a b) eqn:Hs; [apply Var_eqb_eq in Hs; auto|].
    destruct a as [| | | |p1], b as [| | | |p2]; try discriminate.
    destruct (deref h p1) as [o1| |] eqn:H1; cbn [res_bind]; try discriminate.
    destruct (deref h p2) as [o2| |] eqn:H2; cbn [res_bind]; try discriminate.
    destruct o1, o2; cbn [type_of ObjectType_eqb negb]; try discriminate.
    + intros [= H]. apply andb_prop in H as [H Hm]. apply andb_prop in H as [Hh Hl].
      apply Z.eqb_eq in Hh, Hl. unfold memcmp_eq in Hm. apply bytes_eqb_eq in Hm.
      right. exists p1, p2. split; [done|]. split; [done|]. left.
      exists s, s0. repeat split; assumption.
    + intros H. apply Ok_inj in H. apply andb_prop in H as [Hf Ht].
      right. exists p1, p2. split; [done|]. split; [done|]. right.
      exists r, r0. split; [exact H1|]. split; [exact H2|]. split; assumption.
  - intros [->|(p1 & p2 & -> & -> & H)].
    + unfold isValuesEqual, isValuesSame. by rewrite Var_eqb_refl.
    + unfold isValuesEqual, isValuesSame.
      destruct (Var_eqb (VAR_OBJ p1) (VAR_OBJ p2)); [reflexivity|].
      destruct H as [(s1 & s2 & -> & -> & Hh & Hl & Hm)|(r1 & r2 & -> & -> & Hf & Ht)];
        cbn [res_bind type_of ObjectType_eqb negb].
      * unfold memcmp_eq. rewrite Hh, Hl, !Z.eqb_refl. rewrite Hl in Hm. rewrite Hm.
        by rewrite (proj2 (bytes_eqb_eq _ _) eq_refl).
      * by rewrite Hf, Ht.
Qed.

Lemma isValuesEqual_trans (h : Heap) (a b c : Var) :
  isValuesEqual h a b = Ok true -> isValuesEqual h b c = Ok true ->
  isValuesEqual h a c = Ok true.
Proof.
  intros Hab Hbc. apply isValuesEqual_true in Hab, Hbc. apply isValuesEqual_true.
  destruct Hab as [->|(p1 & p2 & -> & -> & Hab)]; [exact Hbc|].
  destruct Hbc as [<-|(p2' & p3 & [= <-] & -> & Hbc)]; [right; eauto 10|].
  right. exists p1, p3. split; [done|]. split; [done|].
  destruct Hab as [(s1 & s2 & H1 & H2 & Hh & Hl & Hm)|(r1 & r2 & H1 & H2 & Hf & Ht)],
           Hbc as [(s2' & s3 & H2' & H3 & Hh' & Hl' & Hm')|(r2' & r3 & H2' & H3 & Hf' & Ht')];
    rewrite H2 in H2'; try discriminate; injection H2' as <-.
  - left. exists s1, s3. split; [exact H1|]. split; [exact H3|].
    split; [congruence|]. split; [congruence|].
    rewrite Hm. rewrite Hl. exact Hm'.
  - right. exists r1, r3. split; [exact H1|]. split; [exact H3|].
    split; eapply dbl_eq_trans; eassumption.
Qed.

(** X3.  [isValuesEqual] is symmetric, also in how it fails, and
    transitive.  With the reflexivity of [isValuesSame] it is an equivalence
    on the values it accepts. *)
Theorem isValuesEqual_symmetric_transitive :
  (forall (h : Heap) (a b : Var), isValuesEqual h a b = isValuesEqual h b a) /\
  (forall (h : Heap) (a b c : Var),
     isValuesEqual h a b = Ok true -> isValuesEqual h b c = Ok true ->
     isValuesEqual h a c = Ok true).
Proof. split; [apply isValuesEqual_sym | apply isValuesEqual_trans]. Qed.

Lemma isValuesEqual_symmetric_transitive_witness :
  isValuesEqual equal_heap (VAR_OBJ 0%nat) (VAR_OBJ 0%nat) = Ok true
  /\ isValuesEqual equal_heap (VAR_OBJ 1%nat) (VAR_OBJ 0%nat) = Ok true.
Proof.
  split.
  - apply (proj2 isValuesEqual_symmetric_transitive equal_heap
                 (VAR_OBJ 0%nat) (VAR_OBJ 1%nat) (VAR_OBJ 0%nat)); vm_compute; reflexivity.
  - rewrite (proj1 isValuesEqual_symmetric_transitive). vm_compute. reflexivity.
Defined.

Section Hashing.
Context {P : Platform}.

(** X4.  Equal values hash alike, which is what lets [_mapFindEntry] start
    its search for a key at the slot where an equal key was put: for any two
    equal values that are not Ranges; and for two equal Ranges when
    [utilHashNumber] gives the two zeros, which compare equal as doubles,
    the same hash. *)
Theorem equal_values_hash_alike (h : Heap) (a b : Var) :
  isValuesEqual h a b = Ok true ->
  (is_range h a = false -> _hashVar h a = _hashVar h b) /\
  ((forall x y, dbl_eq x y = true -> utilHashNumber x = utilHashNumber y) ->
   _hashVar h a = _hashVar h b).
Proof.
  intros H. apply isValuesEqual_true in H.
  destruct H as [->|(p1 & p2 & -> & -> & H)]; [by split|].
  destruct H as [(s1 & s2 & H1 & H2 & Hh & _)|(r1 & r2 & H1 & H2 & Hf & Ht)];
    unfold _hashVar, _hashObject, is_range; rewrite H1, H2; cbn [res_bind].
  - split; intros _; by rewrite Hh.
  - split; [discriminate|]. intros Hn. by rewrite (Hn _ _ Hf), (Hn _ _ Ht).
Qed.

End Hashing.

Lemma equal_values_hash_alike_witness :
  _hashVar (P := sample_platform) equal_heap (VAR_OBJ 0%nat)
  = _hashVar (P := sample_platform) equal_heap (VAR_OBJ 1%nat).
Proof.
  assert (H : isValuesEqual equal_heap (VAR_OBJ 0%nat) (VAR_OBJ 1%nat) = Ok true)
    by (vm_compute; reflexivity).
  apply (proj1 (equal_values_hash_alike (P := sample_platform) equal_heap
                  (VAR_OBJ 0%nat) (VAR_OBJ 1%nat) H)).
  vm_compute. reflexivity.
Defined.

(** X5.  Equal values have the same truth value: [toBool] gives the same
    answer, or fails in the same way, on two values that [isValuesEqual]
    accepts as equal. *)
Theorem equal_values_same_truth (h : Heap) (a b : Var) :
  isValuesEqual h a b = Ok true -> toBool h a = toBool h b.
Proof.
  intros H. apply isValuesEqual_true in H.
  destruct H as [->|(p1 & p2 & -> & -> & H)]; [reflexivity|].
  destruct H as [(s1 & s2 & H1 & H2 & _ & Hl & _)|(r1 & r2 & H1 & H2 & _)];
    unfold toBool; rewrite H1, H2; cbn [res_bind]; [by rewrite Hl|reflexivity].
Qed.

Lemma equal_values_same_truth_witness :
  toBool equal_heap (VAR_OBJ 2%nat) = toBool equal_heap (VAR_OBJ 3%nat).
Proof. apply equal_values_same_truth. vm_compute. reflexivity. Defined.

(** * Maps: storing, finding, removing *)

Section MapLookups.
Context {P : Platform}.
Variable h : Heap.

Lemma isValuesEqual_refl (k : Var) : isValuesEqual h k k = Ok true.
Proof. unfold isValuesEqual, isValuesSame. by rewrite Var_eqb_refl. Qed.

(** The probing loop reads the capacity and the entries of the map only. *)
Lemma _mapFindEntry_loop_count (fuel : nat) (cap cnt cnt' : Z) (T : list MapEntry)
    (k : Var) (start index : Z) (tomb : option nat) :
  _mapFindEntry_loop fuel h (mkMap cap cnt T) k start index tomb
  = _mapFindEntry_loop fuel h (mkMap cap cnt' T) k start index tomb.
Proof.
  revert index tomb. induction fuel as [|fuel IH]; intros index tomb; [reflexivity|].
  rewrite !_mapFindEntry_loop_S. unfold probe_next. cbn [entries map_capacity].
  destruct (T !! Z.to_nat index) as [e|]; cbn [of_option res_bind]; [|reflexivity].
  rewrite !IH. reflexivity.
Qed.

Lemma _mapFindEntry_count (cap cnt cnt' : Z) (T : list MapEntry) (k : Var) :
  _mapFindEntry h (mkMap cap cnt T) k = _mapFindEntry h (mkMap cap cnt' T) k.
Proof.
  unfold _mapFindEntry. cbn [map_capacity]. destruct (cap =? 0); [reflexivity|].
  destruct (_hashVar h k); cbn [res_bind]; try reflexivity.
  apply _mapFindEntry_loop_count.
Qed.

Lemma mapGet_count (cap cnt cnt' : Z) (T : list MapEntry) (k : Var) :
  mapGet h (mkMap cap cnt T) k = mapGet h (mkMap cap cnt' T) k.
Proof. unfold mapGet. by rewrite (_mapFindEntry_count cap cnt cnt'). Qed.

(** With a tombstone in hand, a failed search answers with it. *)
Lemma _mapFindEntry_loop_tombstone (fuel : nat) (m : Map) (k : Var) (start index : Z)
    (t : nat) (r : option nat) :
  _mapFindEntry_loop fuel h m k start index (Some t) = Ok (false, r) -> r = Some t.
Proof.
  revert index. induction fuel as [|fuel IH]; intros index; [discriminate|].
  rewrite _mapFindEntry_loop_S. unfold probe_next.
  destruct (entries m !! Z.to_nat index) as [e|]; cbn [of_option res_bind]; [|discriminate].
  destruct (IS_UNDEF (key e)).
  - destruct (IS_TRUE (value e)).
    + destruct (_ =? start); [by intros [= <-]|apply IH].
    + by intros [= <-].
  - destruct (isValuesEqual h (key e) k) as [[]| |]; cbn [res_bind]; try discriminate.
    destruct (_ =? start); [by intros [= <-]|apply IH].
Qed.

(** A search that succeeds stops at a live entry whose key is equal to the
    key looked for. *)
Lemma _mapFindEntry_loop_found (fuel : nat) (m : Map) (k : Var) (start index : Z)
    (tomb r : option nat) :
  _mapFindEntry_loop fuel h m k start index tomb = Ok (true, r) ->
  exists j e, r = Some j /\ entries m !! j = Some e
              /\ IS_UNDEF (key e) = false /\ isValuesEqual h (key e) k = Ok true.
Proof.
  revert index tomb. induction fuel as [|fuel IH]; intros index tomb; [discriminate|].
  rewrite _mapFindEntry_loop_S. unfold probe_next.
  destruct (entries m !! Z.to_nat index) as [e|] eqn:He; cbn [of_option res_bind];
    [|discriminate].
  destruct (IS_UNDEF (key e)) eqn:Hu.
  - destruct (IS_TRUE (value e)); [|discriminate].
    destruct (_ =? start); [discriminate|apply IH].
  - destruct (isValuesEqual h (key e) k) as [[]| |] eqn:Heq; cbn [res_bind];
      try discriminate.
    + intros [= <-]. eauto 10.
    + destruct (_ =? start); [discriminate|apply IH].
Qed.

Lemma _mapFindEntry_found (m : Map) (k : Var) (r : option nat) :
  _mapFindEntry h m k = Ok (true, r) ->
  exists j e, r = Some j /\ entries m !! j = Some e
              /\ IS_UNDEF (key e) = false /\ isValuesEqual h (key e) k = Ok true.
Proof.
  unfold _mapFindEntry. destruct (_ =? 0); [discriminate|].
  destruct (_hashVar h k); cbn [res_bind]; try discriminate.
  apply _mapFindEntry_loop_found.
Qed.

(** Replacing the value of a live entry is not seen by any search. *)
Lemma _mapFindEntry_loop_value (fuel : nat) (cap cnt : Z) (T : list MapEntry) (j : nat)
    (e : MapEntry) (v k : Var) (start index : Z) (tomb : option nat) :
  T !! j = Some e -> IS_UNDEF (key e) = false ->
  _mapFindEntry_loop fuel h (mkMap cap cnt (<[j := mkEntry (key e) v]> T)) k start index tomb
  = _mapFindEntry_loop fuel h (mkMap cap cnt T) k start index tomb.
Proof.
  intros Hj Hlive. revert index tomb.
  induction fuel as [|fuel IH]; intros index tomb; [reflexivity|].
  rewrite !_mapFindEntry_loop_S. unfold probe_next. cbn [entries map_capacity].
  destruct (decide (Z.to_nat index = j)) as [->|Hne].
  - rewrite list_lookup_insert_eq by (eapply lookup_lt_Some; eauto).
    rewrite Hj. cbn [of_option res_bind key]. rewrite Hlive.
    destruct (isValuesEqual h (key e) k) as [[]| |]; cbn [res_bind]; try reflexivity.
    by rewrite IH.
  - rewrite list_lookup_insert_ne by congruence.
    destruct (T !! Z.to_nat index) as [e'|]; cbn [of_option res_bind]; [|reflexivity].
    by rewrite !IH.
Qed.

(** A key put into the slot that a failed search answered with is found
    there by the next search. *)
Lemma _mapFindEntry_loop_put (fuel : nat) (cap cnt : Z) (T : list MapEntry) (j : nat)
    (k v : Var) (start index : Z) :
  IS_UNDEF k = false ->
  _mapFindEntry_loop fuel h (mkMap cap cnt T) k start index None = Ok (false, Some j) ->
  _mapFindEntry_loop fuel h (mkMap cap cnt (<[j := mkEntry k v]> T)) k start index None
  = Ok (true, Some j).
Proof.
  intros Hk. revert index.
  induction fuel as [|fuel IH]; intros index; [discriminate|].
  rewrite !_mapFindEntry_loop_S. unfold probe_next. cbn [entries map_capacity].
  destruct (T !! Z.to_nat index) as [e|] eqn:He; cbn [of_option res_bind]; [|discriminate].
  assert (Hput : Z.to_nat index = j ->
            (do entry <- of_option OutOfBounds (<[j := mkEntry k v]> T !! Z.to_nat index);
             if IS_UNDEF (key entry)
             then if IS_TRUE (value entry)
                  then (if u32 (index + 1) mod cap =? start
                        then Ok (false, Some (Z.to_nat index))
                        else _mapFindEntry_loop fuel h
                               (mkMap cap cnt (<[j := mkEntry k v]> T)) k start
                               (u32 (index + 1) mod cap) (Some (Z.to_nat index)))
                  else Ok (false, Some (Z.to_nat index))
             else do eq <- isValuesEqual h (key entry) k;
                  if eq then Ok (true, Some (Z.to_nat index))
                  else (if u32 (index + 1) mod cap =? start then Ok (false, None)
                        else _mapFindEntry_loop fuel h
                               (mkMap cap cnt (<[j := mkEntry k v]> T)) k start
                               (u32 (index + 1) mod cap) None))
            = Ok (true, Some j)).
  { intros <-. rewrite list_lookup_insert_eq by (eapply lookup_lt_Some; eauto).
    cbn [of_option res_bind key]. rewrite Hk, isValuesEqual_refl. reflexivity. }
  destruct (IS_UNDEF (key e)) eqn:Hu.
  - destruct (IS_TRUE (value e)).
    + intros Hr. apply Hput.
      destruct (_ =? start); [by injection Hr|].
      apply _mapFindEntry_loop_tombstone in Hr. by injection Hr.
    + intros [= <-]. by apply Hput.
  - destruct (isValuesEqual h (key e) k) as [[]| |] eqn:Heq; cbn [res_bind];
      try discriminate.
    destruct (u32 (index + 1) mod cap =? start) eqn:Hw; [discriminate|].
    intros Hr. destruct (decide (Z.to_nat index = j)) as [Hij|Hne]; [by apply Hput|].
    rewrite list_lookup_insert_ne by congruence. rewrite He.
    cbn [of_option res_bind]. rewrite Hu, Heq. cbn [res_bind]. by apply IH.
Qed.

(** What [_mapInsertEntry] leaves: the key is found, with the new value. *)
Lemma _mapInsertEntry_mapGet (m m' : Map) (k v : Var) (added : bool) :
  IS_UNDEF k = false ->
  _mapInsertEntry h m k v = Ok (m', added) ->
  mapGet h m' k = Ok v.
Proof.
  intros Hk. destruct m as [cap cnt T]. unfold _mapInsertEntry.
  destruct (_mapFindEntry h (mkMap cap cnt T) k) as [[found r]| |] eqn:Hf;
    cbn [res_bind]; try discriminate.
  destruct r as [j|]; cbn [of_option res_bind]; [|discriminate].
  cbn [entries]. destruct (T !! j) as [e|] eqn:He; cbn [of_option res_bind]; [|discriminate].
  assert (Hlt : (j < length T)%nat) by (eapply lookup_lt_Some; eauto).
  destruct found; intros [= <- <-]; unfold set_entries; cbn [map_capacity map_count entries].
  - destruct (_mapFindEntry_found _ _ _ Hf) as (j' & e' & [= <-] & He' & Hlive & _).
    cbn [entries] in He'. rewrite He in He'. injection He' as <-.
    unfold mapGet.
    assert (Hf' : _mapFindEntry h (mkMap cap cnt (<[j := mkEntry (key e) v]> T)) k
                  = Ok (true, Some j)).
    { rewrite <- Hf. unfold _mapFindEntry. cbn [map_capacity].
      destruct (cap =? 0); [reflexivity|].
      destruct (_hashVar h k); cbn [res_bind]; try reflexivity.
      by apply _mapFindEntry_loop_value. }
    rewrite Hf'. cbn [res_bind of_option entries].
    rewrite list_lookup_insert_eq by exact Hlt. reflexivity.
  - unfold mapGet.
    assert (Hf' : _mapFindEntry h (mkMap cap cnt (<[j := mkEntry k v]> T)) k
                  = Ok (true, Some j)).
    { revert Hf. unfold _mapFindEntry. cbn [map_capacity].
      destruct (cap =? 0); [discriminate|].
      destruct (_hashVar h k); cbn [res_bind]; try discriminate.
      by apply _mapFindEntry_loop_put. }
    rewrite Hf'. cbn [res_bind of_option entries].
    rewrite list_lookup_insert_eq by exact Hlt. reflexivity.
Qed.

End MapLookups.

(** X1.  A key that [mapSet] has stored is found by [mapGet], with the
    value stored: whenever [mapSet] returns, whatever the table held before,
    whether it grew or not, and for every key but the undefined sentinel. *)
Theorem mapSet_then_mapGet (P : Platform) (mem : nat -> MapEntry) (h : Heap)
    (m m' : Map) (k v : Var) :
  IS_UNDEF k = false ->
  mapSet mem h m k v = Ok m' ->
  mapGet h m' k = Ok v.
Proof.
  intros Hk. unfold mapSet.
  destruct (if _ >? _ then _ else Ok m) as [m1| |]; cbn [res_bind]; try discriminate.
  destruct (_mapInsertEntry h m1 k v) as [[m2 added]| |] eqn:Hins; cbn [res_bind];
    try discriminate.
  pose proof (_mapInsertEntry_mapGet h m1 m2 k v added Hk Hins) as Hg.
  destruct added; intros [= <-]; [|exact Hg].
  destruct m2 as [cap cnt T]. unfold set_count. cbn [map_capacity map_count entries].
  by rewrite (mapGet_count h cap _ cnt).
Qed.

Lemma mapSet_then_mapGet_witness :
  exists m',
    mapSet (P := sample_platform) clean_block [] small_map (VAR_NUM 17) (VAR_BOOL true)
    = Ok m'
    /\ mapGet (P := sample_platform) [] m' (VAR_NUM 17) = Ok (VAR_BOOL true).
Proof.
  remember (mapSet (P := sample_platform) clean_block [] small_map (VAR_NUM 17)
                   (VAR_BOOL true)) as r eqn:Hr.
  pose proof Hr as Hr'. vm_compute in Hr'.
  match type of Hr' with _ = Ok ?m => exists m end.
  split; [exact Hr'|].
  apply (mapSet_then_mapGet sample_platform clean_block [] small_map _ (VAR_NUM 17)
                            (VAR_BOOL true) eq_refl).
  rewrite <- Hr. exact Hr'.
Defined.

Section MissingKey.
Context {P : Platform}.
Variables (h : Heap) (T : list MapEntry) (cap cnt : Z) (k : Var).
Hypothesis Hcap : 0 < cap < 4294967296.
Hypothesis Hlen : length T = Z.to_nat cap.
Hypothesis Habsent : absent h T k.

Lemma _mapFindEntry_loop_absent (fuel : nat) :
  forall (j start : Z) (tomb : option nat),
    0 <= start < cap -> 0 <= j -> Z.of_nat fuel = cap - j -> (0 < fuel)%nat ->
    exists r, _mapFindEntry_loop fuel h (mkMap cap cnt T) k start
                                 ((start + j) mod cap) tomb = Ok (false, r).
Proof.
  induction fuel as [|fuel IH]; intros j start tomb Hs Hj Hf Hpos; [lia|].
  assert (Hnext : forall tomb',
            exists r, probe_next fuel h (mkMap cap cnt T) k start
                                 ((start + j) mod cap) tomb' = Ok (false, r)).
  { intros tomb'. unfold probe_next. cbv zeta. cbn [map_capacity].
    pose proof (Z.mod_pos_bound (start + j) cap ltac:(lia)) as Hb.
    assert (Hu : u32 ((start + j) mod cap + 1) = (start + j) mod cap + 1).
    { unfold u32. apply Z.mod_small. lia. }
    rewrite Hu.
    assert (Hi : ((start + j) mod cap + 1) mod cap = (start + (j + 1)) mod cap).
    { rewrite Z.add_mod_idemp_l by lia. f_equal. lia. }
    rewrite Hi.
    destruct ((start + (j + 1)) mod cap =? start) eqn:Heq; [eauto|].
    apply Z.eqb_neq in Heq.
    assert (fuel <> 0%nat).
    { intros ->. apply Heq.
      replace (start + (j + 1)) with (start + 1 * cap) by lia.
      rewrite Z.mod_add by lia. apply Z.mod_small. lia. }
    apply IH; auto; lia. }
  rewrite _mapFindEntry_loop_S.
  pose proof (Z.mod_pos_bound (start + j) cap ltac:(lia)) as Hb.
  destruct (lookup_lt_is_Some_2 T (Z.to_nat ((start + j) mod cap))) as [e He].
  { rewrite Hlen. lia. }
  cbn [entries]. rewrite He. cbn [of_option res_bind].
  destruct (IS_UNDEF (key e)) eqn:Hu.
  - destruct (IS_TRUE (value e)); [apply Hnext|eauto].
  - rewrite (Habsent e) by (eauto using list_elem_of_lookup_2).
    cbn [res_bind]. apply Hnext.
Qed.

Lemma _mapFindEntry_absent (hash : Z) :
  _hashVar h k = Ok hash ->
  exists r, _mapFindEntry h (mkMap cap cnt T) k = Ok (false, r).
Proof.
  intros Hh. unfold _mapFindEntry. cbn [map_capacity].
  destruct (cap =? 0) eqn:H0; [apply Z.eqb_eq in H0; lia|].
  rewrite Hh. cbn [res_bind]. cbv zeta.
  set (start := u32 hash mod cap).
  pose proof (Z.mod_pos_bound (u32 hash) cap ltac:(lia)) as Hb. fold start in Hb.
  assert (Hst : (start + 0) mod cap = start)
    by (rewrite Z.add_0_r; apply Z.mod_small; lia).
  pose proof (_mapFindEntry_loop_absent (Z.to_nat cap) 0 start None
                ltac:(lia) ltac:(lia) ltac:(lia) ltac:(lia)) as H.
  by rewrite Hst in H.
Qed.

End MissingKey.

(** X2.  A key that is not in the map: [mapGet] answers undefined and
    [mapRemoveKey] answers null and leaves the map as it is.  For a map
    with room this holds when the key can be hashed and no live entry has a
    key equal to it; for a map of capacity 0, new or cleared, it holds for
    every key, which is not even hashed. *)
Theorem missing_key_is_undefined_and_null (P : Platform) (mem : nat -> MapEntry)
    (h : Heap) :
  (forall (m : Map) (k : Var) (hash : Z),
     map_shape m -> _hashVar h k = Ok hash -> absent h (entries m) k ->
     mapGet h m k = Ok VAR_UNDEFINED
     /\ mapRemoveKey mem h m k = Ok (m, VAR_NULL)) /\
  (forall (m : Map) (k : Var),
     map_capacity m = 0 ->
     mapGet h m k = Ok VAR_UNDEFINED
     /\ mapRemoveKey mem h m k = Ok (m, VAR_NULL)
     /\ mapGet h (mapClear m) k = Ok VAR_UNDEFINED).
Proof.
  split.
  - intros [cap cnt T] k hash [Hcap Hlen] Hh Ha. cbn [map_capacity entries] in *.
    destruct (_mapFindEntry_absent h T cap cnt k Hcap Hlen Ha hash Hh) as [r Hr].
    unfold mapGet, mapRemoveKey. rewrite Hr. split; reflexivity.
  - intros m k H0. unfold mapGet, mapRemoveKey, _mapFindEntry, mapClear.
    rewrite H0. cbn. repeat split; reflexivity.
Qed.

Lemma missing_key_is_undefined_and_null_witness :
  mapGet (P := sample_platform) [] small_map (VAR_NUM 17) = Ok VAR_UNDEFINED
  /\ mapRemoveKey (P := sample_platform) clean_block [] small_map (VAR_NUM 17)
     = Ok (small_map, VAR_NULL).
Proof.
  apply (proj1 (missing_key_is_undefined_and_null sample_platform clean_block [])
               small_map (VAR_NUM 17) 17).
  - split; [vm_compute; split; reflexivity | reflexivity].
  - reflexivity.
  - intros e He Hlive. vm_compute in He.
    repeat (apply elem_of_cons in He as [->|He]; [first [discriminate Hlive | reflexivity]|]).
    by apply elem_of_nil in He.
Defined.

Section OtherKeys.
Context {P : Platform}.
Variable h : Heap.

(** A key equal to [k] is told from [k'] just as [k] is. *)
Lemma isValuesEqual_other (ke k k' : Var) :
  isValuesEqual h ke k = Ok true -> isValuesEqual h k k' = Ok false ->
  isValuesEqual h ke k' = Ok false.
Proof.
  intros Hek Hkk'.
  destruct (isValuesEqual h ke k') as [[]| |] eqn:H; [|reflexivity| |].
  - rewrite isValuesEqual_sym in Hek.
    rewrite (isValuesEqual_trans h k ke k' Hek H) in Hkk'. discriminate.
  - exfalso. apply isValuesEqual_true in Hek.
    destruct Hek as [->|(p1 & p2 & -> & -> & Hd)]; [congruence|].
    revert H Hkk'. unfold isValuesEqual, isValuesSame.
    destruct (Var_eqb (VAR_OBJ p1) k'); [discriminate|].
    destruct (Var_eqb (VAR_OBJ p2) k'); [discriminate|].
    destruct k' as [| | | |p3]; try discriminate.
    destruct Hd as [(s1 & s2 & -> & -> & _)|(r1 & r2 & -> & -> & _)]; cbn [res_bind];
      destruct (deref h p3) as [o3| |]; cbn [res_bind]; try discriminate;
      destruct o3; discriminate.
  - exfalso. apply isValuesEqual_true in Hek.
    destruct Hek as [->|(p1 & p2 & -> & -> & Hd)]; [congruence|].
    revert H Hkk'. unfold isValuesEqual, isValuesSame.
    destruct (Var_eqb (VAR_OBJ p1) k'); [discriminate|].
    destruct (Var_eqb (VAR_OBJ p2) k'); [discriminate|].
    destruct k' as [| | | |p3]; try discriminate.
    destruct Hd as [(s1 & s2 & -> & -> & _)|(r1 & r2 & -> & -> & _)]; cbn [res_bind];
      destruct (deref h p3) as [o3| |]; cbn [res_bind]; try discriminate;
      destruct o3; discriminate.
Qed.

(** The slot a failed search answers with has an undefined key. *)
Lemma _mapFindEntry_loop_free (fuel : nat) (m : Map) (k : Var) (start index : Z)
    (tomb : option nat) (j : nat) :
  (forall t, tomb = Some t ->
     exists e, entries m !! t = Some e /\ IS_UNDEF (key e) = true) ->
  _mapFindEntry_loop fuel h m k start index tomb = Ok (false, Some j) ->
  exists e, entries m !! j = Some e /\ IS_UNDEF (key e) = true.
Proof.
  revert index tomb. induction fuel as [|fuel IH]; intros index tomb Ht; [discriminate|].
  rewrite _mapFindEntry_loop_S. unfold probe_next.
  destruct (entries m !! Z.to_nat index) as [e|] eqn:He; cbn [of_option res_bind];
    [|discriminate].
  destruct (IS_UNDEF (key e)) eqn:Hu.
  - destruct (IS_TRUE (value e)).
    + destruct (_ =? start).
      * destruct tomb as [t|]; intros [= <-]; eauto.
      * apply IH. destruct tomb as [t|]; intros t' [= <-]; eauto.
    + destruct tomb as [t|]; intros [= <-]; eauto.
  - destruct (isValuesEqual h (key e) k) as [[]| |]; cbn [res_bind]; try discriminate.
    destruct (_ =? start); [|by apply IH].
    destruct tomb as [t|]; [|discriminate]. intros [= <-]. eauto.
Qed.

(** Putting a key into a free slot does not hide a key that was found. *)
Lemma _mapFindEntry_loop_put_other (fuel : nat) (cap cnt : Z) (T : list MapEntry)
    (j : nat) (e0 : MapEntry) (k v k' : Var) (start : Z) (r : option nat) :
  T !! j = Some e0 -> IS_UNDEF (key e0) = true ->
  IS_UNDEF k = false -> isValuesEqual h k k' = Ok false ->
  forall (index : Z) (tomb tomb' : option nat),
    _mapFindEntry_loop fuel h (mkMap cap cnt T) k' start index tomb = Ok (true, r) ->
    _mapFindEntry_loop fuel h (mkMap cap cnt (<[j := mkEntry k v]> T)) k' start index tomb'
    = Ok (true, r).
Proof.
  intros Hj Hfree Hk Hkk'.
  induction fuel as [|fuel IH]; intros index tomb tomb'; [discriminate|].
  rewrite !_mapFindEntry_loop_S. unfold probe_next. cbn [entries map_capacity].
  destruct (decide (Z.to_nat index = j)) as [Hij|Hne].
  - rewrite Hij, Hj. rewrite list_lookup_insert_eq by (eapply lookup_lt_Some; eauto).
    cbn [of_option res_bind key]. rewrite Hfree, Hk, Hkk'. cbn [res_bind].
    destruct (IS_TRUE (value e0)); [|discriminate].
    destruct (_ =? start); [discriminate|]. apply IH.
  - rewrite list_lookup_insert_ne by congruence.
    destruct (T !! Z.to_nat index) as [e|]; cbn [of_option res_bind]; [|discriminate].
    destruct (IS_UNDEF (key e)).
    + destruct (IS_TRUE (value e)); [|discriminate].
      destruct (_ =? start); [discriminate|]. apply IH.
    + destruct (isValuesEqual h (key e) k') as [[]| |]; cbn [res_bind]; try discriminate.
      * done.
      * destruct (_ =? start); [discriminate|]. apply IH.
Qed.

(** A tombstone in the place of a key other than the one looked for: the
    search goes the same way. *)
Lemma _mapFindEntry_loop_tombstoned (fuel : nat) (cap cnt cnt' : Z) (T : list MapEntry)
    (i : nat) (e : MapEntry) (k' : Var) (start : Z) :
  T !! i = Some e -> IS_UNDEF (key e) = false ->
  isValuesEqual h (key e) k' = Ok false ->
  forall (index : Z) (tomb tomb' : option nat),
    same_find
      (_mapFindEntry_loop fuel h (mkMap cap cnt T) k' start index tomb)
      (_mapFindEntry_loop fuel h
         (mkMap cap cnt' (<[i := mkEntry VAR_UNDEFINED VAR_TRUE]> T)) k' start index tomb').
Proof.
  intros Hi Hlive Hne.
  induction fuel as [|fuel IH]; intros index tomb tomb'; [reflexivity|].
  rewrite !_mapFindEntry_loop_S. unfold probe_next. cbn [entries map_capacity].
  destruct (decide (Z.to_nat index = i)) as [Hii|Hni].
  - rewrite Hii, Hi. rewrite list_lookup_insert_eq by (eapply lookup_lt_Some; eauto).
    cbn [of_option res_bind key value IS_UNDEF IS_TRUE]. rewrite Hlive, Hne.
    cbn [res_bind].
    destruct (_ =? start); [simpl; eauto|apply IH].
  - rewrite list_lookup_insert_ne by congruence.
    destruct (T !! Z.to_nat index) as [e'|]; cbn [of_option res_bind]; [|reflexivity].
    destruct (IS_UNDEF (key e')).
    + destruct (IS_TRUE (value e')); [|simpl; eauto].
      destruct (_ =? start); [simpl; eauto|apply IH].
    + destruct (isValuesEqual h (key e') k') as [[]| |]; cbn [res_bind]; try reflexivity.
      destruct (_ =? start); [simpl; eauto|apply IH].
Qed.

Lemma mapGet_found (m : Map) (k v : Var) :
  mapGet h m k = Ok v -> v <> VAR_UNDEFINED ->
  exists j e, _mapFindEntry h m k = Ok (true, Some j)
              /\ entries m !! j = Some e /\ value e = v
              /\ IS_UNDEF (key e) = false /\ isValuesEqual h (key e) k = Ok true.
Proof.
  unfold mapGet.
  destruct (_mapFindEntry h m k) as [[[] r]| |] eqn:Hf; cbn [res_bind]; try discriminate.
  - destruct (_mapFindEntry_found h m k r Hf) as (j & e & -> & He & Hlive & Heq).
    cbn [of_option res_bind]. rewrite He. cbn [of_option res_bind].
    intros [= <-] _. eauto 10.
  - intros [= <-] Hv. done.
Qed.

End OtherKeys.

Section OtherKeysFind.
Context {P : Platform}.
Variable h : Heap.

Lemma _mapInsertEntry_keeps (m m' : Map) (k v k' v' : Var) (added : bool) :
  IS_UNDEF k = false ->
  isValuesEqual h k k' = Ok false ->
  mapGet h m k' = Ok v' -> v' <> VAR_UNDEFINED ->
  _mapInsertEntry h m k v = Ok (m', added) ->
  mapGet h m' k' = Ok v'.
Proof.
  intros Hk Hkk' Hget Hv'.
  destruct (mapGet_found h m k' v' Hget Hv') as (j' & e' & Hf' & He' & Hval & Hlive' & Heq').
  destruct m as [cap cnt T]. cbn [entries] in He'. unfold _mapInsertEntry.
  destruct (_mapFindEntry h (mkMap cap cnt T) k) as [[found r]| |] eqn:Hf;
    cbn [res_bind]; try discriminate.
  destruct r as [j|]; cbn [of_option res_bind]; [|discriminate].
  cbn [entries]. destruct (T !! j) as [e|] eqn:He; cbn [of_option res_bind]; [|discriminate].
  assert (Hfind : forall T', length T' = length T ->
            (forall fuel start index tomb r,
               _mapFindEntry_loop fuel h (mkMap cap cnt T) k' start index tomb = Ok (true, r) ->
               _mapFindEntry_loop fuel h (mkMap cap cnt T') k' start index tomb = Ok (true, r)) ->
            T' !! j' = Some e' ->
            mapGet h (mkMap cap cnt T') k' = Ok v').
  { intros T' _ Hsim Hj'. unfold mapGet.
    assert (Hf'' : _mapFindEntry h (mkMap cap cnt T') k' = Ok (true, Some j')).
    { revert Hf'. unfold _mapFindEntry. cbn [map_capacity].
      destruct (cap =? 0); [discriminate|].
      destruct (_hashVar h k'); cbn [res_bind]; try discriminate. apply Hsim. }
    rewrite Hf''. cbn [res_bind of_option entries]. rewrite Hj'.
    cbn [of_option res_bind]. by rewrite Hval. }
  destruct found; intros [= <- <-]; unfold set_entries; cbn [map_capacity map_count entries].
  - destruct (_mapFindEntry_found h _ _ _ Hf) as (j0 & e0 & [= <-] & He0 & Hlive & Heq).
    cbn [entries] in He0. rewrite He in He0. injection He0 as <-.
    assert (Hne : j <> j').
    { intros ->. rewrite He in He'. injection He' as ->.
      rewrite (isValuesEqual_other h _ _ _ Heq Hkk') in Heq'. discriminate. }
    apply Hfind.
    + by rewrite length_insert.
    + intros fuel start index tomb r Hr.
      by rewrite (_mapFindEntry_loop_value h fuel cap cnt T j e v k' start index tomb He Hlive).
    + by rewrite list_lookup_insert_ne.
  - assert (Hfree : exists e1, T !! j = Some e1 /\ IS_UNDEF (key e1) = true).
    { revert Hf. unfold _mapFindEntry. cbn [map_capacity].
      destruct (cap =? 0); [discriminate|].
      destruct (_hashVar h k); cbn [res_bind]; try discriminate.
      intros Hl. eapply (_mapFindEntry_loop_free h _ (mkMap cap cnt T)); [|exact Hl].
      discriminate. }
    destruct Hfree as (e1 & He1 & Hu). rewrite He in He1. injection He1 as <-.
    assert (Hne : j <> j').
    { intros ->. rewrite He in He'. injection He' as ->. congruence. }
    apply Hfind.
    + by rewrite length_insert.
    + intros fuel start index tomb r Hr.
      eapply _mapFindEntry_loop_put_other; eauto.
    + by rewrite list_lookup_insert_ne.
Qed.

End OtherKeysFind.

(** X6.  Storing a key does not disturb another one: when the table does
    not have to grow, a key that [mapGet] found before a [mapSet] of a
    different key is found after it, with the same value. *)
Theorem mapSet_keeps_other_keys (P : Platform) (mem : nat -> MapEntry) (h : Heap)
    (m m' : Map) (k v k' v' : Var) :
  u32 (map_count m + 1) <= u32 (map_capacity m * MAP_LOAD_PERCENT) / 100 ->
  IS_UNDEF k = false ->
  isValuesEqual h k k' = Ok false ->
  mapGet h m k' = Ok v' -> v' <> VAR_UNDEFINED ->
  mapSet mem h m k v = Ok m' ->
  mapGet h m' k' = Ok v'.
Proof.
  intros Hroom Hk Hkk' Hget Hv'. unfold mapSet.
  destruct (_ >? _) eqn:Hgt; [apply Z.gtb_lt in Hgt; lia|]. cbn [res_bind].
  destruct (_mapInsertEntry h m k v) as [[m2 added]| |] eqn:Hins; cbn [res_bind];
    try discriminate.
  pose proof (_mapInsertEntry_keeps h m m2 k v k' v' added Hk Hkk' Hget Hv' Hins) as Hg.
  destruct added; intros [= <-]; [|exact Hg].
  destruct m2 as [cap cnt T]. unfold set_count. cbn [map_capacity map_count entries].
  by rewrite (mapGet_count h cap _ cnt).
Qed.

Lemma mapSet_keeps_other_keys_witness :
  exists m',
    mapSet (P := sample_platform) clean_block [] small_map (VAR_NUM 17) (VAR_BOOL true)
    = Ok m'
    /\ mapGet (P := sample_platform) [] m' (VAR_NUM 9) = Ok (VAR_NUM 109).
Proof.
  remember (mapSet (P := sample_platform) clean_block [] small_map (VAR_NUM 17)
                   (VAR_BOOL true)) as r eqn:Hr.
  pose proof Hr as Hr'. vm_compute in Hr'.
  match type of Hr' with _ = Ok ?m => exists m end.
  split; [exact Hr'|].
  apply (mapSet_keeps_other_keys sample_platform clean_block [] small_map _ (VAR_NUM 17)
           (VAR_BOOL true) (VAR_NUM 9) (VAR_NUM 109)).
  - vm_compute. discriminate.
  - reflexivity.
  - reflexivity.
  - vm_compute. reflexivity.
  - discriminate.
  - rewrite <- Hr. exact Hr'.
Defined.

(** X7.  [mapRemoveKey] on a map that is not above the minimum capacity,
    for a key that [mapGet] finds: it returns the value stored, the count
    goes down by one, and either the map is cleared, when that was the last
    entry, or the one slot of the key becomes a tombstone and every other
    slot stays as it was; every other key is then found as before. *)
Theorem mapRemoveKey_at_minimum_capacity (P : Platform) (mem : nat -> MapEntry)
    (h : Heap) (m : Map) (k v : Var) :
  map_capacity m <= MIN_CAPACITY ->
  mapGet h m k = Ok v -> v <> VAR_UNDEFINED ->
  exists (i : nat) (e : MapEntry) (m' : Map),
    entries m !! i = Some e /\ value e = v /\ isValuesEqual h (key e) k = Ok true
    /\ mapRemoveKey mem h m k = Ok (m', v)
    /\ m' = (if u32 (map_count m - 1) =? 0 then mkMap 0 0 []
             else mkMap (map_capacity m) (u32 (map_count m - 1))
                        (<[i := mkEntry VAR_UNDEFINED VAR_TRUE]> (entries m)))
    /\ (forall k', isValuesEqual h k k' = Ok false -> map_count m' <> 0 ->
          mapGet h m' k' = mapGet h m k').
Proof.
  intros Hcap Hget Hv.
  destruct (mapGet_found h m k v Hget Hv) as (i & e & Hf & He & Hval & Hlive & Heq).
  destruct m as [cap cnt T]. cbn [map_capacity map_count entries] in *. subst v.
  exists i, e. eexists. split; [exact He|]. split; [reflexivity|]. split; [exact Heq|].
  assert (Hrem : mapRemoveKey mem h (mkMap cap cnt T) k
                 = Ok (if u32 (cnt - 1) =? 0 then mkMap 0 0 []
                       else mkMap cap (u32 (cnt - 1))
                                  (<[i := mkEntry VAR_UNDEFINED VAR_TRUE]> T), value e)).
  { unfold mapRemoveKey. rewrite Hf. cbn [res_bind negb of_option entries].
    rewrite He. cbn [res_bind]. cbv zeta. unfold set_count, set_entries, mapClear.
    cbn [map_capacity map_count entries].
    destruct (u32 (cnt - 1) =? 0); [reflexivity|].
    destruct (cap >? MIN_CAPACITY) eqn:Hgt; [apply Z.gtb_lt in Hgt; lia|].
    reflexivity. }
  split; [exact Hrem|]. split; [reflexivity|].
  intros k' Hkk' Hcnt.
  destruct (u32 (cnt - 1) =? 0); [by cbn [map_count] in Hcnt|].
  pose proof (isValuesEqual_other h _ _ _ Heq Hkk') as Hne.
  unfold mapGet, _mapFindEntry. cbn [map_capacity].
  destruct (cap =? 0); [reflexivity|].
  destruct (_hashVar h k') as [hash| |]; cbn [res_bind]; try reflexivity.
  pose proof (_mapFindEntry_loop_tombstoned h (Z.to_nat cap) cap cnt (u32 (cnt - 1)) T i e k'
                (u32 hash mod cap) He Hlive Hne (u32 hash mod cap) None None) as Hsim.
  destruct (_mapFindEntry_loop (Z.to_nat cap) h (mkMap cap cnt T) k' _ _ None)
    as [[[] r]| |] eqn:Hl; simpl in Hsim.
  - rewrite Hsim. cbn [res_bind].
    destruct (_mapFindEntry_loop_found h _ _ _ _ _ _ _ Hl) as (j & e' & -> & He' & _ & Heq').
    cbn [entries] in He'. cbn [of_option res_bind entries].
    assert (j <> i) by (intros ->; rewrite He in He'; injection He' as <-; congruence).
    by rewrite list_lookup_insert_ne by congruence.
  - destruct Hsim as [t ->]. reflexivity.
  - by rewrite Hsim.
  - by rewrite Hsim.
Qed.

Lemma mapRemoveKey_at_minimum_capacity_witness :
  exists m',
    mapRemoveKey (P := sample_platform) clean_block [] small_map (VAR_NUM 1)
    = Ok (m', VAR_NUM 101)
    /\ map_count m' = 2
    /\ mapGet (P := sample_platform) [] m' (VAR_NUM 9) = Ok (VAR_NUM 109).
Proof.
  destruct (mapRemoveKey_at_minimum_capacity sample_platform clean_block [] small_map
              (VAR_NUM 1) (VAR_NUM 101))
    as (i & e & m' & _ & _ & _ & Hrem & Hm' & Hother).
  - vm_compute. discriminate.
  - vm_compute. reflexivity.
  - discriminate.
  - exists m'. split; [exact Hrem|].
    assert (Hc : map_count m' = 2) by (rewrite Hm'; reflexivity).
    split; [exact Hc|].
    rewrite (Hother (VAR_NUM 9)); [vm_compute; reflexivity|reflexivity|].
    rewrite Hc. discriminate.
Defined.

(** * The collector: marking *)

Lemma marks_only_refl (vm : MSVM) : marks_only vm vm.
Proof. split; [reflexivity|]. intros p o H. exists o. auto. Qed.

Lemma marks_only_trans (a b c : MSVM) :
  marks_only a b -> marks_only b c -> marks_only a c.
Proof.
  intros [L1 H1] [L2 H2]. split; [congruence|].
  intros p o Ho. destruct (H1 p o Ho) as (o1 & Ho1 & Hb1 & Hm1).
  destruct (H2 p o1 Ho1) as (o2 & Ho2 & Hb2 & Hm2).
  exists o2. split; [exact Ho2|]. split; [congruence|auto].
Qed.

Lemma marks_only_marked (vm vm' : MSVM) (p : addr) :
  marks_only vm vm' -> marked vm p -> marked vm' p.
Proof.
  intros [_ H] (o & Ho & Hm). destruct (H p o Ho) as (o' & Ho' & _ & Hm').
  exists o'. auto.
Qed.

Lemma marks_only_deref (vm vm' : MSVM) (p : addr) (b : ObjectBody) :
  marks_only vm vm' -> deref (heap vm) p = Ok b -> deref (heap vm') p = Ok b.
Proof.
  intros [_ H]. unfold deref. destruct (heap vm !! p) as [o|] eqn:Ho; [|discriminate].
  destruct (H p o Ho) as (o' & -> & Hb & _). cbn. intros [= <-]. by rewrite Hb.
Qed.

Lemma gc_step_marks (vm vm' : MSVM) : gc_step vm vm' -> marks_only vm vm'.
Proof. by intros [H _]. Qed.

Lemma gc_step_work (vm vm' : MSVM) : gc_step vm vm' -> (gc_work vm' <= gc_work vm)%nat.
Proof. by intros (_ & _ & H). Qed.

Lemma gc_step_refl (vm : MSVM) : gc_step vm vm.
Proof. split; [apply marks_only_refl|split; [auto|lia]]. Qed.

Lemma gc_step_trans (a b c : MSVM) : gc_step a b -> gc_step b c -> gc_step a c.
Proof.
  intros (M1 & G1 & W1) (M2 & G2 & W2).
  split; [eapply marks_only_trans; eauto|]. split; [|lia].
  intros p Hp. destruct (G2 p Hp) as [Hb|Hm]; [|auto].
  destruct (G1 p Hb) as [Ha|Hm]; [auto|]. right. eapply marks_only_marked; eauto.
Qed.

Lemma gc_step_gray_marked (vm vm' : MSVM) :
  gc_step vm vm' -> gray_marked vm -> gray_marked vm'.
Proof.
  intros (M & G & _) Hg p Hp. destruct (G p Hp) as [Ha|Hm]; [|exact Hm].
  eapply marks_only_marked; eauto.
Qed.

Lemma gc_step_add_bytes (n : Z) (vm : MSVM) : gc_step vm (add_bytes n vm).
Proof.
  split; [split; [reflexivity|]; intros p o H; exists o; auto|].
  split; [auto|]. unfold gc_work, unmarked. cbn [add_bytes heap gray_list]. lia.
Qed.

(** Marking an object that was not marked takes one from the count of the
    unmarked. *)
Lemma filter_unmarked_insert (h : list Object) (p : addr) (o : Object) :
  h !! p = Some o -> is_marked o = false ->
  S (length (List.filter (fun o => negb (is_marked o))
                         (<[p := mkObject true (obj_body o)]> h)))
  = length (List.filter (fun o => negb (is_marked o)) h).
Proof.
  revert p. induction h as [|x h IH]; intros p Hp Hm; [discriminate|].
  destruct p as [|p]; cbn in Hp |- *.
  - injection Hp as ->. rewrite Hm. reflexivity.
  - destruct (negb (is_marked x)); cbn [length]; rewrite <- (IH p Hp Hm); reflexivity.
Qed.

Lemma set_marked_lookup (h : Heap) (p : addr) (o : Object) :
  h !! p = Some o ->
  set_marked h p !! p = Some (mkObject true (obj_body o))
  /\ length (set_marked h p) = length h
  /\ forall q, q <> p -> set_marked h p !! q = h !! q.
Proof.
  intros Ho. unfold set_marked. rewrite Ho. split; [|split].
  - apply list_lookup_insert_eq. eapply lookup_lt_Some; eauto.
  - by rewrite length_insert.
  - intros q Hq. by rewrite list_lookup_insert_ne.
Qed.

(** What [grayObject] does to an object that is there and not marked. *)
Lemma grayObject_unmarked (p : addr) (vm vm' : MSVM) (o : Object) :
  heap vm !! p = Some o -> is_marked o = false ->
  grayObject (Some p) vm = Ok vm' ->
  heap vm' = set_marked (heap vm) p /\ gray_list vm' = gray_list vm ++ [p].
Proof.
  intros Ho Hm. unfold grayObject. rewrite Ho. cbn [of_option res_bind]. rewrite Hm.
  cbv zeta. destruct (_ <? _); [|discriminate]. intros [= <-]. split; reflexivity.
Qed.

Lemma grayObject_step (self : option addr) (vm vm' : MSVM) :
  grayObject self vm = Ok vm' ->
  gc_step vm vm' /\ forall p, self = Some p -> marked vm' p.
Proof.
  destruct self as [p|]; [|intros [= <-]; split; [apply gc_step_refl|discriminate]].
  unfold grayObject.
  destruct (heap vm !! p) as [o|] eqn:Ho; cbn [of_option res_bind]; [|discriminate].
  destruct (is_marked o) eqn:Hm.
  - intros [= <-]. split; [apply gc_step_refl|]. intros q [= <-]. exists o. auto.
  - intros H.
    destruct (grayObject_unmarked p vm vm' o Ho Hm) as [Hh Hg].
    { unfold grayObject. rewrite Ho. cbn [of_option res_bind]. by rewrite Hm. }
    destruct (set_marked_lookup (heap vm) p o Ho) as (Hp & Hlen & Hother).
    assert (Hmk : marked vm' p) by (exists (mkObject true (obj_body o)); rewrite Hh; auto).
    split; [split; [split|split]|].
    + by rewrite Hh.
    + intros q oq Hq. destruct (decide (q = p)) as [->|Hne].
      * rewrite Ho in Hq. injection Hq as <-. rewrite Hh.
        exists (mkObject true (obj_body o)). auto.
      * exists oq. rewrite Hh, Hother by done. auto.
    + intros q Hq. rewrite Hg in Hq. apply elem_of_app in Hq as [Hq|Hq]; [auto|].
      apply list_elem_of_singleton in Hq. subst q. auto.
    + unfold gc_work, unmarked. rewrite Hg, Hh, length_app. cbn [length].
      unfold set_marked. rewrite Ho.
      pose proof (filter_unmarked_insert (heap vm) p o Ho Hm). lia.
    + by intros q [= <-].
Qed.

Lemma grayValue_step (v : Var) (vm vm' : MSVM) :
  grayValue v vm = Ok vm' ->
  gc_step vm vm' /\ forall p, obj_ref v = Some p -> marked vm' p.
Proof.
  destruct v; cbn [grayValue obj_ref];
    try (intros [= <-]; split; [apply gc_step_refl|discriminate]).
  apply grayObject_step.
Qed.

(** A loop of graying steps is a step, and what each round marked stays
    marked. *)
Lemma grayEach_step {A} (f : A -> MSVM -> res MSVM) (ref : A -> option addr)
    (l : list A) (vm vm' : MSVM) :
  (forall x a b, f x a = Ok b -> gc_step a b /\ forall p, ref x = Some p -> marked b p) ->
  grayEach f l vm = Ok vm' ->
  gc_step vm vm' /\ forall p, p ∈ omap ref l -> marked vm' p.
Proof.
  intros Hf. revert vm. induction l as [|x l IH]; intros vm.
  - intros [= <-]. split; [apply gc_step_refl|]. intros p Hp. by apply elem_of_nil in Hp.
  - cbn [grayEach]. destruct (f x vm) as [vm1| |] eqn:H1; cbn [res_bind]; try discriminate.
    intros H2. destruct (Hf _ _ _ H1) as [S1 M1]. destruct (IH _ H2) as [S2 M2].
    split; [eapply gc_step_trans; eauto|].
    intros p Hp. cbn [omap list_omap] in Hp. destruct (ref x) as [q|] eqn:Hq.
    + apply elem_of_cons in Hp as [->|Hp]; [|auto].
      eapply marks_only_marked; [apply S2|auto].
    + auto.
Qed.

Lemma for_loop_step {S : Type} (R : S -> S -> Prop) (n : nat) (body : nat -> S -> res S) :
  (forall s, R s s) -> (forall a b c, R a b -> R b c -> R a c) ->
  (forall i a b, body i a = Ok b -> R a b) ->
  forall i s s', for_loop n body i s = Ok s' -> R s s'.
Proof.
  intros Hrefl Htrans Hbody. induction n as [|n IH]; intros i s s'.
  - intros [= <-]. apply Hrefl.
  - cbn [for_loop]. destruct (body i s) as [s1| |] eqn:H1; cbn [res_bind]; try discriminate.
    intros H2. eapply Htrans; [eapply Hbody; eauto|eapply IH; eauto].
Qed.

Lemma grayVarBuffer_step (b : Buffer Var) (vm vm' : MSVM) :
  grayVarBuffer b vm = Ok vm' ->
  gc_step vm vm' /\ forall p, p ∈ refs (data b) -> marked vm' p.
Proof. apply grayEach_step. apply grayValue_step. Qed.

Lemma grayAddrs_step (l : list addr) (vm vm' : MSVM) :
  grayEach (fun p => grayObject (Some p)) l vm = Ok vm' ->
  gc_step vm vm' /\ forall p, p ∈ l -> marked vm' p.
Proof.
  intros H. destruct (grayEach_step _ Some l vm vm' (fun x a b Hx => grayObject_step _ _ _ Hx) H)
    as [S M].
  split; [exact S|]. intros p Hp. apply M. apply list_elem_of_omap. eauto.
Qed.

Ltac bind_step_as H v E :=
  match type of H with
  | res_bind ?m _ = Ok _ =>
      destruct m as [v| |] eqn:E; cbn [res_bind] in H;
      [|discriminate H|discriminate H]
  end.

Ltac bind_step H :=
  let v := fresh "v" in
  let E := fresh "E" in
  bind_step_as H v E.

Section Blackening.
Context {P : Platform}.

Lemma blacken_map_round (map : Map) (i : nat) (a b : MSVM) :
  (do e <- of_option OutOfBounds (entries map !! i);
   if IS_UNDEF (key e) then Ok a
   else do k <- cast_Object (key e);
        do vm <- grayObject k a;
        do v <- cast_Object (value e);
        grayObject v vm) = Ok b ->
  gc_step a b.
Proof.
  destruct (entries map !! i) as [e|]; cbn [of_option res_bind]; [|discriminate].
  destruct (IS_UNDEF (key e)); [intros [= <-]; apply gc_step_refl|].
  intros H.
  destruct (cast_Object (key e)) as [k| |]; cbn [res_bind] in H; try discriminate.
  bind_step_as H v1 E1.
  destruct (cast_Object (value e)) as [v| |]; cbn [res_bind] in H; try discriminate.
  eapply gc_step_trans; [apply (grayObject_step _ _ _ E1)|apply (grayObject_step _ _ _ H)].
Qed.

Lemma blacken_frame_round (fiber : Fiber) (i : nat) (a b : MSVM) :
  (do fr <- of_option OutOfBounds (frames fiber !! i);
   do vm <- grayObject (Some (frame_fn fr)) a;
   do f <- deref (heap vm) (frame_fn fr);
   match f with
   | BFunc f => grayObject (owner f) vm
   | _ => UB BadCast
   end) = Ok b ->
  gc_step a b.
Proof.
  destruct (frames fiber !! i) as [fr|]; cbn [of_option res_bind]; [|discriminate].
  intros H. bind_step_as H v1 E1.
  destruct (deref (heap v1) (frame_fn fr)) as [f| |]; cbn [res_bind] in H;
    try discriminate.
  destruct f; try discriminate.
  eapply gc_step_trans; [apply (grayObject_step _ _ _ E1)|apply (grayObject_step _ _ _ H)].
Qed.

Ltac gc_chain :=
  lazymatch goal with
  | |- gc_step ?a ?a => apply gc_step_refl
  | |- gc_step _ (add_bytes _ _) =>
      eapply gc_step_trans; [|apply gc_step_add_bytes]; gc_chain
  | H : grayObject _ _ = Ok ?b |- gc_step _ ?b =>
      eapply gc_step_trans; [|apply (proj1 (grayObject_step _ _ _ H))]; clear H; gc_chain
  | H : grayVarBuffer _ _ = Ok ?b |- gc_step _ ?b =>
      eapply gc_step_trans; [|apply (proj1 (grayVarBuffer_step _ _ _ H))]; clear H; gc_chain
  | H : grayEach grayValue _ _ = Ok ?b |- gc_step _ ?b =>
      eapply gc_step_trans;
      [|apply (proj1 (grayEach_step _ _ _ _ _ grayValue_step H))]; clear H; gc_chain
  | H : grayEach _ _ _ = Ok ?b |- gc_step _ ?b =>
      eapply gc_step_trans; [|apply (proj1 (grayAddrs_step _ _ _ H))]; clear H; gc_chain
  | H : for_loop _ _ _ _ = Ok ?b |- gc_step _ ?b =>
      eapply gc_step_trans;
      [|apply (for_loop_step gc_step _ _ gc_step_refl gc_step_trans) in H;
        [exact H|first [apply blacken_map_round|apply blacken_frame_round]]];
      clear H; gc_chain
  end.

Lemma blackenObject_step (obj : addr) (vm vm' : MSVM) :
  blackenObject obj vm = Ok vm' -> gc_step vm vm'.
Proof.
  unfold blackenObject, grayNameTable, grayStringBuffer, grayFunctionBuffer.
  destruct (deref (heap vm) obj) as [b| |]; cbn [res_bind]; try discriminate.
  destruct b as [s|l|m|r|s|f|fb|]; intros H.
  - injection H as <-. gc_chain.
  - bind_step H. injection H as <-. gc_chain.
  - bind_step H. injection H as <-. gc_chain.
  - injection H as <-. gc_chain.
  - cbv zeta in H. repeat bind_step H. gc_chain.
  - cbv zeta in H. bind_step H. destruct (is_native f).
    + injection H as <-. gc_chain.
    + destruct (fn f); cbn [of_option res_bind] in H; [|discriminate].
      injection H as <-. gc_chain.
  - cbv zeta in H. repeat bind_step H. gc_chain.
  - injection H as <-. gc_chain.
Qed.

Lemma blackenObjects_step (fuel : nat) (vm vm' : MSVM) :
  blackenObjects fuel vm = Ok vm' -> gc_step vm vm' /\ gray_list vm' = [].
Proof.
  revert vm. induction fuel as [|fuel IH]; intros vm; [discriminate|].
  cbn [blackenObjects].
  destruct (List.rev (gray_list vm)) as [|gray rest] eqn:Hr.
  - intros [= <-]. split; [apply gc_step_refl|].
    apply (f_equal (@List.rev _)) in Hr. by rewrite List.rev_involutive in Hr.
  - intros H. bind_step_as H v1 E1. destruct (IH _ H) as [S2 Hg]. split; [|exact Hg].
    eapply gc_step_trans; [|exact S2].
    eapply gc_step_trans; [|apply (blackenObject_step _ _ _ E1)].
    apply (f_equal (@List.rev _)) in Hr. rewrite List.rev_involutive in Hr.
    split; [split; [reflexivity|intros p o Ho; exists o; auto]|]. split.
    + cbn [gray_list]. intros p Hp. left.
      rewrite Hr. cbn [List.rev]. apply elem_of_app. left. exact Hp.
    + unfold gc_work, unmarked. cbn [gray_list heap]. rewrite Hr. cbn [List.rev].
      rewrite length_app. lia.
Qed.

Lemma blackenObject_children (obj : addr) (vm vm' : MSVM) (b : ObjectBody) :
  deref (heap vm) obj = Ok b -> blackenObject obj vm = Ok vm' ->
  forall p, p ∈ children b -> marked vm' p.
Proof.
  intros Hb. unfold blackenObject, grayNameTable, grayStringBuffer, grayFunctionBuffer.
  rewrite Hb. cbn [res_bind].
  destruct b as [s|l|m|r|s|f|fb|]; intros H p Hp; cbn [children] in Hp;
    try (by apply elem_of_nil in Hp).
  - bind_step_as H v1 E. injection H as <-.
    eapply marks_only_marked; [|apply (proj2 (grayVarBuffer_step _ _ _ E) p Hp)].
    apply gc_step_marks. gc_chain.
  - cbv zeta in H.
    bind_step_as H v1 E. bind_step_as H v2 E0. bind_step_as H v3 E1.
    bind_step_as H v4 E2. bind_step_as H v5 E3. bind_step_as H v6 E4.
    repeat (apply elem_of_app in Hp as [Hp|Hp]).
    + eapply marks_only_marked; [|apply (proj2 (grayVarBuffer_step _ _ _ E) p Hp)].
      apply gc_step_marks. gc_chain.
    + eapply marks_only_marked; [|apply (proj2 (grayAddrs_step _ _ _ E0) p Hp)].
      apply gc_step_marks. gc_chain.
    + eapply marks_only_marked; [|apply (proj2 (grayVarBuffer_step _ _ _ E1) p Hp)].
      apply gc_step_marks. gc_chain.
    + eapply marks_only_marked; [|apply (proj2 (grayAddrs_step _ _ _ E2) p Hp)].
      apply gc_step_marks. gc_chain.
    + eapply marks_only_marked; [|apply (proj2 (grayAddrs_step _ _ _ E3) p Hp)].
      apply gc_step_marks. gc_chain.
    + eapply marks_only_marked; [|apply (proj2 (grayAddrs_step _ _ _ E4) p Hp)].
      apply gc_step_marks. gc_chain.
    + destruct (body s) as [q|] eqn:Hq; [|by apply elem_of_nil in Hp].
      apply list_elem_of_singleton in Hp. subst q.
      by apply (proj2 (grayObject_step _ _ _ H)).
  - cbv zeta in H. bind_step_as H v1 E.
    destruct (owner f) as [q|] eqn:Hq; [|by apply elem_of_nil in Hp].
    apply list_elem_of_singleton in Hp. subst q.
    assert (Hm : marked v1 p) by (by apply (proj2 (grayObject_step _ _ _ E))).
    destruct (is_native f).
    + by injection H as <-.
    + destruct (fn f); cbn [of_option res_bind] in H; [|discriminate].
      injection H as <-. eapply marks_only_marked; [|exact Hm]. apply gc_step_marks. gc_chain.
Qed.

End Blackening.

(** X8.  [grayObject] marks an object once: for NULL and for an object
    that is marked it changes nothing; for an object that is not marked,
    when it returns, the object is marked and appended to the gray list,
    nothing else of the heap has changed, and a second call changes nothing;
    and it does return for such an object when the gray list is within its
    capacity and the capacity is not 0. *)
Theorem grayObject_marks_once (vm vm' : MSVM) (p : addr) :
  grayObject None vm = Ok vm
  /\ (marked vm p -> grayObject (Some p) vm = Ok vm)
  /\ (grayObject (Some p) vm = Ok vm' ->
      marked vm' p /\ marks_only vm vm'
      /\ ((marked vm p /\ vm' = vm)
          \/ (~ marked vm p /\ gray_list vm' = gray_list vm ++ [p]))
      /\ (forall q, q <> p -> heap vm' !! q = heap vm !! q)
      /\ grayObject (Some p) vm' = Ok vm')
  /\ (forall o, heap vm !! p = Some o -> is_marked o = false ->
      0 < gray_list_capacity vm ->
      Z.of_nat (length (gray_list vm)) <= gray_list_capacity vm ->
      exists vm1, grayObject (Some p) vm = Ok vm1
                  /\ gray_list vm1 = gray_list vm ++ [p] /\ marked vm1 p).
Proof.
  split; [reflexivity|]. split; [|split].
  - intros (o & Ho & Hm). unfold grayObject. rewrite Ho. cbn [of_option res_bind].
    by rewrite Hm.
  - intros H. destruct (grayObject_step _ _ _ H) as [(M & _) Hmk].
    specialize (Hmk p eq_refl). split; [exact Hmk|]. split; [exact M|].
    assert (Hagain : grayObject (Some p) vm' = Ok vm').
    { destruct Hmk as (o & Ho & Hm). unfold grayObject. rewrite Ho.
      cbn [of_option res_bind]. by rewrite Hm. }
    revert H. unfold grayObject at 1.
    destruct (heap vm !! p) as [o|] eqn:Ho; cbn [of_option res_bind]; [|discriminate].
    destruct (is_marked o) eqn:Hm.
    + intros [= <-]. split; [left; split; [by exists o|reflexivity]|]. auto.
    + intros H.
      destruct (grayObject_unmarked p vm vm' o Ho Hm) as [Hh Hg].
      { unfold grayObject. rewrite Ho. cbn [of_option res_bind]. by rewrite Hm. }
      split.
      { right. split; [|exact Hg]. intros (o' & Ho' & Hm'). congruence. }
      split; [|exact Hagain].
      intros q Hq. rewrite Hh. by apply (set_marked_lookup (heap vm) p o Ho).
  - intros o Ho Hm Hcap Hlen.
    assert (exists vm1, grayObject (Some p) vm = Ok vm1) as [vm1 H1].
    { unfold grayObject. rewrite Ho. cbn [of_option res_bind]. rewrite Hm.
      destruct (Z.geb_spec (Z.of_nat (length (gray_list vm))) (gray_list_capacity vm)).
      - destruct (Z.ltb_spec (Z.of_nat (length (gray_list vm)))
                             (gray_list_capacity vm * 2)); [eauto|lia].
      - destruct (Z.ltb_spec (Z.of_nat (length (gray_list vm)))
                             (gray_list_capacity vm)); [eauto|lia]. }
    exists vm1. split; [exact H1|].
    destruct (grayObject_unmarked p vm vm1 o Ho Hm H1) as [_ Hg].
    split; [exact Hg|]. exact (proj2 (grayObject_step _ _ _ H1) p eq_refl).
Qed.

Lemma grayObject_marks_once_witness :
  exists vm',
    grayObject (Some 1%nat) gc_vm = Ok vm'
    /\ marked vm' 1%nat /\ gray_list vm' = [0%nat; 3%nat; 1%nat]
    /\ grayObject (Some 1%nat) vm' = Ok vm'.
Proof.
  remember (grayObject (Some 1%nat) gc_vm) as r eqn:Hr.
  pose proof Hr as Hr'. vm_compute in Hr'.
  match type of Hr' with _ = Ok ?m => exists m end.
  split; [exact Hr'|].
  rewrite Hr in Hr'.
  destruct (proj1 (proj2 (proj2 (grayObject_marks_once gc_vm _ 1%nat))) Hr')
    as (Hm & _ & _ & _ & Hagain).
  split; [exact Hm|]. split; [reflexivity|exact Hagain].
Defined.

(** X9.  Blackening only marks: [blackenObject] and [blackenObjects],
    when they return, leave every object of the heap at its address with its
    contents, take no mark back, and keep every object of the gray list
    marked if that held before; [blackenObjects] returns with the gray list
    empty. *)
Theorem blackening_only_marks (P : Platform) :
  (forall (obj : addr) (vm vm' : MSVM),
     blackenObject obj vm = Ok vm' ->
     marks_only vm vm' /\ (gray_marked vm -> gray_marked vm')) /\
  (forall (fuel : nat) (vm vm' : MSVM),
     blackenObjects fuel vm = Ok vm' ->
     marks_only vm vm' /\ gray_list vm' = []).
Proof.
  split.
  - intros obj vm vm' H. pose proof (blackenObject_step _ _ _ H) as S.
    split; [by apply gc_step_marks|]. by apply gc_step_gray_marked.
  - intros fuel vm vm' H. destruct (blackenObjects_step _ _ _ H) as [S Hg].
    split; [by apply gc_step_marks|exact Hg].
Qed.

Lemma blackening_only_marks_witness :
  exists vm',
    blackenObjects (P := sample_platform) 10 gc_vm = Ok vm'
    /\ marks_only gc_vm vm' /\ gray_list vm' = [].
Proof.
  remember (blackenObjects (P := sample_platform) 10 gc_vm) as r eqn:Hr.
  pose proof Hr as Hr'. vm_compute in Hr'.
  match type of Hr' with _ = Ok ?m => exists m end.
  split; [exact Hr'|].
  rewrite Hr in Hr'.
  exact (proj2 (blackening_only_marks sample_platform) 10%nat gc_vm _ Hr').
Defined.

(** X10.  Blackening a List, a Script or a Function marks what it refers
    to: when [blackenObject] returns, every object among the elements of the
    List is marked; so is every object among the globals, the literals, the
    functions and the three name tables of the Script, and its body; so is
    the owner of the Function. *)
Theorem blackenObject_marks_children (P : Platform) (obj : addr) (vm vm' : MSVM)
    (b : ObjectBody) :
  deref (heap vm) obj = Ok b ->
  blackenObject obj vm = Ok vm' ->
  forall p, p ∈ children b -> marked vm' p.
Proof. apply blackenObject_children. Qed.

Lemma blackenObject_marks_children_witness :
  exists vm',
    blackenObject (P := sample_platform) 0%nat gc_vm = Ok vm'
    /\ marked vm' 1%nat /\ marked vm' 2%nat.
Proof.
  remember (blackenObject (P := sample_platform) 0%nat gc_vm) as r eqn:Hr.
  pose proof Hr as Hr'. vm_compute in Hr'.
  match type of Hr' with _ = Ok ?m => exists m end.
  split; [exact Hr'|].
  rewrite Hr in Hr'.
  pose proof (blackenObject_marks_children sample_platform 0%nat gc_vm _ _ eq_refl Hr')
    as H.
  split; apply H; cbn; [left|right; left].
Defined.

(** None of the loops of [blackenObject] is bounded by fuel in the model:
    they run over the elements of a buffer or up to a count. *)
Lemma res_bind_returns {A B} (m : res A) (k : A -> res B) :
  m <> OutOfFuel -> (forall a, m = Ok a -> k a <> OutOfFuel) -> res_bind m k <> OutOfFuel.
Proof. destruct m; cbn [res_bind]; auto; discriminate. Qed.

Lemma grayObject_returns (self : option addr) (vm : MSVM) :
  grayObject self vm <> OutOfFuel.
Proof.
  destruct self as [p|]; [|discriminate]. unfold grayObject.
  destruct (heap vm !! p) as [o|]; cbn [of_option res_bind]; [|discriminate].
  destruct (is_marked o); [discriminate|]. cbv zeta. destruct (_ <? _); discriminate.
Qed.

Lemma grayValue_returns (v : Var) (vm : MSVM) : grayValue v vm <> OutOfFuel.
Proof. destruct v; try discriminate. apply grayObject_returns. Qed.

Lemma grayEach_returns {A} (f : A -> MSVM -> res MSVM) (l : list A) (vm : MSVM) :
  (forall x a, f x a <> OutOfFuel) -> grayEach f l vm <> OutOfFuel.
Proof.
  intros Hf. revert vm. induction l as [|x l IH]; intros vm; [discriminate|].
  cbn [grayEach]. apply res_bind_returns; auto.
Qed.

Lemma for_loop_returns {S : Type} (n : nat) (body : nat -> S -> res S) (i : nat) (s : S) :
  (forall i a, body i a <> OutOfFuel) -> for_loop n body i s <> OutOfFuel.
Proof.
  intros Hb. revert i s. induction n as [|n IH]; intros i s; [discriminate|].
  cbn [for_loop]. apply res_bind_returns; auto.
Qed.

Lemma deref_returns (h : Heap) (p : addr) : deref h p <> OutOfFuel.
Proof. unfold deref. destruct (h !! p); discriminate. Qed.

Lemma of_option_returns {A} (k : UBKind) (o : option A) : of_option k o <> OutOfFuel.
Proof. destruct o; discriminate. Qed.

Section Termination.
Context {P : Platform}.

Lemma cast_Object_returns (v : Var) : cast_Object v <> OutOfFuel.
Proof. destruct v as [| | |[| |]|]; discriminate. Qed.

Ltac returns :=
  repeat first
    [ apply grayObject_returns
    | apply cast_Object_returns
    | apply grayValue_returns
    | apply deref_returns
    | apply of_option_returns
    | apply grayEach_returns; intros
    | apply for_loop_returns; intros
    | apply res_bind_returns; [|intros ? _]
    | discriminate ].

Lemma blackenObject_returns (obj : addr) (vm : MSVM) :
  blackenObject obj vm <> OutOfFuel.
Proof.
  unfold blackenObject, grayVarBuffer, grayNameTable, grayStringBuffer, grayFunctionBuffer.
  apply res_bind_returns; [apply deref_returns|]. intros b _.
  destruct b as [s|l|m|r|s|f|fb|]; cbv zeta; returns.
  - destruct (IS_UNDEF _); returns.
  - destruct (is_native f); returns.
  - repeat (match goal with
            | |- match ?x with _ => _ end <> _ => destruct x
            end; returns).
Qed.

Lemma blackenObjects_enough_fuel (fuel : nat) :
  forall vm, (gc_work vm < fuel)%nat -> blackenObjects fuel vm <> OutOfFuel.
Proof.
  induction fuel as [|fuel IH]; intros vm Hw; [lia|].
  cbn [blackenObjects].
  destruct (List.rev (gray_list vm)) as [|gray rest] eqn:Hr; [discriminate|].
  apply res_bind_returns; [apply blackenObject_returns|]. intros vm0 E.
  apply IH. pose proof (gc_step_work _ _ (blackenObject_step _ _ _ E)) as Hle.
  apply (f_equal (@List.rev _)) in Hr. rewrite List.rev_involutive in Hr.
  revert Hle Hw. unfold gc_work, unmarked. cbn [gray_list heap]. rewrite Hr.
  cbn [List.rev]. rewrite length_app. cbn [length]. lia.
Qed.

End Termination.

(** X11.  [blackenObjects] comes to an end: the number of gray objects
    plus the number of unmarked objects goes down with every object popped,
    so a run whose fuel is above that number never stops for lack of fuel:
    it returns with the gray list empty, or it fails in [blackenObject]. *)
Theorem blackenObjects_terminates (P : Platform) (fuel : nat) (vm : MSVM) :
  (gc_work vm < fuel)%nat ->
  blackenObjects fuel vm <> OutOfFuel
  /\ forall vm', blackenObjects fuel vm = Ok vm' -> gray_list vm' = [].
Proof.
  intros Hw. split; [by apply blackenObjects_enough_fuel|].
  intros vm' H. apply (blackenObjects_step _ _ _ H).
Qed.

Lemma blackenObjects_terminates_witness :
  blackenObjects (P := sample_platform) 6 gc_vm <> OutOfFuel.
Proof.
  apply (blackenObjects_terminates sample_platform 6 gc_vm). vm_compute. lia.
Defined.

(** * Statements and expressions: errors *)

Section StatementErrors.
Context {P : Platform}.

(** [match] on a token that is neither the current one nor a line: nothing
    is consumed. *)
Lemma match_other (p : Parser) (t : TokenType) :
  tk_type (current p) <> TK_LINE -> tk_type (current p) <> t ->
  match_ p t = Ok (false, p).
Proof.
  intros Hl Ht. unfold match_, matchLine, peek.
  destruct (TokenType_beq (tk_type (current p)) TK_LINE) eqn:H1.
  { apply internal_TokenType_dec_bl in H1. contradiction. }
  cbn [negb res_bind].
  destruct (TokenType_beq (tk_type (current p)) t) eqn:H2; [|reflexivity].
  apply internal_TokenType_dec_bl in H2. contradiction.
Qed.

Lemma compileStatement_continue_no_loop (fuel : nat) (c : Compiler) (p1 : Parser) :
  tk_type (current (parser c)) = TK_CONTINUE -> loop c = None ->
  lexToken (parser c) = Ok p1 ->
  compileStatement (S fuel) c
  = Ok (set_parser c
          (reportError p1 (path p1) (tk_line (current (parser c)))
                       "Cannot use 'continue' outside a loop.")).
Proof.
  intros Ht Hloop Hlex. cbn [compileStatement].
  rewrite (match_other _ TK_BREAK) by (rewrite Ht; discriminate).
  cbn [res_bind].
  replace (set_parser c (parser c)) with c by (by destruct c).
  rewrite (match_current _ p1 TK_CONTINUE Ht ltac:(discriminate) Hlex).
  cbn [res_bind]. cbn [loop set_parser parser]. rewrite Hloop.
  destruct (lexToken_window _ _ Hlex) as (Hprev & _).
  unfold parseError. rewrite Hprev, Ht. reflexivity.
Qed.

Lemma compileStatement_return_top_level (fuel : nat) (c : Compiler) (p1 : Parser) :
  tk_type (current (parser c)) = TK_RETURN -> scope_depth c = -1 ->
  lexToken (parser c) = Ok p1 ->
  compileStatement (S fuel) c
  = Ok (set_parser c
          (reportError p1 (path p1) (tk_line (current (parser c)))
                       "Invalid 'return' outside a function.")).
Proof.
  intros Ht Hd Hlex. cbn [compileStatement].
  rewrite (match_other _ TK_BREAK) by (rewrite Ht; discriminate).
  cbn [res_bind].
  replace (set_parser c (parser c)) with c by (by destruct c).
  rewrite (match_other _ TK_CONTINUE) by (rewrite Ht; discriminate).
  cbn [res_bind].
  replace (set_parser c (parser c)) with c by (by destruct c).
  rewrite (match_current _ p1 TK_RETURN Ht ltac:(discriminate) Hlex).
  cbn [res_bind]. cbn [scope_depth set_parser parser]. rewrite Hd.
  destruct (lexToken_window _ _ Hlex) as (Hprev & _).
  unfold parseError. rewrite Hprev, Ht. reflexivity.
Qed.

End StatementErrors.

(** X12.  [continue] with no loop being compiled, and [return] at the top
    level: [compileStatement] consumes the token (it becomes the previous
    token, and the token behind it the current one), raises [has_errors],
    reports "Cannot use 'continue' outside a loop." and "Invalid 'return'
    outside a function.", and emits nothing: every object of the heap is as
    it was. *)
Theorem continue_and_return_out_of_place (P : Platform) (fuel : nat) (c : Compiler)
    (p1 : Parser) :
  lexToken (parser c) = Ok p1 ->
  (tk_type (current (parser c)) = TK_CONTINUE -> loop c = None ->
   exists c', compileStatement (S fuel) c = Ok c'
     /\ has_errors (parser c') = true
     /\ reported (parser c')
        = reported p1 ++ [(tk_line (current (parser c)),
                           "Cannot use 'continue' outside a loop."%string)]
     /\ previous (parser c') = current (parser c)
     /\ current (parser c') = next (parser c)
     /\ (forall a o, heap (compiler_vm c) !! a = Some o ->
                     heap (compiler_vm c') !! a = Some o)) /\
  (tk_type (current (parser c)) = TK_RETURN -> scope_depth c = -1 ->
   exists c', compileStatement (S fuel) c = Ok c'
     /\ has_errors (parser c') = true
     /\ reported (parser c')
        = reported p1 ++ [(tk_line (current (parser c)),
                           "Invalid 'return' outside a function."%string)]
     /\ previous (parser c') = current (parser c)
     /\ current (parser c') = next (parser c)
     /\ (forall a o, heap (compiler_vm c) !! a = Some o ->
                     heap (compiler_vm c') !! a = Some o)).
Proof.
  intros Hlex.
  destruct (lexToken_window _ _ Hlex) as (Hprev & Hcur & _ & l & Hl).
  assert (Hheap : forall a o, heap (vm (parser c)) !! a = Some o ->
                              heap (vm p1) !! a = Some o).
  { intros a o Ha. rewrite Hl. by apply lookup_app_l_Some. }
  split.
  - intros Ht Hloop. rewrite (compileStatement_continue_no_loop fuel c p1 Ht Hloop Hlex).
    eexists. split; [reflexivity|]. split; [reflexivity|]. split; [reflexivity|].
    split; [exact Hprev|]. split; [exact Hcur|]. exact Hheap.
  - intros Ht Hd. rewrite (compileStatement_return_top_level fuel c p1 Ht Hd Hlex).
    eexists. split; [reflexivity|]. split; [reflexivity|]. split; [reflexivity|].
    split; [exact Hprev|]. split; [exact Hcur|]. exact Hheap.
Qed.

Lemma continue_and_return_out_of_place_witness :
  exists c0 c',
    statement_start program_continue = Ok c0
    /\ compileStatement (P := sample_platform) 1 c0 = Ok c'
    /\ has_errors (parser c') = true
    /\ tk_type (previous (parser c')) = TK_CONTINUE.
Proof.
  remember (statement_start program_continue) as r eqn:Hr.
  pose proof Hr as Hr'. vm_compute in Hr'.
  match type of Hr' with _ = Ok ?c => exists c; set (c0 := c) in * end.
  assert (Hlex : exists p1, lexToken (P := sample_platform) (parser c0) = Ok p1).
  { remember (lexToken (P := sample_platform) (parser c0)) as l eqn:Hl.
    vm_compute in Hl. eexists. exact Hl. }
  destruct Hlex as [p1 Hlex].
  destruct (proj1 (continue_and_return_out_of_place sample_platform 0 c0 p1 Hlex)
                  eq_refl eq_refl) as (c' & Hc & He & _ & Hp & _).
  exists c'. split; [exact Hr'|]. split; [exact Hc|]. split; [exact He|].
  rewrite Hp. reflexivity.
Defined.

(** X13.  Two tokens have a rule with an infix precedence and no infix
    function: [.] and [not].  When one of them follows an expression, with
    its precedence not below the one being parsed, the loop of
    [parsePrecedence] takes the token and calls the function of its rule,
    a NULL pointer. *)
Theorem infix_without_function_is_called (P : Platform) :
  (forall t : TokenType,
     (infix (getRule t) = None /\ 0 < prec_val (precedence (getRule t)))
     <-> (t = TK_DOT \/ t = TK_NOT)) /\
  (forall (fuel : nat) (c : Compiler) (prec : Z) (can_assign : bool) (p1 : Parser),
     infix (getRule (tk_type (current (parser c)))) = None ->
     prec <= prec_val (precedence (getRule (tk_type (current (parser c))))) ->
     lexToken (parser c) = Ok p1 ->
     parsePrecedence_while (S fuel) c prec can_assign = UB NullDeref).
Proof.
  split.
  - intros t. split.
    + intros [Hi Hp]. destruct t; cbn in Hi, Hp; try discriminate; try lia; auto.
    + intros [->| ->]; cbn; split; [reflexivity|lia|reflexivity|lia].
  - intros fuel c prec ca p1 Hi Hp Hlex. cbn [parsePrecedence_while].
    destruct (_ >=? prec) eqn:Hge; [|rewrite Z.geb_leb in Hge; apply Z.leb_gt in Hge; lia].
    unfold on_parser. rewrite Hlex. cbn [res_bind set_parser parser].
    destruct (lexToken_window _ _ Hlex) as (Hprev & _). rewrite Hprev, Hi. reflexivity.
Qed.

Lemma infix_without_function_is_called_witness :
  exists c,
    (do c0 <- statement_start program_not_infix;
     do c1 <- on_parser c0 (lexToken (P := sample_platform));
     callGrammarFn (P := sample_platform) 1 exprLiteral c1 true) = Ok c
    /\ tk_type (current (parser c)) = TK_NOT
    /\ parsePrecedence_while (P := sample_platform) 1 c 1 true = UB NullDeref.
Proof.
  remember (do c0 <- statement_start program_not_infix;
            do c1 <- on_parser c0 (lexToken (P := sample_platform));
            callGrammarFn (P := sample_platform) 1 exprLiteral c1 true) as r eqn:Hr.
  vm_compute in Hr. subst r. eexists. split; [reflexivity|]. split; [reflexivity|].
  eapply (proj2 (infix_without_function_is_called sample_platform) 0%nat).
  - reflexivity.
  - vm_compute. discriminate.
  - vm_compute. reflexivity.
Defined.

(** X14.  After a [native] declaration the compiler has no current
    function: [compileFunction] leaves [compiler->function] NULL, where a
    [def] puts the body of the script back, so the next opcode or byte that
    is emitted goes through the NULL pointer. *)
Theorem native_leaves_no_function (P : Platform) (fuel : nat) (c c' : Compiler) :
  compileFunction fuel c true = Ok c' ->
  function c' = None
  /\ (forall o : Opcode, emitOpcode c' o = UB NullDeref)
  /\ (forall b : Z, emitByte c' b = UB NullDeref).
Proof.
  unfold compileFunction.
  repeat match goal with
         | |- res_bind ?m _ = Ok _ -> _ =>
             destruct m as [?| |]; cbn [res_bind]; [|discriminate|discriminate]
         end.
  cbv zeta. intros [= <-].
  assert (Hb : forall x b, emitByte (set_function x None) b = UB NullDeref)
    by reflexivity.
  split; [reflexivity|]. split; [|apply Hb].
  intros o. unfold emitOpcode. by rewrite Hb.
Qed.

Lemma native_leaves_no_function_witness :
  exists c', after_native = Ok c'
             /\ emitOpcode (P := sample_platform) c' OP_CONSTANT = UB NullDeref.
Proof.
  unfold after_native.
  remember (statement_start program_native_then_literal) as r0 eqn:Hr0.
  vm_compute in Hr0. subst r0. cbn [res_bind].
  match goal with
  | |- context [match_ ?p TK_NATIVE] =>
      remember (match_ (P := sample_platform) p TK_NATIVE) as r1 eqn:Hr1
  end.
  vm_compute in Hr1. subst r1. cbn [res_bind].
  match goal with
  | |- context [compileFunction 5 ?c true] =>
      destruct (compileFunction (P := sample_platform) 5 c true) as [c'| |] eqn:E
  end.
  - exists c'. split; [reflexivity|].
    apply (native_leaves_no_function sample_platform _ _ _ E).
  - exfalso. vm_compute in E. discriminate E.
  - exfalso. vm_compute in E. discriminate E.
Defined.

(** * Blocks: the scope at their end *)

(** Take the next [do] of a run that returned apart. *)
Ltac run_step H :=
  match type of H with
  | res_bind ?m _ = Ok _ =>
      let x := fresh "x" in
      let E := fresh "E" in
      destruct m as [x| |] eqn:E; cbn [res_bind] in H;
      [|discriminate H|discriminate H]
  end.

Section Scopes.
Context {P : Platform}.

Lemma vars_on_parser (c c' : Compiler) (f : Parser -> res Parser) :
  on_parser c f = Ok c' -> variables c' = variables c.
Proof.
  unfold on_parser. destruct (f (parser c)); cbn [res_bind]; try discriminate.
  by intros [= <-].
Qed.

Lemma vars_emitByte (c c' : Compiler) (b i : Z) :
  emitByte c b = Ok (i, c') -> variables c' = variables c.
Proof.
  unfold emitByte. destruct (get_fn c) as [[[f func] body]| |]; cbn [res_bind];
    try discriminate.
  by intros [= _ <-].
Qed.

Lemma vars_emitShort (c c' : Compiler) (a i : Z) :
  emitShort c a = Ok (i, c') -> variables c' = variables c.
Proof.
  unfold emitShort. intros H.
  destruct (emitByte c _) as [[i1 c1]| |] eqn:E1; cbn [res_bind] in H; try discriminate.
  destruct (emitByte c1 _) as [[i2 c2]| |] eqn:E2; cbn [res_bind] in H; try discriminate.
  injection H as _ <-.
  rewrite (vars_emitByte _ _ _ _ E2). apply (vars_emitByte _ _ _ _ E1).
Qed.

Lemma vars_emitOpcode (c c' : Compiler) (o : Opcode) :
  emitOpcode c o = Ok c' -> variables c' = variables c.
Proof.
  unfold emitOpcode. intros H.
  destruct (emitByte c _) as [[i1 c1]| |] eqn:E1; cbn [res_bind] in H; try discriminate.
  destruct (get_fn _) as [[[f func] body]| |]; cbn [res_bind] in H; try discriminate.
  destruct (_ >? _); injection H as <-; cbn; apply (vars_emitByte _ _ _ _ E1).
Qed.

Lemma vars_patchJump (c c' : Compiler) (a : Z) :
  patchJump c a = Ok c' -> variables c' = variables c.
Proof.
  unfold patchJump. intros H.
  destruct (get_fn c) as [[[f func] body]| |]; cbn [res_bind] in H; try discriminate.
  destruct (bufferStore _ _ _); cbn [res_bind] in H; try discriminate.
  destruct (bufferStore _ _ _); cbn [res_bind] in H; try discriminate.
  by injection H as <-.
Qed.

Lemma vars_compilerAddConstant (c c' : Compiler) (v : Var) (i : Z) :
  compilerAddConstant c v = Ok (i, c') -> variables c' = variables c.
Proof.
  unfold compilerAddConstant. intros H.
  destruct (get_current_script c) as [[s scr]| |]; cbn [res_bind] in H; try discriminate.
  destruct (find_same _ _ _); [by injection H as _ <-|].
  destruct (_ <? _); by injection H as _ <-.
Qed.

Lemma vars_for_loop (n : nat) (body : nat -> Compiler -> res Compiler) :
  (forall i a b, body i a = Ok b -> variables b = variables a) ->
  forall i c c', for_loop n body i c = Ok c' -> variables c' = variables c.
Proof.
  intros Hb. induction n as [|n IH]; intros i c c'; [by intros [= <-]|].
  cbn [for_loop]. destruct (body i c) as [c1| |] eqn:E; cbn [res_bind]; try discriminate.
  intros H. rewrite (IH _ _ _ H). eauto.
Qed.

Lemma vars_closeWhile (c c' : Compiler) (ls wp : Z) (outer : option Loop) :
  closeWhile c ls wp outer = Ok c' -> variables c' = variables c.
Proof.
  unfold closeWhile. intros H.
  destruct (emitOpcode c OP_JUMP) as [c1| |] eqn:E1; cbn [res_bind] in H; try discriminate.
  destruct (emitShort c1 ls) as [[i2 c2]| |] eqn:E2; cbn [res_bind] in H; try discriminate.
  destruct (patchJump c2 wp) as [c3| |] eqn:E3; cbn [res_bind] in H; try discriminate.
  destruct (loop c3) as [l|]; cbn [of_option res_bind] in H; [|discriminate].
  destruct (for_loop _ _ _ _) as [c4| |] eqn:E4; cbn [res_bind] in H; try discriminate.
  injection H as <-. cbn [variables set_loop].
  apply vars_for_loop in E4.
  - rewrite E4, (vars_patchJump _ _ _ E3), (vars_emitShort _ _ _ _ E2).
    apply (vars_emitOpcode _ _ _ E1).
  - intros i a b Hab. cbv beta in Hab.
    destruct (loop a); cbn [of_option res_bind] in Hab; [|discriminate].
    destruct (_ !! i); cbn [of_option res_bind] in Hab; [|discriminate].
    apply (vars_patchJump _ _ _ Hab).
Qed.

Lemma vars_expression (fuel : nat) :
  (forall c prec c', parsePrecedence fuel c prec = Ok c' -> variables c' = variables c)
  /\ (forall f c ca c', callGrammarFn fuel f c ca = Ok c' -> variables c' = variables c)
  /\ (forall c prec ca c',
        parsePrecedence_while fuel c prec ca = Ok c' -> variables c' = variables c).
Proof.
  induction fuel as [|fuel (IHp & IHg & IHw)]; [repeat split; discriminate|].
  split; [|split].
  - intros c prec c' H. cbn [parsePrecedence] in H.
    destruct (on_parser c lexToken) as [c1| |] eqn:E1; cbn [res_bind] in H;
      try discriminate.
    apply vars_on_parser in E1.
    destruct (prefix _) as [g|].
    + destruct (callGrammarFn fuel g c1 _) as [c2| |] eqn:E2; cbn [res_bind] in H;
        try discriminate.
      rewrite (IHw _ _ _ _ H), (IHg _ _ _ _ E2). exact E1.
    + injection H as <-. exact E1.
  - intros f c ca c' H. cbn [callGrammarFn] in H. destruct f; try (by injection H as <-).
    + cbv zeta in H.
      destruct (compilerAddConstant c _) as [[i c1]| |] eqn:E1; cbn [res_bind] in H;
        try discriminate.
      destruct (emitOpcode c1 _) as [c2| |] eqn:E2; cbn [res_bind] in H; try discriminate.
      destruct (emitShort c2 _) as [[i3 c3]| |] eqn:E3; cbn [res_bind] in H;
        try discriminate.
      injection H as <-.
      rewrite (vars_emitShort _ _ _ _ E3), (vars_emitOpcode _ _ _ E2).
      apply (vars_compilerAddConstant _ _ _ _ E1).
    + cbv zeta in H.
      destruct (on_parser c skipNewLines) as [c1| |] eqn:E1; cbn [res_bind] in H;
        try discriminate.
      destruct (parsePrecedence fuel c1 _) as [c2| |] eqn:E2; cbn [res_bind] in H;
        try discriminate.
      assert (variables c2 = variables c)
        by (rewrite (IHp _ _ _ E2); apply (vars_on_parser _ _ _ E1)).
      destruct (binary_opcode _); [|by injection H as <-].
      by rewrite (vars_emitOpcode _ _ _ H).
    + cbv zeta in H.
      destruct (on_parser c skipNewLines) as [c1| |] eqn:E1; cbn [res_bind] in H;
        try discriminate.
      destruct (parsePrecedence fuel c1 _) as [c2| |] eqn:E2; cbn [res_bind] in H;
        try discriminate.
      assert (variables c2 = variables c)
        by (rewrite (IHp _ _ _ E2); apply (vars_on_parser _ _ _ E1)).
      destruct (unary_opcode _); [|by injection H as <-].
      by rewrite (vars_emitOpcode _ _ _ H).
    + destruct (parsePrecedence fuel c _) as [c1| |] eqn:E1; cbn [res_bind] in H;
        try discriminate.
      rewrite (vars_on_parser _ _ _ H). apply (IHp _ _ _ E1).
  - intros c prec ca c' H. cbn [parsePrecedence_while] in H.
    destruct (_ >=? prec); [|by injection H as <-].
    destruct (on_parser c lexToken) as [c1| |] eqn:E1; cbn [res_bind] in H;
      try discriminate.
    destruct (infix _) as [g|]; cbn [of_option res_bind] in H; [|discriminate].
    destruct (callGrammarFn fuel g c1 ca) as [c2| |] eqn:E2; cbn [res_bind] in H;
      try discriminate.
    rewrite (IHw _ _ _ _ H), (IHg _ _ _ _ E2). apply (vars_on_parser _ _ _ E1).
Qed.

Lemma vars_compileExpression (fuel : nat) (c c' : Compiler) :
  compileExpression fuel c = Ok c' -> variables c' = variables c.
Proof. apply (proj1 (vars_expression fuel)). Qed.

Lemma compilerExitBlock_no_variable (c : Compiler) :
  variables c = [] -> compilerExitBlock c = UB OutOfBounds.
Proof.
  intros Hv. unfold compilerExitBlock. rewrite Hv. cbn [length compilerExitBlock_loop].
  by rewrite Hv.
Qed.

Lemma vars_statements (fuel : nat) :
  (forall c c', variables c = [] -> compileStatement fuel c = Ok c' -> variables c' = [])
  /\ (forall c b c', variables c = [] -> compileBlockBody_loop fuel c b = Ok c' ->
        variables c' = [])
  /\ (forall c b c', variables c = [] -> compileBlockBody fuel c b <> Ok c')
  /\ (forall c c', variables c = [] -> compileIfStatement fuel c <> Ok c')
  /\ (forall c c', variables c = [] -> compileWhileStatement fuel c <> Ok c').
Proof.
  induction fuel as [|fuel (IHs & IHl & IHb & IHi & IHw)]; [repeat split; discriminate|].
  split; [|split; [|split; [|split]]].
  - intros c c' Hv H. cbn [compileStatement] in H.
    destruct (match_ (parser c) TK_BREAK) as [[m p]| |]; cbn [res_bind] in H;
      try discriminate.
    destruct m.
    { cbn [loop set_parser] in H. destruct (loop c) as [l|]; [|by injection H as <-].
      destruct (emitOpcode _ OP_JUMP) as [c1| |] eqn:E1; cbn [res_bind] in H;
        try discriminate.
      destruct (emitByte c1 _) as [[i2 c2]| |] eqn:E2; cbn [res_bind] in H;
        try discriminate.
      destruct (loop c2); cbn [of_option res_bind] in H; [|discriminate].
      destruct (_ <? _); [|discriminate]. injection H as <-. cbn [variables set_loop].
      by rewrite (vars_emitByte _ _ _ _ E2), (vars_emitOpcode _ _ _ E1). }
    destruct (match_ _ TK_CONTINUE) as [[m p1]| |]; cbn [res_bind] in H;
      try discriminate.
    destruct m.
    { cbn [loop set_parser] in H. destruct (loop c) as [l|]; [|by injection H as <-].
      destruct (emitOpcode _ OP_JUMP) as [c1| |] eqn:E1; cbn [res_bind] in H;
        try discriminate.
      destruct (emitShort c1 _) as [[i2 c2]| |] eqn:E2; cbn [res_bind] in H;
        try discriminate.
      injection H as <-.
      by rewrite (vars_emitShort _ _ _ _ E2), (vars_emitOpcode _ _ _ E1). }
    destruct (match_ _ TK_RETURN) as [[m p2]| |]; cbn [res_bind] in H;
      try discriminate.
    destruct m.
    { destruct (_ =? -1); [by injection H as <-|].
      destruct (_ || _).
      - destruct (emitOpcode _ OP_PUSH_NULL) as [c1| |] eqn:E1; cbn [res_bind] in H;
          try discriminate.
        by rewrite (vars_emitOpcode _ _ _ H), (vars_emitOpcode _ _ _ E1).
      - destruct (compileExpression fuel _) as [c1| |] eqn:E1; cbn [res_bind] in H;
          try discriminate.
        by rewrite (vars_emitOpcode _ _ _ H), (vars_compileExpression _ _ _ E1). }
    destruct (match_ _ TK_IF) as [[m p3]| |]; cbn [res_bind] in H; try discriminate.
    destruct m; [exfalso; eapply IHi; [|exact H]; exact Hv|].
    destruct (match_ _ TK_WHILE) as [[m p4]| |]; cbn [res_bind] in H; try discriminate.
    destruct m; [exfalso; eapply IHw; [|exact H]; exact Hv|].
    destruct (match_ _ TK_FOR) as [[m p5]| |]; cbn [res_bind] in H; try discriminate.
    destruct m; [by injection H as <-|].
    destruct (compileExpression fuel _) as [c1| |] eqn:E1; cbn [res_bind] in H;
      try discriminate.
    by rewrite (vars_emitOpcode _ _ _ H), (vars_compileExpression _ _ _ E1).
  - intros c b c' Hv H. cbn [compileBlockBody_loop] in H.
    destruct (block_ends _ _); [by injection H as <-|].
    destruct (compileStatement fuel c) as [c1| |] eqn:E1; cbn [res_bind] in H;
      try discriminate.
    eapply IHl; [|exact H]. eapply IHs; eauto.
  - intros c b c' Hv H. cbn [compileBlockBody] in H. cbv zeta in H.
    destruct (compileBlockBody_loop fuel _ b) as [c1| |] eqn:E1; cbn [res_bind] in H;
      try discriminate.
    rewrite compilerExitBlock_no_variable in H; [discriminate|].
    eapply IHl; [|exact E1]. exact Hv.
  - intros c c' Hv H. cbn [compileIfStatement] in H.
    destruct (compileExpression fuel c) as [c1| |] eqn:E1; cbn [res_bind] in H;
      try discriminate.
    destruct (emitOpcode c1 _) as [c2| |] eqn:E2; cbn [res_bind] in H; try discriminate.
    destruct (emitByte c2 _) as [[i3 c3]| |] eqn:E3; cbn [res_bind] in H;
      try discriminate.
    destruct (on_parser c3 _) as [c4| |] eqn:E4; cbn [res_bind] in H; try discriminate.
    destruct (compileBlockBody fuel c4 true) as [c5| |] eqn:E5; cbn [res_bind] in H;
      try discriminate.
    eapply IHb; [|exact E5].
    rewrite (vars_on_parser _ _ _ E4), (vars_emitByte _ _ _ _ E3),
      (vars_emitOpcode _ _ _ E2), (vars_compileExpression _ _ _ E1). exact Hv.
  - intros c c' Hv H. cbn [compileWhileStatement] in H.
    destruct (get_fn c) as [[[f func] body]| |]; cbn [res_bind] in H; try discriminate.
    cbv zeta in H.
    destruct (compileExpression fuel _) as [c1| |] eqn:E1; cbn [res_bind] in H;
      try discriminate.
    destruct (emitOpcode c1 _) as [c2| |] eqn:E2; cbn [res_bind] in H; try discriminate.
    destruct (emitByte c2 _) as [[i3 c3]| |] eqn:E3; cbn [res_bind] in H;
      try discriminate.
    destruct (compileBlockBody fuel c3 false) as [c5| |] eqn:E5; cbn [res_bind] in H;
      try discriminate.
    eapply IHb; [|exact E5].
    rewrite (vars_emitByte _ _ _ _ E3), (vars_emitOpcode _ _ _ E2),
      (vars_compileExpression _ _ _ E1). exact Hv.
Qed.

Lemma vars_compileFunction_params (fuel : nat) :
  forall c c', compileFunction_params fuel c = Ok c' -> variables c' = variables c.
Proof.
  induction fuel as [|fuel IH]; intros c c' H; [discriminate|].
  cbn [compileFunction_params] in H.
  destruct (match_ (parser c) TK_NAME) as [[m p]| |]; cbn [res_bind] in H;
    try discriminate.
  destruct m; [|by injection H as <-].
  destruct (tk_start _); cbn [of_option res_bind] in H; [|discriminate]. cbv zeta in H.
  destruct (match_ _ TK_COMMA) as [[m p1]| |]; cbn [res_bind] in H; try discriminate.
  rewrite (IH _ _ H). cbn [variables set_parser]. by destruct (negb _).
Qed.

Lemma vars_compileFunction_declare (c c' : Compiler) (n : nat) (len : Z) (nat_ : bool) :
  compileFunction_declare c n len nat_ = Ok c' -> variables c' = variables c.
Proof.
  unfold compileFunction_declare. intros H.
  destruct (get_current_script c) as [[s scr]| |]; cbn [res_bind] in H; try discriminate.
  destruct (nameTableAdd _ _ _ _) as [[[[i np] names'] v1]| |]; cbn [res_bind] in H;
    try discriminate.
  destruct (get_current_script _) as [[s1 scr1]| |]; cbn [res_bind] in H;
    try discriminate.
  destruct (nameTableGet _ _); cbn [res_bind] in H; try discriminate.
  destruct (deref _ _) as [o| |]; cbn [res_bind] in H; try discriminate.
  destruct o; cbn [res_bind] in H; try discriminate.
  destruct (newFunction _ _ _ _ _) as [[func v2]| |]; cbn [res_bind] in H;
    try discriminate.
  destruct (get_current_script _) as [[s2 scr2]| |]; cbn [res_bind] in H;
    try discriminate.
  by injection H as <-.
Qed.

Lemma compileFunction_def_no_variable (fuel : nat) (c c' : Compiler) :
  variables c = [] -> compileFunction fuel c false <> Ok c'.
Proof.
  intros Hv H. unfold compileFunction in H.
  destruct (on_parser c _) as [c1| |] eqn:E1; cbn [res_bind] in H; try discriminate.
  destruct (tk_start _); cbn [of_option res_bind] in H; [|discriminate]. cbv zeta in H.
  destruct (compileFunction_declare _ _ _ _) as [c2| |] eqn:E2; cbn [res_bind] in H;
    try discriminate.
  destruct (on_parser c2 _) as [c3| |] eqn:E3; cbn [res_bind] in H; try discriminate.
  destruct (compileFunction_params fuel _) as [c4| |] eqn:E4; cbn [res_bind] in H;
    try discriminate.
  destruct (on_parser c4 _) as [c5| |] eqn:E5; cbn [res_bind] in H; try discriminate.
  destruct (on_parser c5 _) as [c6| |] eqn:E6; cbn [res_bind] in H; try discriminate.
  destruct (compileBlockBody fuel c6 false) as [c7| |] eqn:E7; cbn [res_bind] in H;
    try discriminate.
  eapply (proj1 (proj2 (proj2 (vars_statements fuel)))); [|exact E7].
  rewrite (vars_on_parser _ _ _ E6), (vars_on_parser _ _ _ E5),
    (vars_compileFunction_params _ _ _ E4). cbn [variables set_scope_depth].
  rewrite (vars_on_parser _ _ _ E3), (vars_compileFunction_declare _ _ _ _ _ E2),
    (vars_on_parser _ _ _ E1). exact Hv.
Qed.

End Scopes.

(** X15.  No block can be compiled.  [compilerInit] starts with no
    variable in scope and nothing adds one, and then [compilerExitBlock],
    at the end of every block, reads [variables] below its first entry.  So
    from a compiler with no variable [compileBlockBody] never returns
    normally, nor does the compilation of an [if], of a [while] or of a
    [def]; and the statements that do return leave it without variables. *)
Theorem no_block_compiles_without_variables (P : Platform) (fuel : nat) (c : Compiler) :
  variables c = [] ->
  compilerExitBlock c = UB OutOfBounds
  /\ (forall b c', compileBlockBody fuel c b <> Ok c')
  /\ (forall c', compileIfStatement fuel c <> Ok c')
  /\ (forall c', compileWhileStatement fuel c <> Ok c')
  /\ (forall c', compileFunction fuel c false <> Ok c')
  /\ (forall c', compileStatement fuel c = Ok c' -> variables c' = []).
Proof.
  intros Hv. destruct (vars_statements fuel) as (Hs & _ & Hb & Hi & Hw).
  split; [by apply compilerExitBlock_no_variable|].
  split; [intros b c'; by apply Hb|]. split; [intros c'; by apply Hi|].
  split; [intros c'; by apply Hw|].
  split; [intros c'; by apply compileFunction_def_no_variable|].
  intros c'. by apply Hs.
Qed.

Lemma no_block_compiles_without_variables_witness :
  exists c0,
    source_start program_while = Ok c0
    /\ variables c0 = []
    /\ forall c', compileStatement (P := sample_platform) 10 c0 = Ok c' ->
                  variables c' = [].
Proof.
  remember (source_start program_while) as r eqn:Hr. vm_compute in Hr. subst r.
  eexists. split; [reflexivity|]. split; [reflexivity|].
  apply (no_block_compiles_without_variables sample_platform 10). reflexivity.
Defined.

(** * Literals *)

Section Literals.
Context {P : Platform}.

Lemma get_current_script_heap (c : Compiler) (s : addr) (scr : Script) :
  get_current_script c = Ok (s, scr) ->
  script c = Some s
  /\ exists m, heap (compiler_vm c) !! s = Some (mkObject m (BScript scr)).
Proof.
  unfold get_current_script, get_script, deref.
  destruct (script c) as [s'|]; cbn [of_option res_bind]; [|discriminate].
  destruct (heap (compiler_vm c) !! s') as [[m b]|] eqn:Hh;
    cbn [fmap option_fmap option_map of_option res_bind obj_body]; [|discriminate].
  destruct b; cbn [res_bind]; try discriminate. intros [= <- <-]. eauto.
Qed.

Lemma script_put_fn (c : Compiler) (f s : addr) (func : Function) (body body' : Fn)
    (scr : Script) :
  get_fn c = Ok (f, func, body) -> get_current_script c = Ok (s, scr) ->
  get_current_script (put_fn c f func body') = Ok (s, scr).
Proof.
  intros Hf Hs.
  destruct (get_fn_inv _ _ _ _ Hf) as (_ & [m Hh] & _).
  destruct (get_current_script_heap _ _ _ Hs) as (Hsc & [m' Hh']).
  assert (Hne : s <> f) by (intros ->; congruence).
  revert Hs. unfold get_current_script, put_fn, compiler_vm.
  cbn [script set_compiler_vm set_parser parser set_vm vm]. rewrite Hsc.
  cbn [of_option res_bind].
  destruct (get_script (vm (parser c)) s) as [scr0| |] eqn:Hg; cbn [res_bind];
    try discriminate.
  intros [= <-]. by rewrite (get_script_storeObject_ne _ _ _ _ _ Hg Hne).
Qed.

Lemma script_emitByte (c c' : Compiler) (b i : Z) (s : addr) (scr : Script) :
  get_current_script c = Ok (s, scr) -> emitByte c b = Ok (i, c') ->
  get_current_script c' = Ok (s, scr).
Proof.
  intros Hs. unfold emitByte.
  destruct (get_fn c) as [[[f func] body]| |] eqn:Hf; cbn [res_bind]; try discriminate.
  intros [= _ <-]. by eapply script_put_fn.
Qed.

Lemma script_emitOpcode (c c' : Compiler) (o : Opcode) (s : addr) (scr : Script) :
  get_current_script c = Ok (s, scr) -> emitOpcode c o = Ok c' ->
  get_current_script c' = Ok (s, scr).
Proof.
  intros Hs. unfold emitOpcode.
  destruct (emitByte c _) as [[i c1]| |] eqn:E1; cbn [res_bind]; try discriminate.
  pose proof (script_emitByte _ _ _ _ _ _ Hs E1) as Hs1.
  destruct (get_fn (set_stack_size c1 _)) as [[[f func] body]| |] eqn:Hf; cbn [res_bind];
    try discriminate.
  destruct (_ >? _); intros [= <-]; [|exact Hs1].
  eapply script_put_fn; [exact Hf|exact Hs1].
Qed.

Lemma script_emitShort (c c' : Compiler) (a i : Z) (s : addr) (scr : Script) :
  get_current_script c = Ok (s, scr) -> emitShort c a = Ok (i, c') ->
  get_current_script c' = Ok (s, scr).
Proof.
  intros Hs. unfold emitShort.
  destruct (emitByte c _) as [[i1 c1]| |] eqn:E1; cbn [res_bind]; try discriminate.
  destruct (emitByte c1 _) as [[i2 c2]| |] eqn:E2; cbn [res_bind]; try discriminate.
  intros [= _ <-]. eapply script_emitByte; [|exact E2]. eapply script_emitByte; eauto.
Qed.

(** Pooling a constant leaves the function being compiled alone. *)
Lemma get_fn_compilerAddConstant (c c' : Compiler) (v : Var) (i : Z) (f : addr)
    (func : Function) (body : Fn) :
  get_fn c = Ok (f, func, body) -> compilerAddConstant c v = Ok (i, c') ->
  get_fn c' = Ok (f, func, body).
Proof.
  intros Hf. unfold compilerAddConstant.
  destruct (get_current_script c) as [[s scr]| |] eqn:Hs; cbn [res_bind]; try discriminate.
  destruct (find_same _ _ _); [by intros [= _ <-]|].
  destruct (_ <? _); intros [= _ <-];
    [|revert Hf; unfold get_fn, compiler_vm, parseError;
      by destruct (TokenType_beq _ _)].
  destruct (get_fn_inv _ _ _ _ Hf) as (Hfn & [m Hh] & Hb).
  destruct (get_current_script_heap _ _ _ Hs) as (_ & [m' Hh']).
  assert (Hne : f <> s) by (intros ->; congruence).
  eapply get_fn_intro with (m := m); [exact Hfn| |exact Hb].
  unfold compiler_vm, storeObject in *.
  cbn [set_compiler_vm set_parser parser set_vm vm]. rewrite Hh'. cbn [heap].
  by rewrite list_lookup_insert_ne.
Qed.

(** What [compilerAddConstant] answers when the pool has room: the index of
    a literal that is the same as the value. *)
Lemma compilerAddConstant_index (c : Compiler) (s : addr) (scr : Script) (v : Var) :
  get_current_script c = Ok (s, scr) ->
  count (literals scr) < MAX_CONSTANTS ->
  exists c' i scr' x,
    compilerAddConstant c v = Ok (i, c')
    /\ get_current_script c' = Ok (s, scr')
    /\ 0 <= i < 65536
    /\ data (literals scr') !! Z.to_nat i = Some x /\ isValuesSame x v = true.
Proof.
  intros Hs Hroom. pose proof (compilerAddConstant_cases c s scr v Hs) as Hc.
  pose proof (find_same_spec (data (literals scr)) v 0) as Hf.
  assert (HM : MAX_CONSTANTS = 65536) by reflexivity.
  destruct (find_same (data (literals scr)) v 0) as [i|].
  - destruct Hf as (Hi & x & Hx & Hsame & _). rewrite Z.sub_0_r in Hx.
    exists c, i, scr, x. split; [exact Hc|]. split; [exact Hs|].
    split; [|split; assumption].
    apply lookup_lt_Some in Hx. unfold count in Hroom. lia.
  - destruct (count (literals scr) <? MAX_CONSTANTS) eqn:Hlt;
      [|apply Z.ltb_ge in Hlt; lia].
    destruct Hc as (c' & Hc & Hs' & _).
    exists c', (count (literals scr)), (with_literals scr (bufferWrite (literals scr) v)), v.
    split; [exact Hc|]. split; [exact Hs'|]. unfold count in *.
    split; [lia|]. split.
    + cbn [with_literals literals bufferWrite data]. rewrite Nat2Z.id.
      by rewrite lookup_app_r, Nat.sub_diag by lia.
    + unfold isValuesSame. apply Var_eqb_refl.
Qed.

End Literals.

(** X16.  A literal compiles to CONSTANT and the index of the value in the
    pool: when the pool has room, [exprLiteral] appends to the bytecode the
    opcode and then, high byte first, an index below 65536 at which the
    literals of the script hold a value that is the same as the one of the
    token; nothing else of the bytecode changes. *)
Theorem literal_compiles_to_constant (P : Platform) (fuel : nat) (c : Compiler)
    (can_assign : bool) (s : addr) (scr : Script) (ops : list Z) :
  code_of c = Ok ops ->
  get_current_script c = Ok (s, scr) ->
  count (literals scr) < MAX_CONSTANTS ->
  exists (c' : Compiler) (i : Z) (scr' : Script) (x : Var),
    callGrammarFn (S fuel) exprLiteral c can_assign = Ok c'
    /\ 0 <= i < 65536
    /\ code_of c' = Ok (ops ++ [opcode_code OP_CONSTANT mod 256; i / 256; i mod 256])
    /\ operand_at (ops ++ [opcode_code OP_CONSTANT mod 256; i / 256; i mod 256])
                  (Z.of_nat (length ops) + 1) = Some i
    /\ get_current_script c' = Ok (s, scr')
    /\ data (literals scr') !! Z.to_nat i = Some x
    /\ isValuesSame x (tk_value (previous (parser c))) = true.
Proof.
  intros Hcode Hs Hroom.
  apply code_of_inv in Hcode as (f & func & body & Hf & <-).
  destruct (compilerAddConstant_index c s scr (tk_value (previous (parser c))) Hs Hroom)
    as (c1 & i & scr' & x & Hadd & Hs1 & Hi & Hx & Hsame).
  pose proof (get_fn_compilerAddConstant _ _ _ _ _ _ _ Hf Hadd) as Hf1.
  destruct (emitOpcode_spec c1 f func body OP_CONSTANT Hf1)
    as (c2 & func2 & body2 & He2 & Hf2 & Hd2 & _).
  destruct (emitShort_spec c2 f func2 body2 i Hf2) as (c3 & func3 & body3 & He3 & Hf3 & Hd3 & _).
  destruct (short_bytes_div i Hi) as [Hhi Hlo].
  exists c3, i, scr', x. cbn [callGrammarFn]. cbv zeta.
  rewrite Hadd. cbn [res_bind]. rewrite He2. cbn [res_bind]. rewrite He3. cbn [res_bind].
  split; [reflexivity|]. split; [exact Hi|]. split; [|split; [|split; [|split]]].
  - unfold code_of. rewrite Hf3. cbn [res_bind]. rewrite Hd3, Hd2, Hhi, Hlo.
    by rewrite <- app_assoc.
  - apply short_at_operand. split.
    + rewrite lookup_app_r by lia.
      replace (Z.to_nat (Z.of_nat (length (data (opcodes body))) + 1)
               - length (data (opcodes body)))%nat with 1%nat by lia.
      reflexivity.
    + rewrite lookup_app_r by lia.
      replace (Z.to_nat (Z.of_nat (length (data (opcodes body))) + 1 + 1)
               - length (data (opcodes body)))%nat with 2%nat by lia.
      reflexivity.
  - eapply script_emitShort; [|exact He3]. eapply script_emitOpcode; [|exact He2].
    exact Hs1.
  - exact Hx.
  - exact Hsame.
Qed.

Lemma literal_compiles_to_constant_witness :
  exists c c' i,
    at_literal = Ok c
    /\ callGrammarFn (P := sample_platform) 1 exprLiteral c false = Ok c'
    /\ code_of c' = Ok ([] ++ [@opcode_code sample_platform OP_CONSTANT mod 256; i / 256; i mod 256]).
Proof.
  destruct at_literal as [c| |] eqn:E.
  - assert (H1 : code_of c = Ok []).
    { vm_compute in E. injection E as <-. vm_compute. reflexivity. }
    assert (H2 : exists s scr, get_current_script c = Ok (s, scr)
                               /\ count (literals scr) < MAX_CONSTANTS).
    { vm_compute in E. injection E as <-. eexists _, _. split; vm_compute; reflexivity. }
    destruct H2 as (s & scr & H2 & H3).
    destruct (literal_compiles_to_constant sample_platform 0 c false s scr [] H1 H2 H3)
      as (c' & i & _ & _ & Hc & _ & Hcode & _).
    exists c, c', i. split; [reflexivity|]. split; [exact Hc|exact Hcode].
  - exfalso. vm_compute in E. discriminate E.
  - exfalso. vm_compute in E. discriminate E.
Defined.

(** * The lexer stays inside the source *)

Section LexerSafety.
Context {P : Platform}.

Lemma peekChar_inside (p : Parser) :
  inside p ->
  exists c, peekChar p = Ok c
            /\ (c <> NUL -> (current_char p < length (source p))%nat).
Proof.
  unfold inside, peekChar, char_at. intros Hin.
  destruct (source p !! current_char p) as [c|] eqn:E.
  - exists c. split; [reflexivity|]. intros _. by apply lookup_lt_Some in E.
  - apply lookup_ge_None in E. exists NUL.
    replace (current_char p) with (length (source p)) by lia.
    rewrite Nat.eqb_refl. by split.
Qed.

Lemma eatChar_inside (p : Parser) (c : ascii) :
  peekChar p = Ok c ->
  exists line, eatChar p = Ok (c, set_position p (S (current_char p)) line).
Proof. intros H. unfold eatChar. rewrite H. cbn [res_bind]. eauto. Qed.

Lemma advance_refl (p : Parser) : inside p -> advance p p.
Proof. unfold advance, inside. intros H. split; [reflexivity|lia]. Qed.

Lemma advance_trans (p q r : Parser) : advance p q -> advance q r -> advance p r.
Proof.
  unfold advance. intros [H1 H2] [H3 H4]. rewrite H1 in H3, H4. split; [exact H3|lia].
Qed.

Lemma advance_inside (p q : Parser) : advance p q -> inside q.
Proof. unfold advance, inside. intros [-> H]. lia. Qed.

Lemma advance_last (p q : Parser) :
  advance p q -> last (source p) <> Some BACKSLASH -> last (source q) <> Some BACKSLASH.
Proof. intros [-> _]. done. Qed.

Lemma eatWhile_safe (cond : ascii -> bool) (fuel : nat) :
  cond NUL = false ->
  forall p, inside p -> (length (source p) < fuel + current_char p)%nat ->
  exists p', eatWhile fuel cond p = Ok p' /\ advance p p'.
Proof.
  intros Hnul. induction fuel as [|fuel IH]; intros p Hin Hfuel.
  { unfold inside in Hin. lia. }
  cbn [eatWhile]. destruct (peekChar_inside p Hin) as (c & Hc & Hlt). rewrite Hc.
  cbn [res_bind]. destruct (cond c) eqn:Ec.
  - assert (c <> NUL) as Hn by (intros ->; congruence). specialize (Hlt Hn).
    destruct (eatChar_inside p c Hc) as [line ->]. cbn [res_bind].
    destruct (IH (set_position p (S (current_char p)) line)) as (p' & -> & Ha).
    + unfold inside. cbn. lia.
    + cbn. lia.
    + exists p'. split; [reflexivity|]. destruct Ha as [Hs Hp]. cbn in Hs, Hp.
      split; [exact Hs|lia].
  - exists p. split; [reflexivity|]. by apply advance_refl.
Qed.

Lemma matchChar_safe (p : Parser) (c : ascii) :
  c <> NUL -> inside p ->
  exists b p', matchChar p c = Ok (b, p') /\ advance p p'.
Proof.
  intros Hn Hin. unfold matchChar.
  destruct (peekChar_inside p Hin) as (c' & Hc & Hlt). rewrite Hc. cbn [res_bind].
  destruct (Ascii.eqb c' c) eqn:E; cbn [negb].
  - apply Ascii.eqb_eq in E. subst c'. specialize (Hlt Hn).
    destruct (eatChar_inside p c Hc) as [line ->]. cbn [res_bind].
    eexists _, _. split; [reflexivity|]. split; [reflexivity|]. cbn. lia.
  - eexists _, _. split; [reflexivity|]. by apply advance_refl.
Qed.

Lemma advance_setNextToken (p q : Parser) (t : TokenType) :
  advance p q -> advance p (setNextToken q t).
Proof. done. Qed.

Lemma advance_setNextValueToken (p q : Parser) (t : TokenType) (v : Var) :
  advance p q -> advance p (setNextValueToken q t v).
Proof. done. Qed.

Lemma advance_lexError (p q : Parser) (fmt : string) :
  advance p q -> advance p (lexError q fmt).
Proof. done. Qed.

Lemma advance_set_vm (p q : Parser) (v : MSVM) :
  advance p q -> advance p (set_vm q v).
Proof. done. Qed.

Lemma setNextTwoCharToken_safe (p : Parser) (c : ascii) (one two : TokenType) :
  c <> NUL -> inside p ->
  exists p', setNextTwoCharToken p c one two = Ok p' /\ advance p p'.
Proof.
  intros Hn Hin. unfold setNextTwoCharToken.
  destruct (matchChar_safe p c Hn Hin) as (b & p' & -> & Ha). cbn [res_bind].
  destruct b; eexists; (split; [reflexivity|]); by apply advance_setNextToken.
Qed.

Lemma chars_left_enough (p : Parser) :
  (length (source p) < chars_left p + current_char p)%nat.
Proof. unfold chars_left. lia. Qed.

Lemma eatName_safe (p : Parser) :
  inside p -> exists p', eatName p = Ok p' /\ advance p p'.
Proof.
  intros Hin. unfold eatName.
  destruct (eatWhile_safe (fun c => utilIsName c || utilIsDigit c) (chars_left p)
              eq_refl p Hin (chars_left_enough p)) as (p' & -> & Ha).
  cbn [res_bind]. eexists. split; [reflexivity|]. by apply advance_setNextToken.
Qed.

Lemma eatNumber_safe (p : Parser) :
  inside p -> exists p', eatNumber p = Ok p' /\ advance p p'.
Proof.
  intros Hin. unfold eatNumber.
  destruct (eatWhile_safe utilIsDigit (chars_left p) eq_refl p Hin (chars_left_enough p))
    as (p1 & -> & Ha1). cbn [res_bind].
  destruct (matchChar_safe p1 "."%char ltac:(discriminate) (advance_inside _ _ Ha1))
    as (b & p2 & -> & Ha2). cbn [res_bind].
  pose proof (advance_trans _ _ _ Ha1 Ha2) as Ha12.
  assert (exists p3, (if b then eatWhile (chars_left p2) utilIsDigit p2 else Ok p2) = Ok p3
                     /\ advance p p3) as (p3 & -> & Ha3).
  { destruct b.
    - destruct (eatWhile_safe utilIsDigit (chars_left p2) eq_refl p2
                  (advance_inside _ _ Ha12) (chars_left_enough p2)) as (p3 & -> & Ha3).
      exists p3. split; [reflexivity|]. by eapply advance_trans.
    - by exists p2. }
  cbn [res_bind]. destruct (strtod _) as [bits erange].
  destruct erange; eexists; (split; [reflexivity|]).
  - by apply advance_setNextValueToken, advance_lexError.
  - by apply advance_setNextValueToken.
Qed.

(** A backslash inside the source is followed by a character of the source
    when the source does not end in a backslash. *)
Lemma backslash_not_last (p : Parser) (n : nat) :
  last (source p) <> Some BACKSLASH ->
  source p !! n = Some BACKSLASH ->
  (S n < length (source p))%nat.
Proof.
  intros Hlast Hn. pose proof (lookup_lt_Some _ _ _ Hn) as Hlt.
  destruct (decide (S n = length (source p))) as [E|]; [|lia].
  exfalso. apply Hlast. rewrite last_lookup. rewrite <- E. exact Hn.
Qed.

Lemma peekChar_lookup (p : Parser) (c : ascii) :
  peekChar p = Ok c -> c <> NUL -> source p !! current_char p = Some c.
Proof.
  unfold peekChar, char_at. destruct (source p !! current_char p) as [c'|].
  - by intros [= ->].
  - destruct (Nat.eqb _ _); [|discriminate]. intros [= <-]. done.
Qed.

Lemma eatString_round_safe (p : Parser) (buff : Buffer Z) :
  inside p -> last (source p) <> Some BACKSLASH ->
  exists r, eatString_round p buff = Ok r
    /\ match r with
       | Break (p', _) => advance p p'
       | Continue (p', _) => advance p p' /\ (current_char p < current_char p')%nat
       end.
Proof.
  intros Hin Hlast. unfold eatString_round.
  destruct (peekChar_inside p Hin) as (c & Hc & Hlt).
  destruct (eatChar_inside p c Hc) as [line ->]. cbn [res_bind].
  destruct (Ascii.eqb c DQUOTE) eqn:Eq.
  { apply Ascii.eqb_eq in Eq. subst c. specialize (Hlt ltac:(discriminate)).
    eexists. split; [reflexivity|]. split; [reflexivity|]. cbn. lia. }
  destruct (Ascii.eqb c NUL) eqn:En.
  { eexists. split; [reflexivity|]. split; [reflexivity|]. cbn. unfold inside in Hin. lia. }
  assert (Hn : c <> NUL) by (intros ->; discriminate En). specialize (Hlt Hn).
  destruct (Ascii.eqb c "\"%char) eqn:Eb.
  - apply Ascii.eqb_eq in Eb. subst c.
    pose proof (backslash_not_last p _ Hlast (peekChar_lookup p _ Hc Hn)) as Hnext.
    set (q := set_position p (S (current_char p)) line).
    assert (Hq : inside q) by (unfold inside, q; cbn; lia).
    destruct (peekChar_inside q Hq) as (e & He & _).
    destruct (eatChar_inside q e He) as [line' ->]. cbn [res_bind].
    repeat match goal with |- context [if ?b then _ else _] => destruct b end;
      (eexists; split; [reflexivity|]; split; [split; [reflexivity|]|]; cbn; lia).
  - eexists. split; [reflexivity|]. split; [split; [reflexivity|]|]; cbn; lia.
Qed.

Lemma eatString_loop_safe (fuel : nat) :
  forall p buff, inside p -> last (source p) <> Some BACKSLASH ->
    (length (source p) < fuel + current_char p)%nat ->
    exists p' buff', eatString_loop fuel p buff = Ok (p', buff') /\ advance p p'.
Proof.
  induction fuel as [|fuel IH]; intros p buff Hin Hlast Hfuel.
  { unfold inside in Hin. lia. }
  cbn [eatString_loop].
  destruct (eatString_round_safe p buff Hin Hlast) as (r & -> & Hr). cbn [res_bind].
  destruct r as [[p' buff']|[p' buff']].
  - by exists p', buff'.
  - destruct Hr as [Ha Hlt].
    destruct (IH p' buff' (advance_inside _ _ Ha) (advance_last _ _ Ha Hlast))
      as (p'' & buff'' & -> & Ha').
    + destruct Ha as [-> _]. lia.
    + exists p'', buff''. split; [reflexivity|]. by eapply advance_trans.
Qed.

Lemma eatString_safe (p : Parser) :
  inside p -> last (source p) <> Some BACKSLASH ->
  exists p', eatString p = Ok p' /\ advance p p'.
Proof.
  intros Hin Hlast. unfold eatString.
  destruct (eatString_loop_safe (chars_left p) p bufferInit Hin Hlast (chars_left_enough p))
    as (p' & buff & -> & Ha). cbn [res_bind].
  destruct (newString _ _ _) as [s v]. eexists. split; [reflexivity|].
  by apply advance_setNextValueToken, advance_set_vm.
Qed.

Lemma is_blank_NUL : is_blank NUL = false.
Proof. reflexivity. Qed.

Ltac safe_two p Hin :=
  match goal with
  | |- context [setNextTwoCharToken p ?c ?one ?two] =>
      let Ha := fresh "Ha" in
      destruct (setNextTwoCharToken_safe p c one two ltac:(discriminate) Hin)
        as (? & -> & Ha); cbn [res_bind];
      eexists; split; [reflexivity|exact Ha]
  end.

Lemma lexToken_switch_safe (c : ascii) (p : Parser) :
  inside p -> last (source p) <> Some BACKSLASH ->
  exists r, lexToken_switch c p = Ok r
            /\ match r with Break p' | Continue p' => advance p p' end.
Proof.
  intros Hin Hlast. unfold lexToken_switch. cbv zeta beta.
  repeat match goal with
         | |- exists r, (if ?b then _ else _) = Ok r /\ _ => destruct b
         end;
    try (eexists; split; [reflexivity|]; by apply advance_setNextToken, advance_refl);
    try safe_two p Hin.
  - destruct (eatWhile_safe is_blank (chars_left p) is_blank_NUL p Hin (chars_left_enough p))
      as (p' & -> & Ha). cbn [res_bind]. eexists. split; [reflexivity|exact Ha].
  - destruct (matchChar_safe p ">"%char ltac:(discriminate) Hin) as (b & p' & -> & Ha).
    cbn [res_bind]. destruct b.
    + eexists. split; [reflexivity|]. by apply advance_setNextToken.
    + destruct (setNextTwoCharToken_safe p' "="%char TK_GT TK_GTEQ ltac:(discriminate)
                  (advance_inside _ _ Ha)) as (p'' & -> & Ha'). cbn [res_bind].
      eexists. split; [reflexivity|]. by eapply advance_trans.
  - destruct (matchChar_safe p "<"%char ltac:(discriminate) Hin) as (b & p' & -> & Ha).
    cbn [res_bind]. destruct b.
    + eexists. split; [reflexivity|]. by apply advance_setNextToken.
    + destruct (setNextTwoCharToken_safe p' "="%char TK_LT TK_LTEQ ltac:(discriminate)
                  (advance_inside _ _ Ha)) as (p'' & -> & Ha'). cbn [res_bind].
      eexists. split; [reflexivity|]. by eapply advance_trans.
  - destruct (eatString_safe p Hin Hlast) as (p' & -> & Ha). cbn [res_bind].
    eexists. split; [reflexivity|exact Ha].
  - destruct (eatNumber_safe p Hin) as (p' & -> & Ha). cbn [res_bind].
    eexists. split; [reflexivity|exact Ha].
  - destruct (eatName_safe p Hin) as (p' & -> & Ha). cbn [res_bind].
    eexists. split; [reflexivity|exact Ha].
  - eexists. split; [reflexivity|].
    destruct (_ && _); by apply advance_setNextToken, advance_lexError, advance_refl.
Qed.

Lemma lexToken_loop_safe (fuel : nat) :
  forall p, inside p -> last (source p) <> Some BACKSLASH ->
    (length (source p) < fuel + current_char p)%nat ->
    exists p', lexToken_loop fuel p = Ok p' /\ advance p p'
               /\ (tk_type (next p') = TK_EOF
                   \/ (current_char p < current_char p')%nat).
Proof.
  induction fuel as [|fuel IH]; intros p Hin Hlast Hfuel.
  { unfold inside in Hin. lia. }
  cbn [lexToken_loop].
  destruct (peekChar_inside p Hin) as (c & Hc & Hlt). rewrite Hc. cbn [res_bind].
  destruct (Ascii.eqb c NUL) eqn:En.
  { eexists. split; [reflexivity|]. split; [|by left].
    split; [reflexivity|]. cbn. unfold inside in Hin. lia. }
  assert (Hn : c <> NUL) by (intros ->; discriminate En). specialize (Hlt Hn).
  set (q := set_token_start p (current_char p)).
  destruct (eatChar_inside q c Hc) as [line ->]. cbn [res_bind].
  set (q1 := set_position q _ line).
  assert (Ha1 : advance p q1 /\ (current_char p < current_char q1)%nat).
  { split; [split; [reflexivity|]|]; cbn; lia. }
  destruct Ha1 as [Ha1 Hlt1].
  destruct (lexToken_switch_safe c q1 (advance_inside _ _ Ha1) Hlast) as (r & -> & Hr).
  cbn [res_bind]. destruct r as [p'|p'].
  - exists p'. split; [reflexivity|]. split; [by eapply advance_trans|].
    right. destruct Hr as [_ Hr]. lia.
  - pose proof (advance_trans _ _ _ Ha1 Hr) as Ha2.
    destruct (IH p' (advance_inside _ _ Ha2) (advance_last _ _ Ha2 Hlast))
      as (p'' & -> & Ha3 & Hp).
    + destruct Ha2 as [-> _]. destruct Hr as [_ Hr]. lia.
    + exists p''. split; [reflexivity|]. split; [by eapply advance_trans|].
      destruct Hp as [Hp|Hp]; [by left|right].
      destruct Hr as [_ Hr]. lia.
Qed.

(** [lexToken] from inside the source: it returns, and the token it adds
    is the end of the input or took a character. *)
Lemma lexToken_progress (p : Parser) :
  inside p -> last (source p) <> Some BACKSLASH ->
  exists p', lexToken p = Ok p' /\ advance p p'
             /\ (tk_type (next p') = TK_EOF
                 \/ (current_char p < current_char p')%nat).
Proof.
  intros Hin Hlast. unfold lexToken.
  destruct (TokenType_beq _ _) eqn:E.
  - eexists. split; [reflexivity|]. split; [apply (advance_refl p Hin)|].
    left. by apply internal_TokenType_dec_bl in E.
  - set (q := set_tokens p _ _ _).
    destruct (lexToken_loop_safe (chars_left q) q Hin Hlast (chars_left_enough q))
      as (p' & -> & Ha & Hp).
    by exists p'.
Qed.

(** A literal whose last character before the end of the input is a
    backslash: the escape reads the NUL, and the next round reads the byte
    after it. *)
Lemma eatString_loop_trailing_backslash (p : Parser) (items : list StrItem) :
  forallb item_ok items = true ->
  drop (current_char p) (source p) = items_text items ++ [BACKSLASH] ->
  eatString_loop (chars_left p) p bufferInit = UB OutOfBounds.
Proof.
  intros Hok Hsrc.
  assert (Hlen : (current_char p + length (items_text items) + 1 = length (source p))%nat).
  { apply (f_equal length) in Hsrc. rewrite length_drop, length_app in Hsrc.
    cbn [length] in Hsrc.
    assert (current_char p < length (source p))%nat; [|lia].
    destruct (decide (current_char p < length (source p))%nat); [done|].
    rewrite (proj2 (Nat.sub_0_le _ _)) in Hsrc by lia. lia. }
  assert (Hfuel : exists k, chars_left p = (length items + S (S k))%nat).
  { unfold chars_left. pose proof (items_text_length items).
    exists (length (source p) - current_char p - length items)%nat. lia. }
  destruct Hfuel as [k ->].
  rewrite <- (set_position_id p) at 1.
  rewrite (eatString_loop_items p items _ _ _ _ (S (S k)) Hok Hsrc).
  set (n := (current_char p + length (items_text items))%nat).
  assert (Hb : drop n (source p) = [BACKSLASH]).
  { unfold n. rewrite <- drop_drop, Hsrc, drop_app_length. reflexivity. }
  cbn [eatString_loop]. unfold eatString_round at 1.
  rewrite (eatChar_at p n _ BACKSLASH [] Hb). cbn [res_bind].
  change (Ascii.eqb BACKSLASH DQUOTE) with false.
  change (Ascii.eqb BACKSLASH NUL) with false.
  change (Ascii.eqb BACKSLASH "\"%char) with true.
  change (Ascii.eqb BACKSLASH NEWLINE) with false. cbv iota.
  unfold eatChar at 1, peekChar.
  change (current_char (set_position p ?m ?l)) with m.
  rewrite char_at_end; [|by apply drop_tail in Hb|unfold n; cbn; lia].
  cbn [res_bind]. change (Ascii.eqb NUL ?x) with false. cbv iota.
  cbn [res_bind]. rewrite eatString_round_past; [reflexivity|].
  change (length (source p) < S (S n))%nat. unfold n. lia.
Qed.

End LexerSafety.

(** X17.  A string literal that the end of the input cuts short right after
    a backslash makes [eatString] read past the end of the source: the
    escape eats the terminating NUL, and the next round of the loop reads
    the byte after it. *)
Theorem eatString_reads_past_trailing_backslash (P : Platform) (p : Parser)
    (items : list StrItem) :
  forallb item_ok items = true ->
  drop (current_char p) (source p) = items_text items ++ [BACKSLASH] ->
  eatString p = UB OutOfBounds.
Proof.
  intros Hok Hsrc. unfold eatString.
  by rewrite (eatString_loop_trailing_backslash p items Hok Hsrc).
Qed.

Lemma eatString_reads_past_trailing_backslash_witness :
  eatString (P := sample_platform)
    (set_position (parserInit blank_parser empty_vm literal_trailing_backslash EmptyString)
                  1%nat 1) = UB OutOfBounds.
Proof.
  apply (eatString_reads_past_trailing_backslash sample_platform _ [Plain "a"%char]);
    reflexivity.
Defined.

(** X18.  From a position inside a source that does not end in a backslash,
    [lexToken] returns: no loop of the lexer runs on for ever or reads past
    the NUL that ends the source.  It leaves the source as it is and the
    position inside it, not before where it was, so the next call returns
    as well. *)
Theorem lexToken_stays_inside (P : Platform) (p : Parser) :
  inside p -> last (source p) <> Some BACKSLASH ->
  exists p', lexToken p = Ok p' /\ advance p p'
             /\ inside p' /\ last (source p') <> Some BACKSLASH.
Proof.
  intros Hin Hlast.
  destruct (lexToken_progress p Hin Hlast) as (p' & H & Ha & _).
  exists p'. split; [exact H|]. split; [exact Ha|].
  split; [by eapply advance_inside|by eapply advance_last].
Qed.

Lemma lexToken_stays_inside_witness :
  exists p',
    lexToken (P := sample_platform)
      (parserInit blank_parser empty_vm program_literal EmptyString) = Ok p'
    /\ inside p'.
Proof.
  destruct (lexToken_stays_inside sample_platform
              (parserInit blank_parser empty_vm program_literal EmptyString))
    as (p' & H & _ & Hin & _).
  - unfold inside. cbn. lia.
  - discriminate.
  - exists p'. split; [exact H|exact Hin].
Defined.

(** * Lists *)

Lemma varLoad_live (b : Buffer Var) (i : nat) (x : Var) :
  data b !! i = Some x -> varLoad b (Z.of_nat i) = Ok x.
Proof.
  intros H. pose proof (lookup_lt_Some _ _ _ H) as Hlt. unfold varLoad, count.
  destruct (Z.leb_spec 0 (Z.of_nat i)); [|lia].
  destruct (Z.ltb_spec (Z.of_nat i) (Z.of_nat (length (data b)))); [|lia].
  cbn [andb]. by rewrite Nat2Z.id, H.
Qed.

Lemma varStore_live (b : Buffer Var) (i : nat) (x : Var) :
  (i < length (data b))%nat ->
  varStore b (Z.of_nat i) x = Ok (mkBuffer (<[i := x]> (data b)) (capacity b)).
Proof.
  intros Hlt. unfold varStore, count.
  destruct (Z.leb_spec 0 (Z.of_nat i)); [|lia].
  destruct (Z.ltb_spec (Z.of_nat i) (Z.of_nat (length (data b)))); [|lia].
  cbn [andb]. by rewrite Nat2Z.id.
Qed.

Lemma u32_small (z : Z) : 0 <= z < 4294967296 -> u32 z = z.
Proof. intros H. unfold u32. by apply Z.mod_small. Qed.

(** The loop of [listInsert] moves the elements from [index] on one slot
    down, over the slot at their end. *)
Lemma listInsert_shift_spec (mid : list Var) :
  forall (pre post : list Var) (x : Var) (cap : Z) (fuel : nat),
    Z.of_nat (length (pre ++ mid ++ x :: post)) <= 4294967296 ->
    (length mid < fuel)%nat ->
    exists y,
      listInsert_shift fuel (mkBuffer (pre ++ mid ++ x :: post) cap)
                       (Z.of_nat (length pre + length mid)) (Z.of_nat (length pre))
      = Ok (mkBuffer (pre ++ y :: mid ++ post) cap).
Proof.
  induction mid as [|m mid IH] using rev_ind; intros pre post x cap fuel Hlen Hfuel.
  - destruct fuel as [|fuel]; [cbn in Hfuel; lia|]. cbn [listInsert_shift length app].
    rewrite Nat.add_0_r.
    destruct (Z.gtb_spec (Z.of_nat (length pre)) (Z.of_nat (length pre))); [lia|].
    by exists x.
  - rewrite length_app in Hfuel. cbn [length] in Hfuel.
    assert (Hl : (length (pre ++ (mid ++ [m]) ++ x :: post)
                  = length pre + length mid + 2 + length post)%nat).
    { rewrite !length_app. cbn [length]. lia. }
    rewrite Hl in Hlen.
    destruct fuel as [|fuel]; [lia|]. cbn [listInsert_shift].
    rewrite length_app. cbn [length].
    destruct (Z.gtb_spec (Z.of_nat (length pre + (length mid + 1)))
                         (Z.of_nat (length pre))); [|lia].
    replace (Z.of_nat (length pre + (length mid + 1)) - 1)
      with (Z.of_nat (length pre + length mid)) by lia.
    assert (Hd : pre ++ (mid ++ [m]) ++ x :: post = (pre ++ mid) ++ m :: x :: post).
    { by rewrite <- !app_assoc. }
    rewrite Hd.
    rewrite (varLoad_live _ (length pre + length mid) m).
    2:{ cbn [data]. rewrite <- length_app. apply list_lookup_middle. reflexivity. }
    cbn [res_bind].
    replace (length pre + (length mid + 1))%nat with (S (length (pre ++ mid)))
      by (rewrite length_app; lia).
    rewrite varStore_live.
    2:{ cbn [data]. rewrite !length_app. cbn [length]. lia. }
    cbn [res_bind data capacity].
    replace (<[S (length (pre ++ mid)) := m]> ((pre ++ mid) ++ m :: x :: post))
      with (pre ++ mid ++ m :: m :: post).
    2:{ rewrite insert_app_r_alt by lia.
        replace (S (length (pre ++ mid)) - length (pre ++ mid))%nat with 1%nat by lia.
        cbn. by rewrite <- app_assoc. }
    rewrite u32_small by lia.
    destruct (IH pre (m :: post) m cap fuel) as [y Hy].
    + rewrite !length_app. cbn [length]. lia.
    + lia.
    + exists y. rewrite Hy. by rewrite <- !app_assoc.
Qed.

Lemma last_cons_default (l : list Var) :
  forall a d, List.last (a :: l) d = List.last l a.
Proof.
  induction l as [|b l IH]; intros a d; [reflexivity|].
  change (List.last (a :: b :: l) d) with (List.last (b :: l) d).
  by rewrite !IH.
Qed.

(** The loop of [listRemoveAt] moves the elements behind [index] one slot
    up; the last slot keeps its element. *)
Lemma listRemoveAt_shift_spec (rest : list Var) :
  forall (pre : list Var) (x : Var) (cap : Z) (fuel : nat),
    Z.of_nat (length (pre ++ x :: rest)) < 4294967296 ->
    (length rest < fuel)%nat ->
    listRemoveAt_shift fuel (mkBuffer (pre ++ x :: rest) cap) (Z.of_nat (length pre))
    = Ok (mkBuffer (pre ++ rest ++ [List.last rest x]) cap).
Proof.
  induction rest as [|r rest IH]; intros pre x cap fuel Hlen Hfuel.
  - destruct fuel as [|fuel]; [cbn in Hfuel; lia|]. cbn [listRemoveAt_shift].
    unfold count. cbn [data]. rewrite length_app in *. cbn [length] in *.
    rewrite u32_small by lia.
    destruct (Z.ltb_spec (Z.of_nat (length pre)) (Z.of_nat (length pre + 1) - 1)); [lia|].
    reflexivity.
  - cbn [length] in Hfuel. destruct fuel as [|fuel]; [lia|]. cbn [listRemoveAt_shift].
    unfold count at 1. cbn [data].
    assert (Hl : length (pre ++ x :: r :: rest) = (length pre + 2 + length rest)%nat).
    { rewrite length_app. cbn [length]. lia. }
    rewrite Hl in *. rewrite u32_small by lia.
    destruct (Z.ltb_spec (Z.of_nat (length pre))
                (Z.of_nat (length pre + 2 + length rest) - 1)); [|lia].
    replace (Z.of_nat (length pre) + 1) with (Z.of_nat (S (length pre))) by lia.
    rewrite (varLoad_live _ _ r).
    2:{ cbn [data]. rewrite lookup_app_r by lia.
        replace (S (length pre) - length pre)%nat with 1%nat by lia. reflexivity. }
    cbn [res_bind].
    rewrite varStore_live by (cbn [data]; lia).
    cbn [res_bind data capacity].
    replace (<[length pre := r]> (pre ++ x :: r :: rest)) with ((pre ++ [r]) ++ r :: rest).
    2:{ rewrite insert_app_r_alt by lia. rewrite Nat.sub_diag. cbn.
        by rewrite <- app_assoc. }
    rewrite u32_small by lia.
    replace (Z.of_nat (S (length pre))) with (Z.of_nat (length (pre ++ [r])))
      by (rewrite length_app; cbn [length]; lia).
    rewrite (IH (pre ++ [r]) r cap fuel).
    + rewrite <- !app_assoc. cbn [app]. do 3 f_equal.
      by rewrite last_cons_default.
    + rewrite !length_app. cbn [length]. lia.
    + lia.
Qed.

Lemma listInsert_at (l : ListObj) (pre post : list Var) (v : Var) :
  data (elements l) = pre ++ post ->
  count (elements l) < 4294967296 ->
  exists l', listInsert l (Z.of_nat (length pre)) v = Ok l'
             /\ data (elements l') = pre ++ v :: post.
Proof.
  intros Hd Hc. unfold listInsert. cbv zeta.
  set (els := bufferWrite (elements l) VAR_NULL).
  assert (Hels : els = mkBuffer (pre ++ post ++ VAR_NULL :: []) (capacity els)).
  { unfold els, bufferWrite. cbn [capacity]. rewrite Hd. by rewrite <- app_assoc. }
  assert (Hcount : count els = Z.of_nat (length pre + length post) + 1).
  { rewrite Hels. unfold count. cbn [data]. rewrite !length_app. cbn [length]. lia. }
  assert (Hlen : Z.of_nat (length pre + length post) < 4294967296).
  { unfold count in Hc. rewrite Hd, length_app in Hc. exact Hc. }
  rewrite Hcount. replace (Z.of_nat (length pre + length post) + 1 - 1)
    with (Z.of_nat (length pre + length post)) by lia.
  rewrite u32_small by lia. rewrite Hels.
  destruct (listInsert_shift_spec post pre [] VAR_NULL (capacity els)
              (Z.to_nat (Z.of_nat (length pre + length post) + 1))) as [y ->].
  - rewrite !length_app. cbn [length]. lia.
  - lia.
  - cbn [res_bind]. rewrite varStore_live by (cbn [data]; rewrite length_app; cbn; lia).
    cbn [res_bind]. eexists. split; [reflexivity|]. cbn [elements data].
    rewrite insert_app_r_alt by lia. rewrite Nat.sub_diag. cbn. by rewrite app_nil_r.
Qed.

Lemma listRemoveAt_at (l : ListObj) (pre post : list Var) (x : Var) :
  data (elements l) = pre ++ x :: post ->
  count (elements l) < 4294967296 ->
  exists l', listRemoveAt l (Z.of_nat (length pre)) = Ok (l', x)
             /\ data (elements l') = pre ++ post.
Proof.
  destruct l as [[d c]]. cbn [elements data]. intros -> Hc.
  unfold listRemoveAt. cbv zeta. cbn [elements].
  rewrite (varLoad_live _ _ x) by (by apply list_lookup_middle).
  cbn [res_bind]. unfold count in *. cbn [data] in *.
  rewrite (listRemoveAt_shift_spec post pre x).
  - cbn [res_bind data capacity]. eexists. split; [reflexivity|].
    destruct (_ >=? _); cbn [elements data];
      by rewrite !app_assoc, removelast_last.
  - exact Hc.
  - rewrite length_app. cbn [length]. lia.
Qed.

(** X19.  [listInsert] at an index up to the length of the list puts the
    value there, after the elements before the index and before the others,
    which keep their order. *)
Theorem listInsert_puts_value_at_index (l : ListObj) (pre post : list Var) (v : Var) :
  data (elements l) = pre ++ post ->
  count (elements l) < 4294967296 ->
  exists l', listInsert l (Z.of_nat (length pre)) v = Ok l'
             /\ data (elements l') = pre ++ v :: post.
Proof. apply listInsert_at. Qed.

Lemma listInsert_puts_value_at_index_witness :
  exists l', listInsert three_list 1 (VAR_NUM 9) = Ok l'
             /\ data (elements l') = [VAR_NUM 1; VAR_NUM 9; VAR_NUM 2; VAR_NUM 3].
Proof.
  apply (listInsert_puts_value_at_index three_list [VAR_NUM 1] [VAR_NUM 2; VAR_NUM 3]
           (VAR_NUM 9)); reflexivity.
Defined.

(** X20.  [listRemoveAt] at the index of an element returns that element
    and leaves the others in their order; after [listInsert] at the same
    index it returns the inserted value and the elements the list had. *)
Theorem listRemoveAt_undoes_listInsert (l : ListObj) (pre post : list Var) (x : Var) :
  count (elements l) + 1 < 4294967296 ->
  (data (elements l) = pre ++ x :: post ->
   exists l', listRemoveAt l (Z.of_nat (length pre)) = Ok (l', x)
              /\ data (elements l') = pre ++ post)
  /\ (data (elements l) = pre ++ post ->
      exists l1 l2,
        listInsert l (Z.of_nat (length pre)) x = Ok l1
        /\ listRemoveAt l1 (Z.of_nat (length pre)) = Ok (l2, x)
        /\ data (elements l2) = data (elements l)).
Proof.
  intros Hc. split.
  - intros Hd. apply listRemoveAt_at; [exact Hd|lia].
  - intros Hd. destruct (listInsert_at l pre post x Hd) as (l1 & H1 & Hd1); [lia|].
    destruct (listRemoveAt_at l1 pre post x Hd1) as (l2 & H2 & Hd2).
    + unfold count in *. rewrite Hd1. rewrite Hd in Hc.
      rewrite length_app in *. cbn [length]. lia.
    + exists l1, l2. split; [exact H1|]. split; [exact H2|]. by rewrite Hd2, Hd.
Qed.

Lemma listRemoveAt_undoes_listInsert_witness :
  exists l', listRemoveAt three_list 1 = Ok (l', VAR_NUM 2)
             /\ data (elements l') = [VAR_NUM 1; VAR_NUM 3].
Proof.
  apply (proj1 (listRemoveAt_undoes_listInsert three_list [VAR_NUM 1] [VAR_NUM 3]
                  (VAR_NUM 2) eq_refl)).
  reflexivity.
Defined.

(** X21.  [listInsert] at an index past the length of the list does not
    insert the value: the list gets a null at its end and the value goes
    to a slot of the block that is not an element, or, from the capacity of
    the block on, outside the block. *)
Theorem listInsert_past_the_end (l : ListObj) (index : Z) (v : Var) :
  count (elements l) < index ->
  count (elements l) < 4294967296 ->
  let els := bufferWrite (elements l) VAR_NULL in
  (index < capacity els ->
   listInsert l index v = Ok (mkList els)
   /\ data els = data (elements l) ++ [VAR_NULL])
  /\ (capacity els <= index -> listInsert l index v = UB OutOfBounds).
Proof.
  intros Hi Hc els. unfold listInsert. cbv zeta. fold els.
  assert (Hcount : count els = count (elements l) + 1).
  { unfold els, bufferWrite, count. cbn [data]. rewrite length_app. cbn [length]. lia. }
  assert (H0 : 0 <= count (elements l)) by (unfold count; lia).
  rewrite Hcount. replace (count (elements l) + 1 - 1) with (count (elements l)) by lia.
  rewrite u32_small by lia.
  replace (Z.to_nat (count (elements l) + 1)) with (S (Z.to_nat (count (elements l))))
    by lia.
  cbn [listInsert_shift].
  destruct (Z.gtb_spec (count (elements l)) index); [lia|]. cbn [res_bind].
  unfold varStore. rewrite Hcount.
  destruct (Z.leb_spec 0 index); [|lia].
  destruct (Z.ltb_spec index (count (elements l) + 1)); [lia|]. cbn [andb].
  split.
  - intros Hcap. destruct (Z.ltb_spec index (capacity els)); [|lia]. by split.
  - intros Hcap. destruct (Z.ltb_spec index (capacity els)); [lia|]. reflexivity.
Qed.

Lemma listInsert_past_the_end_witness :
  listInsert three_list 5 (VAR_NUM 9) = UB OutOfBounds.
Proof.
  apply (proj2 (listInsert_past_the_end three_list 5 (VAR_NUM 9) eq_refl eq_refl)).
  vm_compute. discriminate.
Defined.

(** * Line tokens *)

Section LineTokens.
Context {P : Platform}.

Lemma TokenType_beq_false (a b : TokenType) : TokenType_beq a b = false -> a <> b.
Proof.
  intros H ->. rewrite (internal_TokenType_dec_lb _ _ eq_refl) in H. discriminate.
Qed.

(** The loop of [matchLine]: one round for the line at hand, one for the
    token behind it if that is a line, and one for each character left. *)
Lemma matchLine_loop_safe (fuel : nat) :
  forall p, inside p -> last (source p) <> Some BACKSLASH ->
    (1 <= fuel)%nat ->
    (peek p = TK_LINE ->
     (length (source p) - current_char p + 2
      + (if TokenType_beq (tk_type (next p)) TK_LINE then 1 else 0) <= fuel)%nat) ->
    exists p', matchLine_loop fuel p = Ok p' /\ advance p p' /\ peek p' <> TK_LINE.
Proof.
  induction fuel as [|fuel IH]; intros p Hin Hlast H1 Hfuel; [lia|].
  cbn [matchLine_loop]. destruct (TokenType_beq (peek p) TK_LINE) eqn:E.
  - apply internal_TokenType_dec_bl in E. specialize (Hfuel E).
    destruct (lexToken_progress p Hin Hlast) as (q & Hq & Ha & Hp).
    rewrite Hq. cbn [res_bind].
    destruct (lexToken_window p q Hq) as (_ & Hcur & _).
    destruct (IH q (advance_inside _ _ Ha) (advance_last _ _ Ha Hlast)) as (p' & -> & Ha' & Hpk).
    + destruct (TokenType_beq (tk_type (next p)) TK_LINE); lia.
    + unfold peek. rewrite Hcur. intros Hline.
      rewrite (internal_TokenType_dec_lb _ _ Hline) in Hfuel.
      destruct Ha as [Hs Hpos]. rewrite Hs.
      destruct Hp as [Hp|Hp].
      * rewrite Hp. cbn. lia.
      * destruct (TokenType_beq _ _); lia.
    + exists p'. split; [reflexivity|]. split; [by eapply advance_trans|exact Hpk].
  - exists p. split; [reflexivity|]. split; [by apply advance_refl|].
    by apply TokenType_beq_false.
Qed.

Lemma matchLine_safe (p : Parser) :
  inside p -> last (source p) <> Some BACKSLASH ->
  exists p', matchLine p = Ok (TokenType_beq (peek p) TK_LINE, p')
             /\ advance p p' /\ peek p' <> TK_LINE.
Proof.
  intros Hin Hlast. unfold matchLine.
  destruct (TokenType_beq (peek p) TK_LINE) eqn:E; cbn [negb].
  - destruct (matchLine_loop_safe (S (chars_left p)) p Hin Hlast) as (p' & -> & Ha & Hpk).
    + lia.
    + intros _. unfold chars_left.
      destruct (TokenType_beq (tk_type (next p)) TK_LINE); lia.
    + by exists p'.
  - exists p. split; [reflexivity|]. split; [by apply advance_refl|].
    by apply TokenType_beq_false.
Qed.

End LineTokens.

(** X22.  From inside a source that does not end in a backslash,
    [matchLine] returns, says whether the current token was a line, and
    leaves a current token that is not a line; [match] then takes the
    current token exactly when it is the expected one, which becomes the
    previous token, and otherwise leaves it where it is. *)
Theorem match_skips_lines (P : Platform) (p : Parser) (expected : TokenType) :
  inside p -> last (source p) <> Some BACKSLASH ->
  (exists p', matchLine p = Ok (TokenType_beq (peek p) TK_LINE, p')
              /\ advance p p' /\ peek p' <> TK_LINE)
  /\ exists b p',
       match_ p expected = Ok (b, p') /\ advance p p'
       /\ (b = true -> tk_type (previous p') = expected)
       /\ (b = false -> peek p' <> expected /\ peek p' <> TK_LINE).
Proof.
  intros Hin Hlast. split; [by apply matchLine_safe|].
  unfold match_. destruct (matchLine_safe p Hin Hlast) as (q & -> & Ha & Hpk).
  cbn [res_bind]. destruct (TokenType_beq (peek q) expected) eqn:E; cbn [negb].
  - apply internal_TokenType_dec_bl in E.
    destruct (lexToken_progress q (advance_inside _ _ Ha) (advance_last _ _ Ha Hlast))
      as (p' & Hq & Ha' & _).
    rewrite Hq. cbn [res_bind]. exists true, p'. split; [reflexivity|].
    split; [by eapply advance_trans|]. split; [|discriminate].
    intros _. destruct (lexToken_window q p' Hq) as (Hprev & _). by rewrite Hprev.
  - exists false, q. split; [reflexivity|]. split; [exact Ha|]. split; [discriminate|].
    intros _. split; [by apply TokenType_beq_false|exact Hpk].
Qed.

Lemma match_skips_lines_witness :
  exists b p',
    match_ (P := sample_platform)
      (parserInit blank_parser empty_vm program_literal EmptyString) TK_NUMBER = Ok (b, p')
    /\ inside p'.
Proof.
  destruct (match_skips_lines sample_platform
              (parserInit blank_parser empty_vm program_literal EmptyString) TK_NUMBER)
    as (_ & b & p' & H & Ha & _).
  - unfold inside. cbn. lia.
  - discriminate.
  - exists b, p'. split; [exact H|]. by eapply advance_inside.
Defined.

(** * Identifiers and keywords *)

Section Identifiers.
Context {P : Platform}.

(** The test of [eatName] on one keyword, equal length and [strncmp], is
    the comparison of the whole identifier with the keyword. *)
Lemma keyword_test (name : list ascii) :
  forall (kw : string) (rest : list ascii),
    Forall (fun c => c <> NUL) name ->
    Nat.eqb (String.length kw) (length name)
    && strncmp_eq (length name) (name ++ rest) (list_ascii_of_string kw)
    = String.eqb kw (string_of_list_ascii name).
Proof.
  induction name as [|a name IH]; intros kw rest Hn.
  - destruct kw; reflexivity.
  - destruct kw as [|b kw]; [reflexivity|].
    apply Forall_cons in Hn as [Ha Hn].
    cbn [String.length length Nat.eqb strncmp_eq list_ascii_of_string app hd tl
         string_of_list_ascii String.eqb].
    destruct (Ascii.eqb_spec a b) as [->|Hab].
    + rewrite Ascii.eqb_refl. cbn [negb].
      destruct (Ascii.eqb_spec b NUL) as [->|_]; [done|].
      apply IH. exact Hn.
    + cbn [negb]. rewrite andb_false_r.
      destruct (Ascii.eqb_spec b a) as [->|_]; [done|reflexivity].
Qed.

Lemma lookup_keyword_spec (kws : list (string * TokenType)) (name rest : list ascii) :
  Forall (fun c => c <> NUL) name ->
  lookup_keyword kws (name ++ rest) (length name)
  = snd <$> find (fun kw => String.eqb (fst kw) (string_of_list_ascii name)) kws.
Proof.
  intros Hn. induction kws as [|[identifier tk] kws IH]; [reflexivity|].
  cbn [lookup_keyword find fst]. rewrite (keyword_test name identifier rest Hn).
  destruct (String.eqb _ _); [reflexivity|exact IH].
Qed.

Lemma name_char_not_NUL (c : ascii) : name_char c = true -> c <> NUL.
Proof. by intros H ->. Qed.

(** A loop that eats the characters of a class eats a run of them and
    stops at the first character that is none, or at the end of the input. *)
Lemma eatWhile_run (cond : ascii -> bool) (run : list ascii) :
  cond NUL = false -> cond NEWLINE = false ->
  forall (p : Parser) (n : nat) (line : Z) (rest : list ascii) (fuel : nat),
    Forall (fun c => cond c = true) run ->
    match rest with [] => True | c :: _ => cond c = false end ->
    (n <= length (source p))%nat ->
    drop n (source p) = run ++ rest ->
    (length run < fuel)%nat ->
    eatWhile fuel cond (set_position p n line) = Ok (set_position p (n + length run) line).
Proof.
  intros Hnul Hnl.
  induction run as [|a run IH]; intros p n line rest fuel Hrun Hrest Hn Hsrc Hfuel.
  - destruct fuel as [|fuel]; [cbn in Hfuel; lia|]. cbn [eatWhile length].
    unfold peekChar. change (current_char (set_position p n line)) with n.
    rewrite Nat.add_0_r. cbn [app] in Hsrc. destruct rest as [|c rest].
    + rewrite (char_at_end (set_position p n line) n Hsrc Hn). cbn [res_bind].
      by rewrite Hnul.
    + rewrite (char_at_drop (set_position p n line) n c rest Hsrc). cbn [res_bind].
      by rewrite Hrest.
  - cbn [length] in Hfuel. destruct fuel as [|fuel]; [lia|]. cbn [eatWhile].
    apply Forall_cons in Hrun as [Ha Hrun]. cbn [app] in Hsrc.
    unfold peekChar. change (current_char (set_position p n line)) with n.
    rewrite (char_at_drop (set_position p n line) n a _ Hsrc). cbn [res_bind].
    rewrite Ha. rewrite (eatChar_at p n line a _ Hsrc). cbn [res_bind].
    destruct (Ascii.eqb_spec a NEWLINE) as [->|_]; [congruence|].
    rewrite (IH p (S n) line rest fuel Hrun Hrest).
    + cbn [length]. by rewrite Nat.add_succ_r.
    + apply (f_equal length) in Hsrc. rewrite length_drop in Hsrc. cbn [length] in Hsrc. lia.
    + by apply drop_tail in Hsrc.
    + lia.
Qed.

Lemma eatName_identifier (p : Parser) (c : ascii) (name rest : list ascii) (line : Z) :
  let n := token_start p in
  Forall (fun c => name_char c = true) (c :: name) ->
  match rest with [] => True | c :: _ => name_char c = false end ->
  drop n (source p) = c :: name ++ rest ->
  eatName (set_position p (S n) line)
  = Ok (setNextToken (set_position p (n + length (c :: name)) line)
                     (keyword_or_name (c :: name))).
Proof.
  intros n Hname Hrest Hsrc. unfold eatName.
  change (fun c0 : ascii => utilIsName c0 || utilIsDigit c0) with name_char.
  assert (Hn : (S n <= length (source p))%nat).
  { apply (f_equal length) in Hsrc. rewrite length_drop in Hsrc. cbn [length] in Hsrc. lia. }
  rewrite (eatWhile_run name_char name eq_refl eq_refl p (S n) line rest).
  - cbn [res_bind]. change (token_start (set_position p ?a ?b)) with n.
    change (source (set_position p ?a ?b)) with (source p).
    change (current_char (set_position p ?a ?b)) with a.
    replace (S n + length name - n)%nat with (length (c :: name)) by (cbn [length]; lia).
    rewrite Hsrc. change (c :: name ++ rest) with ((c :: name) ++ rest).
    rewrite lookup_keyword_spec.
    2:{ eapply Forall_impl; [exact Hname|]. intros x Hx. by apply name_char_not_NUL. }
    unfold keyword_or_name.
    replace (S n + length name)%nat with (n + length (c :: name))%nat
      by (cbn [length]; lia).
    destruct (find _ _) as [[kw tk]|]; reflexivity.
  - by apply Forall_cons in Hname as [_ Hname].
  - exact Hrest.
  - exact Hn.
  - by apply drop_tail in Hsrc.
  - unfold chars_left. change (source (set_position p ?a ?b)) with (source p).
    change (current_char (set_position p ?a ?b)) with a.
    apply (f_equal length) in Hsrc. rewrite length_drop in Hsrc. cbn [length] in Hsrc.
    rewrite length_app in Hsrc. lia.
Qed.

(** A character of a name is none of those the [switch] of [lexToken]
    takes for itself. *)
Lemma lexToken_switch_name (c : ascii) (p : Parser) :
  utilIsName c = true ->
  lexToken_switch c p = do p <- eatName p; Ok (Break p).
Proof.
  intros Hc. unfold lexToken_switch. cbv zeta beta.
  repeat match goal with
         | |- (if Ascii.eqb c ?x then _ else _) = _ =>
             destruct (Ascii.eqb_spec c x) as [->|_]; [discriminate Hc|]
         end.
  destruct (is_blank c) eqn:Eb.
  { unfold is_blank in Eb.
    repeat match type of Eb with
           | context [Ascii.eqb c ?x] =>
               destruct (Ascii.eqb_spec c x) as [->|_]; [discriminate Hc|]
           end.
    discriminate Eb. }
  repeat match goal with
         | |- (if Ascii.eqb c ?x then _ else _) = _ =>
             destruct (Ascii.eqb_spec c x) as [->|_]; [discriminate Hc|]
         end.
  destruct (utilIsDigit c) eqn:Ed.
  { exfalso. revert Hc Ed. unfold utilIsName, utilIsDigit.
    destruct (Ascii.eqb_spec c "_"%char) as [->|_]; [discriminate|].
    rewrite orb_false_r. intros Hc Hd.
    apply andb_prop in Hd as [_ Hd]. apply Z.leb_le in Hd.
    apply orb_prop in Hc as [Hc|Hc]; apply andb_prop in Hc as [Hc _];
      apply Z.leb_le in Hc; lia. }
  by rewrite Hc.
Qed.

End Identifiers.

(** X23.  At an identifier (a name character, then name characters and
    digits up to a character that is neither, or the end of the input)
    [lexToken] makes a token that starts where the identifier starts and
    has its length; its type is that of the keyword with exactly these
    characters and TK_NAME if there is none, so an identifier that only
    starts like a keyword, or is the start of one, is a name. *)
Theorem lexToken_identifier (P : Platform) (p : Parser) (c : ascii)
    (name rest : list ascii) :
  tk_type (next p) <> TK_EOF ->
  utilIsName c = true ->
  Forall (fun c => name_char c = true) name ->
  match rest with [] => True | c :: _ => name_char c = false end ->
  drop (current_char p) (source p) = c :: name ++ rest ->
  exists p',
    lexToken p = Ok p'
    /\ tk_type (next p') = keyword_or_name (c :: name)
    /\ tk_start (next p') = Some (current_char p)
    /\ tk_length (next p') = Z.of_nat (length (c :: name))
    /\ current_char p' = (current_char p + length (c :: name))%nat
    /\ has_errors p' = has_errors p.
Proof.
  intros Hnext Hc Hname Hrest Hsrc. unfold lexToken.
  set (q := set_tokens p (current p) (next p) (next p)).
  destruct (TokenType_beq (tk_type (current q)) TK_EOF) eqn:E.
  { apply internal_TokenType_dec_bl in E. contradiction. }
  unfold chars_left. cbn [lexToken_loop]. unfold peekChar.
  rewrite (char_at_drop q (current_char q) c _ Hsrc). cbn [res_bind].
  destruct (Ascii.eqb_spec c NUL) as [->|_]; [discriminate Hc|]. cbv zeta.
  set (q1 := set_token_start q (current_char q)).
  replace (eatChar q1)
    with (eatChar (set_position q1 (current_char q1) (current_line q1)))
    by (by rewrite set_position_id).
  rewrite (eatChar_at q1 (current_char q1) (current_line q1) c _ Hsrc). cbn [res_bind].
  rewrite (lexToken_switch_name c _ Hc).
  destruct (Ascii.eqb_spec c NEWLINE) as [->|_]; [discriminate Hc|].
  change (set_position q1 (S (current_char q1)) (current_line q1))
    with (set_position q1 (S (token_start q1)) (current_line q1)).
  rewrite (eatName_identifier q1 c name rest (current_line q1)).
  - cbn [res_bind]. eexists. split; [reflexivity|].
    split; [reflexivity|]. split; [reflexivity|]. split; [|split; reflexivity].
    cbn [setNextToken tk_length next set_next set_tokens token_start current_char
         set_position q1 set_token_start q].
    cbn [length]. lia.
  - apply Forall_cons. split; [|exact Hname]. unfold name_char. by rewrite Hc.
  - exact Hrest.
  - exact Hsrc.
Qed.

Lemma lexToken_identifier_witness :
  exists p',
    lexToken (P := sample_platform)
      (parserInit blank_parser empty_vm source_iffy EmptyString) = Ok p'
    /\ tk_type (next p') = TK_NAME.
Proof.
  destruct (lexToken_identifier sample_platform
              (parserInit blank_parser empty_vm source_iffy EmptyString)
              "i"%char (list_ascii_of_string "ffy") (list_ascii_of_string " = 1"))
    as (p' & H & Ht & _).
  - discriminate.
  - reflexivity.
  - repeat constructor.
  - reflexivity.
  - reflexivity.
  - exists p'. split; [exact H|exact Ht].
Defined.

(** * Number literals *)

Section Numbers.
Context {P : Platform}.

(** A digit is none of the characters the [switch] of [lexToken] takes for
    itself. *)
Lemma lexToken_switch_digit (c : ascii) (p : Parser) :
  utilIsDigit c = true ->
  lexToken_switch c p = do p <- eatNumber p; Ok (Break p).
Proof.
  intros Hc. unfold lexToken_switch. cbv zeta beta.
  repeat match goal with
         | |- (if Ascii.eqb c ?x then _ else _) = _ =>
             destruct (Ascii.eqb_spec c x) as [->|_]; [discriminate Hc|]
         end.
  destruct (is_blank c) eqn:Eb.
  { unfold is_blank in Eb.
    repeat match type of Eb with
           | context [Ascii.eqb c ?x] =>
               destruct (Ascii.eqb_spec c x) as [->|_]; [discriminate Hc|]
           end.
    discriminate Eb. }
  repeat match goal with
         | |- (if Ascii.eqb c ?x then _ else _) = _ =>
             destruct (Ascii.eqb_spec c x) as [->|_]; [discriminate Hc|]
         end.
  by rewrite Hc.
Qed.

Lemma matchChar_at (p : Parser) (n : nat) (line : Z) (c : ascii) (rest : list ascii) :
  c <> NEWLINE ->
  drop n (source p) = c :: rest ->
  matchChar (set_position p n line) c = Ok (true, set_position p (S n) line).
Proof.
  intros Hc Hsrc. unfold matchChar, peekChar.
  change (current_char (set_position p n line)) with n.
  rewrite (char_at_drop (set_position p n line) n c rest Hsrc). cbn [res_bind].
  rewrite Ascii.eqb_refl. cbn [negb].
  rewrite (eatChar_at p n line c rest Hsrc). cbn [res_bind].
  by destruct (Ascii.eqb_spec c NEWLINE).
Qed.

(** [eatNumber] after the first digit, on digits, a dot, digits. *)
Lemma eatNumber_dot (p : Parser) (d : ascii) (ds fs rest : list ascii) (line : Z) :
  let n := token_start p in
  Forall (fun c => utilIsDigit c = true) ds ->
  Forall (fun c => utilIsDigit c = true) fs ->
  match rest with [] => True | c :: _ => utilIsDigit c = false end ->
  drop n (source p) = d :: ds ++ "."%char :: fs ++ rest ->
  eatNumber (set_position p (S n) line)
  = let q := set_position p (n + length (d :: ds ++ "."%char :: fs)) line in
    let (bits, erange) := strtod (drop n (source p)) in
    if erange : bool then
      Ok (setNextValueToken (lexError q "Literal is too large (%.*s)") TK_NUMBER (VAR_NUM 0))
    else Ok (setNextValueToken q TK_NUMBER (VAR_NUM bits)).
Proof.
  intros n Hds Hfs Hrest Hsrc. unfold eatNumber.
  assert (Hlen : length (source p) = (n + length (d :: ds ++ "."%char :: fs ++ rest))%nat).
  { pose proof (f_equal length Hsrc) as H. rewrite length_drop in H.
    cbn [length] in *. lia. }
  cbn [length] in Hlen. rewrite !length_app in Hlen. cbn [length] in Hlen.
  rewrite length_app in Hlen.
  assert (Hd1 : drop (S n) (source p) = ds ++ "."%char :: fs ++ rest).
  { by apply drop_tail in Hsrc. }
  rewrite (eatWhile_run utilIsDigit ds eq_refl eq_refl p (S n) line
             ("."%char :: fs ++ rest)); [|exact Hds|reflexivity|lia|exact Hd1|].
  2:{ unfold chars_left. change (source (set_position p ?a ?b)) with (source p).
      change (current_char (set_position p ?a ?b)) with a. lia. }
  cbn [res_bind].
  assert (Hd2 : drop (S n + length ds) (source p) = "."%char :: fs ++ rest).
  { rewrite <- drop_drop, Hd1, drop_app_length. reflexivity. }
  rewrite (matchChar_at p _ line "."%char _ ltac:(discriminate) Hd2). cbn [res_bind].
  rewrite (eatWhile_run utilIsDigit fs eq_refl eq_refl p _ line rest);
    [|exact Hfs|exact Hrest|lia|by apply drop_tail in Hd2|].
  2:{ unfold chars_left. change (source (set_position p ?a ?b)) with (source p).
      change (current_char (set_position p ?a ?b)) with a. lia. }
  cbn [res_bind]. change (token_start (set_position p ?a ?b)) with n.
  change (source (set_position p ?a ?b)) with (source p). cbv zeta.
  replace (S (S n + length ds) + length fs)%nat
    with (n + length (d :: ds ++ "."%char :: fs))%nat
    by (cbn [length]; rewrite length_app; cbn [length]; lia).
  reflexivity.
Qed.

End Numbers.

(** X24.  A number takes the dot behind its digits, whatever follows: at
    digits, a dot, digits (none, perhaps) [lexToken] makes one NUMBER token
    of all these characters, whose value is what [strtod] reads at its
    start.  So in [1..3] the first token is [1.] and the range operator is
    not seen. *)
Theorem lexToken_number_takes_dot (P : Platform) (p : Parser) (d : ascii)
    (ds fs rest : list ascii) :
  tk_type (next p) <> TK_EOF ->
  utilIsDigit d = true ->
  Forall (fun c => utilIsDigit c = true) ds ->
  Forall (fun c => utilIsDigit c = true) fs ->
  match rest with [] => True | c :: _ => utilIsDigit c = false end ->
  drop (current_char p) (source p) = d :: ds ++ "."%char :: fs ++ rest ->
  exists p',
    lexToken p = Ok p'
    /\ tk_type (next p') = TK_NUMBER
    /\ tk_start (next p') = Some (current_char p)
    /\ tk_length (next p') = Z.of_nat (length (d :: ds ++ "."%char :: fs))
    /\ current_char p' = (current_char p + length (d :: ds ++ "."%char :: fs))%nat
    /\ tk_value (next p')
       = (let (bits, erange) := strtod (drop (current_char p) (source p)) in
          if erange : bool then VAR_NUM 0 else VAR_NUM bits).
Proof.
  intros Hnext Hd Hds Hfs Hrest Hsrc. unfold lexToken.
  set (q := set_tokens p (current p) (next p) (next p)).
  destruct (TokenType_beq (tk_type (current q)) TK_EOF) eqn:E.
  { apply internal_TokenType_dec_bl in E. contradiction. }
  unfold chars_left. cbn [lexToken_loop]. unfold peekChar.
  rewrite (char_at_drop q (current_char q) d _ Hsrc). cbn [res_bind].
  destruct (Ascii.eqb_spec d NUL) as [->|_]; [discriminate Hd|]. cbv zeta.
  set (q1 := set_token_start q (current_char q)).
  replace (eatChar q1)
    with (eatChar (set_position q1 (current_char q1) (current_line q1)))
    by (by rewrite set_position_id).
  rewrite (eatChar_at q1 (current_char q1) (current_line q1) d _ Hsrc). cbn [res_bind].
  rewrite (lexToken_switch_digit d _ Hd).
  destruct (Ascii.eqb_spec d NEWLINE) as [->|_]; [discriminate Hd|].
  change (set_position q1 (S (current_char q1)) (current_line q1))
    with (set_position q1 (S (token_start q1)) (current_line q1)).
  rewrite (eatNumber_dot q1 d ds fs rest (current_line q1) Hds Hfs Hrest Hsrc).
  cbv zeta. change (source q1) with (source p). change (token_start q1) with (current_char p).
  destruct (strtod (drop (current_char p) (source p))) as [bits erange].
  destruct erange; cbn [res_bind]; (eexists; split; [reflexivity|]);
    (split; [reflexivity|]; split; [reflexivity|]; split; [|split; reflexivity]);
    cbn; lia.
Qed.

Lemma lexToken_number_takes_dot_witness :
  exists p',
    lexToken (P := sample_platform)
      (parserInit blank_parser empty_vm source_range EmptyString) = Ok p'
    /\ tk_length (next p') = 2.
Proof.
  destruct (lexToken_number_takes_dot sample_platform
              (parserInit blank_parser empty_vm source_range EmptyString)
              "1"%char [] [] (list_ascii_of_string ".3"))
    as (p' & H & _ & _ & Hl & _).
  - discriminate.
  - reflexivity.
  - constructor.
  - constructor.
  - reflexivity.
  - reflexivity.
  - exists p'. split; [exact H|exact Hl].
Defined.
(** * Constant pools through a compilation *)

Section Pools.
Context {P : Platform}.

Lemma get_script_inv (v : MSVM) (s : addr) (scr : Script) :
  get_script v s = Ok scr <-> exists m, heap v !! s = Some (mkObject m (BScript scr)).
Proof.
  unfold get_script, deref. split.
  - destruct (heap v !! s) as [[m b]|]; cbn; [|discriminate].
    destruct b; try discriminate. intros [= <-]. by exists m.
  - intros [m ->]. reflexivity.
Qed.

Lemma pool_grows_refl (v : MSVM) : pool_grows v v.
Proof.
  intros s scr H. exists scr. split; [exact H|]. split; [|auto].
  exists []. by rewrite app_nil_r.
Qed.

Lemma pool_grows_trans (a b c : MSVM) : pool_grows a b -> pool_grows b c -> pool_grows a c.
Proof.
  intros Hab Hbc s scr H.
  destruct (Hab s scr H) as (scr1 & H1 & [l1 Hl1] & Hp1).
  destruct (Hbc s scr1 H1) as (scr2 & H2 & [l2 Hl2] & Hp2).
  exists scr2. split; [exact H2|]. split; [|auto].
  exists (l1 ++ l2). by rewrite Hl2, Hl1, app_assoc.
Qed.

(** A step that leaves the literals of every script alone. *)
Lemma pool_grows_same_literals (v v' : MSVM) :
  (forall s scr, get_script v s = Ok scr ->
     exists scr', get_script v' s = Ok scr' /\ literals scr' = literals scr) ->
  pool_grows v v'.
Proof.
  intros H s scr Hs. destruct (H s scr Hs) as (scr' & Hs' & Hl).
  exists scr'. split; [exact Hs'|]. unfold pooled. rewrite Hl. split; [|auto].
  exists []. by rewrite app_nil_r.
Qed.

Lemma pool_grows_heap_app (v v' : MSVM) (l : list Object) :
  heap v' = heap v ++ l -> pool_grows v v'.
Proof.
  intros Hh. apply pool_grows_same_literals. intros s scr Hs. exists scr.
  split; [|reflexivity]. apply get_script_inv in Hs as [m Hm]. apply get_script_inv.
  exists m. rewrite Hh. apply lookup_app_l_Some. exact Hm.
Qed.

Lemma pool_grows_allocObject (v : MSVM) (b : ObjectBody) :
  pool_grows v (snd (allocObject b v)).
Proof. by apply (pool_grows_heap_app _ _ [mkObject false b]). Qed.

(** Storing into an object that is no script, or a script with the same
    literals into a script. *)
Lemma pool_grows_storeObject (v : MSVM) (p : addr) (b : ObjectBody) :
  (forall m scr, heap v !! p = Some (mkObject m (BScript scr)) ->
     exists scr', b = BScript scr' /\ literals scr' = literals scr) ->
  pool_grows v (storeObject p b v).
Proof.
  intros Hb. apply pool_grows_same_literals. intros s scr Hs.
  apply get_script_inv in Hs as [m Hm]. unfold storeObject.
  destruct (decide (s = p)) as [->|Hne].
  - destruct (Hb m scr Hm) as (scr' & -> & Hl). exists scr'. split; [|exact Hl].
    apply get_script_inv. exists m. rewrite Hm. cbn [heap is_marked].
    apply list_lookup_insert_eq. eapply lookup_lt_Some; eauto.
  - exists scr. split; [|reflexivity]. apply get_script_inv. exists m.
    destruct (heap v !! p); [|exact Hm]. cbn [heap].
    by rewrite list_lookup_insert_ne.
Qed.

Lemma pool_grows_store_script (v : MSVM) (s : addr) (scr scr' : Script) :
  get_script v s = Ok scr -> literals scr' = literals scr ->
  pool_grows v (storeObject s (BScript scr') v).
Proof.
  intros Hs Hl. apply pool_grows_storeObject. intros m scr0 Hm.
  apply get_script_inv in Hs as [m' Hm']. rewrite Hm' in Hm. injection Hm as _ <-.
  by exists scr'.
Qed.

Lemma pool_grows_store_other (v : MSVM) (p : addr) (b : ObjectBody) :
  get_script v p = UB BadCast \/ heap v !! p = None ->
  pool_grows v (storeObject p b v).
Proof.
  intros H. apply pool_grows_storeObject. intros m scr Hm. exfalso.
  assert (Hs : get_script v p = Ok scr) by (apply get_script_inv; eauto).
  destruct H as [H|H]; congruence.
Qed.

Lemma pool_step_refl (c : Compiler) : pool_step c c.
Proof. split; [reflexivity|apply pool_grows_refl]. Qed.

Lemma pool_step_trans (a b c : Compiler) : pool_step a b -> pool_step b c -> pool_step a c.
Proof.
  intros [H1 H2] [H3 H4]. split; [congruence|]. eapply pool_grows_trans; eauto.
Qed.

(** ** The parser: tokens are read, Strings are allocated *)

Lemma heap_matchLine_loop (fuel : nat) : forall p p',
  matchLine_loop fuel p = Ok p' -> exists l, heap (vm p') = heap (vm p) ++ l.
Proof.
  induction fuel as [|fuel IH]; intros p p'; [discriminate|]. cbn [matchLine_loop].
  destruct (TokenType_beq _ _).
  - destruct (lexToken p) as [p1| |] eqn:E; cbn [res_bind]; try discriminate.
    intros H. apply IH in H as [l2 H2].
    apply lexToken_window in E as (_ & _ & _ & l1 & H1).
    exists (l1 ++ l2). by rewrite H2, H1, app_assoc.
  - intros [= <-]. exists []. by rewrite app_nil_r.
Qed.

Lemma heap_matchLine (p p' : Parser) (m : bool) :
  matchLine p = Ok (m, p') -> exists l, heap (vm p') = heap (vm p) ++ l.
Proof.
  unfold matchLine. destruct (negb _).
  - intros [= _ <-]. exists []. by rewrite app_nil_r.
  - destruct (matchLine_loop _ p) as [p1| |] eqn:E; cbn [res_bind]; try discriminate.
    intros [= _ <-]. eapply heap_matchLine_loop, E.
Qed.

Lemma heap_parseError (p : Parser) (msg : string) : heap (vm (parseError p msg)) = heap (vm p).
Proof. unfold parseError. by destruct (TokenType_beq _ _). Qed.

Lemma heap_match_ (p p' : Parser) (t : TokenType) (m : bool) :
  match_ p t = Ok (m, p') -> exists l, heap (vm p') = heap (vm p) ++ l.
Proof.
  unfold match_. destruct (matchLine p) as [[m1 p1]| |] eqn:E; cbn [res_bind];
    try discriminate.
  apply heap_matchLine in E as [l1 H1]. destruct (negb _).
  - intros [= _ <-]. eauto.
  - destruct (lexToken p1) as [p2| |] eqn:E2; cbn [res_bind]; try discriminate.
    intros [= _ <-]. apply lexToken_window in E2 as (_ & _ & _ & l2 & H2).
    exists (l1 ++ l2). by rewrite H2, H1, app_assoc.
Qed.

Lemma heap_skipNewLines (p p' : Parser) :
  skipNewLines p = Ok p' -> exists l, heap (vm p') = heap (vm p) ++ l.
Proof.
  unfold skipNewLines. destruct (matchLine p) as [[m1 p1]| |] eqn:E; cbn [res_bind];
    try discriminate.
  intros [= <-]. eapply heap_matchLine, E.
Qed.

Lemma heap_lexToken (p p' : Parser) :
  lexToken p = Ok p' -> exists l, heap (vm p') = heap (vm p) ++ l.
Proof. intros H. by apply lexToken_window in H as (_ & _ & _ & H). Qed.

Lemma heap_consume (p p' : Parser) (t : TokenType) (msg : string) :
  consume p t msg = Ok p' -> exists l, heap (vm p') = heap (vm p) ++ l.
Proof.
  unfold consume. destruct (matchLine p) as [[m1 p1]| |] eqn:E; cbn [res_bind];
    try discriminate.
  apply heap_matchLine in E as [l1 H1].
  destruct (lexToken p1) as [p2| |] eqn:E2; cbn [res_bind]; try discriminate.
  apply heap_lexToken in E2 as [l2 H2].
  assert (H12 : heap (vm p2) = heap (vm p) ++ (l1 ++ l2)) by (by rewrite H2, H1, app_assoc).
  destruct (negb _); [|intros Hp; injection Hp as <-; eauto]. cbv zeta.
  destruct (TokenType_beq _ _).
  - intros H. apply heap_lexToken in H as [l3 H3]. rewrite heap_parseError in H3.
    exists ((l1 ++ l2) ++ l3). by rewrite H3, H12, <- !app_assoc.
  - intros [= <-]. rewrite heap_parseError. eauto.
Qed.

Lemma heap_consumeEndStatement (p p' : Parser) :
  consumeEndStatement p = Ok p' -> exists l, heap (vm p') = heap (vm p) ++ l.
Proof.
  unfold consumeEndStatement. intros H.
  assert (H1 : exists m1 p1 l1, (if TokenType_beq (peek p) TK_SEMICOLLON
                  then do (_, p0) <- match_ p TK_SEMICOLLON; Ok (true, p0)
                  else Ok (false, p)) = Ok (m1, p1)
                 /\ heap (vm p1) = heap (vm p) ++ l1).
  { destruct (TokenType_beq (peek p) TK_SEMICOLLON).
    - destruct (match_ p TK_SEMICOLLON) as [[m0 p0]| |] eqn:E; cbn [res_bind] in *;
        try discriminate.
      apply heap_match_ in E as [l E]. by exists true, p0, l.
    - exists false, p, []. by rewrite app_nil_r. }
  destruct H1 as (m1 & p1 & l1 & E1 & H1). rewrite E1 in H. cbn [res_bind] in H.
  destruct (matchLine p1) as [[m2 p2]| |] eqn:E2; cbn [res_bind] in H; try discriminate.
  apply heap_matchLine in E2 as [l2 H2]. cbv zeta in H.
  assert (H12 : heap (vm p2) = heap (vm p) ++ (l1 ++ l2)) by (by rewrite H2, H1, app_assoc).
  destruct (_ && _); injection H as <-; [rewrite heap_parseError|]; eauto.
Qed.

Lemma heap_consumeStartBlock (p p' : Parser) :
  consumeStartBlock p = Ok p' -> exists l, heap (vm p') = heap (vm p) ++ l.
Proof.
  unfold consumeStartBlock. intros H.
  assert (H1 : exists m1 p1 l1, (if TokenType_beq (peek p) TK_DO
                  then do (_, p0) <- match_ p TK_DO; Ok (true, p0)
                  else Ok (false, p)) = Ok (m1, p1)
                 /\ heap (vm p1) = heap (vm p) ++ l1).
  { destruct (TokenType_beq (peek p) TK_DO).
    - destruct (match_ p TK_DO) as [[m0 p0]| |] eqn:E; cbn [res_bind] in *;
        try discriminate.
      apply heap_match_ in E as [l E]. by exists true, p0, l.
    - exists false, p, []. by rewrite app_nil_r. }
  destruct H1 as (m1 & p1 & l1 & E1 & H1). rewrite E1 in H. cbn [res_bind] in H.
  destruct (matchLine p1) as [[m2 p2]| |] eqn:E2; cbn [res_bind] in H; try discriminate.
  apply heap_matchLine in E2 as [l2 H2]. cbv zeta in H.
  assert (H12 : heap (vm p2) = heap (vm p) ++ (l1 ++ l2)) by (by rewrite H2, H1, app_assoc).
  destruct (negb _); injection H as <-; [rewrite heap_parseError|]; eauto.
Qed.

Lemma pool_set_parser (c : Compiler) (p : Parser) :
  (exists l, heap (vm p) = heap (vm (parser c)) ++ l) -> pool_step c (set_parser c p).
Proof. intros [l H]. split; [reflexivity|]. by apply (pool_grows_heap_app _ _ l). Qed.

Lemma pool_match_ (c : Compiler) (t : TokenType) (m : bool) (p : Parser) :
  match_ (parser c) t = Ok (m, p) -> pool_step c (set_parser c p).
Proof. intros H. eapply pool_set_parser, heap_match_, H. Qed.

Lemma pool_parseError (c : Compiler) (msg : string) :
  pool_step c (set_parser c (parseError (parser c) msg)).
Proof. apply pool_set_parser. exists []. by rewrite heap_parseError, app_nil_r. Qed.

Lemma pool_on_parser (c c' : Compiler) (f : Parser -> res Parser) :
  (forall p p', f p = Ok p' -> exists l, heap (vm p') = heap (vm p) ++ l) ->
  on_parser c f = Ok c' -> pool_step c c'.
Proof.
  intros Hf. unfold on_parser.
  destruct (f (parser c)) as [p| |] eqn:E; cbn [res_bind]; try discriminate.
  intros [= <-]. eapply pool_set_parser, Hf, E.
Qed.

(** ** The emitter: the function being compiled is written to *)

Lemma pool_put_fn (c : Compiler) (f : addr) (func : Function) (body body' : Fn) :
  get_fn c = Ok (f, func, body) -> pool_step c (put_fn c f func body').
Proof.
  intros G. destruct (get_fn_inv _ _ _ _ G) as (_ & [m Hh] & _).
  split; [reflexivity|]. unfold put_fn, compiler_vm in *.
  cbn [set_compiler_vm set_parser parser set_vm vm].
  apply pool_grows_storeObject. intros m' scr Hs. congruence.
Qed.

Lemma pool_emitByte (c c' : Compiler) (b i : Z) :
  emitByte c b = Ok (i, c') -> pool_step c c'.
Proof.
  unfold emitByte. destruct (get_fn c) as [[[f func] body]| |] eqn:G; cbn [res_bind];
    try discriminate.
  intros [= _ <-]. eapply pool_put_fn, G.
Qed.

Lemma pool_emitShort (c c' : Compiler) (a i : Z) :
  emitShort c a = Ok (i, c') -> pool_step c c'.
Proof.
  unfold emitShort. intros H.
  destruct (emitByte c _) as [[i1 c1]| |] eqn:E1; cbn [res_bind] in H; try discriminate.
  destruct (emitByte c1 _) as [[i2 c2]| |] eqn:E2; cbn [res_bind] in H; try discriminate.
  injection H as _ <-.
  eapply pool_step_trans; eapply pool_emitByte; eauto.
Qed.

Lemma pool_emitOpcode (c c' : Compiler) (o : Opcode) :
  emitOpcode c o = Ok c' -> pool_step c c'.
Proof.
  unfold emitOpcode. intros H.
  destruct (emitByte c _) as [[i1 c1]| |] eqn:E1; cbn [res_bind] in H; try discriminate.
  apply pool_emitByte in E1.
  destruct (get_fn _) as [[[f func] body]| |] eqn:G; cbn [res_bind] in H; try discriminate.
  destruct (_ >? _); injection H as <-.
  - eapply pool_step_trans; [exact E1|].
    eapply pool_step_trans; [|eapply pool_put_fn, G]. split; [reflexivity|apply pool_grows_refl].
  - destruct E1 as [H1 H2]. split; assumption.
Qed.

Lemma pool_patchJump (c c' : Compiler) (a : Z) :
  patchJump c a = Ok c' -> pool_step c c'.
Proof.
  unfold patchJump. intros H.
  destruct (get_fn c) as [[[f func] body]| |] eqn:G; cbn [res_bind] in H; try discriminate.
  destruct (bufferStore _ _ _); cbn [res_bind] in H; try discriminate.
  destruct (bufferStore _ _ _); cbn [res_bind] in H; try discriminate.
  injection H as <-. eapply pool_put_fn, G.
Qed.

(** ** [compilerAddConstant]: the one place that writes to a pool *)

Lemma find_same_none_not_in (l : list Var) (v : Var) :
  find_same l v 0 = None -> v ∉ l.
Proof.
  intros H Hin. pose proof (find_same_spec l v 0) as Hs. rewrite H in Hs.
  specialize (Hs v Hin). unfold isValuesSame in Hs. by rewrite Var_eqb_refl in Hs.
Qed.

Lemma pool_compilerAddConstant (c c' : Compiler) (v : Var) (i : Z) :
  compilerAddConstant c v = Ok (i, c') -> pool_step c c'.
Proof.
  unfold compilerAddConstant.
  destruct (get_current_script c) as [[s scr]| |] eqn:Hc; cbn [res_bind]; try discriminate.
  destruct (get_current_script_inv _ _ _ Hc) as [Hsc Hg]. cbv zeta.
  destruct (find_same _ v 0) eqn:Hf; [intros [= _ <-]; apply pool_step_refl|].
  destruct (_ <? _) eqn:Hroom; intros [= _ <-]; [|apply pool_parseError].
  split; [reflexivity|]. unfold compiler_vm in *.
  cbn [set_compiler_vm set_parser parser set_vm vm].
  intros s' scr' Hs'. destruct (decide (s' = s)) as [->|Hne].
  - rewrite Hg in Hs'. injection Hs' as <-.
    exists (with_literals scr (bufferWrite (literals scr) v)).
    split; [by apply (get_script_storeObject _ _ scr)|].
    cbn [with_literals literals bufferWrite data]. split; [by exists [v]|].
    intros [Hnd Hle]. split.
    + apply NoDup_app. split; [exact Hnd|]. split; [|apply NoDup_singleton].
      intros x Hx [->|[]%elem_of_nil]%elem_of_cons.
      by apply (find_same_none_not_in _ _ Hf).
    + apply Z.ltb_lt in Hroom. unfold count in *.
      cbn [with_literals literals bufferWrite data]. rewrite length_app. simpl. lia.
  - exists scr'. split; [by apply get_script_storeObject_ne|].
    split; [|auto]. exists []. by rewrite app_nil_r.
Qed.

Lemma pool_for_loop (n : nat) (body : nat -> Compiler -> res Compiler) :
  (forall i a b, body i a = Ok b -> pool_step a b) ->
  forall i c c', for_loop n body i c = Ok c' -> pool_step c c'.
Proof.
  intros Hb. induction n as [|n IH]; intros i c c'; [intros [= <-]; apply pool_step_refl|].
  cbn [for_loop]. destruct (body i c) as [c1| |] eqn:E; cbn [res_bind]; try discriminate.
  intros H. eapply pool_step_trans; eauto.
Qed.

Lemma pool_set_loop (c : Compiler) (l : option Loop) : pool_step c (set_loop c l).
Proof. split; [reflexivity|apply pool_grows_refl]. Qed.

Lemma pool_closeWhile (c c' : Compiler) (ls wp : Z) (outer : option Loop) :
  closeWhile c ls wp outer = Ok c' -> pool_step c c'.
Proof.
  unfold closeWhile. intros H.
  destruct (emitOpcode c OP_JUMP) as [c1| |] eqn:E1; cbn [res_bind] in H; try discriminate.
  destruct (emitShort c1 ls) as [[i2 c2]| |] eqn:E2; cbn [res_bind] in H; try discriminate.
  destruct (patchJump c2 wp) as [c3| |] eqn:E3; cbn [res_bind] in H; try discriminate.
  destruct (loop c3) as [l|]; cbn [of_option res_bind] in H; [|discriminate].
  destruct (for_loop _ _ _ _) as [c4| |] eqn:E4; cbn [res_bind] in H; try discriminate.
  injection H as <-.
  apply pool_emitOpcode in E1. apply pool_emitShort in E2. apply pool_patchJump in E3.
  apply pool_for_loop in E4.
  - eapply pool_step_trans; [exact E1|]. eapply pool_step_trans; [exact E2|].
    eapply pool_step_trans; [exact E3|]. eapply pool_step_trans; [exact E4|].
    apply pool_set_loop.
  - intros i a b Hab. cbv beta in Hab.
    destruct (loop a); cbn [of_option res_bind] in Hab; [|discriminate].
    destruct (_ !! i); cbn [of_option res_bind] in Hab; [|discriminate].
    apply (pool_patchJump _ _ _ Hab).
Qed.

Lemma pool_compilerExitBlock_loop (fuel : nat) : forall c c',
  compilerExitBlock_loop fuel c = Ok c' -> pool_step c c'.
Proof.
  induction fuel as [|fuel IH]; intros c c'; [discriminate|]. cbn [compilerExitBlock_loop].
  destruct (last (variables c)); [|discriminate].
  destruct (_ >=? _); [|intros [= <-]; apply pool_step_refl].
  intros H. apply IH in H. destruct H as [H1 H2]. split; assumption.
Qed.

Lemma pool_compilerExitBlock (c c' : Compiler) :
  compilerExitBlock c = Ok c' -> pool_step c c'.
Proof.
  unfold compilerExitBlock.
  destruct (compilerExitBlock_loop _ c) as [c1| |] eqn:E; cbn [res_bind]; try discriminate.
  intros [= <-]. apply pool_compilerExitBlock_loop in E. destruct E as [H1 H2].
  split; assumption.
Qed.

Lemma vm_parseError (p : Parser) (msg : string) : vm (parseError p msg) = vm p.
Proof. unfold parseError. by destruct (TokenType_beq _ _). Qed.

Lemma grows_match_ (p p' : Parser) (t : TokenType) (m : bool) :
  match_ p t = Ok (m, p') -> pool_grows (vm p) (vm p').
Proof. intros H. apply heap_match_ in H as [l H]. by apply (pool_grows_heap_app _ _ l). Qed.

Lemma pool_step_same (c c' : Compiler) :
  parser c' = parser c -> script c' = script c -> pool_step c c'.
Proof.
  intros Hp Hs. split; [exact Hs|]. unfold compiler_vm. rewrite Hp. apply pool_grows_refl.
Qed.

End Pools.

(** Take the next [do] of a run that returned apart, its result a pair. *)
Ltac run_pair H :=
  match type of H with
  | res_bind ?m _ = Ok _ =>
      let E := fresh "E" in
      destruct m as [[? ?]| |] eqn:E; cbn [res_bind] in H;
      [|discriminate H|discriminate H]
  end.

(** Take the test of a run that returned apart. *)
Ltac run_if H :=
  match type of H with
  | (if ?b then _ else _) = Ok _ => destruct b
  end.

(** What each call that returned has done to the pools. *)
Ltac pool_facts :=
  repeat match goal with
  | H : _ = Ok _ |- _ =>
      first
        [ apply pool_emitByte in H | apply pool_emitShort in H
        | apply pool_emitOpcode in H | apply pool_patchJump in H
        | apply pool_compilerAddConstant in H | apply pool_closeWhile in H
        | apply pool_compilerExitBlock in H | apply grows_match_ in H
        | apply (pool_on_parser _ _ _ heap_lexToken) in H
        | apply (pool_on_parser _ _ _ heap_skipNewLines) in H
        | apply (pool_on_parser _ _ _ heap_consumeStartBlock) in H
        | apply (pool_on_parser _ _ _ heap_consumeEndStatement) in H
        | apply (pool_on_parser _ _ _ (fun p p' => heap_consume p p' _ _)) in H
        | match goal with
          | IH : forall _, _ |- _ =>
              apply IH in H; match type of H with pool_step _ _ => idtac end
          end ]
  end.

(** From the heap a run started on to the one it ended on, call by call. *)
Ltac pool_trans :=
  repeat match goal with
  | H : pool_grows ?a ?b |- pool_grows ?a ?c =>
      first [exact H | apply (pool_grows_trans a b c H); clear H]
  end;
  try apply pool_grows_refl.

Ltac pool_close :=
  pool_facts;
  unfold pool_step, compiler_vm in *;
  cbn [script parser set_parser set_loop set_scope_depth set_function set_stack_size
       set_variables set_compiler_vm compilerEnterBlock vm set_vm] in *;
  rewrite ?vm_parseError in *;
  repeat match goal with H : _ /\ _ |- _ => destruct H end;
  split; [congruence|pool_trans].

Section PoolsOfPrograms.
Context {P : Platform}.

Lemma pool_expression (fuel : nat) :
  (forall c prec c', parsePrecedence fuel c prec = Ok c' -> pool_step c c')
  /\ (forall f c ca c', callGrammarFn fuel f c ca = Ok c' -> pool_step c c')
  /\ (forall c prec ca c', parsePrecedence_while fuel c prec ca = Ok c' -> pool_step c c').
Proof.
  induction fuel as [|fuel (IHp & IHg & IHw)]; [repeat split; discriminate|].
  split; [|split].
  - intros c prec c' H. cbn [parsePrecedence] in H. run_step H.
    destruct (prefix _) as [g|].
    + cbv zeta in H. run_step H. pool_close.
    + injection H as <-. pool_close.
  - intros f c ca c' H. cbn [callGrammarFn] in H.
    destruct f; try (injection H as <-; apply pool_step_refl); cbv zeta in H.
    + run_pair H. run_step H. run_pair H. injection H as <-. pool_close.
    + run_step H. run_step H.
      destruct (binary_opcode _); [|injection H as <-]; pool_close.
    + run_step H. run_step H.
      destruct (unary_opcode _); [|injection H as <-]; pool_close.
    + run_step H. pool_close.
  - intros c prec ca c' H. cbn [parsePrecedence_while] in H.
    destruct (_ >=? prec); [|injection H as <-; apply pool_step_refl].
    run_step H. destruct (infix _) as [g|]; cbn [of_option res_bind] in H; [|discriminate].
    run_step H. pool_close.
Qed.

Lemma pool_compileExpression (fuel : nat) (c c' : Compiler) :
  compileExpression fuel c = Ok c' -> pool_step c c'.
Proof. apply (proj1 (pool_expression fuel)). Qed.

Lemma pool_statements (fuel : nat) :
  (forall c c', compileStatement fuel c = Ok c' -> pool_step c c')
  /\ (forall c b c', compileBlockBody_loop fuel c b = Ok c' -> pool_step c c')
  /\ (forall c b c', compileBlockBody fuel c b = Ok c' -> pool_step c c')
  /\ (forall c c', compileIfStatement fuel c = Ok c' -> pool_step c c')
  /\ (forall c c', compileWhileStatement fuel c = Ok c' -> pool_step c c').
Proof.
  induction fuel as [|fuel (IHs & IHl & IHb & IHi & IHw)]; [repeat split; discriminate|].
  pose proof (pool_compileExpression fuel) as IHe.
  split; [|split; [|split; [|split]]].
  - intros c c' H. cbn [compileStatement] in H.
    run_pair H. cbv zeta in H. run_if H.
    { destruct (loop _); [|injection H as <-; pool_close].
      run_step H. run_pair H.
      destruct (loop _); cbn [of_option res_bind] in H; [|discriminate].
      run_if H; [|discriminate]. injection H as <-. pool_close. }
    run_pair H. cbv zeta in H. run_if H.
    { destruct (loop _); [|injection H as <-; pool_close].
      run_step H. run_pair H. injection H as <-. pool_close. }
    run_pair H. cbv zeta in H. run_if H.
    { run_if H; [injection H as <-; pool_close|].
      run_if H; run_step H; pool_close. }
    run_pair H. cbv zeta in H. run_if H; [pool_close|].
    run_pair H. cbv zeta in H. run_if H; [pool_close|].
    run_pair H. cbv zeta in H. run_if H; [injection H as <-; pool_close|].
    run_step H. pool_close.
  - intros c b c' H. cbn [compileBlockBody_loop] in H.
    run_if H; [injection H as <-; pool_close|]. run_step H. pool_close.
  - intros c b c' H. cbn [compileBlockBody] in H. cbv zeta in H. run_step H. pool_close.
  - intros c c' H. cbn [compileIfStatement] in H.
    run_step H. run_step H. run_pair H. run_step H. run_step H.
    run_pair H. cbv zeta in H. run_if H; [run_step H; pool_close|].
    run_pair H. cbv zeta in H. run_if H; [run_step H; pool_close|]. pool_close.
  - intros c c' H. cbn [compileWhileStatement] in H.
    destruct (get_fn c) as [[[f func] body]| |]; cbn [res_bind] in H; try discriminate.
    cbv zeta in H. run_step H. run_step H. run_pair H. run_step H. pool_close.
Qed.

Lemma pool_compileFunction_params (fuel : nat) :
  forall c c', compileFunction_params fuel c = Ok c' -> pool_step c c'.
Proof.
  induction fuel as [|fuel IH]; intros c c' H; [discriminate|].
  cbn [compileFunction_params] in H.
  run_pair H. cbv zeta in H. run_if H; [|injection H as <-; pool_close].
  destruct (tk_start _); cbn [of_option res_bind] in H; [|discriminate]. cbv zeta in H.
  destruct (negb _); run_pair H; pool_close.
Qed.

(** ** Functions: the script's tables of functions are written to *)

Lemma lookup_storeObject_ne (v : MSVM) (p q : addr) (b : ObjectBody) :
  p <> q -> heap (storeObject p b v) !! q = heap v !! q.
Proof.
  intros Hne. unfold storeObject. destruct (heap v !! p); [|reflexivity]. cbn [heap].
  by apply list_lookup_insert_ne.
Qed.

Lemma heap_nameTableAdd (tbl : Buffer addr) (v : MSVM) (name : list Z) (len : Z)
    (i : Z) (sp : addr) (tbl' : Buffer addr) (v' : MSVM) :
  nameTableAdd tbl v name len = Ok (i, sp, tbl', v') ->
  exists l, heap v' = heap v ++ l.
Proof.
  unfold nameTableAdd.
  destruct (nameTableFind _ _ _ _ _) as [[[i0 sp0]|]| |]; cbn [res_bind]; try discriminate.
  - intros [= _ _ _ <-]. exists []. by rewrite app_nil_r.
  - unfold newString, allocObject. intros [= _ _ _ <-]. cbn [heap]. eauto.
Qed.

Lemma pool_grows_newFunction (v v' : MSVM) (name : list Z) (len : Z) (o : option addr)
    (is_native : bool) (func : addr) :
  newFunction v name len o is_native = Ok (func, v') -> pool_grows v v'.
Proof.
  unfold newFunction.
  destruct (allocObject (BFunc raw_Function) v) as [f v1] eqn:Ha.
  assert (G1 : pool_grows v v1).
  { pose proof (pool_grows_allocObject v (BFunc raw_Function)) as H. by rewrite Ha in H. }
  assert (Hf1 : heap v1 !! f = Some (mkObject false (BFunc raw_Function))).
  { unfold allocObject in Ha. injection Ha as <- <-. cbn [heap].
    by rewrite lookup_app_r, Nat.sub_diag by lia. }
  destruct o as [o|].
  - intros H. run_step H. rename x into scr1.
    assert (Hne : o <> f).
    { intros ->. apply get_script_inv in E as [m Hm]. congruence. }
    pose proof (pool_grows_store_script v1 o scr1
                  (with_functions scr1 (bufferWrite (functions scr1) f)) E eq_refl) as G2.
    set (v2 := storeObject o _ v1) in *.
    assert (Hf2 : heap v2 !! f = Some (mkObject false (BFunc raw_Function)))
      by (unfold v2; by rewrite lookup_storeObject_ne).
    run_step H. rename x into scr2. run_step H. destruct x as [[[i np] names'] v3].
    destruct (heap_nameTableAdd _ _ _ _ _ _ _ _ E1) as [l Hl].
    pose proof (pool_grows_heap_app _ _ _ Hl) as G3.
    assert (Hf3 : heap v3 !! f = Some (mkObject false (BFunc raw_Function)))
      by (rewrite Hl; by apply lookup_app_l_Some).
    run_step H. rename x into scr3.
    pose proof (pool_grows_store_script v3 o scr3 (with_function_names scr3 names')
                  E2 eq_refl) as G4.
    set (v4 := storeObject o _ v3) in *.
    assert (Hf4 : heap v4 !! f = Some (mkObject false (BFunc raw_Function)))
      by (unfold v4; by rewrite lookup_storeObject_ne).
    injection H as <- <-.
    eapply pool_grows_trans; [exact G1|]. eapply pool_grows_trans; [exact G2|].
    eapply pool_grows_trans; [exact G3|]. eapply pool_grows_trans; [exact G4|].
    apply pool_grows_storeObject. intros m scr Hm. congruence.
  - intros [= <- <-]. eapply pool_grows_trans; [exact G1|].
    apply pool_grows_storeObject. intros m scr Hm. congruence.
Qed.

Lemma pool_compileFunction_declare (c c' : Compiler) (n : nat) (len : Z) (nat_ : bool) :
  compileFunction_declare c n len nat_ = Ok c' -> pool_step c c'.
Proof.
  unfold compileFunction_declare. intros H.
  destruct (get_current_script c) as [[s scr]| |] eqn:Hc; cbn [res_bind] in H;
    try discriminate.
  destruct (get_current_script_inv _ _ _ Hc) as [Hsc Hg].
  destruct (nameTableAdd _ _ _ _) as [[[[i np] names'] v1]| |] eqn:Hn; cbn [res_bind] in H;
    try discriminate.
  destruct (heap_nameTableAdd _ _ _ _ _ _ _ _ Hn) as [l Hl].
  pose proof (pool_grows_heap_app _ _ _ Hl) as G1.
  pose proof (get_script_nameTableAdd _ _ _ _ _ s scr Hn Hg) as Hg1. cbn [snd] in Hg1.
  pose proof (pool_grows_store_script v1 s scr (with_function_names scr names')
                Hg1 eq_refl) as G2.
  cbv zeta in H. set (v2 := storeObject s _ v1) in *.
  destruct (get_current_script (set_compiler_vm c v2)) as [[s1 scr1]| |] eqn:Hc1;
    cbn [res_bind] in H; try discriminate.
  destruct (nameTableGet _ _); cbn [res_bind] in H; try discriminate.
  destruct (deref _ _) as [o| |]; cbn [res_bind] in H; try discriminate.
  destruct o; cbn [res_bind] in H; try discriminate.
  destruct (newFunction _ _ _ _ _) as [[func v3]| |] eqn:Hnew; cbn [res_bind] in H;
    try discriminate.
  pose proof (pool_grows_newFunction _ _ _ _ _ _ _ Hnew) as G3.
  unfold compiler_vm in G3. cbn [set_compiler_vm set_parser parser set_vm vm] in G3.
  destruct (get_current_script (set_compiler_vm _ v3)) as [[s2 scr2]| |] eqn:Hc2;
    cbn [res_bind] in H; try discriminate.
  destruct (get_current_script_inv _ _ _ Hc2) as [_ Hg2].
  unfold compiler_vm in Hg2. cbn [set_compiler_vm set_parser parser set_vm vm] in Hg2.
  pose proof (pool_grows_store_script v3 s2 scr2
                (with_functions scr2 (bufferWrite (functions scr2) func)) Hg2 eq_refl) as G4.
  injection H as <-. split; [reflexivity|].
  unfold compiler_vm in *. cbn [set_function set_compiler_vm set_parser parser set_vm vm].
  eapply pool_grows_trans; [exact G1|]. eapply pool_grows_trans; [exact G2|].
  eapply pool_grows_trans; [exact G3|]. exact G4.
Qed.

Lemma pool_compileFunction (fuel : nat) (c c' : Compiler) (is_native : bool) :
  compileFunction fuel c is_native = Ok c' -> pool_step c c'.
Proof.
  unfold compileFunction. intros H.
  pose proof (proj1 (proj2 (proj2 (pool_statements fuel)))) as IHb.
  pose proof (pool_compileFunction_params fuel) as IHp.
  run_step H. destruct (tk_start _); cbn [of_option res_bind] in H; [|discriminate].
  cbv zeta in H. run_step H. apply pool_compileFunction_declare in E0.
  run_step H. run_step H. run_step H. run_step H.
  destruct is_native.
  - injection H as <-. pool_close.
  - run_step H. run_pair H. injection H as <-. pool_close.
Qed.

Lemma pool_compileSource_loop (fuel : nat) : forall c c',
  compileSource_loop fuel c = Ok c' -> pool_step c c'.
Proof.
  induction fuel as [|fuel IH]; intros c c' H; [discriminate|].
  pose proof (proj1 (pool_statements fuel)) as IHs.
  pose proof (pool_compileFunction fuel) as IHf.
  cbn [compileSource_loop] in H.
  run_pair H. cbv zeta in H. run_if H; [injection H as <-; pool_close|].
  run_pair H. cbv zeta in H. run_if H; [run_step H; pool_close|].
  run_pair H. cbv zeta in H. run_if H; [run_step H; pool_close|].
  run_pair H. cbv zeta in H. run_if H; [pool_close|].
  run_step H. pool_close.
Qed.

(** What a step means for the script being compiled. *)
Lemma pool_step_current (c c' : Compiler) (s : addr) (scr : Script) :
  pool_step c c' -> get_current_script c = Ok (s, scr) ->
  exists scr', get_current_script c' = Ok (s, scr')
    /\ (exists l, data (literals scr') = data (literals scr) ++ l)
    /\ (pooled scr -> pooled scr').
Proof.
  intros [Hsc Hg] Hc. destruct (get_current_script_inv _ _ _ Hc) as [Hs Hget].
  destruct (Hg s scr Hget) as (scr' & Hget' & Hl & Hp). exists scr'.
  split; [|split; assumption].
  unfold get_current_script. rewrite Hsc, Hs. cbn [of_option res_bind]. by rewrite Hget'.
Qed.

Lemma filter_same_nil (l : list Var) (v : Var) :
  v ∉ l -> List.filter (fun y => isValuesSame y v) l = [].
Proof.
  induction l as [|y l IH]; [done|]. intros Hn. simpl. unfold isValuesSame at 1.
  destruct (Var_eqb y v) eqn:Hy.
  - apply Var_eqb_eq in Hy as ->. exfalso. apply Hn. by left.
  - apply IH. intros Hin. apply Hn. by right.
Qed.

Lemma count_same_one (l : list Var) (v : Var) :
  NoDup l -> v ∈ l -> count_same l v = 1%nat.
Proof.
  unfold count_same. induction 1 as [|x l Hx Hnd IH]; [by intros ?%elem_of_nil|].
  intros [->|Hin]%elem_of_cons; simpl; unfold isValuesSame at 1.
  - rewrite Var_eqb_refl. simpl. by rewrite (filter_same_nil l x Hx).
  - destruct (Var_eqb x v) eqn:Hy; [|by apply IH].
    apply Var_eqb_eq in Hy as ->. contradiction.
Qed.

Lemma count_same_le_one (l : list Var) (v : Var) :
  NoDup l -> (count_same l v <= 1)%nat.
Proof.
  unfold count_same. induction 1 as [|x l Hx Hnd IH]; [simpl; lia|].
  simpl. unfold isValuesSame at 1. destruct (Var_eqb x v) eqn:Hy; [|exact IH].
  apply Var_eqb_eq in Hy as ->. simpl. by rewrite (filter_same_nil l v Hx).
Qed.

(** A literal that is compiled while the pool has room is in the pool. *)
Lemma exprLiteral_pooled (fuel : nat) (c c1 : Compiler) (ca : bool) (s : addr)
    (scr : Script) :
  get_current_script c = Ok (s, scr) ->
  count (literals scr) < MAX_CONSTANTS ->
  callGrammarFn (S fuel) exprLiteral c ca = Ok c1 ->
  pool_step c c1
  /\ exists scr1, get_current_script c1 = Ok (s, scr1)
       /\ tk_value (previous (parser c)) ∈ data (literals scr1).
Proof.
  intros Hc Hroom H. split; [exact (proj1 (proj2 (pool_expression (S fuel))) _ _ _ _ H)|].
  cbn [callGrammarFn] in H. cbv zeta in H.
  destruct (compilerAddConstant_index c s scr (tk_value (previous (parser c))) Hc Hroom)
    as (c0 & i & scr' & x & Hadd & Hs1 & Hi & Hx & Hsame).
  rewrite Hadd in H. cbn [res_bind] in H. run_step H. run_pair H. injection H as <-.
  exists scr'. split.
  - eapply script_emitShort; [|exact E0]. eapply script_emitOpcode; [|exact E]. exact Hs1.
  - apply Var_eqb_eq in Hsame as <-. eapply list_elem_of_lookup_2, Hx.
Qed.

(** ** String literals: a new object each time *)

Lemma eatString_round_vm (p : Parser) (buff : Buffer Z) r :
  eatString_round p buff = Ok r ->
  match r with Break (p', _) | Continue (p', _) => vm p' = vm p end.
Proof.
  unfold eatString_round, eatChar, peekChar.
  destruct (char_at p (current_char p)) as [c| |]; cbn [res_bind]; try discriminate.
  destruct (Ascii.eqb c DQUOTE); [by intros [= <-]|].
  destruct (Ascii.eqb c NUL); [by intros [= <-]|].
  destruct (Ascii.eqb c "\"%char); [|by intros [= <-]].
  match goal with |- context [char_at ?q ?n] => destruct (char_at q n) as [e| |] end;
    cbn [res_bind]; try discriminate.
  repeat match goal with
         | |- (if ?b then _ else _) = Ok r -> _ => destruct b
         end; by intros [= <-].
Qed.

Lemma eatString_loop_vm (fuel : nat) :
  forall (p : Parser) (buff : Buffer Z) p' buff',
    eatString_loop fuel p buff = Ok (p', buff') -> vm p' = vm p.
Proof.
  induction fuel as [|fuel IH]; intros p buff p' buff' H; [discriminate|].
  cbn [eatString_loop] in H.
  destruct (eatString_round p buff) as [r| |] eqn:Hr; cbn [res_bind] in H; try discriminate.
  apply eatString_round_vm in Hr.
  destruct r as [[q b]|[q b]].
  - injection H as <- <-. exact Hr.
  - apply IH in H. congruence.
Qed.

(** [eatString] makes a String of its own for the literal, whatever the
    text, and the token's value is the reference to it. *)
Lemma eatString_new_object (p p' : Parser) :
  eatString p = Ok p' ->
  tk_type (next p') = TK_STRING
  /\ tk_value (next p') = VAR_OBJ (length (heap (vm p)))
  /\ exists bytes, string_at (heap (vm p')) (length (heap (vm p))) = Some bytes
       /\ exists o, heap (vm p') = heap (vm p) ++ [o].
Proof.
  unfold eatString.
  destruct (eatString_loop _ p bufferInit) as [[q buff]| |] eqn:E; cbn [res_bind];
    try discriminate.
  apply eatString_loop_vm in E. unfold newString, allocObject. rewrite E.
  intros [= <-]. split; [reflexivity|]. split; [reflexivity|].
  cbn [vm set_vm setNextValueToken setNextToken set_next set_tokens heap].
  eexists. split; [|eexists; reflexivity].
  unfold string_at. rewrite lookup_app_r, Nat.sub_diag by lia. reflexivity.
Qed.

(** A reference that is newer than every reference of a pool is the same as
    none of its literals. *)
Lemma find_same_new_object (l : list Var) (a : addr) :
  (forall b, VAR_OBJ b ∈ l -> (b < a)%nat) -> find_same l (VAR_OBJ a) 0 = None.
Proof.
  intros Hold. pose proof (find_same_spec l (VAR_OBJ a) 0) as Hs.
  destruct (find_same l (VAR_OBJ a) 0) as [i|]; [|reflexivity].
  destruct Hs as (_ & x & Hx & Hsame & _). apply Var_eqb_eq in Hsame as ->.
  apply list_elem_of_lookup_2, Hold in Hx. lia.
Qed.

(** ** The whole program *)

Lemma newScript_pooled (v v' : MSVM) (s : addr) :
  newScript v = Ok (s, v') -> exists scr, get_script v' s = Ok scr /\ pooled scr.
Proof.
  unfold newScript.
  destruct (allocObject _ v) as [s0 v0] eqn:Ha.
  assert (H0 : exists scr0, get_script v0 s0 = Ok scr0 /\ pooled scr0).
  { unfold allocObject in Ha. injection Ha as <- <-. eexists. split.
    - apply get_script_inv. exists false. cbn [heap].
      by rewrite lookup_app_r, Nat.sub_diag by lia.
    - split; [apply NoDup_nil_2|]. vm_compute. discriminate. }
  destruct H0 as (scr0 & Hg0 & Hp0). intros H. run_pair H.
  apply pool_grows_newFunction in E. destruct (E s0 scr0 Hg0) as (scr1 & Hg1 & _ & Hp1).
  rewrite Hg1 in H. cbn [res_bind] in H. injection H as <- <-.
  eexists. split; [eapply get_script_storeObject, Hg1|]. exact (Hp1 Hp0).
Qed.

Lemma compileSource_pooled (fuel : nat) (c0 : Compiler) (v : MSVM) (src : list ascii)
    (pth : string) (s : addr) (c' : Compiler) :
  compileSource fuel c0 v src pth = Ok (s, c') ->
  exists scr, get_current_script c' = Ok (s, scr) /\ pooled scr.
Proof.
  unfold compileSource. cbv zeta. intros H. run_pair H.
  destruct (newScript_pooled _ _ _ E) as (scr & Hg & Hp).
  rewrite Hg in H. cbn [res_bind] in H.
  run_step H. run_step H. run_step H. run_step H. injection H as -> ->.
  pose proof (pool_compileSource_loop fuel) as IH.
  match type of E0 with on_parser ?c _ = _ =>
    assert (Hc : get_current_script c = Ok (s, scr)) end.
  { unfold get_current_script, compiler_vm.
    cbn [script set_function set_script set_compiler_vm set_parser parser set_vm vm
         of_option res_bind].
    by rewrite Hg. }
  match type of E0 with on_parser ?c _ = _ => assert (Hstep : pool_step c c') end.
  { pool_close. }
  destruct (pool_step_current _ _ _ _ Hstep Hc) as (scr' & Hc' & _ & Hp').
  exists scr'. split; [exact Hc'|exact (Hp' Hp)].
Qed.

End PoolsOfPrograms.

(** C6, as amended.  With [scr] the script being compiled:
    (1) when a literal of the pool is the same word as [v],
    [compilerAddConstant] returns the index of the first such literal and
    changes nothing; (2) such a literal is found exactly when there is one;
    (3) otherwise, with fewer than MAX_CONSTANTS literals in the pool, it
    appends [v] and returns the new index; (4) otherwise it appends nothing,
    reports the parse error and returns [count - 1]; (5) adding one value any
    number of times to a pool with room leaves the pool as it was or with [v]
    appended, with exactly one entry for a value that was new; (6) the count
    never passes MAX_CONSTANTS; (7) every step of a compilation, from the
    rest of the program down to one emitted byte or one token read, is a
    [pool_step]:
    the script is the same, its pool has only been appended to, and a pool
    with no two literals the same and within MAX_CONSTANTS is still such a
    pool; (8) [pool_step] is reflexive and transitive, and (9) this is what it
    says of the script of [c]; (10) a literal compiled while the pool has room
    has exactly one entry in the pool after that, whatever is compiled next;
    (11) when [compileSource] returns, no two literals of the pool are the
    same and there are at most MAX_CONSTANTS of them; (12) [eatString] makes a
    new String for every string literal, and against a pool whose object
    references are all older [compilerAddConstant] appends the reference. *)
Theorem compilerAddConstant_pools :
  forall (P : Platform) (c : Compiler) (s : addr) (scr : Script) (v : Var),
    get_current_script c = Ok (s, scr) ->
    (forall i, find_same (data (literals scr)) v 0 = Some i ->
       compilerAddConstant c v = Ok (i, c)
       /\ (exists x, data (literals scr) !! Z.to_nat i = Some x
                     /\ isValuesSame x v = true)
       /\ (forall j x', (j < Z.to_nat i)%nat -> data (literals scr) !! j = Some x' ->
                        isValuesSame x' v = false)) /\
    (find_same (data (literals scr)) v 0 = None
     <-> forall x, x ∈ data (literals scr) -> isValuesSame x v = false) /\
    (find_same (data (literals scr)) v 0 = None ->
     count (literals scr) < MAX_CONSTANTS ->
       exists c', compilerAddConstant c v = Ok (count (literals scr), c')
         /\ literals_at (heap (compiler_vm c')) s = Some (data (literals scr) ++ [v])) /\
    (find_same (data (literals scr)) v 0 = None ->
     MAX_CONSTANTS <= count (literals scr) ->
       compilerAddConstant c v
       = Ok (count (literals scr) - 1,
             set_parser c (parseError (parser c)
               "A script should contain at most %d unique constants."))) /\
    (forall n : nat, count (literals scr) < MAX_CONSTANTS ->
       exists c', compilerAddConstant_times (S n) c v = Ok c'
         /\ literals_at (heap (compiler_vm c')) s
            = Some (match find_same (data (literals scr)) v 0 with
                    | Some _ => data (literals scr)
                    | None => data (literals scr) ++ [v]
                    end)
         /\ (find_same (data (literals scr)) v 0 = None ->
             count_same (data (literals scr) ++ [v]) v = 1%nat)) /\
    (count (literals scr) <= MAX_CONSTANTS ->
     forall i c', compilerAddConstant c v = Ok (i, c') ->
       exists l', literals_at (heap (compiler_vm c')) s = Some l'
                  /\ Z.of_nat (length l') <= MAX_CONSTANTS) /\
    (forall (fuel : nat) (c1 c2 : Compiler),
       (compileSource_loop fuel c1 = Ok c2 -> pool_step c1 c2)
       /\ (forall is_native, compileFunction fuel c1 is_native = Ok c2 -> pool_step c1 c2)
       /\ (compileStatement fuel c1 = Ok c2 -> pool_step c1 c2)
       /\ (forall if_body, compileBlockBody fuel c1 if_body = Ok c2 -> pool_step c1 c2)
       /\ (compileIfStatement fuel c1 = Ok c2 -> pool_step c1 c2)
       /\ (compileWhileStatement fuel c1 = Ok c2 -> pool_step c1 c2)
       /\ (forall prec, parsePrecedence fuel c1 prec = Ok c2 -> pool_step c1 c2)
       /\ (forall f ca, callGrammarFn fuel f c1 ca = Ok c2 -> pool_step c1 c2)
       /\ (forall prec ca, parsePrecedence_while fuel c1 prec ca = Ok c2 ->
            pool_step c1 c2)
       /\ (forall w i, compilerAddConstant c1 w = Ok (i, c2) -> pool_step c1 c2)
       /\ (forall o, emitOpcode c1 o = Ok c2 -> pool_step c1 c2)
       /\ (forall b i, emitByte c1 b = Ok (i, c2) -> pool_step c1 c2)
       /\ (forall a i, emitShort c1 a = Ok (i, c2) -> pool_step c1 c2)
       /\ (forall a, patchJump c1 a = Ok c2 -> pool_step c1 c2)
       /\ (forall t m p, match_ (parser c1) t = Ok (m, p) -> pool_step c1 (set_parser c1 p))
       /\ (on_parser c1 lexToken = Ok c2 -> pool_step c1 c2)
       /\ (forall t msg, on_parser c1 (fun p => consume p t msg) = Ok c2 ->
            pool_step c1 c2)) /\
    ((forall a, pool_step a a)
     /\ forall a b d, pool_step a b -> pool_step b d -> pool_step a d) /\
    (forall c', pool_step c c' ->
       exists scr', get_current_script c' = Ok (s, scr')
         /\ (exists l, data (literals scr') = data (literals scr) ++ l)
         /\ (pooled scr -> pooled scr')) /\
    (forall (fuel : nat) (can_assign : bool) (c1 : Compiler),
       callGrammarFn (S fuel) exprLiteral c can_assign = Ok c1 ->
       pooled scr -> count (literals scr) < MAX_CONSTANTS ->
       pool_step c c1
       /\ forall c2, pool_step c1 c2 ->
            exists scr2, get_current_script c2 = Ok (s, scr2)
              /\ count_same (data (literals scr2)) (tk_value (previous (parser c)))
                 = 1%nat) /\
    (forall (fuel : nat) (c0 : Compiler) (v0 : MSVM) (src : list ascii) (pth : string)
            (s' : addr) (c' : Compiler),
       compileSource fuel c0 v0 src pth = Ok (s', c') ->
       exists l, literals_at (heap (compiler_vm c')) s' = Some l
         /\ NoDup l /\ Z.of_nat (length l) <= MAX_CONSTANTS
         /\ forall x, (count_same l x <= 1)%nat) /\
    (forall p p' : Parser,
       eatString p = Ok p' ->
       tk_type (next p') = TK_STRING
       /\ tk_value (next p') = VAR_OBJ (length (heap (vm p)))
       /\ (exists bytes, string_at (heap (vm p')) (length (heap (vm p))) = Some bytes)
       /\ (exists o, heap (vm p') = heap (vm p) ++ [o])
       /\ ((forall b, VAR_OBJ b ∈ data (literals scr) -> (b < length (heap (vm p)))%nat) ->
           count (literals scr) < MAX_CONSTANTS ->
           exists c', compilerAddConstant c (tk_value (next p'))
                      = Ok (count (literals scr), c')
             /\ literals_at (heap (compiler_vm c')) s
                = Some (data (literals scr) ++ [VAR_OBJ (length (heap (vm p)))]))).
Proof.
  intros P c s scr v Hs.
  pose proof (compilerAddConstant_cases c s scr v Hs) as Hc.
  pose proof (find_same_spec (data (literals scr)) v 0) as Hspec.
  pose proof (literals_at_current c s scr Hs) as Hlit.
  assert (Happend : forall w, find_same (data (literals scr)) w 0 = None ->
            count (literals scr) < MAX_CONSTANTS ->
            exists c', compilerAddConstant c w = Ok (count (literals scr), c')
              /\ literals_at (heap (compiler_vm c')) s = Some (data (literals scr) ++ [w])).
  { intros w Hf Hroom. pose proof (compilerAddConstant_cases c s scr w Hs) as Hw.
    rewrite Hf in Hw. apply Z.ltb_lt in Hroom. rewrite Hroom in Hw.
    destruct Hw as (c' & Hw & Hs' & _). exists c'. split; [exact Hw|].
    by rewrite (literals_at_current c' s _ Hs'). }
  repeat apply conj.
  - intros i Hf. rewrite Hf in Hc, Hspec. split; [exact Hc|].
    destruct Hspec as (_ & x & Hx & Hsame & Hfirst). rewrite Z.sub_0_r in Hx, Hfirst.
    split; [eauto|exact Hfirst].
  - intros Hf. by rewrite Hf in Hspec.
  - intros Hnone. destruct (find_same (data (literals scr)) v 0) as [i|]; [|reflexivity].
    destruct Hspec as (_ & x & Hx & Hsame & _).
    apply list_elem_of_lookup_2, Hnone in Hx. congruence.
  - apply Happend.
  - intros Hf Hfull. rewrite Hf in Hc.
    apply Z.ltb_ge in Hfull. by rewrite Hfull in Hc.
  - intros n Hroom. destruct (find_same (data (literals scr)) v 0) as [i|] eqn:Hf.
    + exists c. rewrite (compilerAddConstant_times_found _ c s scr v i Hs Hf).
      repeat split; auto. discriminate.
    + apply Z.ltb_lt in Hroom. rewrite Hroom in Hc.
      destruct Hc as (c' & Hc & Hs' & _). exists c'.
      cbn [compilerAddConstant_times]. rewrite Hc. cbn [res_bind].
      rewrite (compilerAddConstant_times_found n c' s _ v
                 (0 + Z.of_nat (length (data (literals scr)))) Hs').
      * repeat split.
        -- by rewrite (literals_at_current c' s _ Hs').
        -- intros _. by apply count_same_none.
      * cbn [with_literals literals bufferWrite data]. by apply find_same_app_new.
  - intros Hle i c' Hadd. destruct (find_same (data (literals scr)) v 0) as [j|].
    + rewrite Hc in Hadd. injection Hadd as <- <-. exists (data (literals scr)).
      split; [exact Hlit|]. exact Hle.
    + destruct (count (literals scr) <? MAX_CONSTANTS) eqn:Hroom.
      * destruct Hc as (c'' & Hc & Hs' & _). rewrite Hc in Hadd. injection Hadd as <- <-.
        exists (data (literals scr) ++ [v]).
        split; [by rewrite (literals_at_current c'' s _ Hs')|].
        apply Z.ltb_lt in Hroom. unfold count in Hroom. rewrite length_app. simpl. lia.
      * rewrite Hc in Hadd. injection Hadd as <- <-. exists (data (literals scr)).
        split; [|exact Hle].
        apply literals_at_current. unfold get_current_script in *.
        cbn [script set_parser]. unfold compiler_vm in *. cbn [parser set_parser].
        unfold parseError. destruct (TokenType_beq _ _); exact Hs.
  - intros fuel c1 c2.
    destruct (pool_statements fuel) as (Hst & _ & Hbl & Hif & Hwh).
    destruct (pool_expression fuel) as (Hpp & Hcg & Hpw).
    repeat apply conj.
    + apply pool_compileSource_loop.
    + intros b. apply pool_compileFunction.
    + apply Hst.
    + intros b. apply Hbl.
    + apply Hif.
    + apply Hwh.
    + intros prec. apply Hpp.
    + intros f ca. apply Hcg.
    + intros prec ca. apply Hpw.
    + intros w i. apply pool_compilerAddConstant.
    + intros o. apply pool_emitOpcode.
    + intros b i. apply pool_emitByte.
    + intros a i. apply pool_emitShort.
    + intros a. apply pool_patchJump.
    + intros t m p. apply pool_match_.
    + apply (pool_on_parser _ _ _ heap_lexToken).
    + intros t msg. apply (pool_on_parser _ _ _ (fun p p' => heap_consume p p' t msg)).
  - exact pool_step_refl.
  - exact pool_step_trans.
  - intros c' Hstep. exact (pool_step_current _ _ _ _ Hstep Hs).
  - intros fuel ca c1 Hlit1 Hp Hroom.
    destruct (exprLiteral_pooled fuel c c1 ca s scr Hs Hroom Hlit1)
      as (Hstep & scr1 & Hs1 & Hin).
    split; [exact Hstep|]. intros c2 Hstep2.
    destruct (pool_step_current _ _ _ _ Hstep Hs) as (scr1' & Hs1' & _ & Hp1).
    rewrite Hs1 in Hs1'. injection Hs1' as <-.
    destruct (pool_step_current _ _ _ _ Hstep2 Hs1) as (scr2 & Hs2 & [l Hl] & Hp2).
    exists scr2. split; [exact Hs2|]. apply count_same_one.
    + exact (proj1 (Hp2 (Hp1 Hp))).
    + rewrite Hl. apply elem_of_app. by left.
  - intros fuel c0 v0 src pth s' c' Hrun.
    destruct (compileSource_pooled _ _ _ _ _ _ _ Hrun) as (scr' & Hs' & Hnd & Hle).
    exists (data (literals scr')). split; [by apply literals_at_current|].
    split; [exact Hnd|]. split; [exact Hle|]. intros x. by apply count_same_le_one.
  - intros p p' Heat.
    destruct (eatString_new_object p p' Heat) as (Hty & Hval & bytes & Hstr & Hheap).
    split; [exact Hty|]. split; [exact Hval|]. split; [eauto|]. split; [exact Hheap|].
    intros Hold Hroom. rewrite Hval. apply Happend; [|exact Hroom].
    by apply find_same_new_object.
Qed.

Lemma compilerAddConstant_pools_witness :
  compilerAddConstant full_pool_compiler (VAR_NUM 7) = Ok (7, full_pool_compiler)
  /\ exists x, data full_pool !! Z.to_nat 7 = Some x /\ isValuesSame x (VAR_NUM 7) = true.
Proof.
  destruct (compilerAddConstant_pools sample_platform full_pool_compiler 0%nat _
              (VAR_NUM 7) full_pool_current) as (H & _).
  destruct (H 7) as (Hadd & (x & Hx & Hsame) & _).
  - vm_compute. reflexivity.
  - split; [exact Hadd|]. exists x. split; assumption.
Defined.

(** C6, against the claim as it stands.  With the pool full, a value that
    is not in it is not appended and the index that comes back, 65535, is
    that of another literal.  And the same string literal twice in a program
    makes two entries: each occurrence is a String object of its own, and
    [same] compares the references. *)
Lemma compilerAddConstant_counterexample :
  (find_same (data full_pool) (VAR_NUM 65536) 0 = None
   /\ exists c', compilerAddConstant full_pool_compiler (VAR_NUM 65536) = Ok (65535, c')
        /\ literals_at (heap (compiler_vm c')) 0%nat = Some (data full_pool)
        /\ data full_pool !! Z.to_nat 65535 = Some (VAR_NUM 65535)
        /\ has_errors (parser c') = true) /\
  (exists s c',
     compileSource (P := sample_platform) 10 blank_compiler empty_vm program_two_strings
                   EmptyString = Ok (s, c')
     /\ literals_at (heap (compiler_vm c')) s = Some [VAR_OBJ 3%nat; VAR_OBJ 4%nat]
     /\ string_at (heap (compiler_vm c')) 3%nat = Some [97]
     /\ string_at (heap (compiler_vm c')) 4%nat = Some [97]).
Proof.
  split.
  - split; [exact full_pool_has_no_65536|].
    pose proof (compilerAddConstant_cases full_pool_compiler 0%nat _ (VAR_NUM 65536)
                  full_pool_current) as H.
    cbn [literals] in H.
    rewrite full_pool_has_no_65536, full_pool_count, Z.ltb_irrefl in H.
    eexists. split; [|split; [|split]].
    + rewrite H. reflexivity.
    + reflexivity.
    + vm_compute. reflexivity.
    + reflexivity.
  - remember (compileSource _ _ _ _ _) as r eqn:Hr. vm_compute in Hr. subst r.
    eexists _, _. split; [reflexivity|]. repeat split.
Qed.

(** Scenario S4 on the sample platform: the literal [3.14] four times, one
    entry in the pool. *)
Example four_numbers_one_literal :
  exists s c',
    compileSource (P := sample_platform) 10 blank_compiler empty_vm program_four_numbers
                  EmptyString = Ok (s, c')
    /\ literals_at (heap (compiler_vm c')) s = Some [VAR_NUM 4614253070214989086].
Proof.
  remember (compileSource _ _ _ _ _) as r eqn:Hr. vm_compute in Hr. subst r.
  eexists _, _. split; reflexivity.
Qed.

(** * The loop of the claim, at the top level *)

Section WhileAtTopLevel.
Context {P : Platform}.

Lemma compileStatement_while_no_variable (fuel : nat) (c c' : Compiler) :
  variables c = [] -> peek (parser c) = TK_WHILE -> compileStatement fuel c <> Ok c'.
Proof.
  intros Hv Hp H. unfold peek in Hp. destruct fuel as [|fuel]; [discriminate|].
  cbn [compileStatement] in H.
  rewrite (match_other (parser c) TK_BREAK) in H by (rewrite Hp; discriminate).
  cbn [res_bind] in H. cbv zeta in H. cbn [parser set_parser] in H.
  rewrite (match_other (parser c) TK_CONTINUE) in H by (rewrite Hp; discriminate).
  cbn [res_bind] in H. cbn [parser set_parser] in H.
  rewrite (match_other (parser c) TK_RETURN) in H by (rewrite Hp; discriminate).
  cbn [res_bind] in H. cbn [parser set_parser] in H.
  rewrite (match_other (parser c) TK_IF) in H by (rewrite Hp; discriminate).
  cbn [res_bind] in H. cbn [parser set_parser] in H.
  destruct (match_ (parser c) TK_WHILE) as [[m p]| |] eqn:E; cbn [res_bind] in H;
    try discriminate.
  assert (m = true) as ->.
  { revert E. unfold match_, matchLine, peek. rewrite Hp. cbn [TokenType_beq negb res_bind].
    rewrite Hp. cbn [TokenType_beq negb].
    destruct (lexToken (parser c)); cbn [res_bind]; try discriminate. by intros [= <- _]. }
  eapply (proj2 (proj2 (proj2 (proj2 (vars_statements fuel))))); [|exact H].
  exact Hv.
Qed.

Lemma compileSource_loop_while_no_variable (fuel : nat) (c c' : Compiler) :
  variables c = [] -> peek (parser c) = TK_WHILE -> compileSource_loop fuel c <> Ok c'.
Proof.
  intros Hv Hp H. pose proof Hp as Hp'. unfold peek in Hp'.
  destruct fuel as [|fuel]; [discriminate|]. cbn [compileSource_loop] in H.
  rewrite (match_other (parser c) TK_EOF) in H by (rewrite Hp'; discriminate).
  cbn [res_bind] in H. cbv zeta in H. cbn [parser set_parser] in H.
  rewrite (match_other (parser c) TK_NATIVE) in H by (rewrite Hp'; discriminate).
  cbn [res_bind] in H. cbn [parser set_parser] in H.
  rewrite (match_other (parser c) TK_DEF) in H by (rewrite Hp'; discriminate).
  cbn [res_bind] in H. cbn [parser set_parser] in H.
  rewrite (match_other (parser c) TK_IMPORT) in H by (rewrite Hp'; discriminate).
  cbn [res_bind] in H.
  match type of H with
  | res_bind (compileStatement fuel ?c0) _ = _ =>
      destruct (compileStatement fuel c0) as [c1| |] eqn:E; cbn [res_bind] in H;
      try discriminate;
      apply (compileStatement_while_no_variable fuel c0 c1); [exact Hv|exact Hp|exact E]
  end.
Qed.

(** A program whose first token is [while] never compiles: the block of
    the loop ends with no variable in [variables]. *)
Lemma compileSource_first_while (fuel : nat) (c0 : Compiler) (v : MSVM)
    (src : list ascii) (pth : string) (r : addr * Compiler) :
  (forall v1 p1,
     lexToken (set_vm (parserInit (parser c0) v (skip_bom src) pth) v1) = Ok p1 ->
     tk_type (next p1) = TK_WHILE) ->
  compileSource fuel c0 v src pth <> Ok r.
Proof.
  intros Hfirst. unfold compileSource. cbv zeta. intros H.
  destruct (newScript v) as [[s v1]| |] eqn:E0; cbn [res_bind] in H;
    [|discriminate H|discriminate H].
  destruct (get_script v1 s) as [scr| |] eqn:E1; cbn [res_bind] in H;
    [|discriminate H|discriminate H].
  run_step H. run_step H. run_step H. run_step H.
  apply (compileSource_loop_while_no_variable fuel x1 x2); [| |exact E4].
  - apply vars_on_parser in E, E2, E3. rewrite E3, E2, E. reflexivity.
  - unfold on_parser in E, E2, E3.
    cbn [parser set_function set_script set_compiler_vm set_parser compilerInit] in E.
    run_step E. injection E as <-. apply Hfirst in E5.
    cbn [parser set_parser] in E2. run_step E2. injection E2 as <-.
    apply lexToken_window in E as (_ & Hcur & _).
    revert E3. unfold skipNewLines, matchLine, peek. cbn [parser set_parser].
    rewrite Hcur, E5. cbn [TokenType_beq negb res_bind]. intros [= <-].
    cbn [parser set_parser]. by rewrite Hcur.
Qed.

(** The program of the loop never compiles, whatever the opcodes are
    numbered and however long the run may last. *)
Lemma program_while_never_compiles (fuel : nat) (r : addr * Compiler) :
  compileSource fuel blank_compiler empty_vm program_while EmptyString <> Ok r.
Proof.
  apply compileSource_first_while. intros v1 p1 H.
  vm_compute in H. injection H as <-. reflexivity.
Qed.

End WhileAtTopLevel.

(** C4 (code bug).  [while 1 do], [break], [end]: as [compileSource]
    starts it, the compiler reads [variables] below its first entry when the
    body ends, and no Function comes back, whatever the opcodes are numbered
    and however long the run may last.  On the sample platform, with a
    variable of the top level in [variables], the statement compiles, with
    two errors reported: neither [do] nor [end] is consumed, each is taken
    for an expression that is missing and leaves a POP.  The two
    placeholders are one byte each, and the patches, two bytes each, write
    their low byte over those POPs; the operands are 12, the count of the
    bytecode.  On one line, where no POP follows the [break], the low
    byte of its patch goes over the opcode of the closing JUMP. *)
Theorem compileWhileStatement_breaks_layout :
  (forall (P : Platform) (fuel : nat) (r : addr * Compiler),
     compileSource fuel blank_compiler empty_vm program_while EmptyString <> Ok r)
  /\ compileSource (P := sample_platform) 10 blank_compiler empty_vm program_while
                   EmptyString = UB OutOfBounds
  /\ (exists c0 c',
        statement_start program_while = Ok c0
        /\ compileStatement (P := sample_platform) 10 c0 = Ok c'
        /\ code_of c' =
           Ok [op OP_CONSTANT; 0; 0; op OP_JUMP_IF_NOT; 0; 12; op OP_JUMP; 0; 12;
               op OP_JUMP; 0; 0]
        /\ has_errors (parser c') = true
        /\ reported (parser c')
           = [(1, "Expected an expression."%string);
              (3, "Expected an expression."%string)])
  /\ (exists c,
        while_before_close program_while = Ok c
        /\ code_of c =
           Ok [op OP_CONSTANT; 0; 0; op OP_JUMP_IF_NOT; 255; op OP_POP;
               op OP_JUMP; 255; op OP_POP]
        /\ loop c = Some (mkLoop 0 [7] None))
  /\ (exists c0 c',
        statement_start program_while_line = Ok c0
        /\ compileStatement (P := sample_platform) 10 c0 = Ok c'
        /\ code_of c' =
           Ok [op OP_CONSTANT; 0; 0; op OP_JUMP_IF_NOT; 0; 11; op OP_JUMP; 0; 11; 0; 0]).
Proof.
  split; [intros P fuel r; apply program_while_never_compiles|].
  split; [vm_compute; reflexivity|]. split; [|split].
  - remember (statement_start program_while) as r0 eqn:Hr0.
    vm_compute in Hr0. subst r0. eexists _, _. split; [reflexivity|].
    remember (compileStatement _ _) as r eqn:Hr. vm_compute in Hr. subst r.
    split; [reflexivity|]. split; [vm_compute; reflexivity|]. split; reflexivity.
  - remember (while_before_close program_while) as r eqn:Hr. vm_compute in Hr. subst r.
    eexists. split; [reflexivity|]. split; [vm_compute; reflexivity|reflexivity].
  - remember (statement_start program_while_line) as r0 eqn:Hr0.
    vm_compute in Hr0. subst r0. eexists _, _. split; [reflexivity|].
    remember (compileStatement _ _) as r eqn:Hr. vm_compute in Hr. subst r.
    split; [reflexivity|]. vm_compute. reflexivity.
Qed.

